(** * A shallow embedding of the MiniSat-SMS solver core

    The development follows [minisat/core/Solver.cc] and
    [minisat/core/SMSPropagator.cc] function by function.  Solver state is a
    record that is threaded explicitly through every operation; vectors
    ([vec<T>]) are lists read with [vget] and written with stdpp's list
    insert; clause references are indices into the clause arena.

    Conventions.
    - C++ [assert]s are not executable statements of the release build; they
      are recorded as comments and appear as hypotheses of theorems where a
      property depends on them.
    - Reading a vector out of range is undefined in C++; here [vget] returns
      the stated default and a write out of range changes nothing.
    - [double] arithmetic, the wall clock and the SMS checkers are external
      to the solver core and are taken through the [Platform] interface. *)

From Stdlib Require Import ZArith QArith Lia.
From Equations Require Import Equations.
From stdpp Require Import base list option numbers sorting.

Open Scope Z_scope.

(** ** SolverTypes: variables, literals, lifted booleans *)

Abbreviation Var := nat (only parsing).

(** Modelled from the spec: [SolverTypes.h] is absent.  A literal is a
    variable with a sign, encoded as [2*var + sign] ([toInt]); negation
    toggles the sign bit.  [lit_Undef] is rendered as [None : option Lit]
    wherever the source uses it as a sentinel. *)
Record Lit := mkLit { var : Var; sign : bool }.

Definition toInt (p : Lit) : nat := (2 * var p + (if sign p then 1 else 0))%nat.

(** [operator ~] on literals. *)
Definition neg (p : Lit) : Lit := mkLit (var p) (negb (sign p)).

Definition lit_eqb (p q : Lit) : bool :=
  Nat.eqb (var p) (var q) && Bool.eqb (sign p) (sign q).

(** [operator <] on literals compares the encodings. *)
Definition lit_ltb (p q : Lit) : bool := Nat.ltb (toInt p) (toInt q).

(** A value-initialised [Lit] ([T()] in [vec::growTo]) has encoding 0:
    variable 0 with positive sign. *)
Definition lit_default : Lit := mkLit 0%nat false.

Inductive lbool := l_True | l_False | l_Undef.

Definition lbool_eqb (a b : lbool) : bool :=
  match a, b with
  | l_True, l_True | l_False, l_False | l_Undef, l_Undef => true
  | _, _ => false
  end.

(** [lbool(bool)] *)
Definition lbool_of_bool (b : bool) : lbool := if b then l_True else l_False.

(** [operator ^] of [lbool] with a sign. *)
Definition lbool_xor (a : lbool) (b : bool) : lbool :=
  match a with
  | l_True => if b then l_False else l_True
  | l_False => if b then l_True else l_False
  | l_Undef => l_Undef
  end.

Abbreviation CRef := nat (only parsing).

(** Vector read with an explicit default for indices out of range. *)
Definition vget {A} (d : A) (l : list A) (i : nat) : A := default d (l !! i).

(** [vec::last()] *)
Definition vlast {A} (d : A) (l : list A) : A := List.last l d.

(** [vec::shrink(n)]: drop the last [n] elements. *)
Definition shrink {A} (n : nat) (l : list A) : list A := take (length l - n) l.

(** [vec<T>(n)]: a vector of [n] value-initialised elements. *)
Definition vec_sized {A} (d : A) (n : nat) : list A := replicate n d.

(** [vec::growTo(n, pad)] *)
Definition growTo {A} (n : nat) (pad : A) (l : list A) : list A :=
  l ++ replicate (n - length l) pad.

(** [IntMap::insert(k, v)]: grow to hold index [k], then write it. *)
Definition vinsert {A} (d : A) (k : nat) (v : A) (l : list A) : list A :=
  <[k := v]> (growTo (S k) d l).

Record VarData := mkVarData { vd_reason : option CRef; vd_level : Z }.

Record Watcher := mkWatcher { cref : CRef; blocker : Lit }.

(** External literal numbering of the C interface: [±(var+1)]. *)
Definition i2l (i : Z) : Lit := mkLit (Z.to_nat (Z.abs i - 1)) (i <? 0).
Definition l2i (p : Lit) : Z :=
  if sign p then - (Z.of_nat (var p) + 1) else Z.of_nat (var p) + 1.

(** ** SMS propagator data *)

Inductive truth_value_t := truth_value_unknown | truth_value_true | truth_value_false.

Definition adjacency_matrix_t := list (list truth_value_t).
Definition forbidden_graph_t := list (truth_value_t * (nat * nat)).
Definition clause_t := list Z.

(** ** The platform: floating point, clock and the SMS checkers *)

Class Platform := {
  double : Type;
  d_of_Z : Z -> double;                  (* (double) n *)
  d_trunc : double -> Z;                 (* (int) x *)
  d_lit : Q -> double;                   (* a decimal literal *)
  d_add : double -> double -> double;
  d_sub : double -> double -> double;
  d_mul : double -> double -> double;
  d_div : double -> double -> double;
  d_lt : double -> double -> bool;
  d_le : double -> double -> bool;
  d_pow : double -> double -> double;    (* pow(x, y) *)
  drand : double -> double * double;     (* drand(seed): result, new seed *)
  oracle : Type;                         (* state of the checkers and the clock *)
  clock : oracle -> Z * oracle;          (* clock() *)
  CLOCKS_PER_SEC : Z;
  checker_check :
    adjacency_matrix_t -> bool -> oracle -> option forbidden_graph_t * oracle;
  checker010_check :
    adjacency_matrix_t -> Z -> oracle -> option (list clause_t) * oracle;
}.

(** ** Sorting *)

(** Modelled from the spec: [mtl/Sort.h] is absent.  MiniSat's [sort], and
    the C library's [qsort], are driven by a comparison [lt]; they are
    rendered by one insertion sort that consults the same comparison. *)
Fixpoint sort_insert {A} (lt : A -> A -> bool) (x : A) (l : list A) : list A :=
  match l with
  | [] => [x]
  | y :: l' => if lt x y then x :: y :: l' else y :: sort_insert lt x l'
  end.

Definition sort_by {A} (lt : A -> A -> bool) (l : list A) : list A :=
  foldr (sort_insert lt) [] l.

(** [std::sort], which [addClauseDuringSearch] calls with a comparison that
    is not a strict order (an unassigned literal precedes everything, itself
    included).  The standard leaves the order of equivalent elements open;
    this is the insertion sort that libstdc++ runs on a range of at most 16
    elements, its threshold below which no partitioning takes place: every
    element in turn either goes to the front, when it precedes the first
    one, or moves left past the elements it precedes.  Literals of equal
    level therefore keep their input order, and unassigned literals end up
    in front in reverse input order.

    [__unguarded_linear_insert]: [rprefix] is the sorted prefix, last
    element first. *)
Fixpoint unguarded_linear_insert {A} (lt : A -> A -> bool) (val : A) (rprefix : list A)
  : list A :=
  match rprefix with
  | [] => [val]
  | next :: rprefix' =>
      if lt val next then next :: unguarded_linear_insert lt val rprefix'
      else val :: rprefix
  end.

(** One round of [__insertion_sort]. *)
Definition insertion_step {A} (lt : A -> A -> bool) (sorted : list A) (val : A) : list A :=
  match sorted with
  | [] => [val]
  | first :: _ =>
      if lt val first then val :: sorted
      else rev (unguarded_linear_insert lt val (rev sorted))
  end.

Definition std_sort {A} (lt : A -> A -> bool) (l : list A) : list A :=
  foldl (insertion_step lt) [] l.


(** ** Stand-alone helpers of the step-wise interface *)

(** The elements of the range [begin, end) of the array [a]. *)
Definition int_range (a : list Z) (b e : nat) : list Z := take (e - b) (drop b a).

Definition inspect {A : Type} (x : A) : { y : A | x = y } := exist _ x eq_refl.

(** The comparison [compare] handed to [qsort]. *)
Definition compare (int_a int_b : Z) : Z :=
  (if int_a >? int_b then 1 else 0) - (if int_a <? int_b then 1 else 0).

(** [int in(begin, end, val)]: the range [begin, end) of the
    array [a] is given by the two indices [b] and [e]. *)
Equations? in_ (a : list Z) (b e : nat) (val : Z) : Z by wf (e - b)%nat lt :=
  in_ a b e val with inspect (Z.of_nat e - Z.of_nat b <? 1) => {
    | exist _ true _ := 0;
    | exist _ false H1 with inspect (Z.of_nat e - Z.of_nat b =? 1) => {
       | exist _ true _ := if vget 0 a b =? val then 1 else 0;
       | exist _ false H2
           with inspect (vget 0 a (b + (e - b) / 2)%nat <=? val) => {
            | exist _ true _ := in_ a (b + (e - b) / 2)%nat e val;
            | exist _ false _ := in_ a b (b + (e - b) / 2)%nat val } } }.
Proof.
  all: apply Z.ltb_ge in H1; apply Z.eqb_neq in H2.
  all: change (Nat.divmod (e - b) 1 0 1).1 with ((e - b) / 2)%nat.
  all: assert (2 <= e - b)%nat by lia.
  all: pose proof (Nat.div_lt (e - b) 2 ltac:(lia) ltac:(lia)).
  all: assert (1 <= (e - b) / 2)%nat by (apply Nat.div_le_lower_bound; lia).
  all: lia.
Qed.

(** ** The Luby restart sequence

    [luby(y, x)] first finds the finite subsequence containing index [x]
    ([luby_grow]), then walks down to the position of [x] ([luby_shrink]);
    the exponent [seq] is handed to [pow]. *)

Fixpoint luby_grow (fuel : nat) (size seq x : Z) : option (Z * Z) :=
  if size <? x + 1 then
    match fuel with
    | O => None
    | S fuel' => luby_grow fuel' (2 * size + 1) (seq + 1) x
    end
  else Some (size, seq).

Fixpoint luby_shrink (fuel : nat) (size seq x : Z) : option Z :=
  if size - 1 =? x then Some seq
  else
    match fuel with
    | O => None
    | S fuel' =>
        let size' := Z.shiftr (size - 1) 1 in
        luby_shrink fuel' size' (seq - 1) (Z.rem x size')
    end.

(** The exponent computed by [luby] for index [x]; the loops run at most
    [x + 1] times each. *)
Definition luby_seq (x : Z) : option Z :=
  let fuel := S (Z.to_nat x) in
  '(size, seq) ← luby_grow fuel 1 0 x;
  luby_shrink fuel size seq x.

Definition luby `{Platform} (y : double) (x : Z) : option double :=
  seq ← luby_seq x; Some (d_pow y (d_of_Z seq)).

(** The finite subsequences listed in the comment above [luby]:
    block 0 is [1]; block [n+1] is block [n] twice, followed by [2^(n+1)]. *)
Fixpoint luby_block (n : nat) : list Z :=
  match n with
  | O => [1]
  | S n' => luby_block n' ++ luby_block n' ++ [2 ^ Z.of_nat n]
  end.

(** ** Solver state *)

Record SolverConfig := mkSolverConfig {
  vertices : Z;
  edges : list (list Z);              (* 1-based variable number of edge {i,j} *)
  assignmentCutoffPrerunTime : Z;
  assignmentCutoff : Z;
  nextFreeVariable : Z;
}.

Section Embedding.
Context `{Platform}.

(** Modelled from the spec: the clause header of [SolverTypes.h] (absent):
    the literals, the [learnt] flag, the [mark] (0 live, 1 removed), the
    activity of a learnt clause and the forwarding reference set by a
    relocation. *)
Record Clause := mkClause {
  lits : list Lit;
  learnt : bool;
  mark : nat;
  cl_activity : double;
  reloced : option CRef;
}.

Definition clause_default : Clause := mkClause [] false 0%nat (d_of_Z 0) None.

Definition set_lits (v : list Lit) (c : Clause) : Clause :=
  mkClause v (learnt c) (mark c) (cl_activity c) (reloced c).
Definition set_mark (v : nat) (c : Clause) : Clause :=
  mkClause (lits c) (learnt c) v (cl_activity c) (reloced c).
Definition set_cl_activity (v : double) (c : Clause) : Clause :=
  mkClause (lits c) (learnt c) (mark c) v (reloced c).
Definition set_reloced (v : option CRef) (c : Clause) : Clause :=
  mkClause (lits c) (learnt c) (mark c) (cl_activity c) v.

Record Solver := mkSolver {
  (* Parameters (user settable and the rest) *)
  var_decay : double;
  clause_decay : double;
  random_var_freq : double;
  random_seed : double;
  luby_restart : bool;
  ccmin_mode : Z;
  phase_saving : Z;
  rnd_pol : bool;
  rnd_init_act : bool;
  garbage_frac : double;
  min_learnts_lim : Z;
  restart_first : Z;
  restart_inc : double;
  learntsize_factor : double;
  learntsize_inc : double;
  learntsize_adjust_start_confl : Z;
  learntsize_adjust_inc : double;
  (* Statistics *)
  solves : Z;
  starts : Z;
  decisions : Z;
  rnd_decisions : Z;
  propagations : Z;
  conflicts : Z;
  dec_vars : Z;
  num_clauses : Z;
  num_learnts : Z;
  clauses_literals : Z;
  learnts_literals : Z;
  max_literals : Z;
  tot_literals : Z;
  (* Solver state *)
  model : list lbool;
  conflict : list Lit;
  clauses : list CRef;
  learnts : list CRef;
  trail : list Lit;
  trail_lim : list nat;
  assumptions : list Lit;
  activity : list double;
  assigns : list lbool;
  polarity : list bool;
  user_pol : list lbool;
  decision : list bool;
  vardata : list VarData;
  watches : list (list Watcher);
  watches_dirty : list bool;
  order_heap : list Var;
  ok : bool;
  cla_inc : double;
  var_inc : double;
  qhead : nat;
  simpDB_assigns : Z;
  simpDB_props : Z;
  progress_estimate : double;
  remove_satisfied : bool;
  next_var : Var;
  ca : list Clause;
  ca_wasted : nat;
  released_vars : list Var;
  free_vars : list Var;
  seen : list nat;
  analyze_toclear : list Lit;
  max_learnts : double;
  learntsize_adjust_confl : double;
  learntsize_adjust_cnt : Z;
  (* Resource constraints *)
  conflict_budget : Z;
  propagation_budget : Z;
  time_budget : double;
  asynch_interrupt : bool;
  (* SMS and the step-wise interface *)
  sms_config : SolverConfig;
  sms_prop010 : bool;
  sms_oracle : oracle;
  solve_time : double;
  cflr : option CRef;
  literator : Z;
  cflterator : Z;
  lrncls : list Lit;
  btlev : Z;
  tmp_clause : list Lit;
  num_sol : Z;
  solution_store : list (list Lit);
}.

Definition Solver_eta (s : Solver) : Solver :=
  mkSolver (var_decay s) (clause_decay s) (random_var_freq s) (random_seed s)
    (luby_restart s) (ccmin_mode s) (phase_saving s) (rnd_pol s) (rnd_init_act s)
    (garbage_frac s) (min_learnts_lim s) (restart_first s) (restart_inc s)
    (learntsize_factor s) (learntsize_inc s) (learntsize_adjust_start_confl s)
    (learntsize_adjust_inc s) (solves s) (starts s) (decisions s) (rnd_decisions s)
    (propagations s) (conflicts s) (dec_vars s) (num_clauses s) (num_learnts s)
    (clauses_literals s) (learnts_literals s) (max_literals s) (tot_literals s) (model s)
    (conflict s) (clauses s) (learnts s) (trail s) (trail_lim s) (assumptions s) (activity
    s) (assigns s) (polarity s) (user_pol s) (decision s) (vardata s) (watches s)
    (watches_dirty s) (order_heap s) (ok s) (cla_inc s) (var_inc s) (qhead s)
    (simpDB_assigns s) (simpDB_props s) (progress_estimate s) (remove_satisfied s)
    (next_var s) (ca s) (ca_wasted s) (released_vars s) (free_vars s) (seen s)
    (analyze_toclear s) (max_learnts s) (learntsize_adjust_confl s) (learntsize_adjust_cnt
    s) (conflict_budget s) (propagation_budget s) (time_budget s) (asynch_interrupt s)
    (sms_config s) (sms_prop010 s) (sms_oracle s) (solve_time s) (cflr s) (literator s)
    (cflterator s) (lrncls s) (btlev s) (tmp_clause s) (num_sol s) (solution_store s).

(** [mk_set f] builds the function that replaces member [f] and keeps every
    other member. *)
Ltac mk_set proj :=
  let body := eval cbv beta delta [Solver_eta] in (fun s : Solver => Solver_eta s) in
  match eval pattern proj in body with
  | ?F _ =>
      let r := eval cbv beta in (fun v s => F (fun _ : Solver => v) s) in
      exact r
  end.

Definition set_var_decay : double -> Solver -> Solver := ltac:(mk_set var_decay).
Definition set_clause_decay : double -> Solver -> Solver := ltac:(mk_set clause_decay).
Definition set_random_var_freq : double -> Solver -> Solver := ltac:(mk_set random_var_freq).
Definition set_random_seed : double -> Solver -> Solver := ltac:(mk_set random_seed).
Definition set_luby_restart : bool -> Solver -> Solver := ltac:(mk_set luby_restart).
Definition set_ccmin_mode : Z -> Solver -> Solver := ltac:(mk_set ccmin_mode).
Definition set_phase_saving : Z -> Solver -> Solver := ltac:(mk_set phase_saving).
Definition set_rnd_pol : bool -> Solver -> Solver := ltac:(mk_set rnd_pol).
Definition set_rnd_init_act : bool -> Solver -> Solver := ltac:(mk_set rnd_init_act).
Definition set_garbage_frac : double -> Solver -> Solver := ltac:(mk_set garbage_frac).
Definition set_min_learnts_lim : Z -> Solver -> Solver := ltac:(mk_set min_learnts_lim).
Definition set_restart_first : Z -> Solver -> Solver := ltac:(mk_set restart_first).
Definition set_restart_inc : double -> Solver -> Solver := ltac:(mk_set restart_inc).
Definition set_learntsize_factor : double -> Solver -> Solver := ltac:(mk_set learntsize_factor).
Definition set_learntsize_inc : double -> Solver -> Solver := ltac:(mk_set learntsize_inc).
Definition set_learntsize_adjust_start_confl : Z -> Solver -> Solver := ltac:(mk_set learntsize_adjust_start_confl).
Definition set_learntsize_adjust_inc : double -> Solver -> Solver := ltac:(mk_set learntsize_adjust_inc).
Definition set_solves : Z -> Solver -> Solver := ltac:(mk_set solves).
Definition set_starts : Z -> Solver -> Solver := ltac:(mk_set starts).
Definition set_decisions : Z -> Solver -> Solver := ltac:(mk_set decisions).
Definition set_rnd_decisions : Z -> Solver -> Solver := ltac:(mk_set rnd_decisions).
Definition set_propagations : Z -> Solver -> Solver := ltac:(mk_set propagations).
Definition set_conflicts : Z -> Solver -> Solver := ltac:(mk_set conflicts).
Definition set_dec_vars : Z -> Solver -> Solver := ltac:(mk_set dec_vars).
Definition set_num_clauses : Z -> Solver -> Solver := ltac:(mk_set num_clauses).
Definition set_num_learnts : Z -> Solver -> Solver := ltac:(mk_set num_learnts).
Definition set_clauses_literals : Z -> Solver -> Solver := ltac:(mk_set clauses_literals).
Definition set_learnts_literals : Z -> Solver -> Solver := ltac:(mk_set learnts_literals).
Definition set_max_literals : Z -> Solver -> Solver := ltac:(mk_set max_literals).
Definition set_tot_literals : Z -> Solver -> Solver := ltac:(mk_set tot_literals).
Definition set_model : list lbool -> Solver -> Solver := ltac:(mk_set model).
Definition set_conflict : list Lit -> Solver -> Solver := ltac:(mk_set conflict).
Definition set_clauses : list CRef -> Solver -> Solver := ltac:(mk_set clauses).
Definition set_learnts : list CRef -> Solver -> Solver := ltac:(mk_set learnts).
Definition set_trail : list Lit -> Solver -> Solver := ltac:(mk_set trail).
Definition set_trail_lim : list nat -> Solver -> Solver := ltac:(mk_set trail_lim).
Definition set_assumptions : list Lit -> Solver -> Solver := ltac:(mk_set assumptions).
Definition set_activity : list double -> Solver -> Solver := ltac:(mk_set activity).
Definition set_assigns : list lbool -> Solver -> Solver := ltac:(mk_set assigns).
Definition set_polarity : list bool -> Solver -> Solver := ltac:(mk_set polarity).
Definition set_user_pol : list lbool -> Solver -> Solver := ltac:(mk_set user_pol).
Definition set_decision : list bool -> Solver -> Solver := ltac:(mk_set decision).
Definition set_vardata : list VarData -> Solver -> Solver := ltac:(mk_set vardata).
Definition set_watches : list (list Watcher) -> Solver -> Solver := ltac:(mk_set watches).
Definition set_watches_dirty : list bool -> Solver -> Solver := ltac:(mk_set watches_dirty).
Definition set_order_heap : list Var -> Solver -> Solver := ltac:(mk_set order_heap).
Definition set_ok : bool -> Solver -> Solver := ltac:(mk_set ok).
Definition set_cla_inc : double -> Solver -> Solver := ltac:(mk_set cla_inc).
Definition set_var_inc : double -> Solver -> Solver := ltac:(mk_set var_inc).
Definition set_qhead : nat -> Solver -> Solver := ltac:(mk_set qhead).
Definition set_simpDB_assigns : Z -> Solver -> Solver := ltac:(mk_set simpDB_assigns).
Definition set_simpDB_props : Z -> Solver -> Solver := ltac:(mk_set simpDB_props).
Definition set_progress_estimate : double -> Solver -> Solver := ltac:(mk_set progress_estimate).
Definition set_remove_satisfied : bool -> Solver -> Solver := ltac:(mk_set remove_satisfied).
Definition set_next_var : Var -> Solver -> Solver := ltac:(mk_set next_var).
Definition set_ca : list Clause -> Solver -> Solver := ltac:(mk_set ca).
Definition set_ca_wasted : nat -> Solver -> Solver := ltac:(mk_set ca_wasted).
Definition set_released_vars : list Var -> Solver -> Solver := ltac:(mk_set released_vars).
Definition set_free_vars : list Var -> Solver -> Solver := ltac:(mk_set free_vars).
Definition set_seen : list nat -> Solver -> Solver := ltac:(mk_set seen).
Definition set_analyze_toclear : list Lit -> Solver -> Solver := ltac:(mk_set analyze_toclear).
Definition set_max_learnts : double -> Solver -> Solver := ltac:(mk_set max_learnts).
Definition set_learntsize_adjust_confl : double -> Solver -> Solver := ltac:(mk_set learntsize_adjust_confl).
Definition set_learntsize_adjust_cnt : Z -> Solver -> Solver := ltac:(mk_set learntsize_adjust_cnt).
Definition set_conflict_budget : Z -> Solver -> Solver := ltac:(mk_set conflict_budget).
Definition set_propagation_budget : Z -> Solver -> Solver := ltac:(mk_set propagation_budget).
Definition set_time_budget : double -> Solver -> Solver := ltac:(mk_set time_budget).
Definition set_asynch_interrupt : bool -> Solver -> Solver := ltac:(mk_set asynch_interrupt).
Definition set_sms_config : SolverConfig -> Solver -> Solver := ltac:(mk_set sms_config).
Definition set_sms_prop010 : bool -> Solver -> Solver := ltac:(mk_set sms_prop010).
Definition set_sms_oracle : oracle -> Solver -> Solver := ltac:(mk_set sms_oracle).
Definition set_solve_time : double -> Solver -> Solver := ltac:(mk_set solve_time).
Definition set_cflr : option CRef -> Solver -> Solver := ltac:(mk_set cflr).
Definition set_literator : Z -> Solver -> Solver := ltac:(mk_set literator).
Definition set_cflterator : Z -> Solver -> Solver := ltac:(mk_set cflterator).
Definition set_lrncls : list Lit -> Solver -> Solver := ltac:(mk_set lrncls).
Definition set_btlev : Z -> Solver -> Solver := ltac:(mk_set btlev).
Definition set_tmp_clause : list Lit -> Solver -> Solver := ltac:(mk_set tmp_clause).
Definition set_num_sol : Z -> Solver -> Solver := ltac:(mk_set num_sol).
Definition set_solution_store : list (list Lit) -> Solver -> Solver := ltac:(mk_set solution_store).

(** ** Inline members of the solver

    Modelled from the spec: [Solver.h] is absent.  The members below are the
    accessors of the data model of the spec: a variable's assignment, reason
    and decision level, the decision level as the length of [trail_lim], and
    the budget test. *)

Definition vd_default : VarData := mkVarData None 0.

Definition nVars (s : Solver) : nat := next_var s.
Definition nAssigns (s : Solver) : nat := length (trail s).
Definition nClauses (s : Solver) : Z := num_clauses s.
Definition nLearnts (s : Solver) : Z := num_learnts s.

Definition decisionLevel (s : Solver) : nat := length (trail_lim s).

Definition value_var (s : Solver) (x : Var) : lbool := vget l_Undef (assigns s) x.
Definition value (s : Solver) (p : Lit) : lbool := lbool_xor (value_var s (var p)) (sign p).

Definition level (s : Solver) (x : Var) : Z := vd_level (vget vd_default (vardata s) x).
Definition reason (s : Solver) (x : Var) : option CRef :=
  vd_reason (vget vd_default (vardata s) x).

Definition modelValue_var (s : Solver) (x : Var) : lbool := vget l_Undef (model s) x.
Definition modelValue (s : Solver) (p : Lit) : lbool :=
  lbool_xor (modelValue_var s (var p)) (sign p).

(** [trail_lim.push(trail.size())] *)
Definition newDecisionLevel (s : Solver) : Solver :=
  set_trail_lim (trail_lim s ++ [length (trail s)]) s.

Definition withinBudget (s : Solver) : bool :=
  negb (asynch_interrupt s)
  && ((conflict_budget s <? 0) || (conflicts s <? conflict_budget s))
  && ((propagation_budget s <? 0) || (propagations s <? propagation_budget s))
  && (d_lt (time_budget s) (d_of_Z 0) || d_lt (solve_time s) (time_budget s)).

(** *** The clause arena

    Modelled from the spec: [ClauseAllocator] is absent.  The arena is the
    list of allocated clauses and a clause reference is a position in it;
    allocation appends, freeing only counts the wasted 32-bit units. *)

Definition clause_at (s : Solver) (cr : CRef) : Clause := vget clause_default (ca s) cr.

Definition update_clause (cr : CRef) (f : Clause -> Clause) (s : Solver) : Solver :=
  set_ca (alter f cr (ca s)) s.

Definition clauseWord32Size (c : Clause) : nat :=
  (1 + length (lits c) + (if learnt c then 1 else 0))%nat.

Definition ca_size (s : Solver) : nat :=
  foldr (fun c n => (clauseWord32Size c + n)%nat) 0%nat (ca s).

Definition ca_alloc (ps : list Lit) (lrn : bool) (s : Solver) : CRef * Solver :=
  (length (ca s), set_ca (ca s ++ [mkClause ps lrn 0%nat (d_of_Z 0) None]) s).

Definition ca_free (cr : CRef) (s : Solver) : Solver :=
  set_ca_wasted (ca_wasted s + clauseWord32Size (clause_at s cr))%nat s.

Definition isRemoved (s : Solver) (cr : CRef) : bool := Nat.eqb (mark (clause_at s cr)) 1.

(** [c[i]] for a clause or a literal vector *)
Definition lit_at (ps : list Lit) (i : nat) : Lit := vget lit_default ps i.

(** *** Watch lists

    Modelled from the spec: [OccLists] is absent.  One watcher list per
    literal, indexed by the literal's encoding, with a dirty flag per list
    (smudge, then clean on the next [lookup]). *)

Definition watches_of (s : Solver) (p : Lit) : list Watcher := vget [] (watches s) (toInt p).

Definition set_watches_of (p : Lit) (ws : list Watcher) (s : Solver) : Solver :=
  set_watches (<[toInt p := ws]> (watches s)) s.

Definition watches_push (p : Lit) (w : Watcher) (s : Solver) : Solver :=
  set_watches_of p (watches_of s p ++ [w]) s.

Definition watches_init (p : Lit) (s : Solver) : Solver :=
  let s := set_watches (vinsert [] (toInt p) [] (watches s)) s in
  set_watches_dirty (growTo (S (toInt p)) false (watches_dirty s)) s.

Definition smudge (p : Lit) (s : Solver) : Solver :=
  if vget false (watches_dirty s) (toInt p) then s
  else set_watches_dirty (<[toInt p := true]> (watches_dirty s)) s.

(** [WatcherDeleted]: the watcher's clause carries mark 1. *)
Definition watcher_deleted (s : Solver) (w : Watcher) : bool :=
  Nat.eqb (mark (clause_at s (cref w))) 1.

Definition watches_clean_idx (idx : nat) (s : Solver) : Solver :=
  let ws := vget [] (watches s) idx in
  let ws' := List.filter (fun w => negb (watcher_deleted s w)) ws in
  let s := set_watches (<[idx := ws']> (watches s)) s in
  set_watches_dirty (<[idx := false]> (watches_dirty s)) s.

(** [watches.lookup(p)]: clean the list if it is dirty. *)
Definition watches_lookup (p : Lit) (s : Solver) : Solver :=
  if vget false (watches_dirty s) (toInt p) then watches_clean_idx (toInt p) s else s.

Definition watches_cleanAll (s : Solver) : Solver :=
  foldl (fun s idx =>
           if vget false (watches_dirty s) idx then watches_clean_idx idx s else s)
        s (seq 0 (length (watches s))).

(** *** The order heap

    Modelled from the spec: [Heap.h] is absent.  The heap is the list of the
    variables it contains; [removeMin] extracts a variable of maximal
    activity. *)

Definition inHeap (s : Solver) (x : Var) : bool := existsb (Nat.eqb x) (order_heap s).

Fixpoint heap_best (act : Var -> double) (best : Var) (h : list Var) : Var :=
  match h with
  | [] => best
  | x :: h' => if d_lt (act best) (act x) then heap_best act x h' else heap_best act best h'
  end.

Fixpoint remove_first (x : Var) (h : list Var) : list Var :=
  match h with
  | [] => []
  | y :: h' => if Nat.eqb x y then h' else y :: remove_first x h'
  end.

Definition heap_removeMin (s : Solver) : Var * Solver :=
  match order_heap s with
  | [] => (0%nat, s)
  | x :: h =>
      let b := heap_best (fun v => vget (d_of_Z 0) (activity s) v) x h in
      (b, set_order_heap (remove_first b (order_heap s)) s)
  end.

Definition insertVarOrder (x : Var) (s : Solver) : Solver :=
  if negb (inHeap s x) && vget false (decision s) x
  then set_order_heap (order_heap s ++ [x]) s else s.

Definition setDecisionVar (v : Var) (b : bool) (s : Solver) : Solver :=
  let d := vget false (decision s) v in
  let s := if b && negb d then set_dec_vars (dec_vars s + 1) s
           else if negb b && d then set_dec_vars (dec_vars s - 1) s else s in
  let s := set_decision (<[v := b]> (decision s)) s in
  insertVarOrder v s.

(** *** Activities *)

Definition varDecayActivity (s : Solver) : Solver :=
  set_var_inc (d_mul (var_inc s) (d_div (d_of_Z 1) (var_decay s))) s.

Definition claDecayActivity (s : Solver) : Solver :=
  set_cla_inc (d_mul (cla_inc s) (d_div (d_of_Z 1) (clause_decay s))) s.

Definition varBumpActivity (v : Var) (s : Solver) : Solver :=
  let a := d_add (vget (d_of_Z 0) (activity s) v) (var_inc s) in
  let s := set_activity (<[v := a]> (activity s)) s in
  if d_lt (d_lit 1e100) a then
    let s := set_activity (map (fun x => d_mul x (d_lit 1e-100)) (activity s)) s in
    set_var_inc (d_mul (var_inc s) (d_lit 1e-100)) s
  else s.

Definition claBumpActivity (cr : CRef) (s : Solver) : Solver :=
  let a := d_add (cl_activity (clause_at s cr)) (cla_inc s) in
  let s := update_clause cr (set_cl_activity a) s in
  if d_lt (d_lit 1e20) a then
    let s := foldl (fun s cr' =>
                      update_clause cr'
                        (fun c => set_cl_activity (d_mul (cl_activity c) (d_lit 1e-20)) c) s)
                   s (learnts s) in
    set_cla_inc (d_mul (cla_inc s) (d_lit 1e-20)) s
  else s.

(** ** Minor methods *)

(** [locked(c)]: the clause is the reason of its first literal, and that
    literal is true. *)
Definition locked (s : Solver) (cr : CRef) : bool :=
  let c0 := lit_at (lits (clause_at s cr)) 0 in
  lbool_eqb (value s c0) l_True
  && match reason s (var c0) with
     | Some r => Nat.eqb r cr
     | None => false
     end.

Definition attachClause (cr : CRef) (s : Solver) : Solver :=
  let c := clause_at s cr in
  (* assert(c.size() > 1) *)
  let c0 := lit_at (lits c) 0 in
  let c1 := lit_at (lits c) 1 in
  let s := watches_push (neg c0) (mkWatcher cr c1) s in
  let s := watches_push (neg c1) (mkWatcher cr c0) s in
  if learnt c then
    set_learnts_literals (learnts_literals s + Z.of_nat (length (lits c)))
      (set_num_learnts (num_learnts s + 1) s)
  else
    set_clauses_literals (clauses_literals s + Z.of_nat (length (lits c)))
      (set_num_clauses (num_clauses s + 1) s).

(** [remove(ws, Watcher(cr, _))]: watchers are compared by clause reference. *)
Fixpoint remove_watcher (cr : CRef) (ws : list Watcher) : list Watcher :=
  match ws with
  | [] => []
  | w :: ws' => if Nat.eqb (cref w) cr then ws' else w :: remove_watcher cr ws'
  end.

Definition detachClause (cr : CRef) (strict : bool) (s : Solver) : Solver :=
  let c := clause_at s cr in
  (* assert(c.size() > 1) *)
  let c0 := lit_at (lits c) 0 in
  let c1 := lit_at (lits c) 1 in
  let s :=
    if strict then
      let s := set_watches_of (neg c0) (remove_watcher cr (watches_of s (neg c0))) s in
      set_watches_of (neg c1) (remove_watcher cr (watches_of s (neg c1))) s
    else smudge (neg c1) (smudge (neg c0) s) in
  if learnt c then
    set_learnts_literals (learnts_literals s - Z.of_nat (length (lits c)))
      (set_num_learnts (num_learnts s - 1) s)
  else
    set_clauses_literals (clauses_literals s - Z.of_nat (length (lits c)))
      (set_num_clauses (num_clauses s - 1) s).

Definition set_reason (x : Var) (r : option CRef) (s : Solver) : Solver :=
  set_vardata (<[x := mkVarData r (level s x)]> (vardata s)) s.

Definition removeClause (cr : CRef) (s : Solver) : Solver :=
  let s := detachClause cr false s in
  (* Don't leave pointers to free'd memory! *)
  let s := if locked s cr
           then set_reason (var (lit_at (lits (clause_at s cr)) 0)) None s else s in
  let s := update_clause cr (set_mark 1%nat) s in
  ca_free cr s.

Definition satisfied (s : Solver) (c : Clause) : bool :=
  existsb (fun p => lbool_eqb (value s p) l_True) (lits c).

(** Revert to the state at given level (keeping all assignment at [level]
    but not beyond). *)
Definition cancelUntil (lvl : Z) (s : Solver) : Solver :=
  if Z.of_nat (decisionLevel s) >? lvl then
    let s := set_cflr None s in
    let lim := vget 0%nat (trail_lim s) (Z.to_nat lvl) in
    let s :=
      foldl (fun s c =>
               let p := lit_at (trail s) c in
               let x := var p in
               let s := set_assigns (<[x := l_Undef]> (assigns s)) s in
               let s :=
                 if (phase_saving s >? 1)
                    || ((phase_saving s =? 1) && (vlast 0%nat (trail_lim s) <? c)%nat)
                 then set_polarity (<[x := sign p]> (polarity s)) s else s in
               insertVarOrder x s)
            s (rev (seq lim (length (trail s) - lim))) in
    let s := set_qhead lim s in
    let s := set_trail (shrink (length (trail s) - lim) (trail s)) s in
    set_trail_lim (shrink (length (trail_lim s) - Z.to_nat lvl) (trail_lim s)) s
  else s.

Definition uncheckedEnqueue (p : Lit) (from : option CRef) (s : Solver) : Solver :=
  (* assert(value(p) == l_Undef) *)
  let s := set_assigns (<[var p := lbool_of_bool (negb (sign p))]> (assigns s)) s in
  let s := set_vardata
             (<[var p := mkVarData from (Z.of_nat (decisionLevel s))]> (vardata s)) s in
  set_trail (trail s ++ [p]) s.

(** ** Unit propagation *)

(** Look for a new watch: the first position [k >= 2] whose literal is not
    false. *)
Fixpoint find_new_watch (s : Solver) (ps : list Lit) (k : nat) : option nat :=
  match ps with
  | [] => None
  | q :: ps' =>
      if negb (lbool_eqb (value s q) l_False) then Some k
      else find_new_watch s ps' (S k)
  end.

(** The walk over the watcher list [ws] of the enqueued fact [p].  [kept]
    holds, in reverse, the watchers already copied back ([*j++ = ...]); the
    result is the new watcher list of [p], the conflicting clause if one
    was met, and the solver. *)
Fixpoint propagate_watchers (p : Lit) (ws kept : list Watcher) (s : Solver)
  : list Watcher * option CRef * Solver :=
  match ws with
  | [] => (rev kept, None, s)
  | w :: ws' =>
      (* Try to avoid inspecting the clause: *)
      if lbool_eqb (value s (blocker w)) l_True then
        propagate_watchers p ws' (w :: kept) s
      else
        (* Make sure the false literal is data[1]: *)
        let cr := cref w in
        let false_lit := neg p in
        let c := lits (clause_at s cr) in
        let s := if lit_eqb (lit_at c 0) false_lit
                 then update_clause cr
                        (set_lits (<[1%nat := false_lit]> (<[0%nat := lit_at c 1]> c))) s
                 else s in
        (* assert(c[1] == false_lit) *)
        let c := lits (clause_at s cr) in
        (* If 0th watch is true, then clause is already satisfied. *)
        let first := lit_at c 0 in
        let w' := mkWatcher cr first in
        if negb (lit_eqb first (blocker w)) && lbool_eqb (value s first) l_True then
          propagate_watchers p ws' (w' :: kept) s
        else
          (* Look for new watch: *)
          match find_new_watch s (drop 2 c) 2 with
          | Some k =>
              let ck := lit_at c k in
              let s := update_clause cr
                         (set_lits (<[k := false_lit]> (<[1%nat := ck]> c))) s in
              let s := watches_push (neg ck) w' s in
              propagate_watchers p ws' kept s
          | None =>
              (* Did not find watch -- clause is unit under assignment: *)
              if lbool_eqb (value s first) l_False then
                (* Copy the remaining watches: *)
                (rev (w' :: kept) ++ ws', Some cr, set_qhead (length (trail s)) s)
              else
                propagate_watchers p ws' (w' :: kept) (uncheckedEnqueue first (Some cr) s)
          end
  end.

(** The loop [while (qhead < trail.size())]; one unit of [fuel] per
    propagated fact. *)
Fixpoint propagate_loop (fuel : nat) (confl : option CRef) (num_props : Z) (s : Solver)
  : option (option CRef * Z * Solver) :=
  if (qhead s <? length (trail s))%nat then
    match fuel with
    | O => None
    | S fuel' =>
        let p := lit_at (trail s) (qhead s) in
        let s := set_qhead (S (qhead s)) s in
        let s := watches_lookup p s in
        let '(ws', confl', s) := propagate_watchers p (watches_of s p) [] s in
        let s := set_watches_of p ws' s in
        propagate_loop fuel' confl' (num_props + 1) s
    end
  else Some (confl, num_props, s).

Definition propagate (fuel : nat) (s : Solver) : option (option CRef * Solver) :=
  '(confl, num_props, s) ← propagate_loop fuel None 0 s;
  let s := set_propagations (propagations s + num_props) s in
  let s := set_simpDB_props (simpDB_props s - num_props) s in
  Some (confl, s).

(** ** Adding a clause at decision level 0 *)

(** The loop of [addClause_] over the sorted literals: [None] when the
    clause is satisfied or tautological (early [return true]), otherwise the
    literals that are kept. [p] is the last literal kept. *)
Fixpoint addClause_scan (s : Solver) (p : option Lit) (ps kept : list Lit)
  : option (list Lit) :=
  match ps with
  | [] => Some (rev kept)
  | q :: ps' =>
      if lbool_eqb (value s q) l_True
         || match p with Some p => lit_eqb q (neg p) | None => false end
      then None
      else if negb (lbool_eqb (value s q) l_False)
              && negb (match p with Some p => lit_eqb q p | None => false end)
           then addClause_scan s (Some q) ps' (q :: kept)
           else addClause_scan s p ps' kept
  end.

Definition addClause_ (fuel : nat) (ps : list Lit) (s : Solver) : option (bool * Solver) :=
  (* assert(decisionLevel() == 0) *)
  if negb (ok s) then Some (false, s)
  else
    (* Check if clause is satisfied and remove false/duplicate literals: *)
    match addClause_scan s None (sort_by lit_ltb ps) [] with
    | None => Some (true, s)
    | Some [] => Some (false, set_ok false s)
    | Some [p] =>
        let s := uncheckedEnqueue p None s in
        '(confl, s) ← propagate fuel s;
        let r := match confl with None => true | Some _ => false end in
        Some (r, set_ok r s)
    | Some ps =>
        let '(cr, s) := ca_alloc ps false s in
        let s := set_clauses (clauses s ++ [cr]) s in
        Some (true, attachClause cr s)
    end.

(** ** Conflict analysis *)

(** Marks used by [litRedundant]. *)
Definition seen_undef : nat := 0.
Definition seen_source : nat := 1.
Definition seen_removable : nat := 2.
Definition seen_failed : nat := 3.

Definition seen_at (s : Solver) (x : Var) : nat := vget 0%nat (seen s) x.
Definition set_seen_at (x : Var) (v : nat) (s : Solver) : Solver :=
  set_seen (<[x := v]> (seen s)) s.

(** The literals of the reason clause of [p]. *)
Definition reason_lits (s : Solver) (p : Lit) : list Lit :=
  match reason s (var p) with
  | Some cr => lits (clause_at s cr)
  | None => []
  end.

(** Check if [p] can be removed from a conflict clause.  [i] is the position
    in the reason of [p] that is inspected next, [stack] the explicit work
    stack (top first). *)
Fixpoint litRedundant_loop (fuel : nat) (i : nat) (p : Lit) (stack : list (nat * Lit))
    (s : Solver) : option (bool * Solver) :=
  match fuel with
  | O => None
  | S fuel' =>
      let c := reason_lits s p in
      if (i <? length c)%nat then
        (* Checking 'p'-parents 'l': *)
        let l := lit_at c i in
        (* Variable at level 0 or previously removable: *)
        if (level s (var l) =? 0)
           || Nat.eqb (seen_at s (var l)) seen_source
           || Nat.eqb (seen_at s (var l)) seen_removable
        then litRedundant_loop fuel' (S i) p stack s
        (* Check variable can not be removed for some local reason: *)
        else if match reason s (var l) with None => true | Some _ => false end
                || Nat.eqb (seen_at s (var l)) seen_failed
        then
          let stack := (0%nat, p) :: stack in
          let s :=
            foldl (fun s e =>
                     if Nat.eqb (seen_at s (var (snd e))) seen_undef then
                       set_analyze_toclear (analyze_toclear s ++ [snd e])
                         (set_seen_at (var (snd e)) seen_failed s)
                     else s)
                  s (rev stack) in
          Some (false, s)
        else
          (* Recursively check 'l': *)
          litRedundant_loop fuel' 1 l ((i, p) :: stack) s
      else
        (* Finished with current element 'p' and reason 'c': *)
        let s := if Nat.eqb (seen_at s (var p)) seen_undef
                 then set_analyze_toclear (analyze_toclear s ++ [p])
                        (set_seen_at (var p) seen_removable s)
                 else s in
        match stack with
        | [] => Some (true, s)    (* Terminate with success if stack is empty *)
        | (i', p') :: stack' => litRedundant_loop fuel' (S i') p' stack' s
        end
  end.

Definition litRedundant (fuel : nat) (p : Lit) (s : Solver) : option (bool * Solver) :=
  litRedundant_loop fuel 1 p [] s.

(** The [for] loop of [analyze] over the literals [q] of the clause being
    resolved. *)
Definition analyze_lit (acc : Z * list Lit * Solver) (q : Lit) : Z * list Lit * Solver :=
  let '(pathC, out_learnt, s) := acc in
  if Nat.eqb (seen_at s (var q)) 0 && (level s (var q) >? 0) then
    let s := varBumpActivity (var q) s in
    let s := set_seen_at (var q) 1 s in
    if level s (var q) >=? Z.of_nat (decisionLevel s)
    then (pathC + 1, out_learnt, s)
    else (pathC, out_learnt ++ [q], s)
  else acc.

(** [while (!seen[var(trail[index--])]);] with [idx1 = index + 1]: the
    position of the first seen literal at or below [index]; [None] when the
    walk leaves the trail. *)
Fixpoint analyze_scan (s : Solver) (idx1 : nat) : option nat :=
  match idx1 with
  | O => None
  | S k => if Nat.eqb (seen_at s (var (lit_at (trail s) k))) 0
           then analyze_scan s k else Some k
  end.

(** The [do ... while (pathC > 0)] loop.  Every round moves [index] down by
    at least one, so [fuel = trail.size()] rounds are never exceeded. *)
Fixpoint analyze_loop (fuel : nat) (confl : option CRef) (p : option Lit) (idx1 : nat)
    (pathC : Z) (out_learnt : list Lit) (s : Solver) : option (Lit * list Lit * Solver) :=
  match fuel with
  | O => None
  | S fuel' =>
      (* assert(confl != CRef_Undef) -- otherwise should be UIP *)
      cr ← confl;
      let s := if learnt (clause_at s cr) then claBumpActivity cr s else s in
      let c := lits (clause_at s cr) in
      let '(pathC, out_learnt, s) :=
        foldl analyze_lit (pathC, out_learnt, s)
              (match p with None => c | Some _ => drop 1 c end) in
      (* Select next clause to look at: *)
      k ← analyze_scan s idx1;
      let p := lit_at (trail s) k in
      let confl := reason s (var p) in
      let s := set_seen_at (var p) 0 s in
      let pathC := pathC - 1 in
      if pathC >? 0 then analyze_loop fuel' confl (Some p) k pathC out_learnt s
      else Some (p, out_learnt, s)
  end.

(** Simplify conflict clause, [ccmin_mode == 2]. *)
Fixpoint analyze_minimize2 (fuel : nat) (ps kept : list Lit) (s : Solver)
  : option (list Lit * Solver) :=
  match ps with
  | [] => Some (rev kept, s)
  | q :: ps' =>
      match reason s (var q) with
      | None => analyze_minimize2 fuel ps' (q :: kept) s
      | Some _ =>
          match litRedundant fuel q s with
          | None => None
          | Some (true, s) => analyze_minimize2 fuel ps' kept s
          | Some (false, s) => analyze_minimize2 fuel ps' (q :: kept) s
          end
      end
  end.

(** Simplify conflict clause, [ccmin_mode == 1]. *)
Definition analyze_minimize1 (s : Solver) (ps : list Lit) : list Lit :=
  List.filter
    (fun q =>
       match reason s (var q) with
       | None => true
       | Some cr =>
           existsb (fun ck => Nat.eqb (seen_at s (var ck)) 0 && (level s (var ck) >? 0))
                   (drop 1 (lits (clause_at s cr)))
       end) ps.

(** Find the first literal assigned at the next-highest level: the loop
    [for (i = 2; ...)] over [rest = out_learnt[i..]]. *)
Fixpoint find_max_i (s : Solver) (out_learnt : list Lit) (i max_i : nat) (rest : list Lit)
  : nat :=
  match rest with
  | [] => max_i
  | q :: rest' =>
      find_max_i s out_learnt (S i)
        (if level s (var q) >? level s (var (lit_at out_learnt max_i)) then i else max_i)
        rest'
  end.

(** Find correct backtrack level. *)
Definition analyze_btlevel (s : Solver) (out_learnt : list Lit) : list Lit * Z :=
  if Nat.eqb (length out_learnt) 1 then (out_learnt, 0)
  else
    let max_i := find_max_i s out_learnt 2 1 (drop 2 out_learnt) in
    (* Swap-in this literal at index 1: *)
    let p := lit_at out_learnt max_i in
    let out_learnt := <[max_i := lit_at out_learnt 1]> out_learnt in
    let out_learnt := <[1%nat := p]> out_learnt in
    (out_learnt, level s (var p)).

Definition analyze (fuel : nat) (confl : CRef) (s : Solver)
  : option (list Lit * Z * Solver) :=
  (* Generate conflict clause: *)
  '(p, out_learnt, s) ←
     analyze_loop (length (trail s)) (Some confl) None (length (trail s)) 0
                  [lit_default] s;
  let out_learnt := <[0%nat := neg p]> out_learnt in
  (* Simplify conflict clause: *)
  let s := set_analyze_toclear out_learnt s in
  '(out_min, s) ←
     (if ccmin_mode s =? 2 then
        '(kept, s) ← analyze_minimize2 fuel (drop 1 out_learnt) [] s;
        Some (take 1 out_learnt ++ kept, s)
      else if ccmin_mode s =? 1 then
        Some (take 1 out_learnt ++ analyze_minimize1 s (drop 1 out_learnt), s)
      else Some (out_learnt, s));
  let s := set_max_literals (max_literals s + Z.of_nat (length out_learnt)) s in
  let s := set_tot_literals (tot_literals s + Z.of_nat (length out_min)) s in
  (* Find correct backtrack level: *)
  let '(out_final, out_btlevel) := analyze_btlevel s out_min in
  (* ('seen[]' is now cleared) *)
  let s := foldl (fun s q => set_seen_at (var q) 0 s) s (analyze_toclear s) in
  Some (out_final, out_btlevel, s).

(** [LSet::insert]: a set of literals kept in insertion order. *)
Definition lset_insert (p : Lit) (l : list Lit) : list Lit :=
  if existsb (lit_eqb p) l then l else l ++ [p].

(** Specialized analysis procedure to express the final conflict in terms of
    assumptions. *)
Definition analyzeFinal (p : Lit) (s : Solver) : Solver :=
  let s := set_conflict [p] s in
  if Nat.eqb (decisionLevel s) 0 then s
  else
    let s := set_seen_at (var p) 1 s in
    let lim0 := vget 0%nat (trail_lim s) 0 in
    let s :=
      foldl (fun s i =>
               let x := var (lit_at (trail s) i) in
               if negb (Nat.eqb (seen_at s x) 0) then
                 let s :=
                   match reason s x with
                   | None =>
                       (* assert(level(x) > 0) *)
                       set_conflict (lset_insert (neg (lit_at (trail s) i)) (conflict s)) s
                   | Some cr =>
                       foldl (fun s cj => if level s (var cj) >? 0
                                          then set_seen_at (var cj) 1 s else s)
                             s (drop 1 (lits (clause_at s cr)))
                   end in
                 set_seen_at x 0 s
               else s)
            s (rev (seq lim0 (length (trail s) - lim0))) in
    set_seen_at (var p) 0 s.

(** ** Decision heuristic *)

(** The loop [while (next == var_Undef || value(next) != l_Undef ||
    !decision[next])]; every round removes one variable from the heap, so
    [fuel = heap size + 1] rounds are never exceeded. *)
Fixpoint pickBranch_loop (fuel : nat) (next : option Var) (s : Solver)
  : option Var * Solver :=
  match fuel with
  | O => (next, s)
  | S fuel' =>
      if match next with
         | None => true
         | Some x => negb (lbool_eqb (value_var s x) l_Undef) || negb (vget false (decision s) x)
         end
      then
        match order_heap s with
        | [] => (None, s)
        | _ => let '(x, s) := heap_removeMin s in pickBranch_loop fuel' (Some x) s
        end
      else (next, s)
  end.

Definition pickBranchLit (s : Solver) : option Lit * Solver :=
  (* Random decision: *)
  let '(r, seed) := drand (random_seed s) in
  let s := set_random_seed seed s in
  let '(next, s) :=
    if d_lt r (random_var_freq s) && negb (Nat.eqb (length (order_heap s)) 0) then
      let '(r, seed) := drand (random_seed s) in
      let s := set_random_seed seed s in
      let idx := Z.to_nat (d_trunc (d_mul r (d_of_Z (Z.of_nat (length (order_heap s)))))) in
      let next := vget 0%nat (order_heap s) idx in
      let s := if lbool_eqb (value_var s next) l_Undef && vget false (decision s) next
               then set_rnd_decisions (rnd_decisions s + 1) s else s in
      (Some next, s)
    else (None, s) in
  (* Activity based decision: *)
  let '(next, s) := pickBranch_loop (S (length (order_heap s))) next s in
  (* Choose polarity based on different polarity modes (global or per-variable): *)
  match next with
  | None => (None, s)
  | Some x =>
      if negb (lbool_eqb (vget l_Undef (user_pol s) x) l_Undef) then
        (Some (mkLit x (lbool_eqb (vget l_Undef (user_pol s) x) l_True)), s)
      else if rnd_pol s then
        let '(r, seed) := drand (random_seed s) in
        (Some (mkLit x (d_lt r (d_lit 0.5))), set_random_seed seed s)
      else (Some (mkLit x (vget false (polarity s) x)), s)
  end.

(** ** Garbage collection *)

(** Modelled from the spec: [ClauseAllocator::reloc] is absent.  A live
    clause is copied into the fresh arena [to] once; the old copy keeps the
    forwarding reference. *)
Definition reloc (cr : CRef) (to : list Clause) (s : Solver) : CRef * list Clause * Solver :=
  let c := clause_at s cr in
  match reloced c with
  | Some cr' => (cr', to, s)
  | None =>
      let cr' := length to in
      (cr', to ++ [c], update_clause cr (set_reloced (Some cr')) s)
  end.

Definition reloc_watchers (idx : nat) (acc : list Clause * Solver) : list Clause * Solver :=
  let '(to, s) := acc in
  let '(ws', to, s) :=
    foldl (fun a w =>
             let '(ws', to, s) := a in
             let '(cr', to, s) := reloc (cref w) to s in
             (ws' ++ [mkWatcher cr' (blocker w)], to, s))
          ([], to, s) (vget [] (watches s) idx) in
  (to, set_watches (<[idx := ws']> (watches s)) s).

Definition reloc_list (cs : list CRef) (to : list Clause) (s : Solver)
  : list CRef * list Clause * Solver :=
  foldl (fun a cr =>
           let '(cs', to, s) := a in
           if isRemoved s cr then a
           else let '(cr', to, s) := reloc cr to s in (cs' ++ [cr'], to, s))
        ([], to, s) cs.

Definition relocAll (to : list Clause) (s : Solver) : list Clause * Solver :=
  (* All watchers: *)
  let s := watches_cleanAll s in
  let '(to, s) :=
    foldl (fun a v => reloc_watchers (toInt (mkLit v true))
                        (reloc_watchers (toInt (mkLit v false)) a))
          (to, s) (seq 0 (nVars s)) in
  (* All reasons: *)
  let '(to, s) :=
    foldl (fun a p =>
             let '(to, s) := a in
             let v := var p in
             match reason s v with
             | Some r =>
                 if match reloced (clause_at s r) with Some _ => true | None => false end
                    || locked s r
                 then let '(r', to, s) := reloc r to s in (to, set_reason v (Some r') s)
                 else a
             | None => a
             end)
          (to, s) (trail s) in
  (* All learnt: *)
  let '(ls, to, s) := reloc_list (learnts s) to s in
  let s := set_learnts ls s in
  (* All original: *)
  let '(cs, to, s) := reloc_list (clauses s) to s in
  (to, set_clauses cs s).

Definition garbageCollect (s : Solver) : Solver :=
  let '(to, s) := relocAll [] s in
  set_ca_wasted 0%nat (set_ca to s).

Definition checkGarbage (s : Solver) : Solver :=
  if d_lt (d_mul (d_of_Z (Z.of_nat (ca_size s))) (garbage_frac s))
          (d_of_Z (Z.of_nat (ca_wasted s)))
  then garbageCollect s else s.

(** ** Clause database reduction *)

Definition reduceDB_lt (s : Solver) (x y : CRef) : bool :=
  (2 <? length (lits (clause_at s x)))%nat
  && (Nat.eqb (length (lits (clause_at s y))) 2
      || d_lt (cl_activity (clause_at s x)) (cl_activity (clause_at s y))).

(** The sweep over the sorted learnt clauses: [n] is [learnts.size()], [i]
    the position of the head of [ls], [kept] the clauses written back. *)
Fixpoint reduceDB_loop (extra_lim : double) (n i : nat) (ls kept : list CRef) (s : Solver)
  : list CRef * Solver :=
  match ls with
  | [] => (rev kept, s)
  | cr :: ls' =>
      let c := clause_at s cr in
      if (2 <? length (lits c))%nat && negb (locked s cr)
         && ((i <? n / 2)%nat || d_lt (cl_activity c) extra_lim)
      then reduceDB_loop extra_lim n (S i) ls' kept (removeClause cr s)
      else reduceDB_loop extra_lim n (S i) ls' (cr :: kept) s
  end.

(** [reduceDB] up to, and not including, the final [checkGarbage]. *)
Definition reduceDB_sweep (s : Solver) : Solver :=
  (* Remove any clause below this activity *)
  let extra_lim := d_div (cla_inc s) (d_of_Z (Z.of_nat (length (learnts s)))) in
  let s := set_learnts (sort_by (reduceDB_lt s) (learnts s)) s in
  (* Don't delete binary or locked clauses. From the rest, delete clauses from
     the first half and clauses with activity smaller than 'extra_lim': *)
  let '(kept, s) := reduceDB_loop extra_lim (length (learnts s)) 0 (learnts s) [] s in
  set_learnts kept s.

Definition reduceDB (s : Solver) : Solver := checkGarbage (reduceDB_sweep s).

(** ** Simplification at level 0 *)

(** Trim clause: [for (k = 2; k < c.size(); k++) if (value(c[k]) == l_False)
    { c[k--] = c[c.size()-1]; c.pop(); }].  Every round either pops a literal
    or advances [k]. *)
Fixpoint trim_loop (fuel : nat) (s : Solver) (k : nat) (c : list Lit) : list Lit :=
  match fuel with
  | O => c
  | S fuel' =>
      if (k <? length c)%nat then
        if lbool_eqb (value s (lit_at c k)) l_False
        then trim_loop fuel' s k
               (shrink 1 (<[k := lit_at c (length c - 1)]> c))
        else trim_loop fuel' s (S k) c
      else c
  end.

Fixpoint removeSatisfied_loop (cs kept : list CRef) (s : Solver) : list CRef * Solver :=
  match cs with
  | [] => (rev kept, s)
  | cr :: cs' =>
      let c := clause_at s cr in
      if satisfied s c then removeSatisfied_loop cs' kept (removeClause cr s)
      else
        (* assert(value(c[0]) == l_Undef && value(c[1]) == l_Undef) *)
        let s := update_clause cr (set_lits (trim_loop (length (lits c)) s 2 (lits c))) s in
        removeSatisfied_loop cs' (cr :: kept) s
  end.

Definition rebuildOrderHeap (s : Solver) : Solver :=
  set_order_heap
    (List.filter (fun v => vget false (decision s) v && lbool_eqb (value_var s v) l_Undef)
                 (seq 0 (nVars s))) s.

(** Remove all released variables from the trail. *)
Definition remove_released (s : Solver) : Solver :=
  let s := foldl (fun s x => set_seen_at x 1 s) s (released_vars s) in
  let s := set_trail (List.filter (fun p => Nat.eqb (seen_at s (var p)) 0) (trail s)) s in
  let s := set_qhead (length (trail s)) s in
  let s := foldl (fun s x => set_seen_at x 0 s) s (released_vars s) in
  (* Released variables are now ready to be reused: *)
  let s := set_free_vars (free_vars s ++ released_vars s) s in
  set_released_vars [] s.

Definition simplify (fuel : nat) (s : Solver) : option (bool * Solver) :=
  (* assert(decisionLevel() == 0) *)
  if negb (ok s) then Some (false, set_ok false s)
  else
    '(confl, s) ← propagate fuel s;
    match confl with
    | Some _ => Some (false, set_ok false s)
    | None =>
        if (Z.of_nat (nAssigns s) =? simpDB_assigns s) || (simpDB_props s >? 0)
        then Some (true, s)
        else
          (* Remove satisfied clauses: *)
          let '(ls, s) := removeSatisfied_loop (learnts s) [] s in
          let s := set_learnts ls s in
          let s :=
            if remove_satisfied s then
              let '(cs, s) := removeSatisfied_loop (clauses s) [] s in
              let s := set_clauses cs s in
              remove_released s
            else s in
          let s := checkGarbage s in
          let s := rebuildOrderHeap s in
          let s := set_simpDB_assigns (Z.of_nat (nAssigns s)) s in
          let s := set_simpDB_props (clauses_literals s + learnts_literals s) s in
          Some (true, s)
    end.

(** ** Dynamic clause ingestion *)

(** The comparison handed to [std::sort] by [addClauseDuringSearch]. *)
Definition addClause_cmp (s : Solver) (la lb : Lit) : bool :=
  if lbool_eqb (value s la) l_Undef then true
  else if lbool_eqb (value s lb) l_Undef then false
  else level s (var la) >? level s (var lb).

(** [while (num_unassigned < clause.size() && value(clause[num_unassigned])
    == l_Undef) num_unassigned++;] *)
Fixpoint count_unassigned (s : Solver) (ps : list Lit) : nat :=
  match ps with
  | [] => 0%nat
  | q :: ps' => if lbool_eqb (value s q) l_Undef then S (count_unassigned s ps') else 0%nat
  end.

(** The number of leading literals of [ps] at level [dl]. *)
Fixpoint count_level (s : Solver) (dl : Z) (ps : list Lit) : nat :=
  match ps with
  | [] => 0%nat
  | q :: ps' => if level s (var q) =? dl then S (count_level s dl ps') else 0%nat
  end.

(** Install the outcome of conflict analysis: the shared tail of [search],
    [addClauseDuringSearch] and [learn_clause]. *)
Definition install_learnt (learnt_clause : list Lit) (s : Solver) : Solver :=
  if Nat.eqb (length learnt_clause) 1 then
    uncheckedEnqueue (lit_at learnt_clause 0) None s
  else
    let '(cr, s) := ca_alloc learnt_clause true s in
    let s := set_learnts (learnts s ++ [cr]) s in
    let s := attachClause cr s in
    let s := claBumpActivity cr s in
    uncheckedEnqueue (lit_at learnt_clause 0) (Some cr) s.

(** Allocate the ingested clause as an original clause, optionally bump its
    variables, and attach it. *)
Definition install_original (bump : bool) (clause : list Lit) (s : Solver) : CRef * Solver :=
  let '(cr, s) := ca_alloc clause false s in
  let s := if bump then foldl (fun s q => varBumpActivity (var q) s) s clause else s in
  let s := set_clauses (clauses s ++ [cr]) s in
  (cr, attachClause cr s).

(** returns false if clause violated at decision level 0 *)
Definition addClauseDuringSearch (fuel : nat) (clause : list Lit) (s : Solver)
  : option (bool * Solver) :=
  if Nat.eqb (length clause) 0 then Some (false, s)
  else
    let clause := std_sort (addClause_cmp s) clause in
    let num_unassigned := count_unassigned s clause in
    (* assert(num_unassigned <= 1) *)
    if Nat.eqb num_unassigned (length clause) then
      (* assert(num_unassigned == 1) *)
      let s := cancelUntil 0 s in
      Some (true, uncheckedEnqueue (lit_at clause 0) None s)
    else
      let highest_dl := level s (var (lit_at clause num_unassigned)) in
      if (highest_dl =? 0) && Nat.eqb num_unassigned 0 then Some (false, s)
      else
        let num_highest_dl :=
          S (count_level s highest_dl (drop (S num_unassigned) clause)) in
        if Nat.eqb num_unassigned 1 then
          let s := cancelUntil highest_dl s in
          let '(cr, s) := install_original true clause s in
          Some (true, uncheckedEnqueue (lit_at clause 0) (Some cr) s)
        else
          (* assert(num_unassigned == 0) *)
          if (1 <? num_highest_dl)%nat then
            let s := cancelUntil highest_dl s in
            let '(cr, s) := install_original false clause s in
            '(learnt_clause, backtrack_level, s) ← analyze fuel cr s;
            let s := cancelUntil backtrack_level s in
            Some (true, install_learnt learnt_clause s)
          else
            (* clause to be added is already asserting (after appropriate
               backtrack) *)
            if (1 <? length clause)%nat then
              let second_highest_dl := level s (var (lit_at clause 1)) in
              let s := cancelUntil second_highest_dl s in
              let '(cr, s) := install_original true clause s in
              Some (true, uncheckedEnqueue (lit_at clause 0) (Some cr) s)
            else
              let s := cancelUntil 0 s in
              Some (true, uncheckedEnqueue (lit_at clause 0) None s).

(** ** The SMS propagator *)

Definition edge_at (s : Solver) (i j : nat) : Z :=
  vget 0 (vget [] (edges (sms_config s)) i) j.

(** [blockingClause(const clause_t&)] *)
Definition blockingClause_lits (clause : clause_t) : list Lit := map i2l clause.

(** [blockingClause(const forbidden_graph_t&)] *)
Definition blockingClause_fg (s : Solver) (fg : forbidden_graph_t) : list Lit :=
  map (fun signedEdge =>
         let edge := snd signedEdge in
         mkLit (Z.to_nat (edge_at s (fst edge) (snd edge) - 1))
               (match fst signedEdge with truth_value_true => true | _ => false end))
      fg.

Definition getAdjMatrix (s : Solver) : adjacency_matrix_t :=
  let n := Z.to_nat (vertices (sms_config s)) in
  let entry i j :=
    let a := Nat.min i j in
    let b := Nat.max i j in
    if Nat.eqb i j then truth_value_unknown
    else
      let eij := i2l (edge_at s a b) in
      match value s eij with
      | l_True => truth_value_true
      | l_False => truth_value_false
      | l_Undef => truth_value_unknown
      end in
  map (fun i => map (entry i) (seq 0 n)) (seq 0 n).

(** [if (!solver->addClauseDuringSearch(c)) return -1; return 0;] *)
Definition ingest_lemma (fuel : nat) (clause : list Lit) (s : Solver) : option (Z * Solver) :=
  match addClauseDuringSearch fuel clause s with
  | Some (true, s) => Some (0, s)
  | Some (false, s) => Some (-1, s)
  | None => None
  end.

(**  0 means non-minimal, clause added successfully;
     1 means minimal;
    -1 means non-minimal, clause violated at decision level 0, formula UNSAT *)
Definition checkAssignment (fuel : nat) (is_full_assignment : bool) (s : Solver)
  : option (Z * Solver) :=
  let matrix := getAdjMatrix s in
  let '(thrown, o) := checker_check matrix is_full_assignment (sms_oracle s) in
  let s := set_sms_oracle o s in
  match thrown with
  | Some fg =>
      ingest_lemma fuel (blockingClause_fg s fg) s
  | None =>
      let '(thrown010, s) :=
        if is_full_assignment && sms_prop010 s then
          let '(t, o) := checker010_check matrix (nextFreeVariable (sms_config s))
                           (sms_oracle s) in
          (t, set_sms_oracle o s)
        else (None, s) in
      match thrown010 with
      | Some (clause :: _) =>
          ingest_lemma fuel (blockingClause_lits clause) s
      | _ =>
          let cfg := sms_config s in
          if negb (assignmentCutoffPrerunTime cfg =? 0)
             && d_lt (d_of_Z (assignmentCutoffPrerunTime cfg)) (solve_time s)
          then
            let m := Z.quot (vertices cfg * (vertices cfg - 1)) 2 in
            let assigned :=
              List.filter (fun v => negb (lbool_eqb (value_var s v) l_Undef))
                          (seq 0 (Z.to_nat m)) in
            let blocking_clause :=
              map (fun v => mkLit v (lbool_eqb (value_var s v) l_True)) assigned in
            if Z.of_nat (length assigned) >=? assignmentCutoff cfg then
              ingest_lemma fuel blocking_clause s
            else Some (1, s)
          else Some (1, s)
      end
  end.

(** ** The search loop *)

Definition progressEstimate (s : Solver) : double :=
  let F := d_div (d_of_Z 1) (d_of_Z (Z.of_nat (nVars s))) in
  let progress :=
    foldl (fun progress i =>
             let beg := if Nat.eqb i 0 then 0%nat else vget 0%nat (trail_lim s) (i - 1) in
             let end_ := if Nat.eqb i (decisionLevel s) then length (trail s)
                         else vget 0%nat (trail_lim s) i in
             d_add progress
                   (d_mul (d_pow F (d_of_Z (Z.of_nat i)))
                          (d_of_Z (Z.of_nat end_ - Z.of_nat beg))))
          (d_of_Z 0) (seq 0 (S (decisionLevel s))) in
  d_div progress (d_of_Z (Z.of_nat (nVars s))).

(** Outcome of the loop over the user provided assumptions. *)
Inductive assumption_result :=
| AssumeNext (next : option Lit) (s : Solver)    (* fall through with [next] *)
| AssumeFalse (s : Solver).                      (* analyzeFinal; return l_False *)

(** [while (decisionLevel() < assumptions.size())]: every round that goes on
    opens a decision level, so [fuel = assumptions.size()] rounds are never
    exceeded. *)
Fixpoint assumption_loop (fuel : nat) (s : Solver) : assumption_result :=
  match fuel with
  | O => AssumeNext None s
  | S fuel' =>
      if (decisionLevel s <? length (assumptions s))%nat then
        (* Perform user provided assumption: *)
        let p := lit_at (assumptions s) (decisionLevel s) in
        match value s p with
        | l_True =>
            (* Dummy decision level: *)
            assumption_loop fuel' (newDecisionLevel s)
        | l_False => AssumeFalse (analyzeFinal (neg p) s)
        | l_Undef => AssumeNext (Some p) s
        end
      else AssumeNext None s
  end.

(** One round of the [for (;;)] loop of [search]: either the loop goes on
    with the new conflict count and clock reading, or [search] returns. *)
Inductive search_round :=
| Continue (conflictC search_start : Z) (s : Solver)
| Return (status : lbool) (s : Solver).

Definition search_step (fuel : nat) (nof_conflicts conflictC search_start : Z) (s : Solver)
  : option search_round :=
  let '(search_end, o) := clock (sms_oracle s) in
  let s := set_sms_oracle o s in
  let s := set_solve_time
             (d_add (solve_time s)
                    (d_div (d_of_Z (search_end - search_start)) (d_of_Z CLOCKS_PER_SEC))) s in
  let search_start := search_end in
  '(confl, s) ← propagate fuel s;
  match confl with
  | Some confl =>
      (* CONFLICT *)
      let s := set_conflicts (conflicts s + 1) s in
      let conflictC := conflictC + 1 in
      if Nat.eqb (decisionLevel s) 0 then Some (Return l_False s)
      else
        '(learnt_clause, backtrack_level, s) ← analyze fuel confl s;
        let s := cancelUntil backtrack_level s in
        let s := install_learnt learnt_clause s in
        let s := varDecayActivity s in
        let s := claDecayActivity s in
        let s := set_learntsize_adjust_cnt (learntsize_adjust_cnt s - 1) s in
        let s :=
          if learntsize_adjust_cnt s =? 0 then
            let s := set_learntsize_adjust_confl
                       (d_mul (learntsize_adjust_confl s) (learntsize_adjust_inc s)) s in
            let s := set_learntsize_adjust_cnt (d_trunc (learntsize_adjust_confl s)) s in
            set_max_learnts (d_mul (max_learnts s) (learntsize_inc s)) s
          else s in
        Some (Continue conflictC search_start s)
  | None =>
      (* NO CONFLICT *)
      if ((nof_conflicts >=? 0) && (conflictC >=? nof_conflicts)) || negb (withinBudget s)
      then
        (* Reached bound on number of conflicts: *)
        let s := set_progress_estimate (progressEstimate s) s in
        Some (Return l_Undef (cancelUntil 0 s))
      else
        (* Simplify the set of problem clauses: *)
        '(simp_ok, s) ← (if Nat.eqb (decisionLevel s) 0 then simplify fuel s
                         else Some (true, s));
        if negb simp_ok then Some (Return l_False s)
        else
          let s :=
            if d_le (max_learnts s)
                    (d_of_Z (Z.of_nat (length (learnts s)) - Z.of_nat (nAssigns s)))
            then (* Reduce the set of learnt clauses: *) reduceDB s
            else s in
          (* run SMS mincheck *)
          let m := Z.quot (vertices (sms_config s) * (vertices (sms_config s) - 1)) 2 in
          let is_full_graph :=
            forallb (fun v => negb (lbool_eqb (value_var s v) l_Undef))
                    (seq 0 (Z.to_nat m)) in
          '(sms_min_status, s) ← checkAssignment fuel is_full_graph s;
          if sms_min_status =? 0 then Some (Continue conflictC search_start s)
          else if sms_min_status =? -1 then Some (Return l_False s)
          else
            match assumption_loop (length (assumptions s)) s with
            | AssumeFalse s => Some (Return l_False s)
            | AssumeNext next s =>
                let '(next, s) :=
                  match next with
                  | Some p => (Some p, s)
                  | None =>
                      (* New variable decision: *)
                      let s := set_decisions (decisions s + 1) s in
                      pickBranchLit s
                  end in
                match next with
                | None => (* Model found: *) Some (Return l_True s)
                | Some next =>
                    (* Increase decision level and enqueue 'next' *)
                    let s := newDecisionLevel s in
                    Some (Continue conflictC search_start (uncheckedEnqueue next None s))
                end
            end
  end.

(** The [for (;;)] loop, one unit of [fuel] per round. *)
Fixpoint search_loop (fuel rounds : nat) (nof_conflicts conflictC search_start : Z)
    (s : Solver) : option (lbool * Solver) :=
  match rounds with
  | O => None
  | S rounds' =>
      r ← search_step fuel nof_conflicts conflictC search_start s;
      match r with
      | Continue conflictC search_start s =>
          search_loop fuel rounds' nof_conflicts conflictC search_start s
      | Return status s => Some (status, s)
      end
  end.

Definition search (fuel : nat) (nof_conflicts : Z) (s : Solver) : option (lbool * Solver) :=
  (* assert(ok) *)
  let '(search_start, o) := clock (sms_oracle s) in
  let s := set_sms_oracle o s in
  let s := set_starts (starts s + 1) s in
  search_loop fuel fuel nof_conflicts 0 search_start s.

(** The state at the top of round [n] of the search loop started in [s]
    with conflict count [conflictC]; [None] when the loop has returned, or
    has run out of fuel, before that round. *)
Fixpoint search_round_state (fuel : nat) (nof_conflicts : Z) (n : nat)
    (conflictC search_start : Z) (s : Solver) : option Solver :=
  match n with
  | O => Some s
  | S n' =>
      match search_step fuel nof_conflicts conflictC search_start s with
      | Some (Continue conflictC' search_start' s') =>
          search_round_state fuel nof_conflicts n' conflictC' search_start' s'
      | _ => None
      end
  end.

(** ** The restart driver *)

(** The loop [while (status == l_Undef)] of [solve_].  The last component of
    the result lists, in call order, the conflict limits that were handed to
    [search]. *)
Fixpoint restart_loop (fuel rounds : nat) (curr_restarts : Z) (s : Solver)
  : option (lbool * Solver * list Z) :=
  match rounds with
  | O => None
  | S rounds' =>
      rest_base ← (if luby_restart s then luby (restart_inc s) curr_restarts
                   else Some (d_pow (restart_inc s) (d_of_Z curr_restarts)));
      let nof_conflicts := d_trunc (d_mul rest_base (d_of_Z (restart_first s))) in
      '(status, s) ← search fuel nof_conflicts s;
      if negb (withinBudget s) then Some (status, s, [nof_conflicts])
      else
        match status with
        | l_Undef =>
            '(status, s, limits) ← restart_loop fuel rounds' (curr_restarts + 1) s;
            Some (status, s, nof_conflicts :: limits)
        | _ => Some (status, s, [nof_conflicts])
        end
  end.

(** NOTE: assumptions passed in member-variable 'assumptions'. *)
Definition solve_ (fuel : nat) (s : Solver) : option (lbool * Solver) :=
  let s := set_model [] s in
  let s := set_conflict [] s in
  if negb (ok s) then Some (l_False, s)
  else
    let s := set_solves (solves s + 1) s in
    let s := set_solve_time (d_of_Z 0) s in
    let s := set_max_learnts (d_mul (d_of_Z (nClauses s)) (learntsize_factor s)) s in
    let s := if d_lt (max_learnts s) (d_of_Z (min_learnts_lim s))
             then set_max_learnts (d_of_Z (min_learnts_lim s)) s else s in
    let s := set_learntsize_adjust_confl (d_of_Z (learntsize_adjust_start_confl s)) s in
    let s := set_learntsize_adjust_cnt (d_trunc (learntsize_adjust_confl s)) s in
    (* Search: *)
    '(status, s, _) ← restart_loop fuel fuel 0 s;
    let s :=
      match status with
      | l_True =>
          (* Extend & copy model: *)
          set_model (map (value_var s) (seq 0 (nVars s))) s
      | l_False => if Nat.eqb (length (conflict s)) 0 then set_ok false s else s
      | l_Undef => s
      end in
    Some (status, cancelUntil 0 s).

(** ** Construction *)

(** The constructor, with the option defaults of the top of [Solver.cc]. *)
Definition newSolver (cfg : SolverConfig) (o : oracle) : Solver :=
  {| var_decay := d_lit 0.95; clause_decay := d_lit 0.999; random_var_freq := d_of_Z 0;
     random_seed := d_of_Z 91648253; luby_restart := true; ccmin_mode := 2;
     phase_saving := 2; rnd_pol := false; rnd_init_act := false;
     garbage_frac := d_lit 0.20; min_learnts_lim := 0; restart_first := 100;
     restart_inc := d_of_Z 2;
     learntsize_factor := d_div (d_of_Z 1) (d_of_Z 3); learntsize_inc := d_lit 1.1;
     learntsize_adjust_start_confl := 100; learntsize_adjust_inc := d_lit 1.5;
     solves := 0; starts := 0; decisions := 0; rnd_decisions := 0; propagations := 0;
     conflicts := 0; dec_vars := 0; num_clauses := 0; num_learnts := 0;
     clauses_literals := 0; learnts_literals := 0; max_literals := 0; tot_literals := 0;
     model := []; conflict := []; clauses := []; learnts := []; trail := [];
     trail_lim := []; assumptions := []; activity := []; assigns := []; polarity := [];
     user_pol := []; decision := []; vardata := []; watches := []; watches_dirty := [];
     order_heap := []; ok := true; cla_inc := d_of_Z 1; var_inc := d_of_Z 1;
     qhead := 0%nat; simpDB_assigns := -1; simpDB_props := 0;
     progress_estimate := d_of_Z 0; remove_satisfied := true; next_var := 0%nat;
     ca := []; ca_wasted := 0%nat; released_vars := []; free_vars := []; seen := [];
     analyze_toclear := []; max_learnts := d_of_Z 0;
     learntsize_adjust_confl := d_of_Z 0; learntsize_adjust_cnt := 0;
     conflict_budget := -1; propagation_budget := -1; time_budget := d_of_Z (-1);
     asynch_interrupt := false;
     sms_config := cfg; sms_prop010 := false; sms_oracle := o;
     solve_time := d_of_Z 0; cflr := None; literator := 0; cflterator := 0;
     lrncls := []; btlev := 0; tmp_clause := []; num_sol := 0; solution_store := [] |}.

(** Creates a new SAT variable in the solver. *)
Definition newVar (upol : lbool) (dvar : bool) (s : Solver) : Var * Solver :=
  let '(v, s) :=
    match free_vars s with
    | [] => (next_var s, set_next_var (S (next_var s)) s)
    | _ => (vlast 0%nat (free_vars s), set_free_vars (shrink 1 (free_vars s)) s)
    end in
  let s := watches_init (mkLit v false) s in
  let s := watches_init (mkLit v true) s in
  let s := set_assigns (vinsert l_Undef v l_Undef (assigns s)) s in
  let s := set_vardata (vinsert vd_default v (mkVarData None 0) (vardata s)) s in
  let '(act, s) :=
    if rnd_init_act s then
      let '(r, seed) := drand (random_seed s) in
      (d_mul r (d_lit 0.00001), set_random_seed seed s)
    else (d_of_Z 0, s) in
  let s := set_activity (vinsert (d_of_Z 0) v act (activity s)) s in
  let s := set_seen (vinsert 0%nat v 0%nat (seen s)) s in
  let s := set_polarity (vinsert false v true (polarity s)) s in
  let s := set_user_pol (vinsert l_Undef v upol (user_pol s)) s in
  let s := set_decision (growTo (S v) false (decision s)) s in
  (v, setDecisionVar v dvar s).

(** ** The step-wise interface *)

Inductive PropagationResult := CONFLICT | OPEN | SAT | INCONSISTENT_ASSUMPTIONS.
Inductive EnumerationTermination := DONE | TIME | LIMIT.

(** The exported [propagate]. *)
Definition api_propagate (fuel : nat) (s : Solver) : option (PropagationResult * Z * Solver) :=
  '(confl, s) ← propagate fuel s;
  let s := set_cflr confl s in
  let num_prop_lits := Z.of_nat (nAssigns s) - Z.of_nat (vlast 0%nat (trail_lim s)) in
  match cflr s with
  | Some _ => Some (CONFLICT, num_prop_lits, s)
  | None =>
      if Nat.eqb (nAssigns s) (nVars s) then Some (SAT, num_prop_lits, s)
      else Some (OPEN, num_prop_lits, s)
  end.

Definition assign_literal (fuel : nat) (literal : Z) (s : Solver)
  : option (PropagationResult * Z * Solver) :=
  match cflr s with
  | Some _ =>
      Some (CONFLICT, Z.of_nat (nAssigns s) - Z.of_nat (vlast 0%nat (trail_lim s)), s)
  | None =>
      let s := newDecisionLevel s in
      let s := uncheckedEnqueue (i2l literal) None s in
      api_propagate fuel s
  end.

Definition backtrack (num_dec_levels : Z) (s : Solver) : Z * Solver :=
  let target_dec_lev := Z.of_nat (decisionLevel s) - num_dec_levels in
  if target_dec_lev >=? 0 then (1, cancelUntil target_dec_lev s) else (0, s).

Definition learn_clause (fuel : nat) (s : Solver) : option (PropagationResult * Z * Solver) :=
  match cflr s with
  | None => Some (OPEN, 0, s)
  | Some confl =>
      '(out, bt, s) ← analyze fuel confl s;
      let s := set_btlev bt (set_lrncls out s) in
      let s := cancelUntil (btlev s) s in
      api_propagate fuel (install_learnt (lrncls s) s)
  end.

(** The first loop of [fast_switch_assignment]: literals of unassigned
    variables are swapped to the front. *)
Fixpoint partition_unassigned (s : Solver) (n i n_unassigned : nat) (literals : list Z)
  : nat * list Z :=
  match n with
  | O => (n_unassigned, literals)
  | S n' =>
      let l := i2l (vget 0 literals i) in
      if lbool_eqb (value_var s (var l)) l_Undef then
        let t := vget 0 literals n_unassigned in
        let literals := <[n_unassigned := vget 0 literals i]> literals in
        let literals := <[i := t]> literals in
        partition_unassigned s n' (S i) (S n_unassigned) literals
      else partition_unassigned s n' (S i) n_unassigned literals
  end.

(** [for (btlev = 0; btlev < s->decisionLevel(); btlev++)]: the deepest
    prefix of decisions that all occur in the sorted target range. *)
Fixpoint switch_btlev (s : Solver) (literals : list Z) (n_unassigned length_ : nat)
    (n btlev : nat) : nat :=
  match n with
  | O => btlev
  | S n' =>
      (* trail_lim[0] should be the first decision *)
      let dec := lit_at (trail s) (vget 0%nat (trail_lim s) btlev) in
      if in_ literals n_unassigned length_ (l2i dec) =? 0 then btlev
      else switch_btlev s literals n_unassigned length_ n' (S btlev)
  end.

Record AssignmentSwitchResult := mkSwitchResult {
  sr_kind : PropagationResult;
  sr_decisions : Z;
  sr_propagated : Z;
}.

(** The second loop of [fast_switch_assignment]: re-apply the target
    literals as decisions. *)
Fixpoint switch_apply (fuel : nat) (ls : list Z) (num_decisions_executed num_prop_lits : Z)
    (s : Solver) : option (AssignmentSwitchResult * Solver) :=
  match ls with
  | [] =>
      if Nat.eqb (nAssigns s) (nVars s)
      then Some (mkSwitchResult SAT num_decisions_executed num_prop_lits, s)
      else Some (mkSwitchResult OPEN num_decisions_executed num_prop_lits, s)
  | i :: ls' =>
      let l := i2l i in
      match value s l with
      | l_Undef =>
          let num_decisions_executed := num_decisions_executed + 1 in
          let s := newDecisionLevel s in
          let s := uncheckedEnqueue l None s in
          '(confl, s) ← propagate fuel s;
          let s := set_cflr confl s in
          match confl with
          | Some _ => Some (mkSwitchResult CONFLICT num_decisions_executed num_prop_lits, s)
          | None => switch_apply fuel ls' num_decisions_executed num_prop_lits s
          end
      | l_False =>
          (* conflict (attempt to assign counter to current value) *)
          let s := analyzeFinal l s in
          let s := set_cflterator 0 s in
          Some (mkSwitchResult INCONSISTENT_ASSUMPTIONS (num_decisions_executed + 1)
                               (num_prop_lits + 1), s)
      | l_True =>
          (* attempt to assign in a way that was already propagated, just ignore *)
          switch_apply fuel ls' num_decisions_executed num_prop_lits s
      end
  end.

Definition fast_switch_assignment (fuel : nat) (literals : list Z) (s : Solver)
  : option (AssignmentSwitchResult * list Z * Solver) :=
  let length_ := length literals in
  let '(n_unassigned, literals) := partition_unassigned s length_ 0 0 literals in
  let literals := take n_unassigned literals ++ sort_by Z.ltb (drop n_unassigned literals) in
  let btlev := switch_btlev s literals n_unassigned length_ (decisionLevel s) 0 in
  let s := cancelUntil (Z.of_nat btlev) s in
  let num_prop_lits := Z.of_nat (nAssigns s) in
  if Nat.eqb btlev (decisionLevel s)
     && match cflr s with Some _ => true | None => false end
  then Some (mkSwitchResult CONFLICT 0 num_prop_lits, literals, s)
  else
    '(r, s) ← switch_apply fuel literals 0 num_prop_lits s;
    Some (r, literals, s).

Definition run_solver (fuel : nat) (secs : double) (s : Solver) : option (Z * Solver) :=
  let s := set_time_budget secs s in
  '(result, s) ← solve_ fuel s;
  Some (match result with l_True => 10 | l_False => 20 | l_Undef => 0 end, s).

(** The blocking clause that [run_solver_enumerate] builds from a model:
    [vec<Lit> blocking_clause(m)] followed by one [push] per edge variable. *)
Definition enumerate_blocking_clause (s : Solver) : list Lit :=
  let n := vertices (sms_config s) in
  let m := Z.quot (n * (n - 1)) 2 in
  vec_sized lit_default (Z.to_nat m)
  ++ map (fun v => mkLit v (lbool_eqb (modelValue_var s v) l_True)) (seq 0 (Z.to_nat m)).

(** The clause that [block_model] pushes onto the empty [tmp_clause]. *)
Definition block_model_clause (s : Solver) : list Lit :=
  map (fun v => mkLit v (lbool_eqb (modelValue_var s v) l_True)) (seq 0 (nVars s)).

(** The loop [while (result != l_False)] of [run_solver_enumerate], one unit
    of [rounds] per call of [solve_]. *)
Fixpoint enumerate_loop (fuel rounds : nat) (store_solutions : bool) (max_sol : Z)
    (s : Solver) : option (Z * EnumerationTermination * Solver) :=
  match rounds with
  | O => None
  | S rounds' =>
      '(result, s) ← solve_ fuel s;
      match result with
      | l_True =>
          let n := vertices (sms_config s) in
          let m := Z.quot (n * (n - 1)) 2 in
          let s := set_num_sol (num_sol s + 1) s in
          let blocking_clause := enumerate_blocking_clause s in
          let s :=
            if store_solutions then
              set_solution_store
                (solution_store s
                 ++ [vec_sized lit_default (Z.to_nat m) ++ map neg blocking_clause]) s
            else s in
          '(_, s) ← addClause_ fuel blocking_clause s;
          if num_sol s >=? max_sol then Some (num_sol s, LIMIT, s)
          else enumerate_loop fuel rounds' store_solutions max_sol s
      | l_Undef => (* time's up *) Some (num_sol s, TIME, s)
      | l_False => Some (num_sol s, DONE, s)
      end
  end.

Definition run_solver_enumerate (fuel : nat) (secs : double) (store_solutions : bool)
    (max_sol : Z) (s : Solver) : option (Z * EnumerationTermination * Solver) :=
  let s := set_time_budget secs s in
  enumerate_loop fuel fuel store_solutions max_sol s.

(** Successive calls of [solve_]; before each call the caller chooses the
    assumptions and the fuel.  The results are listed in call order. *)
Fixpoint solve_calls (calls : list (list Lit * nat)) (s : Solver)
  : list (option lbool) * Solver :=
  match calls with
  | [] => ([], s)
  | (assumps, fuel) :: calls' =>
      match solve_ fuel (set_assumptions assumps s) with
      | Some (st, s') =>
          let '(rs, s'') := solve_calls calls' s' in (Some st :: rs, s'')
      | None => ([None], s)
      end
  end.
(** ** Implied literals *)

(** The loop of [implies] over the assumptions: [false] as soon as one of
    them is false, with the solver as it stands at that point. *)
Fixpoint implies_assume (assumps : list Lit) (s : Solver) : bool * Solver :=
  match assumps with
  | [] => (true, s)
  | a :: assumps' =>
      if lbool_eqb (value s a) l_False then (false, s)
      else if lbool_eqb (value s a) l_Undef
           then implies_assume assumps' (uncheckedEnqueue a None s)
           else implies_assume assumps' s
  end.

(** [implies(assumps, out)]; the result carries the contents of [out]. *)
Definition implies (fuel : nat) (assumps out : list Lit) (s : Solver)
  : option (bool * list Lit * Solver) :=
  let s := set_trail_lim (trail_lim s ++ [length (trail s)]) s in
  let '(assumed, s) := implies_assume assumps s in
  if negb assumed then Some (false, out, cancelUntil 0 s)
  else
    let trail_before := length (trail s) in
    '(confl, s) ← propagate fuel s;
    match confl with
    | None => Some (true, drop trail_before (trail s), cancelUntil 0 s)
    | Some _ => Some (false, out, cancelUntil 0 s)
    end.
(** ** Iterating over the assigned literals *)

(** always call this before a sequence of next_prop_lit;
    will yield all assigned literals starting with some decision level *)
Definition request_propagation_scope (level : Z) (s : Solver) : Z * Solver :=
  if level =? 0 then (1, set_literator 0 s)
  else if (level <? 0) || (level >? Z.of_nat (decisionLevel s)) then (0, s)
  else (1, set_literator
             (Z.of_nat (vget 0%nat (trail_lim s) (Z.to_nat (level - 1)))) s).

Definition next_prop_lit (s : Solver) : Z * Solver :=
  if (literator s >=? 0) && (literator s <? Z.of_nat (length (trail s))) then
    (l2i (lit_at (trail s) (Z.to_nat (literator s))), set_literator (literator s + 1) s)
  else
    (* iterator exhausted *)
    (0, set_literator (-1) s).

(** [n] successive calls of [next_prop_lit], with what they return. *)
Fixpoint next_prop_lits (n : nat) (s : Solver) : list Z * Solver :=
  match n with
  | O => ([], s)
  | S n' =>
      let '(x, s) := next_prop_lit s in
      let '(xs, s) := next_prop_lits n' s in
      (x :: xs, s)
  end.

Definition model_value (literal : Z) (s : Solver) : Z :=
  if lbool_eqb (modelValue s (i2l literal)) l_True then 1 else 0.

Definition n_vars (s : Solver) : Z := Z.of_nat (nVars s).
(** ** Writing CNF to DIMACS *)

(** [mapVar(x, map, max)]: the number under which [x] is written; a variable
    met for the first time takes the next number.  The map and the counter
    are passed by reference in the source and handed back here. *)
Definition mapVar (x : Var) (map : list Z) (max : Z) : Z * list Z * Z :=
  if (length map <=? x)%nat || (vget (-1) map x =? -1) then
    let map := growTo (S x) (-1) map in
    let map := <[x := max]> map in
    (vget (-1) map x, map, max + 1)
  else (vget (-1) map x, map, max).

End Embedding.

(** ** A concrete platform for evaluation

    Doubles are exact rationals, the clock stands still and the checkers
    accept every graph. *)

Definition Q_trunc (x : Q) : Z := Z.quot (Qnum x) (Zpos (Qden x)).

Definition Q_pow (x y : Q) : Q := Qred (Qpower x (Q_trunc y)).

#[local] Instance eval_platform : Platform := {|
  double := Q;
  d_of_Z := inject_Z;
  d_trunc := Q_trunc;
  d_lit := fun q => q;
  d_add := fun x y => Qred (Qplus x y);
  d_sub := fun x y => Qred (Qminus x y);
  d_mul := fun x y => Qred (Qmult x y);
  d_div := fun x y => Qred (Qdiv x y);
  d_lt := fun x y => negb (Qle_bool y x);
  d_le := Qle_bool;
  d_pow := Q_pow;
  drand := fun seed => (inject_Z 1, seed);
  oracle := unit;
  clock := fun o => (0, o);
  CLOCKS_PER_SEC := 1000000;
  checker_check := fun _ _ o => (None, o);
  checker010_check := fun _ _ o => (None, o);
|}.

(** A solver for graphs on [n] vertices with [nv] variables and no clause. *)
Definition eval_config (n : Z) : SolverConfig :=
  mkSolverConfig n [] 0 0 0.

Definition eval_solver (n : Z) (nv : nat) : Solver :=
  foldl (fun s _ => snd (newVar l_Undef true s)) (newSolver (eval_config n) tt) (seq 0 nv).

(** Add the clauses [cs], given in the external numbering, at level 0. *)
Definition eval_add_clauses (fuel : nat) (cs : list (list Z)) (s : Solver) : option Solver :=
  foldl (fun os c => s ← os; '(_, s) ← addClause_ fuel (map i2l c) s; Some s) (Some s) cs.

(** * Properties

    ** Binary search in the target set of [fast_switch_assignment] *)

Lemma int_range_nil a b e : (e <= b)%nat -> int_range a b e = [].
Proof. intros Hle. unfold int_range. replace (e - b)%nat with 0%nat by lia. reflexivity. Qed.

Lemma int_range_split a b m e :
  (b <= m <= e)%nat -> int_range a b e = int_range a b m ++ int_range a m e.
Proof.
  intros Hm. unfold int_range.
  replace (e - b)%nat with ((m - b) + (e - m))%nat by lia.
  rewrite <- take_take_drop, drop_drop.
  replace (b + (m - b))%nat with m by lia. reflexivity.
Qed.

Lemma int_range_cons a b e :
  (b < e <= length a)%nat -> int_range a b e = vget 0 a b :: int_range a (S b) e.
Proof.
  intros Hbe. unfold int_range, vget.
  destruct (lookup_lt_is_Some_2 a b ltac:(lia)) as [x Hx].
  rewrite Hx. simpl.
  rewrite (drop_S _ _ _ Hx).
  replace (e - b)%nat with (S (e - S b)) by lia. reflexivity.
Qed.

Lemma int_range_one a b e :
  (e <= length a)%nat -> Z.of_nat e - Z.of_nat b = 1 -> int_range a b e = [vget 0 a b].
Proof.
  intros Hle H1. rewrite int_range_cons by lia.
  rewrite int_range_nil by lia. reflexivity.
Qed.

Lemma existsb_eq_sorted_le (val x : Z) (l1 l2 : list Z) :
  StronglySorted Z.le (l1 ++ x :: l2) -> x <= val ->
  existsb (Z.eqb val) (l1 ++ x :: l2) = existsb (Z.eqb val) (x :: l2).
Proof.
  intros Hs Hx. rewrite existsb_app.
  destruct (existsb (Z.eqb val) l1) eqn:E; [|reflexivity].
  apply existsb_exists in E as (y & Hy & Hyv). apply Z.eqb_eq in Hyv. subst y.
  simpl. replace (val =? x) with true; [reflexivity|].
  symmetry. apply Z.eqb_eq.
  induction l1 as [|z l1 IH]; [inversion Hy|].
  simpl in Hs. inversion Hs as [|? ? Hs' Hall]; subst.
  destruct Hy as [->|Hy]; [|auto].
  rewrite Forall_app in Hall. destruct Hall as [_ Hall].
  inversion Hall; subst. lia.
Qed.

Lemma existsb_eq_sorted_gt (val x : Z) (l1 l2 : list Z) :
  StronglySorted Z.le (l1 ++ x :: l2) -> val < x ->
  existsb (Z.eqb val) (l1 ++ x :: l2) = existsb (Z.eqb val) l1.
Proof.
  intros Hs Hx. rewrite existsb_app.
  replace (existsb (Z.eqb val) (x :: l2)) with false; [apply orb_false_r|].
  symmetry. apply not_true_is_false. intros E.
  apply existsb_exists in E as (y & Hy & Hyv). apply Z.eqb_eq in Hyv. subst y.
  apply StronglySorted_app_1_r in Hs.
  inversion Hs as [|? ? _ Hall]; subst.
  destruct Hy as [->|Hy]; [lia|].
  rewrite List.Forall_forall in Hall. specialize (Hall _ Hy). lia.
Qed.

(** C10. On a range sorted in ascending order, [in] returns 1 when [val]
    occurs in the range and 0 otherwise. *)
Theorem in_sorted_membership (a : list Z) (b e : nat) (val : Z) :
  (e <= length a)%nat ->
  Sorted Z.le (int_range a b e) ->
  in_ a b e val = if existsb (Z.eqb val) (int_range a b e) then 1 else 0.
Proof.
  intros Hlen Hsorted.
  apply Sorted_StronglySorted in Hsorted; [|intros x y z; lia].
  revert Hlen Hsorted.
  funelim (in_ a b e val); intros Hlen Hsorted.
  - pose proof (proj1 (Z.ltb_lt _ _) e1). rewrite int_range_nil by lia. reflexivity.
  - pose proof (proj1 (Z.eqb_eq _ _) e1). rewrite int_range_one by lia.
    simpl. rewrite orb_false_r, (Z.eqb_sym val). reflexivity.
  - clear Heqcall. rename H into IH.
    pose proof (proj1 (Z.ltb_ge _ _) H1). pose proof (proj1 (Z.eqb_neq _ _) H2).
    pose proof (proj1 (Z.leb_le _ _) e1).
    assert (Hm : (b + (e - b) / 2 < e)%nat).
    { pose proof (Nat.div_lt (e - b) 2 ltac:(lia) ltac:(lia)). lia. }
    set (m := (b + (e - b) / 2)%nat) in *.
    rewrite (int_range_split a b m e) in Hsorted |- * by lia.
    rewrite (int_range_cons a m e) in Hsorted |- * by lia.
    rewrite existsb_eq_sorted_le by assumption.
    rewrite <- (int_range_cons a m e) by lia.
    apply IH; [assumption|].
    apply StronglySorted_app_1_r in Hsorted.
    rewrite (int_range_cons a m e) by lia. assumption.
  - clear Heqcall. rename H into IH.
    pose proof (proj1 (Z.ltb_ge _ _) H1). pose proof (proj1 (Z.eqb_neq _ _) H2).
    pose proof (proj1 (Z.leb_gt _ _) e1).
    assert (Hm : (b + (e - b) / 2 < e)%nat).
    { pose proof (Nat.div_lt (e - b) 2 ltac:(lia) ltac:(lia)). lia. }
    set (m := (b + (e - b) / 2)%nat) in *.
    rewrite (int_range_split a b m e) in Hsorted |- * by lia.
    rewrite (int_range_cons a m e) in Hsorted |- * by lia.
    rewrite existsb_eq_sorted_gt by assumption.
    apply IH; [lia|].
    apply StronglySorted_app_1_l in Hsorted. assumption.
Qed.

Lemma in_sorted_membership_witness :
  in_ [1; 3; 3; 7; 9] 0 5 7 = 1 /\ in_ [1; 3; 3; 7; 9] 1 4 9 = 0.
Proof.
  split.
  - apply (in_sorted_membership [1; 3; 3; 7; 9] 0 5 7); [simpl; lia|].
    repeat constructor; discriminate.
  - apply (in_sorted_membership [1; 3; 3; 7; 9] 1 4 9); [simpl; lia|].
    repeat constructor; discriminate.
Defined.

(** ** The Luby sequence *)

Lemma luby_block_length n : Z.of_nat (length (luby_block n)) = 2 ^ (Z.of_nat n + 1) - 1.
Proof.
  induction n as [|n IH]; [reflexivity|].
  cbn [luby_block]. rewrite !length_app. cbn [length].
  rewrite !Nat2Z.inj_add, IH.
  replace (Z.of_nat (S n) + 1) with (Z.succ (Z.of_nat n + 1)) by lia.
  rewrite Z.pow_succ_r by lia. lia.
Qed.

Lemma luby_block_prefix n m k :
  (n <= m)%nat -> (k < length (luby_block n))%nat ->
  nth k (luby_block m) 0 = nth k (luby_block n) 0.
Proof.
  induction 1 as [|m Hle IH]; [reflexivity|].
  intros Hk. rewrite <- IH by assumption.
  cbn [luby_block]. rewrite app_nth1; [reflexivity|].
  assert (length (luby_block n) <= length (luby_block m))%nat; [|lia].
  pose proof (luby_block_length n). pose proof (luby_block_length m).
  assert (2 ^ (Z.of_nat n + 1) <= 2 ^ (Z.of_nat m + 1)) by (apply Z.pow_le_mono_r; lia).
  lia.
Qed.

Lemma luby_grow_spec fuel s x :
  0 <= s -> x + 1 - (2 ^ (s + 1) - 1) <= Z.of_nat fuel ->
  exists m, s <= m /\ luby_grow fuel (2 ^ (s + 1) - 1) s x = Some (2 ^ (m + 1) - 1, m)
            /\ x + 1 <= 2 ^ (m + 1) - 1 /\ (m = s \/ 2 ^ m - 1 < x + 1).
Proof.
  revert s. induction fuel as [|fuel IH]; intros s Hs Hfuel.
  - exists s. cbn [luby_grow]. destruct (Z.ltb_spec (2 ^ (s + 1) - 1) (x + 1)); [lia|].
    repeat split; auto; lia.
  - cbn [luby_grow]. destruct (Z.ltb_spec (2 ^ (s + 1) - 1) (x + 1)) as [Hlt|Hge].
    + assert (Hpow : 2 ^ (s + 1 + 1) = 2 * 2 ^ (s + 1)).
      { replace (s + 1 + 1) with (Z.succ (s + 1)) by lia. apply Z.pow_succ_r. lia. }
      assert (Hpos : 0 < 2 ^ (s + 1)) by (apply Z.pow_pos_nonneg; lia).
      destruct (IH (s + 1) ltac:(lia) ltac:(lia)) as (m & Hm & Hg & Hx & Hmin).
      exists m. replace (2 * (2 ^ (s + 1) - 1) + 1) with (2 ^ (s + 1 + 1) - 1) by lia.
      repeat split; auto; try lia.
      right. destruct Hmin as [->|Hmin]; [lia|assumption].
    + exists s. repeat split; auto; lia.
Qed.

Lemma luby_shrink_spec (m : nat) : forall fuel k,
  (m <= fuel)%nat -> 0 <= k < 2 ^ (Z.of_nat m + 1) - 1 ->
  exists e, luby_shrink fuel (2 ^ (Z.of_nat m + 1) - 1) (Z.of_nat m) k = Some e
            /\ 2 ^ e = nth (Z.to_nat k) (luby_block m) 0.
Proof.
  induction m as [|m IH]; intros fuel k Hfuel Hk.
  - change (2 ^ (Z.of_nat 0 + 1) - 1) with 1 in *. assert (k = 0) by lia. subst k.
    exists 0. destruct fuel; split; reflexivity.
  - assert (Hpow : 2 ^ (Z.of_nat (S m) + 1) = 2 * 2 ^ (Z.of_nat m + 1)).
    { replace (Z.of_nat (S m) + 1) with (Z.succ (Z.of_nat m + 1)) by lia.
      apply Z.pow_succ_r. lia. }
    assert (Hpos : 0 < 2 ^ (Z.of_nat m + 1)) by (apply Z.pow_pos_nonneg; lia).
    pose proof (luby_block_length m) as Hlen.
    set (B := 2 ^ (Z.of_nat m + 1) - 1) in *.
    destruct fuel as [|fuel]; [lia|].
    cbn [luby_shrink].
    destruct (Z.eqb_spec (2 ^ (Z.of_nat (S m) + 1) - 1 - 1) k) as [Heq|Hne].
    + exists (Z.of_nat (S m)). split; [reflexivity|].
      cbn [luby_block]. rewrite app_assoc, app_nth2; rewrite length_app; [|lia].
      replace (Z.to_nat k - (length (luby_block m) + length (luby_block m)))%nat
        with 0%nat by lia.
      reflexivity.
    + assert (Hshift : Z.shiftr (2 ^ (Z.of_nat (S m) + 1) - 1 - 1) 1 = B).
      { rewrite Z.shiftr_div_pow2 by lia. change (2 ^ 1) with 2.
        replace (2 ^ (Z.of_nat (S m) + 1) - 1 - 1) with (B * 2) by lia.
        apply Z.div_mul. lia. }
      rewrite Hshift.
      replace (Z.of_nat (S m) - 1) with (Z.of_nat m) by lia.
      assert (HB : 0 < B) by lia.
      rewrite Z.rem_mod_nonneg by lia.
      destruct (IH fuel (k mod B) ltac:(lia) ltac:(apply Z.mod_pos_bound; lia))
        as (e & He & Hnth).
      exists e. split; [assumption|]. rewrite Hnth.
      cbn [luby_block].
      destruct (Z.lt_ge_cases k B) as [Hlt|Hge].
      * rewrite Z.mod_small by lia. rewrite app_nth1 by lia. reflexivity.
      * replace (k mod B) with (k - B).
        2:{ symmetry. rewrite <- (Z.mod_small (k - B) B) by lia.
            replace k with (k - B + 1 * B) at 1 by lia. apply Z.mod_add. lia. }
        rewrite app_nth2 by lia. rewrite app_nth1 by lia.
        f_equal. lia.
Qed.

(** The exponent found by [luby] at index [k] is the binary logarithm of
    element [k] of every finite subsequence that is long enough. *)
Lemma luby_seq_spec (n k : nat) :
  (k < length (luby_block n))%nat ->
  exists e, luby_seq (Z.of_nat k) = Some e /\ 2 ^ e = nth k (luby_block n) 0.
Proof.
  intros Hk. unfold luby_seq.
  destruct (luby_grow_spec (S (Z.to_nat (Z.of_nat k))) 0 (Z.of_nat k) ltac:(lia))
    as (m & Hm & Hg & Hx & Hmin).
  { change (2 ^ (0 + 1) - 1) with 1. lia. }
  change (2 ^ (0 + 1) - 1) with 1 in Hg. rewrite Hg. cbn [mbind option_bind].
  assert (Hmk : m <= Z.of_nat k).
  { destruct Hmin as [->|Hmin]; [lia|].
    assert (m < 2 ^ m) by (apply Z.pow_gt_lin_r; lia). lia. }
  destruct (luby_shrink_spec (Z.to_nat m) (S (Z.to_nat (Z.of_nat k))) (Z.of_nat k))
    as (e & He & Hnth).
  { lia. }
  { rewrite Z2Nat.id by lia. lia. }
  rewrite Z2Nat.id in He by lia. exists e. split; [assumption|].
  rewrite Hnth, Nat2Z.id.
  destruct (Nat.le_gt_cases n (Z.to_nat m)) as [Hnm|Hnm].
  - apply luby_block_prefix; assumption.
  - symmetry. apply luby_block_prefix; [lia|].
    pose proof (luby_block_length (Z.to_nat m)). rewrite Z2Nat.id in * by lia. lia.
Qed.

Example luby_block_3 :
  luby_block 3 = [1; 1; 2; 1; 1; 2; 4; 1; 1; 2; 1; 1; 2; 4; 8].
Proof. reflexivity. Qed.

Example luby_seq_first_15 :
  map (fun k => luby_seq (Z.of_nat k)) (seq 0 15)
  = map Some [0; 0; 1; 0; 0; 1; 2; 0; 0; 1; 0; 0; 1; 2; 3].
Proof. reflexivity. Qed.

(** * Properties of the solver
*)

Section Theory.
Context `{Platform}.

(** ** Frame conditions

    [frame s s'] lists what the operations that do not move the trail leave
    unchanged; [pframe] is the part that no operation changes. *)

Record pframe (s s' : Solver) : Prop := mk_pframe {
  pf_luby_restart : luby_restart s' = luby_restart s;
  pf_restart_inc : restart_inc s' = restart_inc s;
  pf_restart_first : restart_first s' = restart_first s;
  pf_assumptions : assumptions s' = assumptions s;
}.

Record tframe (s s' : Solver) : Prop := mk_tframe {
  tf_trail : trail s' = trail s;
  tf_trail_lim : trail_lim s' = trail_lim s;
  tf_qhead : qhead s' = qhead s;
  tf_pframe : pframe s s';
}.

Record frame (s s' : Solver) : Prop := mk_frame {
  fr_assigns : assigns s' = assigns s;
  fr_levels : vd_level <$> vardata s' = vd_level <$> vardata s;
  fr_ok : ok s' = ok s;
  fr_tframe : tframe s s';
}.

Lemma pframe_refl s : pframe s s.
Proof. by constructor. Qed.

Lemma pframe_trans s1 s2 s3 : pframe s1 s2 -> pframe s2 s3 -> pframe s1 s3.
Proof. intros [] []. constructor; congruence. Qed.

Lemma tframe_refl s : tframe s s.
Proof. constructor; auto using pframe_refl. Qed.

Lemma tframe_trans s1 s2 s3 : tframe s1 s2 -> tframe s2 s3 -> tframe s1 s3.
Proof. intros [] []. constructor; try congruence. eauto using pframe_trans. Qed.

Lemma frame_refl s : frame s s.
Proof. constructor; auto using tframe_refl. Qed.

Lemma frame_trans s1 s2 s3 : frame s1 s2 -> frame s2 s3 -> frame s1 s3.
Proof. intros [] []. constructor; try congruence. eauto using tframe_trans. Qed.

Lemma frame_pframe s s' : frame s s' -> pframe s s'.
Proof. intros [_ _ _ []]. assumption. Qed.

Create HintDb frame discriminated.

(** A member update that touches none of the framed members. *)
Ltac frame_set := solve [ repeat constructor ].

(** Peel the outermost operation off the final state of the goal. *)
Ltac frame_step :=
  match goal with
  | |- frame ?s ?s => apply frame_refl
  | H : frame ?s ?s' |- frame ?s ?s' => exact H
  | |- frame _ (let _ := _ in _) => cbv zeta
  | |- frame _ (if ?b then _ else _) => destruct b eqn:?
  | |- frame _ (match ?x with _ => _ end) => destruct x eqn:?
  | |- frame _ (let (_, _) := ?x in _) => destruct x eqn:?
  | |- frame ?s0 (?g ?s') =>
      lazymatch type of s' with
      | Solver =>
          apply (frame_trans s0 s' (g s'));
          [ | first [ frame_set | solve [ eauto with frame ] ] ]
      end
  | |- frame ?s0 ?s1 =>
      is_var s1; eapply frame_trans; [ | solve [ eauto with frame ] ]
  end.
Ltac frame_auto := repeat frame_step.


Lemma foldl_frame {A} (f : Solver -> A -> Solver) (l : list A) s :
  (forall s x, frame s (f s x)) -> frame s (foldl f s l).
Proof.
  intros Hf. revert s. induction l as [|x l IH]; intros s; [apply frame_refl|].
  simpl. eapply frame_trans; [apply Hf | apply IH].
Qed.

Lemma update_clause_frame cr f s : frame s (update_clause cr f s).
Proof. unfold update_clause. frame_auto. Qed.
Lemma ca_alloc_frame ps l s cr s' : ca_alloc ps l s = (cr, s') -> frame s s'.
Proof. unfold ca_alloc. intros [= <- <-]. frame_auto. Qed.
Lemma ca_free_frame cr s : frame s (ca_free cr s).
Proof. unfold ca_free. frame_auto. Qed.
Lemma set_watches_of_frame p ws s : frame s (set_watches_of p ws s).
Proof. unfold set_watches_of. frame_auto. Qed.
#[local] Hint Resolve update_clause_frame ca_alloc_frame ca_free_frame
  set_watches_of_frame : frame.

Lemma watches_push_frame p w s : frame s (watches_push p w s).
Proof. unfold watches_push. frame_auto. Qed.
Lemma smudge_frame p s : frame s (smudge p s).
Proof. unfold smudge. frame_auto. Qed.
Lemma watches_clean_idx_frame idx s : frame s (watches_clean_idx idx s).
Proof. unfold watches_clean_idx. cbv zeta. frame_auto. Qed.
#[local] Hint Resolve watches_push_frame smudge_frame watches_clean_idx_frame : frame.

Lemma watches_lookup_frame p s : frame s (watches_lookup p s).
Proof. unfold watches_lookup. frame_auto. Qed.
Lemma watches_cleanAll_frame s : frame s (watches_cleanAll s).
Proof. unfold watches_cleanAll. apply foldl_frame. intros. frame_auto. Qed.
Lemma heap_removeMin_frame s x s' : heap_removeMin s = (x, s') -> frame s s'.
Proof. unfold heap_removeMin. destruct (order_heap s); intros [= <- <-]; frame_auto. Qed.
Lemma insertVarOrder_frame x s : frame s (insertVarOrder x s).
Proof. unfold insertVarOrder. frame_auto. Qed.
#[local] Hint Resolve watches_lookup_frame watches_cleanAll_frame heap_removeMin_frame
  insertVarOrder_frame : frame.

Lemma varDecayActivity_frame s : frame s (varDecayActivity s).
Proof. unfold varDecayActivity. frame_auto. Qed.
Lemma claDecayActivity_frame s : frame s (claDecayActivity s).
Proof. unfold claDecayActivity. frame_auto. Qed.
Lemma varBumpActivity_frame v s : frame s (varBumpActivity v s).
Proof. unfold varBumpActivity. cbv zeta. frame_auto. Qed.
Lemma claBumpActivity_frame cr s : frame s (claBumpActivity cr s).
Proof.
  unfold claBumpActivity. cbv zeta. frame_auto.
  eapply frame_trans; [|apply foldl_frame; intros; frame_auto]. frame_auto.
Qed.
#[local] Hint Resolve varDecayActivity_frame claDecayActivity_frame varBumpActivity_frame
  claBumpActivity_frame : frame.

Lemma attachClause_frame cr s : frame s (attachClause cr s).
Proof. unfold attachClause. cbv zeta. frame_auto. Qed.
Lemma detachClause_frame cr strict s : frame s (detachClause cr strict s).
Proof. unfold detachClause. cbv zeta. frame_auto. Qed.

Lemma level_set_vardata_reason x r s :
  vd_level <$> <[x := mkVarData r (level s x)]> (vardata s) = vd_level <$> vardata s.
Proof.
  unfold level, vget. rewrite list_fmap_insert.
  destruct (vardata s !! x) as [vd|] eqn:E.
  - simpl. apply list_insert_id. rewrite list_lookup_fmap, E. reflexivity.
  - apply list_insert_ge. rewrite length_fmap. by apply lookup_ge_None.
Qed.

Lemma set_reason_frame x r s : frame s (set_reason x r s).
Proof.
  unfold set_reason. constructor; try reflexivity; [|repeat constructor].
  apply level_set_vardata_reason.
Qed.
#[local] Hint Resolve attachClause_frame detachClause_frame set_reason_frame : frame.

Lemma removeClause_frame cr s : frame s (removeClause cr s).
Proof. unfold removeClause. cbv zeta. frame_auto. Qed.
#[local] Hint Resolve removeClause_frame : frame.

Lemma set_seen_at_frame x v s : frame s (set_seen_at x v s).
Proof. unfold set_seen_at. frame_auto. Qed.
#[local] Hint Resolve set_seen_at_frame : frame.

Lemma litRedundant_loop_frame fuel : forall i p stack s r s',
  litRedundant_loop fuel i p stack s = Some (r, s') -> frame s s'.
Proof.
  induction fuel as [|fuel IH]; intros i p stack s r s'; [discriminate|].
  cbn [litRedundant_loop]. cbv zeta.
  repeat case_match; intros Heq; simplify_eq;
    try (eapply frame_trans; [|eapply IH; eassumption]);
    try (eapply frame_trans; [|apply foldl_frame; intros; frame_auto]);
    frame_auto.
Qed.

Lemma litRedundant_frame fuel p s r s' : litRedundant fuel p s = Some (r, s') -> frame s s'.
Proof. apply litRedundant_loop_frame. Qed.
#[local] Hint Resolve litRedundant_frame : frame.

Lemma analyze_lit_frame acc q : frame acc.2 (analyze_lit acc q).2.
Proof.
  destruct acc as [[pathC out] s]. unfold analyze_lit. cbv zeta.
  repeat case_match; simpl; frame_auto.
Qed.

Lemma foldl_analyze_lit_frame qs : forall acc, frame acc.2 (foldl analyze_lit acc qs).2.
Proof.
  induction qs as [|q qs IH]; intros acc; [apply frame_refl|].
  simpl. eapply frame_trans; [apply analyze_lit_frame | apply IH].
Qed.

Lemma analyze_loop_frame fuel : forall confl p idx1 pathC out s p' out' s',
  analyze_loop fuel confl p idx1 pathC out s = Some (p', out', s') -> frame s s'.
Proof.
  induction fuel as [|fuel IH]; intros confl p idx1 pathC out s p' out' s'; [discriminate|].
  cbn [analyze_loop]. cbv zeta. destruct confl as [cr|]; [|discriminate].
  cbn [mbind option_bind].
  match goal with |- context [foldl analyze_lit ?acc ?qs] =>
    pose proof (foldl_analyze_lit_frame qs acc) as Hfold;
    destruct (foldl analyze_lit acc qs) as [[pathC1 out1] s1] end.
  simpl in Hfold.
  assert (Hs1 : frame s s1).
  { eapply frame_trans; [|exact Hfold]. frame_auto. }
  clear Hfold.
  destruct (analyze_scan s1 idx1) as [k|]; [|discriminate]. cbn [mbind option_bind].
  destruct (_ >? 0); intros Heq.
  - eapply frame_trans; [|eapply IH; eassumption].
    eapply frame_trans; [exact Hs1|]. frame_auto.
  - simplify_eq. eapply frame_trans; [exact Hs1|]. frame_auto.
Qed.

Lemma analyze_minimize2_frame fuel ps : forall kept s out s',
  analyze_minimize2 fuel ps kept s = Some (out, s') -> frame s s'.
Proof.
  induction ps as [|q ps IH]; intros kept s out s'; cbn [analyze_minimize2].
  - intros [= <- <-]. apply frame_refl.
  - destruct (reason s (var q)); [|apply IH].
    destruct (litRedundant fuel q s) as [[[] s1]|] eqn:E; [| |discriminate].
    + intros Heq. eapply frame_trans; [eapply litRedundant_frame, E | eapply IH, Heq].
    + intros Heq. eapply frame_trans; [eapply litRedundant_frame, E | eapply IH, Heq].
Qed.

Lemma analyze_frame fuel confl s out bt s' :
  analyze fuel confl s = Some (out, bt, s') -> frame s s'.
Proof.
  unfold analyze. cbv zeta.
  destruct (analyze_loop _ _ _ _ _ _ s) as [[[p out1] s1]|] eqn:E1; [|discriminate].
  apply analyze_loop_frame in E1. cbn [mbind option_bind].
  match goal with |- context [set_analyze_toclear ?v s1] =>
    assert (Hs2 : frame s (set_analyze_toclear v s1)) by frame_auto;
    generalize dependent (set_analyze_toclear v s1); intros s2 Hs2 end.
  destruct (ccmin_mode s2 =? 2).
  - destruct (analyze_minimize2 _ _ _ s2) as [[kept s3]|] eqn:E3; [|discriminate].
    apply analyze_minimize2_frame in E3. cbn [mbind option_bind].
    destruct (analyze_btlevel _ _). intros [= <- <- <-].
    eapply frame_trans; [|apply foldl_frame; intros; frame_auto]. frame_auto.
  - destruct (ccmin_mode s2 =? 1); cbn [mbind option_bind];
      destruct (analyze_btlevel _ _); intros [= <- <- <-];
      (eapply frame_trans; [|apply foldl_frame; intros; frame_auto]); frame_auto.
Qed.
#[local] Hint Resolve analyze_frame : frame.

Lemma analyzeFinal_frame p s : frame s (analyzeFinal p s).
Proof.
  unfold analyzeFinal. cbv zeta. case_match; [frame_auto|].
  frame_auto. eapply frame_trans; [|apply foldl_frame]; [frame_auto|].
  intros s1 i. frame_auto.
  all: try (eapply frame_trans; [|apply foldl_frame; intros; frame_auto]); frame_auto.
Qed.
#[local] Hint Resolve analyzeFinal_frame : frame.

Lemma pickBranch_loop_frame fuel : forall next s next' s',
  pickBranch_loop fuel next s = (next', s') -> frame s s'.
Proof.
  induction fuel as [|fuel IH]; intros next s next' s'; cbn [pickBranch_loop].
  - intros [= <- <-]. apply frame_refl.
  - repeat case_match; intros Heq; simplify_eq; try apply frame_refl.
    all: eapply frame_trans; [eapply heap_removeMin_frame; eassumption | eapply IH; eassumption].
Qed.
#[local] Hint Resolve pickBranch_loop_frame : frame.

Lemma pickBranchLit_frame s next s' : pickBranchLit s = (next, s') -> frame s s'.
Proof.
  unfold pickBranchLit. cbv zeta.
  repeat case_match; intros Heq; simplify_eq; frame_auto.
Qed.
#[local] Hint Resolve pickBranchLit_frame : frame.

Lemma reloc_frame cr to s : frame s (reloc cr to s).2.
Proof. unfold reloc. cbv zeta. case_match; simpl; frame_auto. Qed.

Lemma reloc_watchers_frame idx acc : frame acc.2 (reloc_watchers idx acc).2.
Proof.
  destruct acc as [to s]. unfold reloc_watchers.
  match goal with |- context [foldl ?f ?a ?l] =>
    assert (Hfold : forall l0 a0, frame a0.2 (foldl f a0 l0).2) end.
  { induction l0 as [|w l IH]; intros a; [apply frame_refl|].
    simpl. eapply frame_trans; [|apply IH].
    destruct a as [[ws' to'] s0]. simpl.
    pose proof (reloc_frame (cref w) to' s0) as Hr.
    destruct (reloc (cref w) to' s0) as [[cr' to1] s1]. exact Hr. }
  match goal with |- context [foldl ?f ?a ?l] =>
    specialize (Hfold l a); destruct (foldl f a l) as [[ws1 to1] s1] end.
  simpl in *. eapply frame_trans; [exact Hfold|]. frame_auto.
Qed.

Lemma reloc_list_frame cs to s : frame s (reloc_list cs to s).2.
Proof.
  unfold reloc_list.
  match goal with |- context [foldl ?f ?a ?l] =>
    assert (Hfold : forall l0 a0, frame a0.2 (foldl f a0 l0).2) end.
  { induction l0 as [|w l IH]; intros a; [apply frame_refl|].
    simpl. eapply frame_trans; [|apply IH].
    destruct a as [[cs' to'] s0]. simpl.
    destruct (isRemoved s0 w); [apply frame_refl|].
    pose proof (reloc_frame w to' s0) as Hr.
    destruct (reloc w to' s0) as [[cr' to1] s1]. exact Hr. }
  apply (Hfold cs ([], to, s)).
Qed.

Lemma relocAll_frame to s : frame s (relocAll to s).2.
Proof.
  unfold relocAll. cbv zeta.
  match goal with |- context [foldl ?f (to, watches_cleanAll s) ?l] =>
    assert (Hw : forall l0 a0, frame a0.2 (foldl f a0 l0).2) end.
  { induction l0 as [|v l IH]; intros a; [apply frame_refl|].
    simpl. eapply frame_trans; [|apply IH].
    eapply frame_trans; apply reloc_watchers_frame. }
  match goal with |- context [foldl ?f (to, watches_cleanAll s) ?l] =>
    specialize (Hw l (to, watches_cleanAll s));
    destruct (foldl f (to, watches_cleanAll s) l) as [to1 s1] end.
  simpl in Hw.
  assert (Hs1 : frame s s1) by (eapply frame_trans; [|exact Hw]; frame_auto).
  clear Hw.
  match goal with |- context [foldl ?f (to1, s1) ?l] =>
    assert (Hr : forall l0 a0, frame a0.2 (foldl f a0 l0).2) end.
  { induction l0 as [|p l IH]; intros a; [apply frame_refl|].
    simpl. eapply frame_trans; [|apply IH].
    destruct a as [to' s0]. simpl.
    destruct (reason s0 (var p)) as [r|]; [|apply frame_refl].
    destruct (_ || _); [|apply frame_refl].
    pose proof (reloc_frame r to' s0) as Hrel.
    destruct (reloc r to' s0) as [[r' to2] s2]. simpl in *.
    eapply frame_trans; [exact Hrel|]. frame_auto. }
  match goal with |- context [foldl ?f (to1, s1) ?l] =>
    specialize (Hr l (to1, s1));
    destruct (foldl f (to1, s1) l) as [to2 s2] end.
  simpl in Hr.
  pose proof (reloc_list_frame (learnts s2) to2 s2) as Hl.
  destruct (reloc_list (learnts s2) to2 s2) as [[ls to3] s3]. simpl in Hl.
  match goal with |- context [reloc_list ?cs to3 ?s4] =>
    pose proof (reloc_list_frame cs to3 s4) as Hc;
    destruct (reloc_list cs to3 s4) as [[cs' to4] s5] end.
  simpl in *.
  eapply frame_trans; [exact Hs1|]. eapply frame_trans; [exact Hr|].
  eapply frame_trans; [exact Hl|].
  eapply frame_trans; [|eapply frame_trans; [exact Hc|]]; frame_auto.
Qed.

Lemma garbageCollect_frame s : frame s (garbageCollect s).
Proof.
  unfold garbageCollect. pose proof (relocAll_frame [] s) as Hr.
  destruct (relocAll [] s) as [to s1]. simpl in Hr.
  eapply frame_trans; [exact Hr|]. frame_auto.
Qed.
#[local] Hint Resolve garbageCollect_frame : frame.

Lemma checkGarbage_frame s : frame s (checkGarbage s).
Proof. unfold checkGarbage. frame_auto. Qed.
#[local] Hint Resolve checkGarbage_frame : frame.

Lemma reduceDB_loop_frame extra_lim n ls : forall i kept s,
  frame s (reduceDB_loop extra_lim n i ls kept s).2.
Proof.
  induction ls as [|cr ls IH]; intros i kept s; cbn [reduceDB_loop]; [apply frame_refl|].
  cbv zeta. destruct (_ && _); [|apply IH].
  eapply frame_trans; [|apply IH]. frame_auto.
Qed.

Lemma reduceDB_sweep_frame s : frame s (reduceDB_sweep s).
Proof.
  unfold reduceDB_sweep. cbv zeta.
  match goal with |- context [reduceDB_loop ?e ?n ?i ?ls ?k ?s1] =>
    pose proof (reduceDB_loop_frame e n ls i k s1) as Hl;
    destruct (reduceDB_loop e n i ls k s1) as [kept s2] end.
  simpl in Hl. eapply frame_trans; [|eapply frame_trans; [exact Hl|]]; frame_auto.
Qed.
#[local] Hint Resolve reduceDB_sweep_frame : frame.

Lemma reduceDB_frame s : frame s (reduceDB s).
Proof. unfold reduceDB. frame_auto. Qed.
#[local] Hint Resolve reduceDB_frame : frame.

Lemma removeSatisfied_loop_frame cs : forall kept s,
  frame s (removeSatisfied_loop cs kept s).2.
Proof.
  induction cs as [|cr cs IH]; intros kept s; cbn [removeSatisfied_loop];
    [apply frame_refl|].
  cbv zeta. destruct (satisfied _ _); (eapply frame_trans; [|apply IH]); frame_auto.
Qed.

Lemma rebuildOrderHeap_frame s : frame s (rebuildOrderHeap s).
Proof. unfold rebuildOrderHeap. frame_auto. Qed.
#[local] Hint Resolve rebuildOrderHeap_frame : frame.

Lemma install_original_frame bump clause s cr s' :
  install_original bump clause s = (cr, s') -> frame s s'.
Proof.
  unfold install_original. cbv zeta.
  destruct (ca_alloc clause false s) as [cr0 s0] eqn:E. intros [= <- <-].
  apply ca_alloc_frame in E. eapply frame_trans; [exact E|].
  destruct bump; frame_auto.
  eapply frame_trans; [|apply foldl_frame; intros; frame_auto]. apply frame_refl.
Qed.
#[local] Hint Resolve install_original_frame : frame.

(** ** The trail invariant

    The propagation queue never runs ahead of the trail, and the
    decision-level boundaries are non-decreasing positions of the trail.
    The first [assumptions.size()] levels are those of the assumptions, and
    one opened for an assumption that is already true stays empty; every
    level above them holds at least its decision, so its boundary is
    strictly below the next one and below the trail size. *)

(** From position [k] on, adjacent boundaries are strictly increasing. *)
Definition strict_from (k : nat) (l : list nat) : Prop :=
  forall i a b, (k <= i)%nat -> l !! i = Some a -> l !! S i = Some b -> (a < b)%nat.

(** From position [k] on, every boundary is below [n]. *)
Definition below_from (k n : nat) (l : list nat) : Prop :=
  forall i a, (k <= i)%nat -> l !! i = Some a -> (a < n)%nat.

Definition trail_inv (s : Solver) : Prop :=
  (qhead s <= length (trail s))%nat
  /\ StronglySorted le (trail_lim s)
  /\ Forall (fun x => (x <= length (trail s))%nat) (trail_lim s)
  /\ strict_from (length (assumptions s)) (trail_lim s)
  /\ below_from (length (assumptions s)) (length (trail s)) (trail_lim s).

(** [tstep s s']: the step from [s] to [s'] keeps the restart parameters and
    the trail invariant. *)
Definition tstep (s s' : Solver) : Prop :=
  pframe s s' /\ (trail_inv s -> trail_inv s').

Lemma tstep_refl s : tstep s s.
Proof. split; [apply pframe_refl|auto]. Qed.

Lemma tstep_trans s1 s2 s3 : tstep s1 s2 -> tstep s2 s3 -> tstep s1 s3.
Proof. intros [] []. split; [eauto using pframe_trans|auto]. Qed.

Lemma tframe_tstep s s' : tframe s s' -> tstep s s'.
Proof.
  intros [Ht Hl Hq Hp]. split; [assumption|]. unfold trail_inv.
  rewrite Ht, Hl, Hq, (pf_assumptions _ _ Hp). auto.
Qed.

Lemma frame_tstep s s' : frame s s' -> tstep s s'.
Proof. intros []. by apply tframe_tstep. Qed.

Create HintDb tstep discriminated.

Ltac tstep_step :=
  match goal with
  | |- tstep ?s ?s => apply tstep_refl
  | H : tstep ?s ?s' |- tstep ?s ?s' => exact H
  | |- tstep _ (let _ := _ in _) => cbv zeta
  | |- tstep _ (if ?b then _ else _) => destruct b eqn:?
  | |- tstep _ (match ?x with _ => _ end) => destruct x eqn:?
  | |- tstep ?s0 (uncheckedEnqueue ?p ?from (newDecisionLevel ?s')) =>
      apply (tstep_trans s0 s' (uncheckedEnqueue p from (newDecisionLevel s')));
      [ | solve [ eauto with tstep ] ]
  | |- tstep ?s0 (?g ?s') =>
      lazymatch type of s' with
      | Solver =>
          apply (tstep_trans s0 s' (g s'));
          [ | first [ solve [ apply tframe_tstep; repeat constructor ]
                    | solve [ eauto with tstep ]
                    | solve [ apply frame_tstep; eauto with frame ] ] ]
      end
  | |- tstep ?s0 ?s1 =>
      is_var s1; eapply tstep_trans;
      [ | first [ solve [ eauto with tstep ]
                | solve [ apply frame_tstep; eauto with frame ] ] ]
  end.
Ltac tstep_auto := repeat tstep_step.

Lemma foldl_tstep {A} (f : Solver -> A -> Solver) (l : list A) s :
  (forall s x, tstep s (f s x)) -> tstep s (foldl f s l).
Proof.
  intros Hf. revert s. induction l as [|x l IH]; intros s; [apply tstep_refl|].
  simpl. eapply tstep_trans; [apply Hf | apply IH].
Qed.

Lemma uncheckedEnqueue_tstep p from s : tstep s (uncheckedEnqueue p from s).
Proof.
  split; [repeat constructor|].
  intros (Hq & Hs & Hall & Hst & Hbe). unfold trail_inv, uncheckedEnqueue. cbn.
  rewrite length_app. cbn. split; [lia|]. split; [assumption|]. split.
  - eapply Forall_impl; [exact Hall|]. cbn. intros; lia.
  - split; [assumption|]. intros i a Hi Ha. specialize (Hbe i a Hi Ha). lia.
Qed.

Lemma trail_lim_snoc_sorted s :
  StronglySorted le (trail_lim s) ->
  Forall (fun x => (x <= length (trail s))%nat) (trail_lim s) ->
  StronglySorted le (trail_lim s ++ [length (trail s)])
  /\ Forall (fun x => (x <= length (trail s))%nat) (trail_lim s ++ [length (trail s)]).
Proof.
  intros Hs Hall. split.
  - apply StronglySorted_app_2; [|assumption|repeat constructor].
    intros x1 x2 Hx1 Hx2. apply list_elem_of_singleton in Hx2 as ->.
    rewrite Forall_forall in Hall. auto.
  - apply Forall_app. split; [assumption|]. by repeat constructor.
Qed.

(** A level opened for an assumption may stay empty. *)
Lemma newDecisionLevel_tstep s :
  (decisionLevel s < length (assumptions s))%nat -> tstep s (newDecisionLevel s).
Proof.
  intros Hdl. split; [repeat constructor|].
  intros (Hq & Hs & Hall & Hst & Hbe). unfold trail_inv, newDecisionLevel. cbn.
  destruct (trail_lim_snoc_sorted s Hs Hall) as [Hs' Hall'].
  unfold decisionLevel in Hdl.
  split; [assumption|]. split; [assumption|]. split; [assumption|]. split.
  - intros i a b Hi Ha Hb. apply lookup_lt_Some in Hb. rewrite length_app in Hb.
    cbn in Hb. lia.
  - intros i a Hi Ha. apply lookup_lt_Some in Ha. rewrite length_app in Ha.
    cbn in Ha. lia.
Qed.

(** A level opened for a decision holds the decision. *)
Lemma decide_tstep p from s : tstep s (uncheckedEnqueue p from (newDecisionLevel s)).
Proof.
  split; [repeat constructor|].
  intros (Hq & Hs & Hall & Hst & Hbe). unfold trail_inv, uncheckedEnqueue, newDecisionLevel.
  cbn. destruct (trail_lim_snoc_sorted s Hs Hall) as [Hs' Hall'].
  rewrite length_app. cbn. split; [lia|]. split; [assumption|]. split.
  { eapply Forall_impl; [exact Hall'|]. cbn. intros; lia. }
  split.
  - intros i a b Hi Ha Hb.
    destruct (decide (S i < length (trail_lim s))%nat) as [Hlt|Hge].
    + rewrite lookup_app_l in Ha, Hb by lia. eauto.
    + assert (HSi : S i = length (trail_lim s)).
      { apply lookup_lt_Some in Hb. rewrite length_app in Hb. cbn in Hb. lia. }
      rewrite lookup_app_l in Ha by lia.
      rewrite lookup_app_r, HSi, Nat.sub_diag in Hb by lia. injection Hb as <-.
      eauto.
  - intros i a Hi Ha.
    destruct (decide (i < length (trail_lim s))%nat) as [Hlt|Hge].
    + rewrite lookup_app_l in Ha by lia. specialize (Hbe i a Hi Ha). lia.
    + rewrite lookup_app_r in Ha by lia.
      destruct (i - length (trail_lim s))%nat; [|discriminate]. injection Ha as <-. lia.
Qed.
#[local] Hint Resolve uncheckedEnqueue_tstep decide_tstep : tstep.

Lemma StronglySorted_take {A} (R : A -> A -> Prop) n l :
  StronglySorted R l -> StronglySorted R (take n l).
Proof.
  intros Hs. rewrite <- (take_drop n l) in Hs. by apply StronglySorted_app_1_l in Hs.
Qed.

Lemma StronglySorted_lookup {A} (R : A -> A -> Prop) l : forall i j x y,
  StronglySorted R l -> (i < j)%nat -> l !! i = Some x -> l !! j = Some y -> R x y.
Proof.
  induction l as [|a l IH]; intros i j x y Hs Hij Hi Hj; [discriminate|].
  inversion Hs as [|? ? Hs' Hall]; subst.
  destruct j as [|j]; [lia|]. cbn in Hj.
  destruct i as [|i]; cbn in Hi.
  - injection Hi as ->. rewrite List.Forall_forall in Hall. apply Hall.
    apply list_elem_of_In. eapply list_elem_of_lookup_2, Hj.
  - apply (IH i j x y); [assumption|lia|assumption|assumption].
Qed.

Lemma cancelUntil_tstep lvl s : tstep s (cancelUntil lvl s).
Proof.
  unfold cancelUntil. destruct (Z.gtb_spec (Z.of_nat (decisionLevel s)) lvl) as [Hlt|Hge];
    [|apply tstep_refl].
  cbv zeta.
  match goal with |- context [foldl ?f (set_cflr None s) ?l] =>
    assert (Hloop : tframe s (foldl f (set_cflr None s) l));
    [|generalize dependent (foldl f (set_cflr None s) l); intros s1 Hloop] end.
  { match goal with |- tframe _ (foldl ?f ?a ?l) =>
      assert (Hf : forall l0 a0, tframe a0 (foldl f a0 l0)) end.
    { induction l0 as [|c l IH]; intros a; [apply tframe_refl|].
      simpl. eapply tframe_trans; [|apply IH].
      eapply tframe_trans; [|apply fr_tframe, insertVarOrder_frame].
      destruct (_ || _); repeat constructor. }
    eapply tframe_trans; [|apply Hf]. repeat constructor. }
  split.
  { eapply pframe_trans; [apply Hloop|]. repeat constructor. }
  intros (Hq & Hs & Hall & Hst & Hbe). unfold trail_inv, decisionLevel in *. cbn.
  destruct Hloop as [Ht Hl _ Hpf]. rewrite ?Ht, ?Hl, ?(pf_assumptions _ _ Hpf).
  set (n := Z.to_nat lvl) in *.
  set (lim := vget 0%nat (trail_lim s) n).
  assert (Hlim : (lim <= length (trail s))%nat).
  { unfold lim, vget. destruct (trail_lim s !! n) as [x|] eqn:E; cbn; [|lia].
    rewrite Forall_forall in Hall. apply Hall. eapply list_elem_of_lookup_2, E. }
  replace (length (trail s) - (length (trail s) - lim))%nat with lim by lia.
  replace (length (trail_lim s) - (length (trail_lim s) - n))%nat with n by lia.
  rewrite length_take. rewrite Nat.min_l by assumption.
  split; [lia|]. split; [by apply StronglySorted_take|]. split; [|split].
  - apply Forall_forall. intros x Hx.
    apply list_elem_of_lookup in Hx as [i Hi].
    apply lookup_take_Some in Hi as [Hi Hin].
    unfold lim, vget.
    destruct (trail_lim s !! n) as [y|] eqn:E; cbn.
    + eapply (StronglySorted_lookup le); eauto.
    + apply lookup_ge_None in E. lia.
  - intros i a b Hi Ha Hb.
    apply lookup_take_Some in Ha as [Ha _]. apply lookup_take_Some in Hb as [Hb _].
    eauto.
  - intros i a Hi Ha. apply lookup_take_Some in Ha as [Ha Hin].
    unfold lim, vget.
    destruct (trail_lim s !! n) as [y|] eqn:E; cbn; [|apply lookup_ge_None in E; lia].
    destruct (decide (S i = n)) as [<-|Hne]; [eauto|].
    destruct (lookup_lt_is_Some_2 (trail_lim s) (S i)) as [b Hb]; [lia|].
    specialize (Hst i a b Hi Ha Hb).
    assert (b <= y)%nat by (eapply (StronglySorted_lookup le (trail_lim s) (S i) n); eauto; lia).
    lia.
Qed.
#[local] Hint Resolve cancelUntil_tstep : tstep.

(** ** Propagation moves only the end of the trail *)

(** [grows s s']: the trail of [s'] extends the trail of [s]; boundaries,
    queue head and restart parameters are the same. *)
Record grows (s s' : Solver) : Prop := mk_grows {
  gr_pframe : pframe s s';
  gr_trail_lim : trail_lim s' = trail_lim s;
  gr_trail : exists ext, trail s' = trail s ++ ext;
  gr_qhead : qhead s' = qhead s;
}.

Lemma grows_refl s : grows s s.
Proof. constructor; auto using pframe_refl. exists []. by rewrite app_nil_r. Qed.

Lemma grows_trans s1 s2 s3 : grows s1 s2 -> grows s2 s3 -> grows s1 s3.
Proof.
  intros [Hp1 Hl1 [e1 He1] Hq1] [Hp2 Hl2 [e2 He2] Hq2].
  constructor; try congruence; [eauto using pframe_trans|].
  exists (e1 ++ e2). rewrite He2, He1. by rewrite app_assoc.
Qed.

Lemma frame_grows s s' : frame s s' -> grows s s'.
Proof.
  intros [_ _ _ [Ht Hl Hq Hp]]. constructor; auto. exists []. by rewrite app_nil_r.
Qed.

Lemma uncheckedEnqueue_grows p from s : grows s (uncheckedEnqueue p from s).
Proof. constructor; try reflexivity; [repeat constructor|]. by exists [p]. Qed.

Lemma propagate_watchers_spec p ws : forall kept s ws' confl s',
  propagate_watchers p ws kept s = (ws', confl, s') ->
  exists s1, grows s s1
    /\ match confl with
       | None => s' = s1
       | Some _ => s' = set_qhead (length (trail s1)) s1
       end.
Proof.
  induction ws as [|w ws IH]; intros kept s ws' confl s'; cbn [propagate_watchers].
  - intros [= <- <- <-]. exists s. split; [apply grows_refl|reflexivity].
  - cbv zeta. destruct (lbool_eqb (value s (blocker w)) l_True); [apply IH|].
    match goal with |- context [if lit_eqb ?a ?b then ?x else s] =>
      assert (Hs0 : frame s (if lit_eqb a b then x else s));
      [destruct (lit_eqb a b); [apply update_clause_frame|apply frame_refl]
      |generalize dependent (if lit_eqb a b then x else s); intros s0 Hs0] end.
    apply frame_grows in Hs0.
    destruct (_ && _).
    { intros Heq. apply IH in Heq as (s1 & Hg & Hc). exists s1.
      split; [eapply grows_trans; eassumption|assumption]. }
    destruct (find_new_watch _ _ _) as [k|].
    { intros Heq. apply IH in Heq as (s1 & Hg & Hc). exists s1.
      split; [|assumption]. eapply grows_trans; [exact Hs0|].
      eapply grows_trans; [|exact Hg]. apply frame_grows. frame_auto. }
    destruct (lbool_eqb _ l_False).
    { intros [= <- <- <-]. exists s0. split; [assumption|reflexivity]. }
    intros Heq. apply IH in Heq as (s1 & Hg & Hc). exists s1.
    split; [|assumption]. eapply grows_trans; [exact Hs0|].
    eapply grows_trans; [|exact Hg]. apply uncheckedEnqueue_grows.
Qed.

Lemma propagate_loop_spec fuel : forall confl n s confl' n' s',
  propagate_loop fuel confl n s = Some (confl', n', s') ->
  pframe s s' /\ trail_lim s' = trail_lim s
  /\ (exists ext, trail s' = trail s ++ ext)
  /\ ((qhead s <= length (trail s))%nat -> qhead s' = length (trail s')).
Proof.
  induction fuel as [|fuel IH]; intros confl n s confl' n' s'; cbn [propagate_loop].
  - destruct (Nat.ltb_spec (qhead s) (length (trail s))); [discriminate|].
    intros [= <- <- <-].
    split; [apply pframe_refl|]. split; [reflexivity|].
    split; [exists []; by rewrite app_nil_r|lia].
  - destruct (Nat.ltb_spec (qhead s) (length (trail s))) as [Hlt|Hge].
    2:{ intros [= <- <- <-].
        split; [apply pframe_refl|]. split; [reflexivity|].
        split; [exists []; by rewrite app_nil_r|lia]. }
    cbv zeta.
    set (p := lit_at (trail s) (qhead s)).
    set (sa := watches_lookup p (set_qhead (S (qhead s)) s)).
    assert (Hsa : frame (set_qhead (S (qhead s)) s) sa) by apply watches_lookup_frame.
    destruct (propagate_watchers p (watches_of sa p) [] sa) as [[ws1 confl1] s1] eqn:E.
    apply propagate_watchers_spec in E as (s2 & Hg & Hc).
    intros Heq. apply IH in Heq.
    destruct Heq as (Hp & Hl & [ext Ht] & Hqe).
    destruct Hsa as [_ _ _ [Hta Hla Hqa Hpa]]. cbn in Hta, Hla, Hqa.
    destruct Hg as [Hpg Hlg [e2 Htg] Hqg].
    assert (Hs1 : pframe s s1 /\ trail_lim s1 = trail_lim s /\ trail s1 = trail s ++ e2
                  /\ (qhead s1 <= length (trail s1))%nat).
    { assert (pframe s s2).
      { eapply pframe_trans; [|exact Hpg]. eapply pframe_trans; [|exact Hpa].
        repeat constructor. }
      destruct confl1; subst s1;
        (split; [eapply pframe_trans; [eassumption|repeat constructor]|]);
        cbn; (split; [congruence|]); (split; [congruence|]); [lia|].
      rewrite Hqg, Hqa, Htg, Hta, length_app. lia. }
    destruct Hs1 as (Hp1 & Hl1 & Ht1 & Hq1).
    unfold set_watches_of in Hp, Hl, Ht, Hqe. cbn in Hp, Hl, Ht, Hqe.
    split; [|split; [|split]].
    + eapply pframe_trans; [exact Hp1|]. eapply pframe_trans; [|exact Hp].
      repeat constructor.
    + congruence.
    + exists (e2 ++ ext). rewrite Ht, Ht1. by rewrite app_assoc.
    + intros _. apply Hqe. assumption.
Qed.

Lemma propagate_spec fuel s confl s' :
  propagate fuel s = Some (confl, s') ->
  pframe s s' /\ trail_lim s' = trail_lim s
  /\ (exists ext, trail s' = trail s ++ ext)
  /\ ((qhead s <= length (trail s))%nat -> qhead s' = length (trail s')).
Proof.
  unfold propagate.
  destruct (propagate_loop fuel None 0 s) as [[[c n] s1]|] eqn:E; [|discriminate].
  cbn. intros [= <- <-]. apply propagate_loop_spec in E.
  destruct E as (Hp & Hl & Ht & Hqe). cbn.
  split; [|split; [|split]]; try assumption.
  eapply pframe_trans; [exact Hp|]. repeat constructor.
Qed.

Lemma propagate_tstep fuel s confl s' :
  propagate fuel s = Some (confl, s') -> tstep s s'.
Proof.
  intros Hprop. apply propagate_spec in Hprop as (Hp & Hl & [ext Ht] & Hq).
  split; [assumption|]. intros (Hq0 & Hs & Hall & Hst & Hbe). unfold trail_inv.
  rewrite Hl, Hq, Ht, (pf_assumptions _ _ Hp) by assumption.
  split; [lia|]. split; [assumption|]. split; [|split; [assumption|]].
  - eapply Forall_impl; [exact Hall|]. cbn. intros x Hx. rewrite length_app. lia.
  - intros i a Hi Ha. specialize (Hbe i a Hi Ha). rewrite length_app. lia.
Qed.
#[local] Hint Resolve propagate_tstep : tstep.

(** ** Level-0 simplification, ingestion and the search round *)

Lemma remove_released_spec s :
  pframe s (remove_released s) /\ trail_lim (remove_released s) = trail_lim s
  /\ qhead (remove_released s) = length (trail (remove_released s)).
Proof.
  unfold remove_released. cbv zeta.
  match goal with |- context [foldl ?f s ?l] => set (s1 := foldl f s l) end.
  assert (Hs1 : frame s s1) by (apply foldl_frame; intros; frame_auto).
  match goal with |- context [set_qhead ?q (set_trail ?t s1)] =>
    set (s3 := set_qhead q (set_trail t s1)) end.
  match goal with |- context [foldl ?f s3 ?l] => set (s4 := foldl f s3 l) end.
  assert (Hs4 : frame s3 s4) by (apply foldl_frame; intros; frame_auto).
  assert (Hq3 : qhead s3 = length (trail s3)) by reflexivity.
  assert (Hl3 : trail_lim s3 = trail_lim s1) by reflexivity.
  assert (Hp3 : pframe s1 s3) by repeat constructor.
  clearbody s1 s3 s4.
  destruct Hs1 as [_ _ _ [Ht1 Hl1 Hq1 Hp1]].
  destruct Hs4 as [_ _ _ [Ht4 Hl4 Hq4 Hp4]].
  cbn. rewrite Hl4, Hq4, Ht4, Hl3, Hl1. split; [|split; [reflexivity|assumption]].
  eapply pframe_trans; [exact Hp1|]. eapply pframe_trans; [exact Hp3|].
  eapply pframe_trans; [exact Hp4|]. repeat constructor.
Qed.

Lemma simplify_spec fuel s r s' :
  simplify fuel s = Some (r, s') ->
  pframe s s' /\ trail_lim s' = trail_lim s
  /\ ((qhead s <= length (trail s))%nat -> (qhead s' <= length (trail s'))%nat).
Proof.
  unfold simplify. destruct (ok s); cbn [negb].
  2:{ intros [= <- <-]. split; [repeat constructor|]. split; [reflexivity|auto]. }
  destruct (propagate fuel s) as [[confl s1]|] eqn:E; [|discriminate].
  apply propagate_spec in E as (Hp & Hl & _ & Hq). cbn [mbind option_bind].
  destruct confl.
  { intros [= <- <-]. cbn. split; [|split; [assumption|intros Hq0; rewrite Hq; auto]].
    eapply pframe_trans; [exact Hp|]. repeat constructor. }
  destruct (_ || _).
  { intros [= <- <-]. split; [assumption|]. split; [assumption|].
    intros Hq0; rewrite Hq; auto. }
  pose proof (removeSatisfied_loop_frame (learnts s1) [] s1) as Hl1.
  destruct (removeSatisfied_loop (learnts s1) [] s1) as [ls s2]. cbn in Hl1.
  match goal with |- context [checkGarbage ?x] =>
    assert (Hx : pframe s1 x /\ trail_lim x = trail_lim s1
                 /\ ((qhead s1 <= length (trail s1))%nat ->
                     (qhead x <= length (trail x))%nat));
    [|generalize dependent x; intros s4 Hx] end.
  { destruct (remove_satisfied (set_learnts ls s2)).
    - match goal with |- context [removeSatisfied_loop ?cs ?k ?x] =>
        pose proof (removeSatisfied_loop_frame cs k x) as Hl2;
        destruct (removeSatisfied_loop cs k x) as [cs2 s3] end.
      cbn in Hl2.
      destruct (remove_released_spec (set_clauses cs2 s3)) as (Hp3 & Hl3 & Hq3).
      destruct Hl1 as [_ _ _ [Ht1 Hll1 Hq1 Hp1]].
      destruct Hl2 as [_ _ _ [Ht2 Hll2 Hq2 Hp2]]. cbn in *.
      split; [|split].
      + eapply pframe_trans; [exact Hp1|]. eapply pframe_trans; [|exact Hp3].
        eapply pframe_trans; [|eapply pframe_trans; [exact Hp2|]]; repeat constructor.
      + congruence.
      + intros _. rewrite Hq3. lia.
    - destruct Hl1 as [_ _ _ [Ht1 Hll1 Hq1 Hp1]]. cbn.
      split; [|split; [assumption|rewrite Hq1, Ht1; auto]].
      eapply pframe_trans; [exact Hp1|]. repeat constructor. }
  assert (Hfin : frame s4 (rebuildOrderHeap (checkGarbage s4))) by frame_auto.
  generalize dependent (rebuildOrderHeap (checkGarbage s4)). intros s5 Hfin.
  intros [= <- <-].
  destruct Hfin as [_ _ _ [Ht5 Hl5 Hq5 Hp5]].
  destruct Hx as (Hp4 & Hl4 & Hq4). cbn. rewrite Hl5, Hq5, Ht5.
  split; [|split; [congruence|]].
  - eapply pframe_trans; [exact Hp|]. eapply pframe_trans; [exact Hp4|].
    eapply pframe_trans; [exact Hp5|]. repeat constructor.
  - intros Hq0. apply Hq4. rewrite Hq by assumption. lia.
Qed.

Lemma simplify_tstep fuel s r s' :
  trail_lim s = [] -> simplify fuel s = Some (r, s') -> tstep s s'.
Proof.
  intros Hnil Hsimp. apply simplify_spec in Hsimp as (Hp & Hl & Hq).
  split; [assumption|]. intros (Hq0 & _). unfold trail_inv.
  rewrite Hl, Hnil. split; [auto|]. split; [constructor|]. split; [constructor|].
  split; [intros i a b _ Ha|intros i a _ Ha]; discriminate.
Qed.

Lemma install_learnt_tstep learnt_clause s : tstep s (install_learnt learnt_clause s).
Proof.
  unfold install_learnt. destruct (Nat.eqb _ 1); [tstep_auto|].
  destruct (ca_alloc learnt_clause true s) as [cr s1] eqn:E.
  apply ca_alloc_frame, frame_tstep in E.
  eapply tstep_trans; [exact E|]. cbv zeta. tstep_auto.
Qed.
#[local] Hint Resolve install_learnt_tstep : tstep.

Lemma install_original_tstep bump clause s cr s' :
  install_original bump clause s = (cr, s') -> tstep s s'.
Proof. intros E. apply frame_tstep. eauto with frame. Qed.

Lemma analyze_tstep fuel confl s out bt s' :
  analyze fuel confl s = Some (out, bt, s') -> tstep s s'.
Proof. intros E. apply frame_tstep. eauto with frame. Qed.
#[local] Hint Resolve install_original_tstep analyze_tstep : tstep.

Lemma addClauseDuringSearch_tstep fuel clause s r s' :
  addClauseDuringSearch fuel clause s = Some (r, s') -> tstep s s'.
Proof.
  unfold addClauseDuringSearch. cbv zeta.
  destruct (Nat.eqb (length clause) 0); [intros [= <- <-]; apply tstep_refl|].
  set (c := std_sort (addClause_cmp s) clause).
  destruct (Nat.eqb _ (length c)); [intros [= <- <-]; tstep_auto|].
  destruct (_ && _); [intros [= <- <-]; apply tstep_refl|].
  destruct (Nat.eqb _ 1).
  { destruct (install_original _ _ _) as [cr s1] eqn:E. intros [= <- <-].
    apply install_original_tstep in E. tstep_auto. }
  destruct (_ <? _)%nat.
  { destruct (install_original _ _ _) as [cr s1] eqn:E.
    apply install_original_tstep in E.
    destruct (analyze fuel cr s1) as [[[out bt] s2]|] eqn:E2; [|discriminate].
    apply analyze_tstep in E2. cbn [mbind option_bind]. intros [= <- <-].
    tstep_auto. }
  destruct (_ <? _)%nat.
  { destruct (install_original _ _ _) as [cr s1] eqn:E. intros [= <- <-].
    apply install_original_tstep in E. tstep_auto. }
  intros [= <- <-]. tstep_auto.
Qed.

Lemma ingest_lemma_tstep fuel clause s r s' :
  ingest_lemma fuel clause s = Some (r, s') -> tstep s s'.
Proof.
  unfold ingest_lemma.
  destruct (addClauseDuringSearch fuel clause s) as [[[] s1]|] eqn:E; [| |discriminate];
    intros [= <- <-]; eapply addClauseDuringSearch_tstep, E.
Qed.
#[local] Hint Resolve addClauseDuringSearch_tstep ingest_lemma_tstep : tstep.

Lemma checkAssignment_tstep fuel full s r s' :
  checkAssignment fuel full s = Some (r, s') -> tstep s s'.
Proof.
  unfold checkAssignment. cbv zeta.
  destruct (checker_check _ _ _) as [thrown o].
  destruct thrown as [fg|].
  { intros E. apply ingest_lemma_tstep in E.
    eapply tstep_trans; [|exact E]. tstep_auto. }
  match goal with |- context [if ?b then _ else (None, ?x)] =>
    destruct b end.
  - destruct (checker010_check _ _ _) as [t o2].
    set (s2 := set_sms_oracle o2 (set_sms_oracle o s)).
    assert (Hs2 : tstep s s2) by (unfold s2; tstep_auto).
    destruct t as [[|cl cls]|].
    + repeat case_match; intros E; simplify_eq; try assumption.
      all: eapply tstep_trans; [exact Hs2|]; eapply ingest_lemma_tstep; eassumption.
    + intros E. eapply tstep_trans; [exact Hs2|]. eapply ingest_lemma_tstep, E.
    + repeat case_match; intros E; simplify_eq; try assumption.
      all: eapply tstep_trans; [exact Hs2|]; eapply ingest_lemma_tstep; eassumption.
  - set (s2 := set_sms_oracle o s).
    assert (Hs2 : tstep s s2) by (unfold s2; tstep_auto).
    repeat case_match; intros E; simplify_eq; try assumption.
    all: eapply tstep_trans; [exact Hs2|]; eapply ingest_lemma_tstep; eassumption.
Qed.
#[local] Hint Resolve checkAssignment_tstep : tstep.

Lemma assumption_loop_tstep fuel : forall s,
  match assumption_loop fuel s with
  | AssumeNext _ s' => tstep s s'
  | AssumeFalse s' => tstep s s'
  end.
Proof.
  induction fuel as [|fuel IH]; intros s; cbn [assumption_loop]; [apply tstep_refl|].
  destruct (Nat.ltb_spec (decisionLevel s) (length (assumptions s))) as [Hdl|_];
    [|apply tstep_refl].
  cbv zeta. destruct (value s _).
  - specialize (IH (newDecisionLevel s)).
    destruct (assumption_loop fuel (newDecisionLevel s));
      (eapply tstep_trans; [apply newDecisionLevel_tstep, Hdl|exact IH]).
  - apply frame_tstep, analyzeFinal_frame.
  - apply tstep_refl.
Qed.

(** Enter the outermost [let] of the left-hand side: [let_state s0] names a
    solver state and records that it is a [tstep] from [s0]; [let_value]
    substitutes a plain value. *)
Ltac let_state s0 :=
  lazymatch goal with
  | |- (let x := ?v in @?b x) = ?r -> ?P =>
      let Hs := fresh "Hs" in
      let y := fresh "s" in
      assert (Hs : tstep s0 v) by tstep_auto;
      change (b v = r -> P); revert Hs; generalize v; intros y Hs; cbv beta
  end.
Ltac let_value :=
  lazymatch goal with
  | |- (let x := ?v in @?b x) = ?r -> ?P => change (b v = r -> P); cbv beta
  end.
Ltac bind_step := cbn beta iota delta [mbind option_bind].

Lemma search_step_tstep fuel nof conflictC start s r :
  search_step fuel nof conflictC start s = Some r ->
  match r with
  | Continue _ _ s' => tstep s s'
  | Return _ s' => tstep s s'
  end.
Proof.
  cbv beta delta [search_step].
  destruct (clock (sms_oracle s)) as [search_end o]. cbv beta iota.
  let_state s. let_state s. let_value.
  destruct (propagate fuel s1) as [[confl s2]|] eqn:E; [|discriminate].
  apply propagate_tstep in E. bind_step.
  assert (Hs2 : tstep s s2) by (eapply tstep_trans; eassumption).
  clear E. destruct confl as [confl|].
  - (* conflict *)
    let_state s. let_value.
    destruct (Nat.eqb _ 0); [intros [= <-]; assumption|].
    destruct (analyze fuel confl s3) as [[[out bt] s4]|] eqn:E; [|discriminate].
    apply analyze_tstep in E. bind_step.
    assert (Hs4 : tstep s s4) by (eapply tstep_trans; eassumption).
    do 6 let_state s. intros [= <-]. assumption.
  - (* no conflict *)
    destruct (_ || _).
    { let_state s. intros [= <-]. tstep_auto. }
    match goal with |- context [if Nat.eqb (decisionLevel s2) 0 then ?a else ?b] =>
      assert (Hsimp : forall ok' s3, (if Nat.eqb (decisionLevel s2) 0 then a else b)
                                     = Some (ok', s3) -> tstep s s3);
      [|destruct (if Nat.eqb (decisionLevel s2) 0 then a else b) as [[ok' s3]|];
        [specialize (Hsimp _ _ eq_refl)|discriminate]] end.
    { intros ok' s3. destruct (Nat.eqb_spec (decisionLevel s2) 0) as [Hdl|Hdl].
      - intros E. eapply tstep_trans; [exact Hs2|]. eapply simplify_tstep; [|exact E].
        unfold decisionLevel in Hdl. by apply length_zero_iff_nil.
      - intros [= <- <-]. assumption. }
    bind_step. destruct ok'; cbv beta iota delta [negb]; [|intros [= <-]; assumption].
    let_state s. do 2 let_value.
    destruct (checkAssignment fuel _ s4) as [[st s5]|] eqn:E; [|discriminate].
    apply checkAssignment_tstep in E. bind_step.
    assert (Hs5 : tstep s s5) by (eapply tstep_trans; eassumption).
    destruct (st =? 0); [intros [= <-]; assumption|].
    destruct (st =? -1); [intros [= <-]; assumption|].
    pose proof (assumption_loop_tstep (length (assumptions s5)) s5) as Ha.
    destruct (assumption_loop _ s5) as [next s6|s6];
      [|intros [= <-]; eapply tstep_trans; eassumption].
    assert (Hs6 : tstep s s6) by (eapply tstep_trans; eassumption).
    destruct next as [p|].
    + intros [= <-]. tstep_auto.
    + cbv zeta. destruct (pickBranchLit _) as [next s8] eqn:E8.
      apply pickBranchLit_frame, frame_tstep in E8.
      assert (Hs8 : tstep s s8).
      { eapply tstep_trans; [exact Hs6|]. eapply tstep_trans; [|exact E8]. tstep_auto. }
      destruct next; intros [= <-]; tstep_auto.
Qed.

Lemma search_loop_tstep fuel rounds : forall nof conflictC start s st s',
  search_loop fuel rounds nof conflictC start s = Some (st, s') -> tstep s s'.
Proof.
  induction rounds as [|rounds IH]; intros nof conflictC start s st s'; [discriminate|].
  cbn [search_loop].
  destruct (search_step fuel nof conflictC start s) as [r|] eqn:E; [|discriminate].
  apply search_step_tstep in E. cbn [mbind option_bind].
  destruct r as [c t s1|st1 s1].
  - intros E2. apply IH in E2. eapply tstep_trans; eassumption.
  - intros [= <- <-]. assumption.
Qed.

Lemma search_tstep fuel nof s st s' : search fuel nof s = Some (st, s') -> tstep s s'.
Proof.
  unfold search. destruct (clock _) as [t o]. intros E.
  apply search_loop_tstep in E. eapply tstep_trans; [|exact E]. tstep_auto.
Qed.

Lemma search_round_state_tstep fuel nof n : forall conflictC start s s',
  search_round_state fuel nof n conflictC start s = Some s' -> tstep s s'.
Proof.
  induction n as [|n IH]; intros conflictC start s s'; cbn [search_round_state].
  - intros [= <-]. apply tstep_refl.
  - destruct (search_step fuel nof conflictC start s) as [[c t s1|]|] eqn:E;
      try discriminate.
    apply search_step_tstep in E. intros E2. apply IH in E2.
    eapply tstep_trans; eassumption.
Qed.

(** ** The search loop and the restart driver *)

(** Adjacent decision-level boundaries are non-decreasing. *)
Definition trail_lim_mono (s : Solver) : Prop :=
  forall i a b, trail_lim s !! i = Some a -> trail_lim s !! S i = Some b -> (a <= b)%nat.

(** Adjacent decision-level boundaries are strictly increasing. *)
Definition trail_lim_strict (s : Solver) : Prop :=
  forall i a b, trail_lim s !! i = Some a -> trail_lim s !! S i = Some b -> (a < b)%nat.


(** The restart parameters are the same before and after [search]. *)
Lemma search_pframe fuel nof s st s' : search fuel nof s = Some (st, s') -> pframe s s'.
Proof. intros E. by apply search_tstep in E as [Hp _]. Qed.

(** The conflict limit of restart [k]: [luby(restart_inc, k) * restart_first]
    converted to [int]. *)
Definition restart_limit (s : Solver) (e : Z) : Z :=
  d_trunc (d_mul (d_pow (restart_inc s) (d_of_Z e)) (d_of_Z (restart_first s))).

Lemma restart_loop_limits fuel rounds : forall k0 s st s' limits i lim,
  luby_restart s = true ->
  restart_loop fuel rounds (Z.of_nat k0) s = Some (st, s', limits) ->
  limits !! i = Some lim ->
  exists e, luby_seq (Z.of_nat (k0 + i)) = Some e /\ lim = restart_limit s e.
Proof.
  induction rounds as [|rounds IH]; intros k0 s st s' limits i lim Hluby; [discriminate|].
  cbn [restart_loop]. rewrite Hluby. unfold luby.
  destruct (luby_seq (Z.of_nat k0)) as [e|] eqn:Ee; [|discriminate].
  cbn beta iota delta [mbind option_bind].
  fold (restart_limit s e).
  destruct (search fuel (restart_limit s e) s) as [[st1 s1]|] eqn:Es; [|discriminate].
  apply search_pframe in Es as [Hl Hi Hf _].
  cbn beta iota delta [mbind option_bind].
  destruct (negb (withinBudget s1)).
  { intros [= <- <- <-] Hlim. destruct i; [|discriminate]. injection Hlim as <-.
    exists e. rewrite Nat.add_0_r. auto. }
  destruct st1.
  1,2: intros [= <- <- <-] Hlim; (destruct i; [|discriminate]); injection Hlim as <-;
       exists e; rewrite Nat.add_0_r; auto.
  replace (Z.of_nat k0 + 1) with (Z.of_nat (S k0)) by lia.
  destruct (restart_loop fuel rounds (Z.of_nat (S k0)) s1) as [[[st2 s2] limits2]|] eqn:Er;
    [|discriminate].
  cbn beta iota delta [mbind option_bind]. intros [= <- <- <-] Hlim.
  destruct i as [|i].
  - injection Hlim as <-. exists e. rewrite Nat.add_0_r. auto.
  - cbn in Hlim. destruct (IH (S k0) s1 st2 s2 limits2 i lim) as (e' & He' & Hlim');
      [congruence|assumption|assumption|].
    exists e'. replace (k0 + S i)%nat with (S k0 + i)%nat by lia.
    split; [assumption|]. rewrite Hlim'. unfold restart_limit. by rewrite Hi, Hf.
Qed.

(** C9. With Luby restarts, the [k]-th call of [search] made by the restart
    loop receives [luby(restart_inc, k) * restart_first], where
    [luby(y, k) = pow(y, e)] and [2^e] is element [k] of the Luby sequence
    1, 1, 2, 1, 1, 2, 4, ... *)
Theorem restart_limits_follow_luby fuel rounds s st s' limits k lim n :
  luby_restart s = true ->
  restart_loop fuel rounds 0 s = Some (st, s', limits) ->
  limits !! k = Some lim ->
  (k < length (luby_block n))%nat ->
  exists e, luby (restart_inc s) (Z.of_nat k) = Some (d_pow (restart_inc s) (d_of_Z e))
            /\ 2 ^ e = nth k (luby_block n) 0
            /\ lim = d_trunc (d_mul (d_pow (restart_inc s) (d_of_Z e))
                                    (d_of_Z (restart_first s))).
Proof.
  intros Hluby Hloop Hlim Hk.
  destruct (restart_loop_limits fuel rounds 0%nat s st s' limits k lim Hluby Hloop Hlim)
    as (e & He & ->).
  change (0 + k)%nat with k in He. destruct (luby_seq_spec n k Hk) as (e' & He' & Hpow).
  assert (e' = e) by congruence. subst e'.
  exists e. unfold luby. rewrite He. auto.
Qed.

(** ** Permanent infeasibility *)

Lemma cancelUntil_ok_conflict lvl s :
  ok (cancelUntil lvl s) = ok s /\ conflict (cancelUntil lvl s) = conflict s.
Proof.
  unfold cancelUntil. destruct (_ >? _); [|auto]. cbv zeta.
  match goal with |- context [foldl ?f ?a ?l] =>
    assert (Hf : forall l0 a0, ok (foldl f a0 l0) = ok a0
                               /\ conflict (foldl f a0 l0) = conflict a0) end.
  { induction l0 as [|c l IH]; intros a; [auto|].
    cbn [foldl].
    match goal with |- context [foldl _ ?x l] => destruct (IH x) as [-> ->] end.
    unfold insertVarOrder. cbv zeta. repeat case_match; auto. }
  match goal with |- context [foldl ?f ?a ?l] =>
    destruct (Hf l a) as [Hok Hc]; generalize dependent (foldl f a l); intros s1 Hok Hc end.
  cbn. auto.
Qed.

Ltac let_eq :=
  lazymatch goal with
  | |- (let x := ?v in @?b x) = ?r => change (b v = r); cbv beta
  end.

Lemma solve_not_ok fuel s :
  ok s = false -> solve_ fuel s = Some (l_False, set_conflict [] (set_model [] s)).
Proof.
  intros Hok. cbv beta delta [solve_]. do 2 let_eq.
  change (ok (set_conflict [] (set_model [] s))) with (ok s). rewrite Hok. reflexivity.
Qed.

Lemma solve_unsat_root_clears_ok fuel s s1 :
  solve_ fuel s = Some (l_False, s1) -> conflict s1 = [] -> ok s1 = false.
Proof.
  cbv beta delta [solve_]. do 2 let_value.
  change (ok (set_conflict [] (set_model [] s))) with (ok s).
  destruct (ok s) eqn:Hok; cbv beta iota delta [negb].
  2:{ intros [= <-] _. exact Hok. }
  do 6 let_value.
  match goal with |- context [restart_loop fuel fuel 0 ?x] =>
    destruct (restart_loop fuel fuel 0 x) as [[[st s2] limits]|]; [|discriminate] end.
  bind_step. let_value.
  intros [= -> <-].
  destruct (cancelUntil_ok_conflict 0
              (if length (conflict s2) =? 0 then set_ok false s2 else s2)%nat) as [-> ->].
  destruct (Nat.eqb_spec (length (conflict s2)) 0) as [Hz|Hnz]; [reflexivity|].
  intros Hc. rewrite Hc in Hnz. contradiction.
Qed.

(** C8. Once [solve_] has returned UNSAT with an empty assumption conflict,
    [ok] is false, and every later call of [solve_], whatever its
    assumptions and fuel, returns [l_False] without starting a search. *)
Theorem solve_unsat_at_root_is_permanent fuel s s1 calls :
  solve_ fuel s = Some (l_False, s1) ->
  conflict s1 = [] ->
  ok s1 = false
  /\ (solve_calls calls s1).1 = replicate (length calls) (Some l_False)
  /\ starts (solve_calls calls s1).2 = starts s1
  /\ ok (solve_calls calls s1).2 = false.
Proof.
  intros Hsolve Hconfl.
  pose proof (solve_unsat_root_clears_ok fuel s s1 Hsolve Hconfl) as Hok.
  split; [assumption|]. clear Hsolve Hconfl. revert s1 Hok.
  induction calls as [|[assumps fuel'] calls IH]; intros s1 Hok; [auto|].
  cbn [solve_calls].
  rewrite (solve_not_ok fuel' (set_assumptions assumps s1)) by exact Hok.
  match goal with |- context [solve_calls calls ?x] =>
    destruct (IH x) as (Hrs & Hst & Hok'); [exact Hok|];
    destruct (solve_calls calls x) as [rs s2] end.
  cbn [fst snd] in *. rewrite Hrs. auto.
Qed.

(** ** The backtrack level of conflict analysis *)

(** Every recorded decision level is non-negative. *)
Definition levels_nonneg (s : Solver) : Prop :=
  Forall (fun vd => 0 <= vd_level vd) (vardata s).

Lemma levels_nonneg_level s x : levels_nonneg s -> 0 <= level s x.
Proof.
  intros Hall. unfold level, vget. destruct (vardata s !! x) as [vd|] eqn:E; cbn; [|lia].
  unfold levels_nonneg in Hall. rewrite Forall_forall in Hall.
  apply Hall. eapply list_elem_of_lookup_2, E.
Qed.

Lemma uncheckedEnqueue_levels_nonneg p from s :
  levels_nonneg s -> levels_nonneg (uncheckedEnqueue p from s).
Proof.
  unfold levels_nonneg, uncheckedEnqueue. cbn. intros Hall.
  apply Forall_insert; [assumption|]. cbn. lia.
Qed.

Lemma frame_level s s' x : frame s s' -> level s' x = level s x.
Proof.
  intros [_ Hl _ _]. unfold level, vget.
  assert (Hx : (vd_level <$> vardata s') !! x = (vd_level <$> vardata s) !! x)
    by (by rewrite Hl).
  rewrite !list_lookup_fmap in Hx.
  destruct (vardata s' !! x), (vardata s !! x); cbn in *; congruence.
Qed.

Lemma find_max_i_spec s out : forall rest i max_i,
  drop i out = rest -> (1 <= max_i < i)%nat -> (i <= length out)%nat \/ rest = [] ->
  (forall j, (1 <= j < i)%nat ->
             level s (var (lit_at out j)) <= level s (var (lit_at out max_i))) ->
  let m := find_max_i s out i max_i rest in
  (1 <= m)%nat /\ (m < Nat.max i (length out))%nat
  /\ forall j, (1 <= j < Nat.max i (length out))%nat ->
               level s (var (lit_at out j)) <= level s (var (lit_at out m)).
Proof.
  induction rest as [|q rest IH]; intros i max_i Hdrop Hmax Hi Hle; cbn [find_max_i].
  - assert (length out <= i)%nat.
    { apply (f_equal length) in Hdrop. rewrite length_drop in Hdrop. cbn in Hdrop. lia. }
    rewrite Nat.max_l by lia. cbv zeta. repeat split; try lia. assumption.
  - assert (Hlen : (i < length out)%nat).
    { apply (f_equal length) in Hdrop. rewrite length_drop in Hdrop. cbn in Hdrop. lia. }
    assert (Hlk : out !! i = Some q).
    { rewrite <- (Nat.add_0_r i), <- lookup_drop, Hdrop. reflexivity. }
    assert (Hq : lit_at out i = q) by (unfold lit_at, vget; by rewrite Hlk).
    assert (Hrest : drop (S i) out = rest).
    { rewrite (drop_S _ _ _ Hlk) in Hdrop. by injection Hdrop. }
    specialize (IH (S i)
      (if level s (var q) >? level s (var (lit_at out max_i)) then i else max_i) Hrest).
    cbv zeta in IH.
    replace (Nat.max i (length out)) with (Nat.max (S i) (length out)) by lia.
    apply IH.
    + destruct (_ >? _); lia.
    + left. lia.
    + intros j Hj. destruct (Z.gtb_spec (level s (var q)) (level s (var (lit_at out max_i))))
        as [Hgt|Hngt].
      * destruct (Nat.eq_dec j i) as [->|Hne]; [lia|].
        specialize (Hle j ltac:(lia)). rewrite Hq. lia.
      * destruct (Nat.eq_dec j i) as [->|Hne]; [rewrite Hq; lia|].
        apply Hle. lia.
Qed.

Lemma analyze_btlevel_spec s out out' bt :
  analyze_btlevel s out = (out', bt) ->
  length out' = length out
  /\ (length out = 1%nat -> bt = 0)
  /\ (length out <> 1%nat ->
        bt = level s (var (lit_at out' 1))
        /\ forall q, q ∈ drop 1 out' -> level s (var q) <= bt).
Proof.
  unfold analyze_btlevel. destruct (Nat.eqb_spec (length out) 1) as [H1|H1].
  { intros [= <- <-]. split; [reflexivity|]. split; [reflexivity|]. contradiction. }
  cbv zeta. intros [= <- <-]. rewrite !length_insert.
  split; [reflexivity|]. split; [contradiction|]. intros _.
  destruct (Nat.le_gt_cases (length out) 1) as [Hshort|Hlong].
  { (* the analysis always leaves room for the asserting literal *)
    assert (Hd : drop 2 out = []) by (apply drop_ge; lia).
    rewrite Hd. cbn [find_max_i].
    rewrite (list_insert_ge out) by lia. rewrite (list_insert_ge out) by lia.
    split; [reflexivity|]. intros q Hq.
    assert (drop 1 out = []) by (apply drop_ge; lia). rewrite H0 in Hq. inversion Hq. }
  pose proof (find_max_i_spec s out (drop 2 out) 2 1 eq_refl ltac:(lia) ltac:(left; lia))
    as Hspec.
  cbv zeta in Hspec. rewrite Nat.max_r in Hspec by lia.
  destruct Hspec as (Hm1 & Hmlen & Hmax).
  { intros j Hj. replace j with 1%nat by lia. lia. }
  set (m := find_max_i s out 2 1 (drop 2 out)) in *.
  set (p := lit_at out m).
  assert (Hp1 : lit_at (<[1%nat := p]> (<[m := lit_at out 1]> out)) 1 = p).
  { unfold lit_at, vget. rewrite list_lookup_insert_eq; [reflexivity|].
    rewrite length_insert. lia. }
  rewrite Hp1. split; [reflexivity|].
  intros q Hq. apply list_elem_of_lookup in Hq as [j Hj].
  rewrite lookup_drop in Hj.
  destruct (Nat.eq_dec j 0%nat) as [->|Hj0].
  { change (1 + 0)%nat with 1%nat in Hj.
    rewrite list_lookup_insert_eq in Hj by (rewrite length_insert; lia).
    injection Hj as <-. lia. }
  rewrite list_lookup_insert_ne in Hj by lia.
  destruct (Nat.eq_dec (1 + j)%nat m) as [Hjm|Hjm].
  { rewrite Hjm, list_lookup_insert_eq in Hj by lia. injection Hj as <-.
    apply Hmax. lia. }
  rewrite list_lookup_insert_ne in Hj by lia.
  assert (Hlt : (1 + j < length out)%nat) by (eapply lookup_lt_Some, Hj).
  specialize (Hmax (1 + j)%nat ltac:(lia)).
  replace (lit_at out (1 + j)) with q in Hmax; [exact Hmax|].
  unfold lit_at, vget. by rewrite Hj.
Qed.

(** C5. After [analyze] returns: a learnt clause of size 1 gives backtrack
    level 0; otherwise the backtrack level is the maximum level of
    [out_learnt[1..]], carried by the literal at index 1; and the level is
    non-negative as long as the recorded levels are. *)
Theorem analyze_backtrack_level fuel confl s out_learnt out_btlevel s' :
  analyze fuel confl s = Some (out_learnt, out_btlevel, s') ->
  levels_nonneg s ->
  (length out_learnt = 1%nat -> out_btlevel = 0)
  /\ (length out_learnt <> 1%nat ->
        out_btlevel = level s' (var (lit_at out_learnt 1))
        /\ forall q, q ∈ drop 1 out_learnt -> level s' (var q) <= out_btlevel)
  /\ 0 <= out_btlevel.
Proof.
  intros Han Hnn. pose proof (analyze_frame _ _ _ _ _ _ Han) as Hfr.
  assert (Hlev : forall x, level s' x = level s x) by (intros; by apply frame_level).
  revert Han. cbv beta delta [analyze].
  destruct (analyze_loop _ _ _ _ _ _ s) as [[[p out1] s1]|] eqn:E1; [|discriminate].
  apply analyze_loop_frame in E1. bind_step. do 2 let_value.
  match goal with |- context [set_analyze_toclear ?v s1] =>
    assert (Hs2 : frame s (set_analyze_toclear v s1)) by frame_auto;
    generalize dependent (set_analyze_toclear v s1); intros s2 Hs2;
    generalize v; intros out2 end.
  match goal with |- (?m ≫= _) = _ -> _ =>
    assert (Hmin : forall om s3, m = Some (om, s3) -> frame s s3);
    [|destruct m as [[out_min s3]|]; [specialize (Hmin _ _ eq_refl)|discriminate]] end.
  { intros om s3. destruct (ccmin_mode s2 =? 2).
    - destruct (analyze_minimize2 _ _ _ s2) as [[kept s4]|] eqn:E3; [|discriminate].
      apply analyze_minimize2_frame in E3. bind_step. intros [= <- <-].
      eapply frame_trans; eassumption.
    - destruct (ccmin_mode s2 =? 1); intros [= <- <-]; assumption. }
  bind_step. do 2 let_value.
  match goal with |- context [analyze_btlevel ?x out_min] =>
    assert (Hx : frame s x) by frame_auto;
    destruct (analyze_btlevel x out_min) as [out_final bt] eqn:Ebt;
    apply analyze_btlevel_spec in Ebt as (Hlen & Hone & Hmore);
    assert (Hlx : forall v, level x v = level s v) by (intros; by apply frame_level);
    set (s4 := x) in *; clearbody s4 end.
  let_value. intros [= <- <- <-].
  split; [|split].
  - intros H1. apply Hone. lia.
  - intros H1. destruct (Hmore ltac:(lia)) as [Hbt Hall].
    rewrite Hlev, <- Hlx. split; [assumption|].
    intros q Hq. rewrite Hlev, <- Hlx. auto.
  - destruct (Nat.eq_dec (length out_final) 1%nat) as [H1|H1].
    + rewrite Hone by lia. lia.
    + destruct (Hmore ltac:(lia)) as [-> _]. rewrite Hlx.
      by apply levels_nonneg_level.
Qed.

(** ** Dynamic clause ingestion *)

Lemma sort_insert_perm {A} (lt : A -> A -> bool) x l : sort_insert lt x l ≡ₚ x :: l.
Proof.
  induction l as [|y l IH]; cbn; [reflexivity|].
  destruct (lt x y); [reflexivity|]. rewrite IH. apply Permutation_swap.
Qed.

Lemma sort_by_perm {A} (lt : A -> A -> bool) l : sort_by lt l ≡ₚ l.
Proof.
  induction l as [|x l IH]; cbn; [reflexivity|].
  unfold sort_by in IH. rewrite sort_insert_perm. by rewrite IH.
Qed.

Lemma sort_by_length {A} (lt : A -> A -> bool) l : length (sort_by lt l) = length l.
Proof. apply Permutation_length, sort_by_perm. Qed.

(** [precedes s a b]: the comparison of [addClauseDuringSearch] never puts
    [b] strictly before [a]: [a] is unassigned, or both are assigned and the
    level of [a] is at least the level of [b]. *)
Definition precedes (s : Solver) (a b : Lit) : Prop :=
  value s a = l_Undef
  \/ (value s a <> l_Undef /\ value s b <> l_Undef /\ level s (var b) <= level s (var a)).

Lemma lbool_eqb_spec a b : reflect (a = b) (lbool_eqb a b).
Proof. destruct a, b; constructor; congruence. Qed.

Lemma precedes_refl s a : precedes s a a.
Proof. unfold precedes. destruct (value s a); auto; right; repeat split; auto; lia. Qed.

Lemma precedes_trans s a b c : precedes s a b -> precedes s b c -> precedes s a c.
Proof.
  unfold precedes. intros [Ha|(Ha & Hb & Hab)] [Hb'|(Hb' & Hc & Hbc)]; auto; try contradiction.
  right. repeat split; auto. lia.
Qed.

Lemma elem_of_rev_iff {A} (x : A) l : x ∈ rev l <-> x ∈ l.
Proof. rewrite !list_elem_of_In. symmetry. apply in_rev. Qed.

Lemma unguarded_linear_insert_spec {A} (lt : A -> A -> bool) val r :
  exists shifted rest,
    r = shifted ++ rest
    /\ unguarded_linear_insert lt val r = shifted ++ val :: rest
    /\ Forall (fun x => lt val x = true) shifted
    /\ match rest with [] => True | y :: _ => lt val y = false end.
Proof.
  induction r as [|x r (shifted & rest & -> & Hu & Hall & Hrest)]; cbn.
  - exists [], []. auto.
  - destruct (lt val x) eqn:E.
    + exists (x :: shifted), rest. rewrite Hu. repeat split; auto.
    + exists [], (x :: shifted ++ rest). repeat split; auto.
Qed.

Lemma unguarded_linear_insert_perm {A} (lt : A -> A -> bool) val r :
  unguarded_linear_insert lt val r ≡ₚ val :: r.
Proof.
  induction r as [|x r IH]; cbn; [reflexivity|].
  destruct (lt val x); [|reflexivity]. rewrite IH. apply Permutation_swap.
Qed.

Lemma insertion_step_perm {A} (lt : A -> A -> bool) sorted val :
  insertion_step lt sorted val ≡ₚ sorted ++ [val].
Proof.
  rewrite (Permutation_app_comm sorted [val]). cbn.
  unfold insertion_step. destruct sorted as [|first sorted']; [reflexivity|].
  destruct (lt val first); [reflexivity|].
  rewrite <- Permutation_rev, unguarded_linear_insert_perm.
  by rewrite <- Permutation_rev.
Qed.

Lemma foldl_insertion_step_perm {A} (lt : A -> A -> bool) l : forall acc,
  foldl (insertion_step lt) acc l ≡ₚ acc ++ l.
Proof.
  induction l as [|x l IH]; intros acc; cbn [foldl]; [by rewrite app_nil_r|].
  rewrite IH, insertion_step_perm. by rewrite <- app_assoc.
Qed.

Lemma std_sort_perm {A} (lt : A -> A -> bool) l : std_sort lt l ≡ₚ l.
Proof. unfold std_sort. by rewrite foldl_insertion_step_perm. Qed.

Lemma std_sort_length {A} (lt : A -> A -> bool) l : length (std_sort lt l) = length l.
Proof. apply Permutation_length, std_sort_perm. Qed.

Lemma insertion_step_sorted s sorted val :
  StronglySorted (precedes s) sorted ->
  StronglySorted (precedes s) (insertion_step (addClause_cmp s) sorted val).
Proof.
  intros Hs. unfold insertion_step. destruct sorted as [|first sorted']; [repeat constructor|].
  destruct (addClause_cmp s val first) eqn:E.
  - constructor; [exact Hs|].
    inversion Hs as [|? ? _ Hall]; subst.
    assert (Hvf : precedes s val first).
    { unfold addClause_cmp in E. unfold precedes.
      destruct (lbool_eqb_spec (value s val) l_Undef) as [Hu|Hv]; [by left|].
      destruct (lbool_eqb_spec (value s first) l_Undef) as [Hu|Hf]; [discriminate|].
      right. repeat split; auto. lia. }
    constructor; [exact Hvf|].
    eapply Forall_impl; [exact Hall|]. cbn. intros q Hq. eapply precedes_trans; eauto.
  - destruct (unguarded_linear_insert_spec (addClause_cmp s) val (rev (first :: sorted')))
      as (shifted & rest & Hr & -> & Hsh & Hrest).
    assert (Hsorted : first :: sorted' = rev rest ++ rev shifted).
    { rewrite <- (rev_involutive (first :: sorted')), Hr. by rewrite rev_app_distr. }
    rewrite Hsorted in Hs. rewrite rev_app_distr. cbn [rev]. rewrite <- app_assoc. cbn [app].
    apply StronglySorted_app in Hs as (H12 & Hs1 & Hs2).
    assert (Hval : value s val <> l_Undef).
    { unfold addClause_cmp in E.
      by destruct (lbool_eqb_spec (value s val) l_Undef). }
    assert (Hafter : forall x, x ∈ rev shifted -> precedes s val x).
    { intros x Hx. apply (proj1 (elem_of_rev_iff x shifted)) in Hx. rewrite Forall_forall in Hsh.
      specialize (Hsh x Hx). unfold addClause_cmp in Hsh. unfold precedes.
      destruct (lbool_eqb_spec (value s val) l_Undef) as [Hu|_]; [contradiction|].
      destruct (lbool_eqb_spec (value s x) l_Undef) as [Hu|Hx']; [discriminate|].
      right. repeat split; auto. lia. }
    assert (Hbefore : forall x, x ∈ rev rest -> precedes s x val).
    { destruct rest as [|y rest'].
      - exfalso. cbn in Hsorted.
        assert (Hf : first ∈ shifted).
        { apply (proj1 (elem_of_rev_iff first shifted)). rewrite <- Hsorted. left. }
        rewrite Forall_forall in Hsh. specialize (Hsh first Hf). congruence.
      - assert (Hy : precedes s y val).
        { unfold addClause_cmp in Hrest. unfold precedes.
          destruct (lbool_eqb_spec (value s val) l_Undef) as [Hu|_]; [contradiction|].
          destruct (lbool_eqb_spec (value s y) l_Undef) as [Hu|Hy']; [by left|].
          right. repeat split; auto. lia. }
        intros x Hx. cbn [rev] in Hx, Hs1.
        apply elem_of_app in Hx as [Hx|Hx].
        + apply StronglySorted_app in Hs1 as (Hxy & _ & _).
          eapply precedes_trans; [apply (Hxy x y Hx)|exact Hy]. left.
        + apply list_elem_of_singleton in Hx as ->. exact Hy. }
    apply StronglySorted_app. split; [|split; [exact Hs1|]].
    + intros x1 x2 Hx1 Hx2. apply elem_of_cons in Hx2 as [->|Hx2]; [by apply Hbefore|].
      by apply H12.
    + constructor; [exact Hs2|]. apply Forall_forall. exact Hafter.
Qed.

Lemma std_sort_sorted s l : StronglySorted (precedes s) (std_sort (addClause_cmp s) l).
Proof.
  unfold std_sort.
  assert (Hgen : forall acc, StronglySorted (precedes s) acc ->
                             StronglySorted (precedes s) (foldl (insertion_step (addClause_cmp s)) acc l)).
  { induction l as [|x l IH]; intros acc Hacc; [exact Hacc|]. cbn [foldl].
    apply IH. by apply insertion_step_sorted. }
  apply Hgen. constructor.
Qed.

(** The highest decision level among the literals of [c]. *)
Definition highest_level (s : Solver) (c : list Lit) : Z :=
  match c with
  | [] => 0
  | l :: c' => foldr (fun q m => Z.max (level s (var q)) m) (level s (var l)) c'
  end.

Lemma highest_level_ub s c q : q ∈ c -> level s (var q) <= highest_level s c.
Proof.
  destruct c as [|l c]; [inversion 1|]. cbn.
  intros Hq. apply elem_of_cons in Hq as [->|Hq].
  - induction c as [|y c IH]; cbn; lia.
  - induction c as [|y c IH]; [inversion Hq|]. cbn.
    apply elem_of_cons in Hq as [->|Hq]; [lia|]. specialize (IH Hq). lia.
Qed.

Lemma highest_level_attained s c : c <> [] -> exists q, q ∈ c /\ level s (var q) = highest_level s c.
Proof.
  destruct c as [|l c]; [contradiction|]. intros _. cbn.
  induction c as [|y c IH]; cbn.
  - exists l. split; [left|reflexivity].
  - destruct IH as (q & Hq & Hlev).
    destruct (Z.max_spec (level s (var y)) (foldr (fun q m => Z.max (level s (var q)) m)
                                                   (level s (var l)) c)) as [[_ ->]|[_ ->]].
    + exists q. split; [|assumption].
      apply elem_of_cons in Hq as [->|Hq]; [left|right; right; assumption].
    + exists y. split; [right; left|reflexivity].
Qed.

Lemma highest_level_perm s c c' : c ≡ₚ c' -> highest_level s c = highest_level s c'.
Proof.
  intros Hp. destruct (decide (c = [])) as [->|Hne].
  { apply Permutation_nil_l in Hp. by subst. }
  assert (Hne' : c' <> []).
  { intros ->. apply Permutation_nil_r in Hp. contradiction. }
  destruct (highest_level_attained s c Hne) as (q & Hq & Hl).
  destruct (highest_level_attained s c' Hne') as (q' & Hq' & Hl').
  rewrite Hp in Hq. rewrite <- Hp in Hq'.
  apply (highest_level_ub s) in Hq, Hq'. lia.
Qed.

(** What the sorted clause looks like at its head. *)
Lemma sorted_head_assigned s c h t :
  std_sort (addClause_cmp s) c = h :: t ->
  value s h <> l_Undef ->
  (forall q, q ∈ c -> value s q <> l_Undef) /\ level s (var h) = highest_level s c.
Proof.
  intros Hsort Hh.
  pose proof (std_sort_sorted s c) as Hs. pose proof (std_sort_perm (addClause_cmp s) c) as Hp.
  rewrite Hsort in Hs, Hp.
  inversion Hs as [|? ? _ Hall]; subst. rewrite Forall_forall in Hall.
  assert (Hdom : forall q, q ∈ h :: t ->
                           value s q <> l_Undef /\ level s (var q) <= level s (var h)).
  { intros q Hq. apply elem_of_cons in Hq as [->|Hq]; [split; [assumption|lia]|].
    destruct (Hall q Hq) as [Hu|(_ & Hq' & Hle)]; [contradiction|auto]. }
  split.
  - intros q Hq. rewrite <- Hp in Hq. by apply Hdom.
  - rewrite (highest_level_perm s c (h :: t)) by (by symmetry).
    apply Z.le_antisymm; [apply highest_level_ub; left|].
    destruct (highest_level_attained s (h :: t) ltac:(discriminate)) as (q & Hq & <-).
    by apply Hdom.
Qed.

Lemma sorted_head_unassigned s c h t :
  std_sort (addClause_cmp s) c = h :: t ->
  value s h = l_Undef -> exists q, q ∈ c /\ value s q = l_Undef.
Proof.
  intros Hsort Hh. exists h. split; [|assumption].
  rewrite <- (std_sort_perm (addClause_cmp s) c), Hsort. left.
Qed.

(** The guard of the early [return false]. *)
Definition falsified_at_root (s : Solver) (c : list Lit) : Prop :=
  c = [] \/ ((forall q, q ∈ c -> value s q <> l_Undef) /\ highest_level s c = 0).

(** The early [return false] is taken, with the solver untouched, exactly
    when the clause is empty or all of its literals are assigned with
    highest decision level 0; the truth value of an assigned literal is not
    inspected.  A call that returns otherwise returns true. *)
Lemma addClauseDuringSearch_false_cases fuel c s :
  (falsified_at_root s c -> addClauseDuringSearch fuel c s = Some (false, s))
  /\ (~ falsified_at_root s c ->
      forall r s', addClauseDuringSearch fuel c s = Some (r, s') -> r = true).
Proof.
  cbv beta delta [addClauseDuringSearch].
  destruct c as [|l0 c0].
  { split; [reflexivity|]. intros Hn. exfalso. apply Hn. by left. }
  set (c := l0 :: c0). change (Nat.eqb (length c) 0) with false. cbv iota.
  pose proof (std_sort_length (addClause_cmp s) c) as Hlen.
  destruct (std_sort (addClause_cmp s) c) as [|h t] eqn:Hsort; [discriminate|].
  cbv zeta.
  cbn [count_unassigned].
  destruct (lbool_eqb_spec (value s h) l_Undef) as [Hh|Hh].
  - (* some literal is unassigned *)
    destruct (sorted_head_unassigned s c h t Hsort Hh) as (q & Hq & Hqu).
    assert (Hnot : ~ falsified_at_root s c).
    { intros [Hnil|[Hall _]]; [discriminate|]. by apply (Hall q). }
    split; [contradiction|]. intros _ r s'.
    destruct (Nat.eqb _ _); [by intros [= <- _]|].
    rewrite andb_false_r.
    repeat case_match; intros Heq; simplify_option_eq;
      repeat match goal with x : (_ * _)%type |- _ => destruct x end;
      simplify_eq; reflexivity.
  - (* every literal is assigned *)
    destruct (sorted_head_assigned s c h t Hsort Hh) as [Hall Hlev].
    change (Nat.eqb 0 (length (h :: t))) with false. cbv iota.
    change (lit_at (h :: t) 0) with h. rewrite Hlev, andb_true_r.
    destruct (Z.eqb_spec (highest_level s c) 0) as [Hz|Hnz].
    + split; [reflexivity|]. intros Hn. exfalso. apply Hn. right. auto.
    + split.
      * intros [Hnil|[_ Hz]]; [discriminate|contradiction].
      * intros _ r s'.
        repeat case_match; intros Heq; simplify_option_eq;
          repeat match goal with x : (_ * _)%type |- _ => destruct x end;
          simplify_eq; reflexivity.
Qed.

(** C2. A clause all of whose literals are assigned at the root is refused
    even when one of them is true there: [addClauseDuringSearch] returns
    false, which its comment reserves for a clause violated at decision
    level 0 and which the callers report as UNSAT, although the clause is
    satisfied. *)
Theorem addClauseDuringSearch_rejects_satisfied fuel c s q :
  q ∈ c -> value s q = l_True ->
  (forall p, p ∈ c -> value s p <> l_Undef) ->
  highest_level s c = 0 ->
  addClauseDuringSearch fuel c s = Some (false, s)
  /\ ~ (forall p, p ∈ c -> value s p = l_False).
Proof.
  intros Hq Htrue Hall Hz. split.
  - apply (proj1 (addClauseDuringSearch_false_cases fuel c s)). right. auto.
  - intros Hfalse. specialize (Hfalse q Hq). congruence.
Qed.

Lemma cancelUntil_decisionLevel lvl s :
  0 <= lvl ->
  decisionLevel (cancelUntil lvl s) = Nat.min (decisionLevel s) (Z.to_nat lvl).
Proof.
  intros Hl. unfold cancelUntil.
  destruct (Z.gtb_spec (Z.of_nat (decisionLevel s)) lvl) as [Hgt|Hle]; [|lia].
  cbv zeta.
  match goal with |- context [foldl ?f ?a ?l] =>
    assert (Hf : forall l0 a0, trail_lim (foldl f a0 l0) = trail_lim a0) end.
  { induction l0 as [|c l IH]; intros a; [auto|].
    cbn [foldl].
    match goal with |- context [foldl _ ?x l] => rewrite (IH x) end.
    unfold insertVarOrder. cbv zeta. repeat case_match; auto. }
  match goal with |- context [foldl ?f ?a ?l] =>
    specialize (Hf l a); generalize dependent (foldl f a l); intros s1 Hf end.
  unfold decisionLevel in *. cbn in *. rewrite Hf. unfold shrink.
  rewrite length_take. lia.
Qed.

Lemma update_clause_activity_shape cr f s x :
  (forall c, lits (f c) = lits c /\ learnt (f c) = learnt c) ->
  lits (clause_at (update_clause cr f s) x) = lits (clause_at s x)
  /\ learnt (clause_at (update_clause cr f s) x) = learnt (clause_at s x).
Proof.
  intros Hf. unfold clause_at, update_clause, vget. cbn.
  destruct (decide (x = cr)) as [->|Hne].
  - rewrite list_lookup_alter_eq. destruct (ca s !! cr); cbn; [apply Hf|auto].
  - rewrite list_lookup_alter_ne by auto. auto.
Qed.

Lemma claBumpActivity_shape cr s x :
  lits (clause_at (claBumpActivity cr s) x) = lits (clause_at s x)
  /\ learnt (clause_at (claBumpActivity cr s) x) = learnt (clause_at s x).
Proof.
  unfold claBumpActivity. cbv zeta.
  match goal with |- context [update_clause cr ?f s] =>
    pose proof (update_clause_activity_shape cr f s x ltac:(intros []; auto)) as [Hl Hb];
    generalize dependent (update_clause cr f s); intros s1 Hl Hb end.
  destruct (d_lt _ _); [|auto].
  rewrite <- Hl, <- Hb. cbn [clause_at ca set_cla_inc].
  change (clause_at (set_cla_inc ?v ?s) x) with (clause_at s x).
  generalize (learnts s1). intros l. revert s1 Hl Hb.
  induction l as [|c l IH]; intros s1 Hl Hb; [auto|]. cbn [foldl].
  match goal with |- context [update_clause c ?f s1] =>
    pose proof (update_clause_activity_shape c f s1 x ltac:(intros []; auto)) as [Hl' Hb'] end.
  rewrite <- Hl', <- Hb'. apply IH; congruence.
Qed.

Lemma claBumpActivity_learnts cr s : learnts (claBumpActivity cr s) = learnts s.
Proof.
  unfold claBumpActivity. cbv zeta. destruct (d_lt _ _); [|reflexivity].
  change (learnts (set_cla_inc ?v ?x)) with (learnts x).
  match goal with |- learnts (foldl ?f ?a ?l) = _ =>
    assert (Hf : forall l0 a0, learnts (foldl f a0 l0) = learnts a0) end.
  { induction l0 as [|c l IH]; intros a; [reflexivity|]. cbn [foldl]. by rewrite IH. }
  rewrite Hf. reflexivity.
Qed.

(** What installing a learnt clause does. *)
Lemma install_learnt_spec learnt_clause s :
  let s' := install_learnt learnt_clause s in
  trail s' = trail s ++ [lit_at learnt_clause 0]
  /\ (length learnt_clause = 1%nat -> ca s' = ca s /\ learnts s' = learnts s)
  /\ (length learnt_clause <> 1%nat ->
        learnts s' = learnts s ++ [length (ca s)]
        /\ lits (clause_at s' (length (ca s))) = learnt_clause
        /\ learnt (clause_at s' (length (ca s))) = true).
Proof.
  cbv zeta. unfold install_learnt.
  destruct (Nat.eqb_spec (length learnt_clause) 1) as [H1|H1].
  { cbn. split; [reflexivity|]. split; [auto|contradiction]. }
  unfold ca_alloc. cbv zeta.
  match goal with |- context [attachClause ?cr ?x] =>
    assert (Ha : tframe x (attachClause cr x)
                 /\ ca (attachClause cr x) = ca x /\ learnts (attachClause cr x) = learnts x)
  end.
  { split; [apply fr_tframe; eauto with frame|].
    unfold attachClause. cbv zeta. destruct (learnt _); cbn; auto. }
  match goal with |- context [attachClause ?cr ?x] =>
    set (s0 := x) in *; generalize dependent (attachClause cr s0); intros s1 (Ht & Hca & Hl) end.
  pose proof (claBumpActivity_frame (length (ca s)) s1) as Hfr.
  pose proof (claBumpActivity_shape (length (ca s)) s1 (length (ca s))) as [Hlits Hlrn].
  pose proof (claBumpActivity_learnts (length (ca s)) s1) as Hls.
  generalize dependent (claBumpActivity (length (ca s)) s1). intros s2 Hfr Hlits Hlrn Hls.
  assert (Hc1 : clause_at s1 (length (ca s)) = mkClause learnt_clause true 0%nat (d_of_Z 0) None).
  { unfold clause_at, vget. rewrite Hca. subst s0. cbn.
    rewrite lookup_app_r by lia. by rewrite Nat.sub_diag. }
  rewrite Hc1 in Hlits, Hlrn. cbn in Hlits, Hlrn.
  split.
  - cbn. f_equal. destruct Hfr as [_ _ _ [Htr _ _ _]]. destruct Ht as [Htr' _ _ _].
    rewrite Htr, Htr'. reflexivity.
  - split; [contradiction|]. intros _. cbn.
    change (clause_at (uncheckedEnqueue ?p ?r s2) ?x) with (clause_at s2 x).
    rewrite Hls, Hl. auto.
Qed.

Lemma foldl_varBump_spec (l : list Lit) : forall a0,
  let a1 := foldl (fun s q => varBumpActivity (var q) s) a0 l in
  frame a0 a1 /\ ca a1 = ca a0 /\ clauses a1 = clauses a0 /\ learnts a1 = learnts a0.
Proof.
  induction l as [|q l IH]; intros a0; [split; [apply frame_refl|auto]|].
  cbn [foldl]. cbv zeta. destruct (IH (varBumpActivity (var q) a0)) as (Hfr & -> & -> & ->).
  split; [eapply frame_trans; [apply varBumpActivity_frame|exact Hfr]|].
  unfold varBumpActivity, insertVarOrder. cbv zeta.
  repeat case_match; cbn; auto.
Qed.

Lemma install_original_spec bump clause s :
  let cr := length (ca s) in
  let s' := (install_original bump clause s).2 in
  (install_original bump clause s).1 = cr
  /\ clause_at s' cr = mkClause clause false 0%nat (d_of_Z 0) None
  /\ clauses s' = clauses s ++ [cr]
  /\ learnts s' = learnts s
  /\ frame s s'.
Proof.
  cbv zeta. unfold install_original, ca_alloc. cbv zeta. cbn [fst snd].
  split; [reflexivity|].
  match goal with |- context [attachClause ?cr (set_clauses ?cl ?x)] =>
    assert (Hx : frame s x /\ ca x = ca s ++ [mkClause clause false 0%nat (d_of_Z 0) None]
                 /\ clauses x = clauses s /\ learnts x = learnts s);
    [|generalize dependent x; intros x0 (Hfr & Hca & Hcl & Hl)] end.
  { destruct bump; [|split; [repeat constructor|auto]].
    match goal with |- context [foldl ?f ?a clause] =>
      destruct (foldl_varBump_spec clause a) as (Hfr & -> & -> & ->) end.
    split; [eapply frame_trans; [|eassumption]; repeat constructor|auto]. }
  unfold attachClause. cbv zeta.
  assert (Hc : clause_at (set_clauses (clauses x0 ++ [length (ca s)]) x0) (length (ca s))
               = mkClause clause false 0%nat (d_of_Z 0) None).
  { unfold clause_at, vget. cbn. rewrite Hca, lookup_app_r by lia.
    by rewrite Nat.sub_diag. }
  rewrite Hc. cbn [learnt].
  split; [exact Hc|]. split; [cbn; by rewrite Hcl|]. split; [cbn; exact Hl|].
  eapply frame_trans; [exact Hfr|]. frame_auto.
Qed.


Lemma sorted_second_at_highest s c h t :
  std_sort (addClause_cmp s) c = h :: t ->
  (forall q, q ∈ c -> value s q <> l_Undef) ->
  (2 <= length (filter (fun q => level s (var q) = highest_level s c) c))%nat ->
  exists t0 t', t = t0 :: t' /\ level s (var t0) = highest_level s c.
Proof.
  intros Hsort Hall Htwo.
  pose proof (std_sort_sorted s c) as Hs. pose proof (std_sort_perm (addClause_cmp s) c) as Hp.
  rewrite Hsort in Hs, Hp.
  assert (Hh : value s h <> l_Undef) by (apply Hall; rewrite <- Hp; left).
  destruct (sorted_head_assigned s c h t Hsort Hh) as [_ Hlev].
  rewrite <- Hp in Htwo. rewrite filter_cons_True in Htwo by exact Hlev.
  cbn in Htwo.
  destruct (filter _ t) as [|q f] eqn:Ef; [cbn in Htwo; lia|].
  assert (Hq : q ∈ filter (fun q => level s (var q) = highest_level s c) t)
    by (rewrite Ef; left).
  apply list_elem_of_filter in Hq as [Hql Hqt].
  destruct t as [|t0 t']; [inversion Hqt|]. exists t0, t'. split; [reflexivity|].
  apply Z.le_antisymm.
  { apply highest_level_ub. rewrite <- Hp. right; left. }
  rewrite <- Hql.
  apply elem_of_cons in Hqt as [->|Hqt]; [lia|].
  inversion Hs as [|? ? Hs' _]; subst. inversion Hs' as [|? ? _ Hall']; subst.
  rewrite Forall_forall in Hall'.
  destruct (Hall' q Hqt) as [Hu|(_ & _ & Hle)]; [|exact Hle].
  exfalso. apply (Hall t0); [rewrite <- Hp; right; left|exact Hu].
Qed.

(** The run of [addClauseDuringSearch] on a clause whose literals are all
    false, with highest level [h > 0] carried by at least two literals, up
    to the call of [analyze]: it backjumps to [h] and attaches the sorted
    clause as an original clause; what follows the analysis is the
    installation of its outcome. *)
Lemma addClauseDuringSearch_conflicting_steps fuel c s :
  (forall q, q ∈ c -> value s q = l_False) ->
  0 < highest_level s c ->
  (2 <= length (filter (fun q => level s (var q) = highest_level s c) c))%nat ->
  let h := highest_level s c in
  let sorted := std_sort (addClause_cmp s) c in
  let s1 := cancelUntil h s in
  let cr := length (ca s1) in
  let s2 := (install_original false sorted s1).2 in
  sorted ≡ₚ c
  /\ decisionLevel s1 = Nat.min (decisionLevel s) (Z.to_nat h)
  /\ clause_at s2 cr = mkClause sorted false 0%nat (d_of_Z 0) None
  /\ clauses s2 = clauses s1 ++ [cr]
  /\ trail s2 = trail s1
  /\ addClauseDuringSearch fuel c s =
       match analyze fuel cr s2 with
       | Some (learnt_clause, backtrack_level, s3) =>
           Some (true, install_learnt learnt_clause (cancelUntil backtrack_level s3))
       | None => None
       end
  /\ forall learnt_clause s4,
       let s' := install_learnt learnt_clause s4 in
       trail s' = trail s4 ++ [lit_at learnt_clause 0]
       /\ (length learnt_clause = 1%nat -> ca s' = ca s4 /\ learnts s' = learnts s4)
       /\ (length learnt_clause <> 1%nat ->
             learnts s' = learnts s4 ++ [length (ca s4)]
             /\ lits (clause_at s' (length (ca s4))) = learnt_clause
             /\ learnt (clause_at s' (length (ca s4))) = true).
Proof.
  intros Hfalse Hpos Htwo h sorted s1 cr s2.
  assert (Hassigned : forall q, q ∈ c -> value s q <> l_Undef).
  { intros q Hq. rewrite (Hfalse q Hq). discriminate. }
  pose proof (install_original_spec false sorted s1) as (Hcr & Hcl & Hcls & _ & Hfr).
  fold cr s2 in Hcr, Hcl, Hcls, Hfr.
  split; [apply std_sort_perm|].
  split; [apply cancelUntil_decisionLevel; subst h; lia|].
  split; [exact Hcl|]. split; [exact Hcls|].
  split; [destruct Hfr as [_ _ _ [Ht _ _ _]]; exact Ht|].
  split; [|intros; apply install_learnt_spec].
  cbv beta delta [addClauseDuringSearch].
  destruct c as [|l0 c0]; [cbn in Hpos; lia|].
  set (c := l0 :: c0) in *. change (Nat.eqb (length c) 0) with false. cbv iota.
  fold sorted.
  pose proof (std_sort_length (addClause_cmp s) c) as Hlen. fold sorted in Hlen.
  destruct sorted as [|h0 t] eqn:Hsort; [discriminate|].
  assert (Hh0 : value s h0 <> l_Undef).
  { apply Hassigned. rewrite <- (std_sort_perm (addClause_cmp s) c). fold sorted.
    rewrite Hsort. left. }
  destruct (sorted_head_assigned s c h0 t Hsort Hh0) as [_ Hlev].
  destruct (sorted_second_at_highest s c h0 t Hsort Hassigned Htwo) as (t0 & t' & -> & Hlev').
  cbv zeta. cbn [count_unassigned].
  destruct (lbool_eqb_spec (value s h0) l_Undef) as [Hu|_]; [contradiction|].
  change (Nat.eqb 0 (length (h0 :: t0 :: t'))) with false. cbv iota.
  change (lit_at (h0 :: t0 :: t') 0) with h0. rewrite Hlev. fold h.
  destruct (Z.eqb_spec h 0) as [Hz|_]; [lia|]. cbn [andb].
  change (Nat.eqb 0 1) with false. cbv iota.
  cbn [drop count_level]. rewrite Hlev'. fold h. rewrite Z.eqb_refl.
  change (1 <? S (S ?n))%nat with true. cbv iota.
  fold s1. rewrite (surjective_pairing (install_original false (h0 :: t0 :: t') s1)).
  fold s2. rewrite Hcr.
  destruct (analyze fuel cr s2) as [[[learnt_clause bt] s3]|]; reflexivity.
Qed.

(** ** Enumeration *)

(** The blocking clause as the specification words it: one literal per edge
    variable, negated with respect to the model. *)
Definition edge_blocking_clause (s : Solver) : list Lit :=
  let n := vertices (sms_config s) in
  map (fun v => mkLit v (lbool_eqb (modelValue_var s v) l_True))
      (seq 0 (Z.to_nat (Z.quot (n * (n - 1)) 2))).

(** C1. The clause that [run_solver_enumerate] adds is the specified
    blocking clause preceded by one default literal (the positive literal of
    variable 0) per edge variable: [vec<Lit> blocking_clause(m)] already
    holds [m] elements when the loop starts to [push]. *)
Theorem enumerate_blocking_clause_padding s :
  let n := vertices (sms_config s) in
  let m := Z.to_nat (Z.quot (n * (n - 1)) 2) in
  enumerate_blocking_clause s = replicate m (mkLit 0%nat false) ++ edge_blocking_clause s
  /\ length (enumerate_blocking_clause s) = (2 * m)%nat
  /\ ((0 < m)%nat -> modelValue_var s 0%nat = l_True ->
      mkLit 0%nat false ∈ enumerate_blocking_clause s
      /\ mkLit 0%nat true ∈ enumerate_blocking_clause s
      /\ mkLit 0%nat false ∉ edge_blocking_clause s).
Proof.
  cbv zeta. unfold enumerate_blocking_clause, edge_blocking_clause. cbv zeta.
  set (m := Z.to_nat _).
  assert (Hv : vec_sized lit_default m = replicate m (mkLit 0%nat false)).
  { unfold vec_sized, lit_default. reflexivity. }
  rewrite Hv. split; [reflexivity|].
  split; [rewrite length_app, length_replicate, length_map, length_seq; lia|].
  intros Hm Hmodel. destruct m as [|m]; [lia|].
  split; [left|]. split.
  - apply elem_of_app. right. cbn [seq map]. rewrite Hmodel. left.
  - intros Hin. apply list_elem_of_fmap in Hin as (v & Hv' & Hin).
    injection Hv' as Hv0 Hs. subst v. rewrite Hmodel in Hs. discriminate.
Qed.

(** ** Clause database reduction *)

(** The test of the sweep, for limits [n] and [extra_lim] fixed beforehand. *)
Definition sweep_test (s : Solver) (n : nat) (extra_lim : double) (i : nat) (cr : CRef)
  : bool :=
  (2 <? length (lits (clause_at s cr)))%nat
  && negb (locked s cr)
  && ((i <? n / 2)%nat || d_lt (cl_activity (clause_at s cr)) extra_lim).

(** The test evaluated in the state in which [reduceDB] starts, for the
    clause at position [i] of the sorted list. *)
Definition reduceDB_doomed (s : Solver) (i : nat) (cr : CRef) : bool :=
  sweep_test s (length (learnts s))
    (d_div (cla_inc s) (d_of_Z (Z.of_nat (length (learnts s))))) i cr.

(** The clauses of [ls], the first at position [i], that the test spares. *)
Fixpoint survivors (doomed : nat -> CRef -> bool) (i : nat) (ls : list CRef) : list CRef :=
  match ls with
  | [] => []
  | cr :: ls' =>
      if doomed i cr then survivors doomed (S i) ls'
      else cr :: survivors doomed (S i) ls'
  end.

Lemma elem_of_survivors doomed cr : forall ls i,
  cr ∈ survivors doomed i ls <-> exists j, ls !! j = Some cr /\ doomed (i + j)%nat cr = false.
Proof.
  induction ls as [|x ls IH]; intros i; cbn.
  { split; [inversion 1|intros (j & Hj & _); discriminate]. }
  split.
  - intros Hin. destruct (doomed i x) eqn:Ed.
    + apply IH in Hin as (j & Hj & Hd). exists (S j). split; [exact Hj|].
      by replace (i + S j)%nat with (S i + j)%nat by lia.
    + apply elem_of_cons in Hin as [->|Hin].
      * exists 0%nat. by rewrite Nat.add_0_r.
      * apply IH in Hin as (j & Hj & Hd). exists (S j). split; [exact Hj|].
        by replace (i + S j)%nat with (S i + j)%nat by lia.
  - intros ([|j] & Hj & Hd).
    + cbn in Hj. injection Hj as ->. rewrite Nat.add_0_r in Hd. rewrite Hd. left.
    + cbn in Hj. replace (i + S j)%nat with (S i + j)%nat in Hd by lia.
      assert (cr ∈ survivors doomed (S i) ls) by (apply IH; eauto).
      destruct (doomed i x); [assumption|by right].
Qed.

(** [stable s0 s1]: everything the test of the sweep reads is the same in
    [s0] and [s1]. *)
Definition stable (s0 s1 : Solver) : Prop :=
  assigns s1 = assigns s0 /\ vardata s1 = vardata s0
  /\ forall cr, lits (clause_at s1 cr) = lits (clause_at s0 cr)
                /\ cl_activity (clause_at s1 cr) = cl_activity (clause_at s0 cr).

Lemma stable_refl s : stable s s.
Proof. repeat split. Qed.

Lemma stable_locked s0 s1 cr : stable s0 s1 -> locked s1 cr = locked s0 cr.
Proof.
  intros (Ha & Hv & Hc). unfold locked, value, value_var, reason. cbv zeta.
  destruct (Hc cr) as [-> _]. by rewrite Ha, Hv.
Qed.

(** Removing a clause that is not locked only marks it. *)
Lemma removeClause_unlocked cr s :
  locked s cr = false ->
  stable s (removeClause cr s)
  /\ (lits (clause_at s cr) <> [] -> mark (clause_at (removeClause cr s) cr) = 1%nat)
  /\ (mark (clause_at s cr) = 1%nat -> mark (clause_at (removeClause cr s) cr) = 1%nat)
  /\ forall x, x <> cr -> clause_at (removeClause cr s) x = clause_at s x.
Proof.
  intros Hl. unfold removeClause. cbv zeta.
  assert (Hd : assigns (detachClause cr false s) = assigns s
               /\ vardata (detachClause cr false s) = vardata s
               /\ ca (detachClause cr false s) = ca s).
  { unfold detachClause, smudge. cbv zeta. repeat case_match; cbn; auto. }
  destruct Hd as (Ha & Hv & Hc).
  assert (Hl' : locked (detachClause cr false s) cr = false).
  { transitivity (locked s cr); [|exact Hl]. unfold locked, value, value_var, reason, clause_at. cbv zeta.
    by rewrite Ha, Hv, Hc. }
  rewrite Hl'. clear Hl'. revert Ha Hv Hc. generalize (detachClause cr false s).
  intros s1 Ha Hv Hc.
  unfold ca_free, update_clause, stable, clause_at, vget. cbn. rewrite Ha, Hv, Hc.
  split; [|split; [|split]].
  - split; [reflexivity|]. split; [reflexivity|]. intros x.
    destruct (decide (x = cr)) as [->|Hne].
    + rewrite list_lookup_alter_eq. destruct (ca s !! cr) as [[]|]; cbn; auto.
    + rewrite list_lookup_alter_ne by auto. auto.
  - rewrite list_lookup_alter_eq. destruct (ca s !! cr) as [c|]; cbn; [reflexivity|].
    intros Hne. contradiction.
  - rewrite list_lookup_alter_eq. destruct (ca s !! cr) as [c|]; cbn; auto.
  - intros x Hne. rewrite list_lookup_alter_ne by auto. reflexivity.
Qed.

Lemma stable_trans s0 s1 s2 : stable s0 s1 -> stable s1 s2 -> stable s0 s2.
Proof.
  intros (Ha & Hv & Hc) (Ha' & Hv' & Hc'). split; [congruence|]. split; [congruence|].
  intros cr. destruct (Hc cr), (Hc' cr). split; congruence.
Qed.

Lemma sweep_test_stable s0 s1 n extra_lim i cr :
  stable s0 s1 -> sweep_test s1 n extra_lim i cr = sweep_test s0 n extra_lim i cr.
Proof.
  intros Hst. unfold sweep_test. rewrite (stable_locked s0 s1 cr Hst).
  destruct Hst as (_ & _ & Hc). destruct (Hc cr) as [-> ->]. reflexivity.
Qed.

Lemma reduceDB_loop_spec s0 extra_lim n : forall ls i kept s1 kept' s',
  stable s0 s1 ->
  reduceDB_loop extra_lim n i ls kept s1 = (kept', s') ->
  kept' = rev kept ++ survivors (sweep_test s0 n extra_lim) i ls
  /\ stable s0 s'
  /\ learnts s' = learnts s1
  /\ (forall cr, mark (clause_at s1 cr) = 1%nat -> mark (clause_at s' cr) = 1%nat)
  /\ (forall cr j, ls !! j = Some cr -> sweep_test s0 n extra_lim (i + j) cr = true ->
                   mark (clause_at s' cr) = 1%nat)
  /\ (forall cr, (forall j, ls !! j = Some cr ->
                            sweep_test s0 n extra_lim (i + j) cr = false) ->
                 clause_at s' cr = clause_at s1 cr).
Proof.
  induction ls as [|x ls IH]; intros i kept s1 kept' s' Hst; cbn [reduceDB_loop survivors].
  { intros [= <- <-]. rewrite app_nil_r. repeat split; auto; try apply Hst.
    intros cr j Hj. discriminate. }
  cbv zeta. fold (sweep_test s1 n extra_lim i x).
  rewrite (sweep_test_stable s0 s1) by exact Hst.
  destruct (sweep_test s0 n extra_lim i x) eqn:Et; intros Hloop.
  - assert (Hunl : locked s1 x = false).
    { rewrite (stable_locked s0 s1 x Hst). unfold sweep_test in Et.
      destruct (locked s0 x); [|reflexivity]. by rewrite andb_false_r in Et. }
    assert (Hne : lits (clause_at s1 x) <> []).
    { destruct Hst as (_ & _ & Hc). destruct (Hc x) as [-> _]. unfold sweep_test in Et.
      destruct (lits (clause_at s0 x)); [discriminate|discriminate]. }
    destruct (removeClause_unlocked x s1 Hunl) as (Hst1 & Hm1 & Hm1' & Hother).
    destruct (IH (S i) kept (removeClause x s1) kept' s'
                (stable_trans _ _ _ Hst Hst1) Hloop)
      as (Hk & Hst' & Hl & Hkeep & Hdoomed & Hsame).
    split; [exact Hk|]. split; [exact Hst'|].
    split. { rewrite Hl. unfold removeClause, ca_free, update_clause, detachClause, smudge.
             cbv zeta. repeat case_match; reflexivity. }
    split. { intros cr Hcr. apply Hkeep. destruct (decide (cr = x)) as [->|Hx];
               [by apply Hm1'|by rewrite Hother]. }
    split.
    + intros cr [|j] Hj Hd.
      * cbn in Hj. injection Hj as ->. apply Hkeep. by apply Hm1.
      * cbn in Hj. apply (Hdoomed cr j Hj).
        by replace (S i + j)%nat with (i + S j)%nat by lia.
    + intros cr Hcr. rewrite Hsame.
      * apply Hother. intros ->. specialize (Hcr 0%nat eq_refl).
        rewrite Nat.add_0_r in Hcr. congruence.
      * intros j Hj. replace (S i + j)%nat with (i + S j)%nat by lia. by apply Hcr.
  - destruct (IH (S i) (x :: kept) s1 kept' s' Hst Hloop)
      as (Hk & Hst' & Hl & Hkeep & Hdoomed & Hsame).
    split; [rewrite Hk; cbn; by rewrite <- app_assoc|].
    split; [exact Hst'|]. split; [exact Hl|]. split; [exact Hkeep|]. split.
    + intros cr [|j] Hj Hd.
      * cbn in Hj. injection Hj as ->. rewrite Nat.add_0_r in Hd. congruence.
      * cbn in Hj. apply (Hdoomed cr j Hj).
        by replace (S i + j)%nat with (i + S j)%nat by lia.
    + intros cr Hcr. apply Hsame. intros j Hj.
      replace (S i + j)%nat with (i + S j)%nat by lia. by apply Hcr.
Qed.


(** ** How the assignment evolves *)

#[local] Instance lbool_eq_dec : EqDecision lbool.
Proof. solve_decision. Defined.

#[local] Instance Lit_eq_dec : EqDecision Lit.
Proof. solve_decision. Defined.

Lemma lit_eqb_eq p q : lit_eqb p q = true <-> p = q.
Proof.
  unfold lit_eqb. destruct p as [x a], q as [y b]. cbn.
  rewrite andb_true_iff, Nat.eqb_eq, Bool.eqb_true_iff. split; [intros []; congruence|].
  intros [= -> ->]. auto.
Qed.

Lemma value_undef_iff s p : value s p = l_Undef <-> value_var s (var p) = l_Undef.
Proof. unfold value. destruct (value_var s (var p)), (sign p); cbn; split; congruence. Qed.

Lemma value_neg s p :
  value s (neg p) = match value s p with
                    | l_True => l_False | l_False => l_True | l_Undef => l_Undef
                    end.
Proof. unfold value, neg. cbn. destruct (value_var s (var p)), (sign p); reflexivity. Qed.

(** [extends s s' ext]: from [s] to [s'] the facts [ext], unassigned in [s],
    were put on the trail and made true; nothing else was assigned or
    changed its value, and the decision levels are the same. *)
Record extends (s s' : Solver) (ext : list Lit) : Prop := mk_extends {
  ext_trail : trail s' = trail s ++ ext;
  ext_trail_lim : trail_lim s' = trail_lim s;
  ext_length : length (assigns s') = length (assigns s);
  ext_keep : forall x, value_var s x <> l_Undef -> value_var s' x = value_var s x;
  ext_new : forall x, value_var s' x <> value_var s x -> x ∈ var <$> ext;
  ext_undef : forall p, p ∈ ext -> value s p = l_Undef;
  ext_true : forall p, p ∈ ext -> (var p < length (assigns s))%nat -> value s' p = l_True;
}.

Lemma extends_refl s : extends s s [].
Proof.
  constructor; try reflexivity; try (intros p Hp; inversion Hp).
  - by rewrite app_nil_r.
  - intros x Hx. contradiction.
Qed.

Lemma extends_same s s' :
  trail s' = trail s -> trail_lim s' = trail_lim s -> assigns s' = assigns s ->
  extends s s' [].
Proof.
  intros Ht Hl Ha. constructor; try (intros p Hp; inversion Hp).
  - by rewrite app_nil_r.
  - assumption.
  - by rewrite Ha.
  - intros x _. unfold value_var. by rewrite Ha.
  - intros x Hx. exfalso. apply Hx. unfold value_var. by rewrite Ha.
Qed.

Lemma frame_extends s s' : frame s s' -> extends s s' [].
Proof. intros [Ha _ _ [Ht Hl _ _]]. by apply extends_same. Qed.

Lemma extends_trans s1 s2 s3 e1 e2 :
  extends s1 s2 e1 -> extends s2 s3 e2 -> extends s1 s3 (e1 ++ e2).
Proof.
  intros [Ht1 Hl1 Hn1 Hk1 Hw1 Hu1 Hv1] [Ht2 Hl2 Hn2 Hk2 Hw2 Hu2 Hv2]. constructor.
  - by rewrite Ht2, Ht1, app_assoc.
  - congruence.
  - congruence.
  - intros x Hx. rewrite Hk2; [by apply Hk1|]. by rewrite Hk1.
  - intros x Hx. rewrite fmap_app, elem_of_app.
    destruct (decide (value_var s2 x = value_var s1 x)) as [He|Hne];
      [right; apply Hw2; congruence|left; by apply Hw1].
  - intros p Hp. apply elem_of_app in Hp as [Hp|Hp]; [by apply Hu1|].
    specialize (Hu2 p Hp). apply value_undef_iff. apply value_undef_iff in Hu2.
    destruct (decide (value_var s1 (var p) = l_Undef)) as [|Hne]; [assumption|].
    rewrite <- (Hk1 _ Hne). assumption.
  - intros p Hp Hr. apply elem_of_app in Hp as [Hp|Hp].
    + specialize (Hv1 p Hp Hr). unfold value in *.
      rewrite Hk2; [assumption|]. intros Hu. rewrite Hu in Hv1. discriminate.
    + apply Hv2; [assumption|]. by rewrite Hn1.
Qed.

Lemma value_var_insert s x y v :
  vget l_Undef (<[x := v]> (assigns s)) y
  = if decide (x = y /\ (x < length (assigns s))%nat) then v else value_var s y.
Proof.
  unfold value_var, vget. destruct (decide _) as [[-> Hlt]|Hn].
  - by rewrite list_lookup_insert_eq.
  - destruct (decide (x = y)) as [->|Hne].
    + rewrite list_insert_ge by lia. reflexivity.
    + by rewrite list_lookup_insert_ne.
Qed.

(** X2 preparation: what [uncheckedEnqueue] records. *)
Lemma uncheckedEnqueue_extends p from s :
  value s p = l_Undef -> extends s (uncheckedEnqueue p from s) [p].
Proof.
  intros Hu. apply value_undef_iff in Hu.
  constructor; unfold uncheckedEnqueue; cbn.
  - reflexivity.
  - reflexivity.
  - by rewrite length_insert.
  - intros x Hx. unfold value_var at 1. cbn. rewrite value_var_insert.
    destruct (decide _) as [[Heq _]|_]; [subst x; contradiction|reflexivity].
  - intros x Hx. unfold value_var at 1 in Hx. cbn in Hx. rewrite value_var_insert in Hx.
    destruct (decide _) as [[Heq _]|_]; [|contradiction]. subst x. cbn. left.
  - intros q Hq. apply list_elem_of_singleton in Hq as ->. by apply value_undef_iff.
  - intros q Hq Hr. apply list_elem_of_singleton in Hq as ->.
    unfold value, value_var. cbn. rewrite value_var_insert.
    destruct (decide _) as [_|Hn]; [|exfalso; apply Hn; auto].
    destruct (sign p); reflexivity.
Qed.

Lemma frame_value s s' p : frame s s' -> value s' p = value s p.
Proof. intros [Ha _ _ _]. unfold value, value_var. by rewrite Ha. Qed.

Lemma propagate_watchers_extends p ws : forall kept s ws' confl s',
  propagate_watchers p ws kept s = (ws', confl, s') ->
  exists s1 ext, extends s s1 ext
    /\ match confl with
       | None => s' = s1
       | Some _ => s' = set_qhead (length (trail s1)) s1
       end.
Proof.
  induction ws as [|w ws IH]; intros kept s ws' confl s'; cbn [propagate_watchers].
  - intros [= <- <- <-]. exists s, []. split; [apply extends_refl|reflexivity].
  - cbv zeta. destruct (lbool_eqb (value s (blocker w)) l_True) eqn:Hb; [apply IH|].
    match goal with |- context [if lit_eqb ?a ?b then ?x else s] =>
      assert (Hs0 : frame s (if lit_eqb a b then x else s));
      [destruct (lit_eqb a b); [apply update_clause_frame|apply frame_refl]
      |generalize dependent (if lit_eqb a b then x else s); intros s0 Hs0] end.
    set (first := lit_at (lits (clause_at s0 (cref w))) 0).
    destruct (_ && _) eqn:Hsat.
    { intros Heq. apply IH in Heq as (s1 & ext & Hg & Hc). exists s1, ext.
      split; [|assumption].
      apply (extends_trans _ _ _ [] ext (frame_extends _ _ Hs0) Hg). }
    destruct (find_new_watch _ _ _) as [k|].
    { intros Heq. apply IH in Heq as (s1 & ext & Hg & Hc). exists s1, ext.
      split; [|assumption].
      apply (extends_trans _ _ _ [] ext (frame_extends _ _ Hs0)).
      refine (extends_trans _ _ _ [] ext (frame_extends _ _ _) Hg). frame_auto. }
    destruct (lbool_eqb (value s0 first) l_False) eqn:Hfalse.
    { intros [= <- <- <-]. exists s0, []. split; [by apply frame_extends|reflexivity]. }
    assert (Hundef : value s0 first = l_Undef).
    { destruct (value s0 first) eqn:Hv; [|discriminate|reflexivity].
      rewrite andb_false_iff in Hsat. destruct Hsat as [Hsat|Hsat]; [|discriminate].
      apply negb_false_iff, lit_eqb_eq in Hsat. rewrite <- Hsat in Hb.
      rewrite <- (frame_value s s0 first Hs0), Hv in Hb. discriminate. }
    intros Heq. apply IH in Heq as (s1 & ext & Hg & Hc). exists s1, ([first] ++ ext).
    split; [|assumption].
    apply (extends_trans _ _ _ [] _ (frame_extends _ _ Hs0)).
    exact (extends_trans _ _ _ _ _ (uncheckedEnqueue_extends first _ s0 Hundef) Hg).
Qed.

Lemma propagate_loop_extends fuel : forall confl n s confl' n' s',
  propagate_loop fuel confl n s = Some (confl', n', s') ->
  exists ext, extends s s' ext.
Proof.
  induction fuel as [|fuel IH]; intros confl n s confl' n' s'; cbn [propagate_loop].
  - destruct (_ <? _)%nat; [discriminate|].
    intros [= <- <- <-]. exists []. apply extends_refl.
  - destruct (_ <? _)%nat.
    2:{ intros [= <- <- <-]. exists []. apply extends_refl. }
    cbv zeta.
    set (p := lit_at (trail s) (qhead s)).
    set (sa := watches_lookup p (set_qhead (S (qhead s)) s)).
    assert (Hsa : extends s sa []).
    { apply (extends_trans s (set_qhead (S (qhead s)) s) sa [] []).
      - by apply extends_same.
      - apply frame_extends, watches_lookup_frame. }
    destruct (propagate_watchers p (watches_of sa p) [] sa) as [[ws1 confl1] s1] eqn:E.
    apply propagate_watchers_extends in E as (s2 & e2 & Hg & Hc).
    intros Heq. apply IH in Heq as [e3 He3].
    exists (e2 ++ e3).
    apply (extends_trans _ _ _ [] _ Hsa).
    apply (extends_trans _ _ _ _ _ Hg).
    refine (extends_trans _ _ _ [] _ _ He3).
    destruct confl1; subst s1; by apply extends_same.
Qed.

Lemma propagate_extends fuel s confl s' :
  propagate fuel s = Some (confl, s') -> exists ext, extends s s' ext.
Proof.
  unfold propagate.
  destruct (propagate_loop fuel None 0 s) as [[[c n] s1]|] eqn:E; [|discriminate].
  cbn. intros [= <- <-]. apply propagate_loop_extends in E as [ext He].
  exists ext. destruct He as [Ht Hl Hn Hk Hw Hu Hv]. by constructor.
Qed.

(** X4. Unit propagation only adds to the assignment: the trail is extended
    by facts that were unassigned and are now true, the values of the
    variables assigned before stay, every variable whose value changed is on
    the new part of the trail, the decision levels are untouched, and the
    propagation queue is empty on return. *)
Theorem propagate_only_extends fuel s confl s' :
  propagate fuel s = Some (confl, s') ->
  exists ext,
    trail s' = trail s ++ ext
    /\ trail_lim s' = trail_lim s
    /\ (forall x, value_var s x <> l_Undef -> value_var s' x = value_var s x)
    /\ (forall x, value_var s' x <> value_var s x -> x ∈ var <$> ext)
    /\ (forall p, p ∈ ext ->
          value s p = l_Undef
          /\ ((var p < length (assigns s))%nat -> value s' p = l_True))
    /\ ((qhead s <= length (trail s))%nat -> qhead s' = length (trail s')).
Proof.
  intros Hprop. pose proof (propagate_spec _ _ _ _ Hprop) as (_ & _ & _ & Hq).
  revert Hprop. unfold propagate.
  destruct (propagate_loop fuel None 0 s) as [[[c n] s1]|] eqn:E; [|discriminate].
  cbn. intros [= <- <-]. apply propagate_loop_extends in E as [ext He].
  exists ext. destruct He as [Ht Hl Hn Hk Hw Hu Hv].
  split; [exact Ht|]. split; [exact Hl|]. split; [exact Hk|]. split; [exact Hw|].
  split; [|exact Hq]. intros p Hp. split; [by apply Hu|by apply Hv].
Qed.

(** ** Backtracking *)

Lemma lit_at_seq_drop (l : list Lit) lim :
  (fun c => lit_at l c) <$> seq lim (length l - lim) = drop lim l.
Proof.
  apply list_eq. intros i. rewrite list_lookup_fmap, lookup_drop.
  destruct (decide (i < length l - lim)%nat) as [Hlt|Hge].
  - rewrite lookup_seq_lt by assumption. cbn. unfold lit_at, vget.
    destruct (lookup_lt_is_Some_2 l (lim + i)%nat ltac:(lia)) as [q ->]. reflexivity.
  - rewrite lookup_seq_ge by lia. cbn. symmetry. apply lookup_ge_None_2. lia.
Qed.

(** One round of the loop of [cancelUntil], for the trail position [c]. *)
Definition cancel_step (s : Solver) (c : nat) : Solver :=
  let p := lit_at (trail s) c in
  let x := var p in
  let s := set_assigns (<[x := l_Undef]> (assigns s)) s in
  let s :=
    if (phase_saving s >? 1)
       || ((phase_saving s =? 1) && (vlast 0%nat (trail_lim s) <? c)%nat)
    then set_polarity (<[x := sign p]> (polarity s)) s else s in
  insertVarOrder x s.

Lemma cancel_step_spec s c :
  let a := cancel_step s c in
  trail a = trail s /\ trail_lim a = trail_lim s /\ qhead a = qhead s
  /\ cflr a = cflr s /\ vardata a = vardata s /\ ca a = ca s
  /\ assigns a = <[var (lit_at (trail s) c) := l_Undef]> (assigns s).
Proof.
  cbv zeta. unfold cancel_step, insertVarOrder. cbv zeta.
  repeat case_match; cbn; repeat split.
Qed.

Lemma cancelUntil_loop_spec (s0 : Solver) (cs : list nat) : forall s,
  trail s = trail s0 ->
  let s1 := foldl cancel_step s cs in
  trail s1 = trail s /\ trail_lim s1 = trail_lim s /\ qhead s1 = qhead s
  /\ cflr s1 = cflr s /\ vardata s1 = vardata s /\ ca s1 = ca s
  /\ length (assigns s1) = length (assigns s)
  /\ forall x, value_var s1 x
               = if decide (x ∈ (fun c => var (lit_at (trail s0) c)) <$> cs)
                 then l_Undef else value_var s x.
Proof.
  induction cs as [|c cs IH]; intros s Ht; cbn [foldl].
  { cbv zeta. repeat split. }
  cbv zeta.
  destruct (cancel_step_spec s c) as (Ha1 & Ha2 & Ha3 & Ha4 & Ha5 & Ha6 & Ha7).
  cbv zeta in Ha1, Ha2, Ha3, Ha4, Ha5, Ha6, Ha7.
  generalize dependent (cancel_step s c). intros a Ha1 Ha2 Ha3 Ha4 Ha5 Ha6 Ha7.
  specialize (IH a ltac:(congruence)). cbv zeta in IH.
  destruct IH as (I1 & I2 & I3 & I4 & I5 & I6 & I7 & I8).
  generalize dependent (foldl cancel_step a cs). intros s1 I1 I2 I3 I4 I5 I6 I7 I8.
  rewrite I1, I2, I3, I4, I5, I6, I7, Ha1, Ha2, Ha3, Ha4, Ha5, Ha6, Ha7, length_insert.
  repeat split. intros x. rewrite I8. rewrite fmap_cons.
  unfold value_var at 1. rewrite Ha7, value_var_insert, Ht.
  destruct (decide (x ∈ _ :: _)) as [Hin|Hnin];
    destruct (decide (x ∈ _ <$> cs)) as [Hin'|Hnin']; try reflexivity.
  - apply elem_of_cons in Hin as [->|Hin]; [|contradiction].
    destruct (decide _) as [_|Hn]; [reflexivity|].
    unfold value_var, vget. rewrite lookup_ge_None_2; [reflexivity|].
    apply Nat.nlt_ge. intros Hlt. apply Hn. auto.
  - exfalso. apply Hnin. apply elem_of_cons. by right.
  - rewrite decide_False; [reflexivity|]. intros [Heq _]. apply Hnin.
    apply elem_of_cons. left. congruence.
Qed.

(** What [cancelUntil] does: nothing at or above the current level;
    otherwise the trail, the boundaries and the queue head are cut back to
    the start of level [lvl + 1], the variables of the removed facts are
    unassigned, and every other variable keeps its value. *)
Lemma cancelUntil_cut lvl s :
  let s' := cancelUntil lvl s in
  let lim := vget 0%nat (trail_lim s) (Z.to_nat lvl) in
  (Z.of_nat (decisionLevel s) <= lvl -> s' = s)
  /\ (lvl < Z.of_nat (decisionLevel s) ->
      trail s' = take lim (trail s)
      /\ trail_lim s' = take (Z.to_nat lvl) (trail_lim s)
      /\ qhead s' = lim
      /\ cflr s' = None
      /\ forall x, value_var s' x
                   = if decide (x ∈ var <$> drop lim (trail s)) then l_Undef
                     else value_var s x).
Proof.
  cbv zeta. unfold cancelUntil.
  destruct (Z.gtb_spec (Z.of_nat (decisionLevel s)) lvl) as [Hgt|Hle].
  2:{ split; [reflexivity|lia]. }
  split; [lia|]. intros _. cbv zeta.
  set (lim := vget 0%nat (trail_lim s) (Z.to_nat lvl)).
  change (trail_lim (set_cflr None s)) with (trail_lim s). fold lim.
  change (trail (set_cflr None s)) with (trail s).
  pose proof (cancelUntil_loop_spec s (rev (seq lim (length (trail s) - lim)))
                (set_cflr None s) eq_refl) as Hloop.
  cbv zeta in Hloop.
  destruct Hloop as (I1 & I2 & I3 & I4 & _ & _ & _ & I8).
  match goal with |- context [foldl ?f (set_cflr None s) ?l] =>
    change (foldl f (set_cflr None s) l)
      with (foldl cancel_step (set_cflr None s) l) end.
  generalize dependent (foldl cancel_step (set_cflr None s)
                          (rev (seq lim (length (trail s) - lim)))).
  intros s1 I1 I2 I3 I4 I8.
  cbn. unfold shrink. rewrite I1, I2. cbn.
  split.
  { destruct (decide (lim <= length (trail s))%nat) as [Hle|Hnle]; [f_equal; lia|].
    rewrite !take_ge by lia. reflexivity. }
  split; [f_equal; unfold decisionLevel in Hgt; lia|].
  split; [reflexivity|]. split; [exact I4|].
  intros x. change (value_var (set_trail_lim ?a (set_trail ?b (set_qhead ?c s1))) x)
    with (value_var s1 x).
  rewrite I8. change (value_var (set_cflr None s) x) with (value_var s x).
  assert (Hset : forall y, y ∈ (fun c => var (lit_at (trail s) c))
                             <$> rev (seq lim (length (trail s) - lim))
                           <-> y ∈ var <$> drop lim (trail s)).
  { intros y. rewrite <- lit_at_seq_drop, <- list_fmap_compose.
    rewrite !list_elem_of_fmap. setoid_rewrite elem_of_rev_iff. reflexivity. }
  destruct (decide _) as [Hin|Hnin]; destruct (decide _) as [Hin'|Hnin'];
    try reflexivity; exfalso; [apply Hnin'|apply Hnin]; by apply Hset.
Qed.

(** ** Implied literals *)

Lemma implies_assume_spec assumps : forall s r s1,
  implies_assume assumps s = (r, s1) ->
  exists ext, extends s s1 ext
    /\ (r = true -> forall a, a ∈ assumps -> value s a <> l_False)
    /\ ((exists a, a ∈ assumps /\ value s a = l_False) -> r = false).
Proof.
  induction assumps as [|a assumps IH]; intros s r s1; cbn [implies_assume].
  { intros [= <- <-]. exists []. split; [apply extends_refl|].
    split; [intros _ a Ha; inversion Ha|intros (a & Ha & _); inversion Ha]. }
  destruct (lbool_eqb_spec (value s a) l_False) as [Hf|Hnf].
  { intros [= <- <-]. exists []. split; [apply extends_refl|].
    split; [discriminate|reflexivity]. }
  destruct (lbool_eqb_spec (value s a) l_Undef) as [Hu|Hnu].
  - intros Heq. apply IH in Heq as (ext & He & Htrue & Hfalse).
    pose proof (uncheckedEnqueue_extends a None s Hu) as Hen.
    exists ([a] ++ ext). split; [eapply extends_trans; eassumption|].
    assert (Hmono : forall q, value s q = l_False ->
                              value (uncheckedEnqueue a None s) q = l_False).
    { intros q Hq. unfold value in *. rewrite (ext_keep _ _ _ Hen); [assumption|].
      intros Hx. rewrite Hx in Hq. discriminate. }
    split.
    + intros Hr q Hq. apply elem_of_cons in Hq as [->|Hq]; [assumption|].
      intros Hqf. apply (Htrue Hr q Hq). by apply Hmono.
    + intros (q & Hq & Hqf). apply elem_of_cons in Hq as [->|Hq]; [contradiction|].
      apply Hfalse. exists q. split; [assumption|by apply Hmono].
  - intros Heq. apply IH in Heq as (ext & He & Htrue & Hfalse).
    exists ext. split; [assumption|]. split.
    + intros Hr q Hq. apply elem_of_cons in Hq as [->|Hq]; [assumption|by apply Htrue].
    + intros (q & Hq & Hqf). apply elem_of_cons in Hq as [->|Hq]; [contradiction|].
      apply Hfalse. eauto.
Qed.

(** Undoing, at level 0, what was enqueued above the level-0 trail. *)
Lemma cancelUntil_undoes s s2 ext :
  trail_lim s = [] ->
  extends (set_trail_lim [length (trail s)] s) s2 ext ->
  let s' := cancelUntil 0 s2 in
  trail s' = trail s /\ trail_lim s' = [] /\ qhead s' = length (trail s)
  /\ forall x, value_var s' x = value_var s x.
Proof.
  intros Hl0 He. cbv zeta.
  pose proof (ext_trail _ _ _ He) as Ht. pose proof (ext_trail_lim _ _ _ He) as Hl.
  cbn in Ht, Hl.
  destruct (cancelUntil_cut 0 s2) as [_ Hcut]. cbv zeta in Hcut.
  unfold decisionLevel in Hcut. rewrite Hl in Hcut. cbn in Hcut.
  destruct (Hcut ltac:(lia)) as (Ht' & Hl' & Hq' & _ & Hv'). clear Hcut.
  change (vget 0%nat [length (trail s)] (Z.to_nat 0)) with (length (trail s)) in *.
  change (take (Z.to_nat 0) [length (trail s)]) with (@nil nat) in Hl'.
  rewrite Ht in Ht', Hv'. rewrite take_app_length in Ht'. rewrite drop_app_length in Hv'.
  split; [assumption|]. split; [assumption|]. split; [assumption|].
  intros x. rewrite Hv'. destruct (decide _) as [Hin|Hnin].
  - apply list_elem_of_fmap in Hin as (p & -> & Hp).
    symmetry. apply value_undef_iff. exact (ext_undef _ _ _ He p Hp).
  - destruct (decide (value_var s2 x = value_var s x)) as [|Hne]; [assumption|].
    exfalso. apply Hnin. exact (ext_new _ _ _ He x Hne).
Qed.

(** X5. [implies] called at level 0 leaves the trail and the value of every
    variable as it found them; it fails when an assumption is false, and on
    success the literals handed back were all unassigned. *)
Theorem implies_restores fuel assumps out s r out' s' :
  decisionLevel s = 0%nat ->
  implies fuel assumps out s = Some (r, out', s') ->
  trail s' = trail s /\ decisionLevel s' = 0%nat /\ qhead s' = length (trail s)
  /\ (forall x, value_var s' x = value_var s x)
  /\ (r = false -> out' = out)
  /\ (r = true -> (forall a, a ∈ assumps -> value s a <> l_False)
                  /\ forall p, p ∈ out' -> value s p = l_Undef)
  /\ ((exists a, a ∈ assumps /\ value s a = l_False) -> r = false).
Proof.
  intros Hlvl. apply length_zero_iff_nil in Hlvl. unfold implies. cbv zeta.
  rewrite Hlvl. cbn [app].
  set (s0 := set_trail_lim [length (trail s)] s).
  destruct (implies_assume assumps s0) as [assumed s1] eqn:Ea.
  apply implies_assume_spec in Ea as (e1 & He1 & Htrue & Hfalse).
  change (value s0) with (value s) in Htrue, Hfalse.
  destruct assumed; cbn [negb].
  2:{ intros [= <- <- <-].
      destruct (cancelUntil_undoes s s1 e1 Hlvl He1) as (Ht & Hl & Hq & Hv).
      unfold decisionLevel. rewrite Hl. repeat split; auto; discriminate. }
  destruct (propagate fuel s1) as [[confl s2]|] eqn:Ep; [|discriminate]. cbn.
  pose proof (propagate_extends _ _ _ _ Ep) as [e2 He2].
  pose proof (extends_trans _ _ _ _ _ He1 He2) as He.
  destruct (cancelUntil_undoes s s2 (e1 ++ e2) Hlvl He) as (Ht & Hl & Hq & Hv).
  destruct confl as [cr|]; intros [= <- <- <-]; unfold decisionLevel; rewrite Hl.
  - repeat split; auto; discriminate.
  - split; [assumption|]. split; [reflexivity|]. split; [assumption|].
    split; [assumption|]. split; [discriminate|]. split; [|auto].
    intros _. split; [by apply Htrue|].
    rewrite (ext_trail _ _ _ He2), drop_app_length. intros p Hp.
    change (value s p) with (value s0 p).
    exact (ext_undef _ _ _ He p ltac:(apply elem_of_app; by right)).
Qed.

(** ** The shape of the learnt clause *)

(** [below s q]: the level of [q] lies strictly between the root level and
    the current decision level. *)
Definition below (s : Solver) (q : Lit) : Prop :=
  0 < level s (var q) < Z.of_nat (decisionLevel s).

Lemma frame_decisionLevel s s' : frame s s' -> decisionLevel s' = decisionLevel s.
Proof. intros [_ _ _ [_ Hl _ _]]. unfold decisionLevel. by rewrite Hl. Qed.

Lemma analyze_lit_below s0 acc q :
  frame s0 acc.2 -> acc.1.2 <> [] -> Forall (below s0) (drop 1 acc.1.2) ->
  let acc' := analyze_lit acc q in
  frame s0 acc'.2 /\ acc'.1.2 <> [] /\ Forall (below s0) (drop 1 acc'.1.2).
Proof.
  destruct acc as [[pathC out] s]. cbn [fst snd]. intros Hfr Hne Hall. cbv zeta.
  pose proof (analyze_lit_frame (pathC, out, s) q) as Hstep. cbn [fst snd] in Hstep.
  unfold analyze_lit in *. cbv zeta in *.
  destruct (Nat.eqb _ 0 && _) eqn:Hc; [|auto].
  apply andb_true_iff in Hc as [_ Hpos]. apply Z.gtb_lt in Hpos.
  match goal with |- context [set_seen_at ?x 1 ?y] =>
    assert (Hb : frame s (set_seen_at x 1 y)) by frame_auto;
    generalize dependent (set_seen_at x 1 y); intros s1 Hstep Hb end.
  destruct (Z.geb_spec (level s1 (var q)) (Z.of_nat (decisionLevel s1))) as [Hge|Hlt];
    cbn [fst snd] in *.
  - split; [eapply frame_trans; eassumption|auto].
  - split; [eapply frame_trans; eassumption|]. split; [by destruct out|].
    destruct out as [|o out]; [contradiction|]. cbn [app drop] in *.
    rewrite drop_0 in *. apply Forall_app. split; [assumption|].
    constructor; [|constructor]. unfold below.
    pose proof (frame_trans _ _ _ Hfr Hb) as Hall1.
    rewrite <- (frame_level s0 s1 (var q) Hall1), <- (frame_decisionLevel s0 s1 Hall1).
    rewrite <- (frame_level s s1 (var q) Hb) in Hpos. lia.
Qed.

Lemma foldl_analyze_lit_below s0 qs : forall acc,
  frame s0 acc.2 -> acc.1.2 <> [] -> Forall (below s0) (drop 1 acc.1.2) ->
  let acc' := foldl analyze_lit acc qs in
  frame s0 acc'.2 /\ acc'.1.2 <> [] /\ Forall (below s0) (drop 1 acc'.1.2).
Proof.
  induction qs as [|q qs IH]; intros acc Hfr Hne Hall; cbn [foldl]; [auto|].
  destruct (analyze_lit_below s0 acc q Hfr Hne Hall) as (H1 & H2 & H3).
  by apply IH.
Qed.

Lemma analyze_scan_lt s : forall idx1 k, analyze_scan s idx1 = Some k -> (k < idx1)%nat.
Proof.
  induction idx1 as [|i IH]; intros k; cbn [analyze_scan]; [discriminate|].
  destruct (Nat.eqb _ 0); [intros Hk; apply IH in Hk; lia|intros [= <-]; lia].
Qed.

Lemma analyze_loop_below s0 fuel : forall confl p idx1 pathC out s p' out' s',
  frame s0 s -> out <> [] -> Forall (below s0) (drop 1 out) ->
  (idx1 <= length (trail s0))%nat ->
  analyze_loop fuel confl p idx1 pathC out s = Some (p', out', s') ->
  out' <> [] /\ Forall (below s0) (drop 1 out') /\ p' ∈ trail s0.
Proof.
  induction fuel as [|fuel IH]; intros confl p idx1 pathC out s p' out' s' Hfr Hne Hall Hidx;
    [discriminate|].
  cbn [analyze_loop]. cbv zeta. destruct confl as [cr|]; [|discriminate].
  cbn [mbind option_bind].
  match goal with |- context [foldl analyze_lit (pathC, out, ?x) ?qs] =>
    assert (Hx : frame s0 x) by (eapply frame_trans; [exact Hfr|]; frame_auto);
    destruct (foldl_analyze_lit_below s0 qs (pathC, out, x) Hx Hne Hall) as (H1 & H2 & H3);
    destruct (foldl analyze_lit (pathC, out, x) qs) as [[pathC1 out1] s1] end.
  cbn [fst snd] in H1, H2, H3.
  destruct (analyze_scan s1 idx1) as [k|] eqn:Ek; [|discriminate]. cbn [mbind option_bind].
  apply analyze_scan_lt in Ek.
  assert (Ht : trail s1 = trail s0) by (destruct H1 as [_ _ _ [Ht _ _ _]]; exact Ht).
  assert (Hin : lit_at (trail s1) k ∈ trail s0).
  { rewrite Ht. unfold lit_at, vget.
    destruct (lookup_lt_is_Some_2 (trail s0) k ltac:(lia)) as [q Hq]. rewrite Hq. cbn.
    eapply list_elem_of_lookup_2, Hq. }
  destruct (_ >? 0); intros Heq.
  - eapply (IH _ _ _ _ _ _ _ _ _ _ H2 H3 _ Heq). Unshelve.
    + eapply frame_trans; [exact H1|]. frame_auto.
    + lia.
  - simplify_eq. auto.
Qed.

Lemma analyze_minimize2_sub fuel ps : forall kept s out s',
  analyze_minimize2 fuel ps kept s = Some (out, s') ->
  forall q, q ∈ out -> q ∈ kept \/ q ∈ ps.
Proof.
  induction ps as [|x ps IH]; intros kept s out s'; cbn [analyze_minimize2].
  - intros [= <- <-] q Hq. left. by apply elem_of_rev_iff.
  - destruct (reason s (var x)).
    2:{ intros Heq q Hq. destruct (IH _ _ _ _ Heq q Hq) as [Hk|Hp]; [|right; by right].
        apply elem_of_cons in Hk as [->|Hk]; [right; left|by left]. }
    destruct (litRedundant fuel x s) as [[[] s1]|]; [| |discriminate]; intros Heq q Hq.
    + destruct (IH _ _ _ _ Heq q Hq) as [Hk|Hp]; [by left|right; by right].
    + destruct (IH _ _ _ _ Heq q Hq) as [Hk|Hp]; [|right; by right].
      apply elem_of_cons in Hk as [->|Hk]; [right; left|by left].
Qed.

Lemma analyze_btlevel_sub s out out' bt :
  analyze_btlevel s out = (out', bt) ->
  lit_at out' 0 = lit_at out 0 /\ forall q, q ∈ drop 1 out' -> q ∈ drop 1 out.
Proof.
  unfold analyze_btlevel. destruct (Nat.eqb_spec (length out) 1) as [H1|H1].
  { intros [= <- <-]. auto. }
  cbv zeta. intros [= <- <-].
  destruct (Nat.le_gt_cases (length out) 1) as [Hshort|Hlong].
  { assert (Hd : drop 2 out = []) by (apply drop_ge; lia). rewrite Hd. cbn [find_max_i].
    rewrite (list_insert_ge out) by lia. rewrite (list_insert_ge out) by lia. auto. }
  pose proof (find_max_i_spec s out (drop 2 out) 2 1 eq_refl ltac:(lia) ltac:(left; lia))
    as Hspec.
  cbv zeta in Hspec. rewrite Nat.max_r in Hspec by lia.
  destruct Hspec as (Hm1 & Hmlen & _).
  { intros j Hj. replace j with 1%nat by lia. lia. }
  set (m := find_max_i s out 2 1 (drop 2 out)) in *.
  split.
  - unfold lit_at, vget. rewrite !list_lookup_insert_ne by lia. reflexivity.
  - intros q Hq. apply list_elem_of_lookup in Hq as [j Hj]. rewrite lookup_drop in Hj.
    assert (Hmem : forall i, (1 <= i < length out)%nat -> lit_at out i ∈ drop 1 out).
    { intros i Hi. unfold lit_at, vget.
      destruct (lookup_lt_is_Some_2 out i ltac:(lia)) as [x Hx]. rewrite Hx. cbn.
      apply list_elem_of_lookup. exists (i - 1)%nat. rewrite lookup_drop.
      by replace (1 + (i - 1))%nat with i by lia. }
    destruct (decide (1 + j = 1)%nat) as [E1|N1].
    { rewrite E1, list_lookup_insert_eq in Hj by (rewrite length_insert; lia).
      injection Hj as <-. apply Hmem. lia. }
    rewrite list_lookup_insert_ne in Hj by lia.
    destruct (decide (1 + j = m)%nat) as [Em|Nm].
    { rewrite Em, list_lookup_insert_eq in Hj by lia. injection Hj as <-.
      apply Hmem. lia. }
    rewrite list_lookup_insert_ne in Hj by lia.
    apply list_elem_of_lookup. exists j. by rewrite lookup_drop.
Qed.

Lemma analyze_backtrack_shape fuel confl s out_learnt out_btlevel s' :
  analyze fuel confl s = Some (out_learnt, out_btlevel, s') ->
  (length out_learnt = 1%nat -> out_btlevel = 0)
  /\ (length out_learnt <> 1%nat -> out_btlevel = level s' (var (lit_at out_learnt 1))).
Proof.
  intros Han. pose proof (analyze_frame _ _ _ _ _ _ Han) as Hfr.
  assert (Hlev : forall x, level s' x = level s x) by (intros; by apply frame_level).
  revert Han. cbv beta delta [analyze].
  destruct (analyze_loop _ _ _ _ _ _ s) as [[[p out1] s1]|] eqn:E1; [|discriminate].
  apply analyze_loop_frame in E1. bind_step. do 2 let_value.
  match goal with |- context [set_analyze_toclear ?v s1] =>
    assert (Hs2 : frame s (set_analyze_toclear v s1)) by frame_auto;
    generalize dependent (set_analyze_toclear v s1); intros s2 Hs2;
    generalize v; intros out2 end.
  match goal with |- (?m ≫= _) = _ -> _ =>
    assert (Hmin : forall om s3, m = Some (om, s3) -> frame s s3);
    [|destruct m as [[out_min s3]|]; [specialize (Hmin _ _ eq_refl)|discriminate]] end.
  { intros om s3. destruct (ccmin_mode s2 =? 2).
    - destruct (analyze_minimize2 _ _ _ s2) as [[kept s4]|] eqn:E3; [|discriminate].
      apply analyze_minimize2_frame in E3. bind_step. intros [= <- <-].
      eapply frame_trans; eassumption.
    - destruct (ccmin_mode s2 =? 1); intros [= <- <-]; assumption. }
  bind_step. do 2 let_value.
  match goal with |- context [analyze_btlevel ?x out_min] =>
    assert (Hx : frame s x) by frame_auto;
    destruct (analyze_btlevel x out_min) as [out_final bt] eqn:Ebt;
    apply analyze_btlevel_spec in Ebt as (Hlen & Hone & Hmore);
    assert (Hlx : forall v, level x v = level s v) by (intros; by apply frame_level);
    set (s4 := x) in *; clearbody s4 end.
  let_value. intros [= <- <- <-].
  split.
  - intros H1. apply Hone. lia.
  - intros H1. destruct (Hmore ltac:(lia)) as [Hbt _]. by rewrite Hlev, <- Hlx.
Qed.

(** X6. The learnt clause of [analyze]: its first literal negates a fact of the
    trail, every other literal was assigned strictly between the root level
    and the current level, and so the backtrack level is 0 for a unit clause
    and otherwise lies strictly between 0 and the current level. *)
Theorem analyze_learnt_levels fuel confl s out_learnt out_btlevel s' :
  analyze fuel confl s = Some (out_learnt, out_btlevel, s') ->
  (exists p, p ∈ trail s /\ lit_at out_learnt 0 = neg p)
  /\ out_learnt <> []
  /\ (forall q, q ∈ drop 1 out_learnt ->
                0 < level s (var q) < Z.of_nat (decisionLevel s))
  /\ ((length out_learnt = 1%nat /\ out_btlevel = 0)
      \/ ((1 < length out_learnt)%nat
          /\ 0 < out_btlevel < Z.of_nat (decisionLevel s))).
Proof.
  intros Han. pose proof (analyze_backtrack_shape fuel confl s _ _ _ Han) as Hbt.
  assert (Hlev : forall x, level s' x = level s x)
    by (intros; eapply frame_level, analyze_frame, Han).
  revert Han. cbv beta delta [analyze].
  destruct (analyze_loop _ _ _ _ _ _ s) as [[[p out1] s1]|] eqn:E1; [|discriminate].
  pose proof (analyze_loop_frame _ _ _ _ _ _ _ _ _ _ E1) as Hfr1.
  apply (analyze_loop_below s) in E1 as (Hne1 & Hall1 & Hp);
    [|apply frame_refl|discriminate|constructor|lia].
  bind_step. do 2 let_value.
  set (out2 := <[0%nat := neg p]> out1).
  assert (Hout2 : lit_at out2 0 = neg p /\ drop 1 out2 = drop 1 out1 /\ out2 <> []).
  { subst out2. destruct out1 as [|o out1]; [contradiction|]. cbn. auto. }
  destruct Hout2 as (H20 & H2d & H2n).
  match goal with |- context [set_analyze_toclear out2 s1] =>
    generalize (set_analyze_toclear out2 s1); intros s2 end.
  match goal with |- (?m ≫= _) = _ -> _ =>
    assert (Hmin : forall om s3, m = Some (om, s3) ->
                     lit_at om 0 = neg p /\ om <> []
                     /\ forall q, q ∈ drop 1 om -> q ∈ drop 1 out2);
    [|destruct m as [[out_min s3]|]; [specialize (Hmin _ _ eq_refl)|discriminate]] end.
  { intros om s3.
    assert (Htake : exists o, take 1 out2 = [o] /\ lit_at out2 0 = o).
    { destruct out2 as [|o out2']; [contradiction|]. exists o. auto. }
    destruct Htake as (o & Htk & Ho).
    destruct (ccmin_mode s2 =? 2).
    - destruct (analyze_minimize2 _ _ _ s2) as [[kept s4]|] eqn:E3; [|discriminate].
      bind_step. intros [= <- <-]. rewrite Htk. cbn [app lit_at].
      split; [unfold lit_at, vget; cbn; congruence|]. split; [discriminate|].
      cbn [drop]. intros q Hq.
      destruct (analyze_minimize2_sub _ _ _ _ _ _ E3 q Hq) as [Hk|Hk]; [inversion Hk|exact Hk].
    - destruct (ccmin_mode s2 =? 1); intros [= <- <-]; [|auto].
      rewrite Htk. split; [unfold lit_at, vget; cbn; congruence|]. split; [discriminate|].
      cbn [app drop]. intros q Hq. unfold analyze_minimize1 in Hq.
      apply list_elem_of_In, filter_In in Hq as [Hq _]. by apply list_elem_of_In. }
  destruct Hmin as (Hm0 & Hmn & Hmsub).
  bind_step. do 2 let_value.
  match goal with |- context [analyze_btlevel ?x out_min] =>
    destruct (analyze_btlevel x out_min) as [out_final bt] eqn:Ebt;
    pose proof (analyze_btlevel_spec _ _ _ _ Ebt) as (Hlen & _ & _);
    apply analyze_btlevel_sub in Ebt as (Hf0 & Hfsub) end.
  let_value. intros [= <- <- <-].
  assert (Hall : forall q, q ∈ drop 1 out_final -> below s q).
  { intros q Hq. rewrite Forall_forall in Hall1. apply Hall1. rewrite <- H2d. auto. }
  split; [exists p; split; [assumption|congruence]|].
  split; [intros ->; destruct out_min; [contradiction|discriminate]|].
  split; [exact Hall|].
  destruct Hbt as (Hone & Hmore).
  destruct (decide (length out_final = 1%nat)) as [H1|H1]; [left; auto|right].
  assert (Hlong : (1 < length out_final)%nat).
  { destruct out_final as [|a [|b l]]; cbn in *; [destruct out_min; [contradiction|discriminate]|lia|lia]. }
  split; [assumption|]. rewrite (Hmore H1), Hlev.
  apply Hall. unfold lit_at, vget.
  destruct (lookup_lt_is_Some_2 out_final 1 Hlong) as [x Hx]. rewrite Hx. cbn.
  apply list_elem_of_lookup. exists 0%nat. by rewrite lookup_drop.
Qed.

(** ** The decision heuristic *)

Lemma heap_best_in act : forall h best, heap_best act best h ∈ best :: h.
Proof.
  induction h as [|x h IH]; intros best; cbn [heap_best]; [left|].
  destruct (d_lt _ _).
  - right. apply IH.
  - specialize (IH best). apply elem_of_cons in IH as [->|IH]; [left|right; by right].
Qed.

Lemma remove_first_length x : forall h, x ∈ h -> S (length (remove_first x h)) = length h.
Proof.
  induction h as [|y h IH]; intros Hin; [inversion Hin|]. cbn [remove_first].
  destruct (Nat.eqb_spec x y) as [->|Hne]; [reflexivity|].
  apply elem_of_cons in Hin as [->|Hin]; [contradiction|]. cbn. by rewrite IH.
Qed.

Lemma heap_removeMin_spec s x s' :
  heap_removeMin s = (x, s') -> order_heap s <> [] ->
  S (length (order_heap s')) = length (order_heap s)
  /\ assigns s' = assigns s /\ decision s' = decision s.
Proof.
  unfold heap_removeMin. destruct (order_heap s) as [|y h] eqn:Eh; [contradiction|].
  cbv zeta. intros [= <- <-] _. cbn [order_heap set_order_heap assigns decision].
  split; [|auto]. change (order_heap (set_order_heap ?l s)) with l.
  apply (remove_first_length _ (y :: h)), heap_best_in.
Qed.

Lemma pickBranch_loop_spec fuel : forall next s r s',
  (length (order_heap s) < fuel)%nat ->
  pickBranch_loop fuel next s = (r, s') ->
  assigns s' = assigns s /\ decision s' = decision s
  /\ match r with
     | Some x => value_var s' x = l_Undef /\ vget false (decision s') x = true
     | None => order_heap s' = []
     end.
Proof.
  induction fuel as [|fuel IH]; intros next s r s' Hfuel; [lia|].
  cbn [pickBranch_loop].
  destruct (match next with
            | Some x => negb (lbool_eqb (value_var s x) l_Undef)
                        || negb (vget false (decision s) x)
            | None => true
            end) eqn:Hc.
  - destruct (order_heap s) as [|y h] eqn:Eh.
    { intros [= <- <-]. auto. }
    destruct (heap_removeMin s) as [x s1] eqn:Er.
    apply heap_removeMin_spec in Er as (Hlen & Ha & Hd); [|by rewrite Eh].
    intros Heq. apply IH in Heq as (Ha' & Hd' & Hr); [|rewrite Eh in Hlen; cbn [length] in Hlen, Hfuel; lia].
    split; [congruence|]. split; [congruence|assumption].
  - intros [= <- <-]. split; [reflexivity|]. split; [reflexivity|].
    destruct next as [x|]; [|discriminate].
    apply orb_false_iff in Hc as [Hu Hd]. apply negb_false_iff in Hu, Hd.
    split; [|assumption]. by destruct (lbool_eqb_spec (value_var s x) l_Undef).
Qed.

Lemma pickBranchLit_spec s next s' :
  pickBranchLit s = (next, s') ->
  assigns s' = assigns s /\ decision s' = decision s
  /\ match next with
     | Some p => value s' p = l_Undef /\ vget false (decision s') (var p) = true
     | None => order_heap s' = []
     end.
Proof.
  unfold pickBranchLit.
  destruct (drand (random_seed s)) as [r seed]. cbv zeta.
  match goal with |- match ?e with (_, _) => _ end = _ -> _ =>
    assert (Hx : assigns e.2 = assigns s /\ decision e.2 = decision s);
    [|destruct e as [next0 s0]; cbn [fst snd] in Hx] end.
  { destruct (_ && _); [|auto].
    destruct (drand _) as [r' seed']. cbv zeta. destruct (_ && _); auto. }
  destruct Hx as [Ha0 Hd0].
  destruct (pickBranch_loop (S (length (order_heap s0))) next0 s0) as [next1 s1] eqn:El.
  apply pickBranch_loop_spec in El as (Ha & Hd & Hr); [|lia].
  destruct next1 as [x|].
  2:{ intros [= <- <-]. split; [congruence|split; [congruence|assumption]]. }
  destruct Hr as [Hu Hdec].
  assert (Hval : forall b, value s1 (mkLit x b) = l_Undef)
    by (intros b; apply value_undef_iff; exact Hu).
  destruct (negb _).
  { intros [= <- <-]. split; [congruence|]. split; [congruence|].
    split; [apply Hval|exact Hdec]. }
  destruct (rnd_pol s1).
  - destruct (drand _) as [r' seed']. intros [= <- <-]. cbn.
    split; [congruence|]. split; [congruence|]. split; [apply Hval|exact Hdec].
  - intros [= <- <-]. split; [congruence|]. split; [congruence|].
    split; [apply Hval|exact Hdec].
Qed.

(** X9. [pickBranchLit] never changes the assignment, and what it returns is
    either [lit_Undef], with the order heap exhausted, or a literal of a
    decision variable that is unassigned. *)
Theorem pickBranchLit_unassigned s :
  let r := pickBranchLit s in
  assigns r.2 = assigns s /\ decision r.2 = decision s
  /\ match r.1 with
     | Some p => value r.2 p = l_Undef /\ vget false (decision r.2) (var p) = true
     | None => order_heap r.2 = []
     end.
Proof.
  cbv zeta. destruct (pickBranchLit s) as [next s'] eqn:E.
  exact (pickBranchLit_spec s next s' E).
Qed.

(** ** Clause bookkeeping *)

(** X13. After [removeClause] the clause is not locked any more (no variable
    keeps it as the reason of a true first literal), an allocated clause
    carries the deleted mark, and no clause changes its literals. *)
Theorem removeClause_unlocks cr s :
  let s' := removeClause cr s in
  locked s' cr = false
  /\ ((cr < length (ca s))%nat -> isRemoved s' cr = true)
  /\ (forall x, lits (clause_at s' x) = lits (clause_at s x))
  /\ assigns s' = assigns s.
Proof.
  cbv zeta. unfold removeClause. cbv zeta.
  assert (Hd : assigns (detachClause cr false s) = assigns s
               /\ vardata (detachClause cr false s) = vardata s
               /\ ca (detachClause cr false s) = ca s).
  { unfold detachClause, smudge. cbv zeta. repeat case_match; cbn; auto. }
  destruct Hd as (Ha & Hv & Hc). revert Ha Hv Hc.
  generalize (detachClause cr false s). intros s1 Ha Hv Hc.
  set (c0 := lit_at (lits (clause_at s1 cr)) 0).
  assert (Hlits : forall s2 x, ca s2 = ca s1 ->
            lits (clause_at (ca_free cr (update_clause cr (set_mark 1%nat) s2)) x)
            = lits (clause_at s x)).
  { intros s2 x H2. unfold ca_free, update_clause, clause_at, vget. cbn. rewrite H2, Hc.
    destruct (decide (x = cr)) as [->|Hne].
    - rewrite list_lookup_alter_eq. by destruct (ca s !! cr).
    - by rewrite list_lookup_alter_ne. }
  assert (Hmark : forall s2, ca s2 = ca s1 -> (cr < length (ca s))%nat ->
            isRemoved (ca_free cr (update_clause cr (set_mark 1%nat) s2)) cr = true).
  { intros s2 H2 Hlt. unfold isRemoved, ca_free, update_clause, clause_at, vget. cbn.
    rewrite H2, Hc, list_lookup_alter_eq.
    destruct (lookup_lt_is_Some_2 (ca s) cr Hlt) as [c ->]. reflexivity. }
  assert (Hc0 : forall s2, ca s2 = ca s1 ->
            lit_at (lits (clause_at (ca_free cr (update_clause cr (set_mark 1%nat) s2)) cr)) 0
            = c0).
  { intros s2 H2. rewrite Hlits by assumption. subst c0. unfold clause_at. by rewrite Hc. }
  destruct (locked s1 cr) eqn:Hl.
  - split; [|split; [|split]].
    + unfold locked. cbv zeta. rewrite Hc0 by reflexivity.
      apply andb_false_iff. right.
      unfold reason, set_reason, ca_free, update_clause, vget. cbn.
      destruct (decide (var c0 < length (vardata s1))%nat) as [Hlt|Hge].
      * rewrite list_lookup_insert_eq by assumption. reflexivity.
      * rewrite lookup_ge_None_2 by (rewrite length_insert; lia). reflexivity.
    + apply Hmark. reflexivity.
    + intros x. apply Hlits. reflexivity.
    + cbn. exact Ha.
  - split; [|split; [|split]].
    + rewrite <- Hl. unfold locked. cbv zeta. rewrite Hc0 by reflexivity. reflexivity.
    + apply Hmark. reflexivity.
    + intros x. apply Hlits. reflexivity.
    + cbn. exact Ha.
Qed.

(** ** Enqueueing and backtracking, as a user sees them *)

(** X1. [uncheckedEnqueue p from] makes [p] true, records the current level and
    the reason, appends [p] to the trail and touches no other variable. *)
Theorem uncheckedEnqueue_records p from s :
  (var p < length (assigns s))%nat ->
  (var p < length (vardata s))%nat ->
  let s' := uncheckedEnqueue p from s in
  value s' p = l_True /\ value s' (neg p) = l_False
  /\ level s' (var p) = Z.of_nat (decisionLevel s)
  /\ reason s' (var p) = from
  /\ trail s' = trail s ++ [p]
  /\ qhead s' = qhead s /\ trail_lim s' = trail_lim s
  /\ forall x, x <> var p ->
               value_var s' x = value_var s x /\ level s' x = level s x
               /\ reason s' x = reason s x.
Proof.
  intros Ha Hv. cbv zeta.
  assert (Hp : value (uncheckedEnqueue p from s) p = l_True).
  { unfold value, value_var, uncheckedEnqueue. cbn. rewrite value_var_insert.
    rewrite decide_True by auto. by destruct (sign p). }
  split; [exact Hp|]. split; [by rewrite value_neg, Hp|].
  unfold level, reason, value_var, uncheckedEnqueue, vget. cbn.
  rewrite !list_lookup_insert_eq by assumption. cbn.
  repeat split; rewrite list_lookup_insert_ne by auto; reflexivity.
Qed.

(** X2. [cancelUntil] at or above the current level does nothing; below it, the
    trail, the boundaries and the queue head are cut back to the start of
    level [lvl + 1], the pending conflict is forgotten, the variables of the
    removed facts are unassigned and all others keep their values. *)
Theorem cancelUntil_spec lvl s :
  let s' := cancelUntil lvl s in
  let lim := vget 0%nat (trail_lim s) (Z.to_nat lvl) in
  (Z.of_nat (decisionLevel s) <= lvl -> s' = s)
  /\ (lvl < Z.of_nat (decisionLevel s) ->
      trail s' = take lim (trail s)
      /\ trail_lim s' = take (Z.to_nat lvl) (trail_lim s)
      /\ qhead s' = lim
      /\ cflr s' = None
      /\ forall x, value_var s' x
                   = if decide (x ∈ var <$> drop lim (trail s)) then l_Undef
                     else value_var s x).
Proof. exact (cancelUntil_cut lvl s). Qed.

Lemma foldl_enqueue_extends (fs : list Lit) : forall a,
  exists ext,
    extends a (foldl (fun s p => if lbool_eqb (value s p) l_Undef
                                 then uncheckedEnqueue p None s else s) a fs) ext.
Proof.
  induction fs as [|p fs IH]; intros a; cbn [foldl].
  - exists []. apply extends_refl.
  - destruct (lbool_eqb_spec (value a p) l_Undef) as [Hu|Hn].
    + destruct (IH (uncheckedEnqueue p None a)) as [e He].
      exists ([p] ++ e). eapply extends_trans; [|exact He].
      by apply uncheckedEnqueue_extends.
    + apply IH.
Qed.

(** X3. A decision that is taken back: after [newDecisionLevel], any number of
    enqueued unassigned facts and [cancelUntil] to the level before, the
    trail and the value of every variable are what they were. *)
Theorem decide_cancel_roundtrip (facts : list Lit) s :
  let lvl := decisionLevel s in
  let s1 := newDecisionLevel s in
  let s2 := foldl (fun s p => if lbool_eqb (value s p) l_Undef
                              then uncheckedEnqueue p None s else s) s1 facts in
  let s' := cancelUntil (Z.of_nat lvl) s2 in
  trail s' = trail s /\ trail_lim s' = trail_lim s /\ qhead s' = length (trail s)
  /\ forall x, value_var s' x = value_var s x.
Proof.
  cbv zeta.
  destruct (foldl_enqueue_extends facts (newDecisionLevel s)) as [ext He].
  match type of He with extends _ ?x _ => generalize dependent x; intros s2 He end.
  pose proof (ext_trail _ _ _ He) as Ht. pose proof (ext_trail_lim _ _ _ He) as Hl.
  cbn in Ht, Hl.
  destruct (cancelUntil_cut (Z.of_nat (decisionLevel s)) s2) as [_ Hcut].
  cbv zeta in Hcut. rewrite Nat2Z.id, Hl, Ht in Hcut.
  assert (Hlim : vget 0%nat (trail_lim s ++ [length (trail s)]) (decisionLevel s)
                 = length (trail s)).
  { unfold vget, decisionLevel. rewrite lookup_app_r, Nat.sub_diag by lia. reflexivity. }
  rewrite Hlim in Hcut.
  destruct Hcut as (Ht' & Hl' & Hq' & _ & Hv').
  { unfold decisionLevel. rewrite Hl, length_app. cbn. lia. }
  unfold decisionLevel in Hl'.
  rewrite take_app_length in Ht'. rewrite take_app_length in Hl'. rewrite drop_app_length in Hv'.
  split; [assumption|]. split; [assumption|]. split; [assumption|].
  intros x. rewrite Hv'. destruct (decide _) as [Hin|Hnin].
  - apply list_elem_of_fmap in Hin as (p & -> & Hp).
    symmetry. apply value_undef_iff. exact (ext_undef _ _ _ He p Hp).
  - destruct (decide (value_var s2 x = value_var s x)) as [|Hne]; [assumption|].
    exfalso. apply Hnin. exact (ext_new _ _ _ He x Hne).
Qed.

(** ** Attaching and detaching *)

Lemma remove_watcher_app cr ws w :
  Forall (fun w' => cref w' <> cr) ws -> cref w = cr ->
  forall rest, remove_watcher cr (ws ++ w :: rest) = ws ++ rest.
Proof.
  intros Hall Hw rest. induction Hall as [|x ws Hx Hall IH]; cbn.
  - rewrite Hw, Nat.eqb_refl. reflexivity.
  - destruct (Nat.eqb_spec (cref x) cr); [contradiction|]. by rewrite IH.
Qed.

Lemma vget_insert {A} (d : A) (l : list A) i j x :
  vget d (<[i := x]> l) j = if decide (i = j /\ (i < length l)%nat) then x else vget d l j.
Proof.
  unfold vget. destruct (decide _) as [[-> Hlt]|Hn].
  - by rewrite list_lookup_insert_eq.
  - destruct (decide (i = j)) as [->|Hne].
    + rewrite list_insert_ge by lia. reflexivity.
    + by rewrite list_lookup_insert_ne.
Qed.

Lemma list_insert_vget {A} (d : A) (l : list A) i : <[i := vget d l i]> l = l.
Proof.
  unfold vget. destruct (l !! i) as [x|] eqn:E; cbn.
  - by apply list_insert_id.
  - apply list_insert_ge. by apply lookup_ge_None_1.
Qed.

Lemma vget_ext {A} (d : A) (l1 l2 : list A) :
  length l1 = length l2 ->
  (forall k, (k < length l1)%nat -> vget d l1 k = vget d l2 k) -> l1 = l2.
Proof.
  intros Hlen Hget. apply list_eq. intros k.
  destruct (decide (k < length l1)%nat) as [Hlt|Hge].
  - specialize (Hget k Hlt). unfold vget in Hget.
    destruct (lookup_lt_is_Some_2 l1 k Hlt) as [x Hx].
    destruct (lookup_lt_is_Some_2 l2 k ltac:(lia)) as [y Hy].
    rewrite Hx, Hy in *. cbn in Hget. congruence.
  - rewrite !lookup_ge_None_2 by lia. reflexivity.
Qed.

(** X12. Attaching a clause and detaching it strictly gives back the watch
    lists and the counters, provided that the clause was not watched in the
    two lists before. *)
Theorem attach_detach_roundtrip cr s :
  let c0 := lit_at (lits (clause_at s cr)) 0 in
  let c1 := lit_at (lits (clause_at s cr)) 1 in
  Forall (fun w => cref w <> cr) (watches_of s (neg c0)) ->
  Forall (fun w => cref w <> cr) (watches_of s (neg c1)) ->
  let s' := detachClause cr true (attachClause cr s) in
  watches s' = watches s
  /\ num_clauses s' = num_clauses s /\ clauses_literals s' = clauses_literals s
  /\ num_learnts s' = num_learnts s /\ learnts_literals s' = learnts_literals s
  /\ ca s' = ca s /\ watches_dirty s' = watches_dirty s.
Proof.
  intros c0 c1 H0 H1. cbv zeta.
  set (w0 := mkWatcher cr c1). set (w1 := mkWatcher cr c0).
  set (i0 := toInt (neg c0)) in *. set (i1 := toInt (neg c1)) in *.
  set (W := watches s) in *.
  assert (Hws : forall p, watches_of s p = vget [] W (toInt p)) by reflexivity.
  rewrite Hws in H0, H1. fold i0 in H0. fold i1 in H1.
  assert (Hattach : watches (attachClause cr s)
                    = <[i1 := vget [] (<[i0 := vget [] W i0 ++ [w0]]> W) i1 ++ [w1]]>
                        (<[i0 := vget [] W i0 ++ [w0]]> W)
                    /\ ca (attachClause cr s) = ca s
                    /\ watches_dirty (attachClause cr s) = watches_dirty s
                    /\ (if learnt (clause_at s cr)
                        then num_learnts (attachClause cr s) = num_learnts s + 1
                             /\ learnts_literals (attachClause cr s)
                                = learnts_literals s + Z.of_nat (length (lits (clause_at s cr)))
                             /\ num_clauses (attachClause cr s) = num_clauses s
                             /\ clauses_literals (attachClause cr s) = clauses_literals s
                        else num_clauses (attachClause cr s) = num_clauses s + 1
                             /\ clauses_literals (attachClause cr s)
                                = clauses_literals s + Z.of_nat (length (lits (clause_at s cr)))
                             /\ num_learnts (attachClause cr s) = num_learnts s
                             /\ learnts_literals (attachClause cr s) = learnts_literals s)).
  { unfold attachClause. cbv zeta. fold c0 c1 w0 w1.
    destruct (learnt (clause_at s cr)); cbn; repeat split. }
  destruct Hattach as (HW & Hca & Hdirty & Hcount).
  generalize dependent (attachClause cr s). intros s1 HW Hca Hdirty Hcount.
  assert (Hc : clause_at s1 cr = clause_at s cr) by (unfold clause_at; by rewrite Hca).
  unfold detachClause. cbv zeta. rewrite Hc. fold c0 c1 i0 i1.
  unfold set_watches_of, watches_of. fold i0 i1.
  set (W1 := <[i0 := vget [] W i0 ++ [w0]]> W) in *.
  set (W2 := <[i1 := vget [] W1 i1 ++ [w1]]> W1) in *.
  assert (Hfinal :
    <[i1 := remove_watcher cr
              (vget [] (<[i0 := remove_watcher cr (vget [] W2 i0)]> W2) i1)]>
      (<[i0 := remove_watcher cr (vget [] W2 i0)]> W2) = W).
  { assert (HA0 : remove_watcher cr (vget [] W i0 ++ [w0]) = vget [] W i0)
      by (rewrite (remove_watcher_app cr _ w0 H0 eq_refl); apply app_nil_r).
    assert (HA1 : remove_watcher cr (vget [] W i1 ++ [w1]) = vget [] W i1)
      by (rewrite (remove_watcher_app cr _ w1 H1 eq_refl); apply app_nil_r).
    assert (HA01 : i0 = i1 ->
              remove_watcher cr ((vget [] W i0 ++ [w0]) ++ [w1]) = vget [] W i0 ++ [w1]).
    { intros _. rewrite <- app_assoc. cbn [app].
      apply (remove_watcher_app cr _ w0 H0 eq_refl). }
    assert (Hnil : remove_watcher cr [] = []) by reflexivity.
    assert (Hout : forall i, (length W <= i)%nat -> vget [] W i = [])
      by (intros i Hi; unfold vget; by rewrite lookup_ge_None_2).
    apply (vget_ext []); [subst W2 W1; by rewrite !length_insert|].
    intros k Hk. subst W2 W1.
    assert (Hk0 : (i0 < length W)%nat -> vget [] W i0 = vget [] W i0) by reflexivity.
    destruct (decide (i0 = i1)) as [E|N]; [rewrite <- E in *|];
      destruct (decide (i0 < length W)%nat); destruct (decide (i1 < length W)%nat);
      destruct (decide (k = i0)); destruct (decide (k = i1)); try lia;
      repeat (rewrite vget_insert, ?length_insert;
              first [ rewrite decide_True by (split; lia)
                    | rewrite decide_False by (intros [? ?]; lia) ]);
      repeat first [ rewrite decide_True by (split; lia)
                   | rewrite decide_False by (intros [? ?]; lia) ];
      subst; rewrite ?HA01, ?HA0, ?HA1, ?Hnil by reflexivity;
      rewrite ?HA0, ?HA1; try reflexivity. }
  clearbody W2 W1 i0 i1 w0 w1.
  destruct (learnt (clause_at s cr));
    destruct Hcount as (Hn1 & Hn2 & Hn3 & Hn4); cbn; rewrite HW, Hfinal;
    repeat split; try assumption; lia.
Qed.

(** ** Adding clauses at the root *)

Lemma toInt_inj p q : toInt p = toInt q -> p = q.
Proof.
  destruct p as [x a], q as [y b]. unfold toInt. cbn.
  destruct a, b; intros Heq; f_equal; lia.
Qed.

Lemma lit_eqb_neg_self p : lit_eqb p (neg p) = false.
Proof. unfold lit_eqb, neg. cbn. destruct (sign p); by rewrite andb_false_r. Qed.

Lemma lit_eqb_refl p : lit_eqb p p = true.
Proof. by apply lit_eqb_eq. Qed.

(** The literals in the order of their encodings. *)
Definition lit_le (p q : Lit) : Prop := (toInt p <= toInt q)%nat.

Lemma sort_insert_lit_sorted x l :
  StronglySorted lit_le l -> StronglySorted lit_le (sort_insert lit_ltb x l).
Proof.
  induction 1 as [|y l Hs IH Hall]; cbn [sort_insert]; [repeat constructor|].
  unfold lit_ltb at 1. destruct (Nat.ltb_spec (toInt x) (toInt y)) as [Hlt|Hge].
  - constructor; [by constructor|]. constructor; [unfold lit_le; lia|].
    eapply Forall_impl; [exact Hall|]. intros z Hz. unfold lit_le in *. lia.
  - constructor; [assumption|]. rewrite sort_insert_perm. by constructor.
Qed.

Lemma sort_by_lit_sorted l : StronglySorted lit_le (sort_by lit_ltb l).
Proof.
  induction l as [|x l IH]; [constructor|].
  change (sort_by lit_ltb (x :: l)) with (sort_insert lit_ltb x (sort_by lit_ltb l)).
  by apply sort_insert_lit_sorted.
Qed.

(** Once the scan has met the positive literal [a], kept or false, it
    stops at the first [neg a]. *)
Lemma addClause_scan_second s a : forall l p kept,
  sign a = false ->
  StronglySorted lit_le l -> Forall (lit_le a) l -> neg a ∈ l ->
  value s a = l_False \/ p = Some a ->
  addClause_scan s p l kept = None.
Proof.
  intros l p kept Hpos. revert p kept.
  induction l as [|x l IH]; intros p kept Hs Hge Hin Hstate; [inversion Hin|].
  cbn [addClause_scan].
  inversion Hs as [|? ? Hs' Hall]; subst. inversion Hge as [|? ? Hax Hge']; subst.
  destruct (lbool_eqb_spec (value s x) l_True) as [Ht|Hnt]; [reflexivity|]. cbn [orb].
  assert (Hcases : x = a \/ x = neg a).
  { apply elem_of_cons in Hin as [<-|Hin]; [by right|].
    rewrite Forall_forall in Hall. specialize (Hall _ Hin).
    unfold lit_le in *. destruct a as [v sg]. cbn in Hpos. subst sg.
    unfold neg, toInt in *. cbn in *.
    destruct x as [y b]. cbn in *.
    destruct b; [right|left]; f_equal; lia. }
  destruct Hcases as [->| ->].
  - assert (Hin' : neg a ∈ l).
    { apply elem_of_cons in Hin as [Heq|Hin]; [|assumption].
      exfalso. pose proof (lit_eqb_neg_self a) as Hn.
      rewrite Heq, lit_eqb_refl in Hn. discriminate. }
    destruct Hstate as [Hf| ->].
    + rewrite Hf. cbn.
      destruct p as [p|]; [destruct (lit_eqb a (neg p)); [reflexivity|]|];
        apply IH; auto.
    + rewrite lit_eqb_neg_self, lit_eqb_refl, andb_false_r. apply IH; auto.
  - destruct Hstate as [Hf| ->].
    + exfalso. apply Hnt. by rewrite value_neg, Hf.
    + by rewrite lit_eqb_refl.
Qed.

Lemma addClause_scan_tautology s a : forall l p kept,
  sign a = false ->
  StronglySorted lit_le l -> a ∈ l -> neg a ∈ l ->
  addClause_scan s p l kept = None.
Proof.
  intros l p kept Hpos. revert p kept.
  induction l as [|x l IH]; intros p kept Hs Ha Hna; [inversion Ha|].
  inversion Hs as [|? ? Hs' Hall]; subst.
  destruct (decide (x = a)) as [->|Hne].
  - assert (Hin' : neg a ∈ l).
    { apply elem_of_cons in Hna as [Heq|Hin]; [|assumption].
      exfalso. pose proof (lit_eqb_neg_self a) as Hn.
      rewrite Heq, lit_eqb_refl in Hn. discriminate. }
    cbn [addClause_scan].
    destruct (lbool_eqb_spec (value s a) l_True) as [Ht|Hnt]; [reflexivity|]. cbn [orb].
    match goal with |- (if ?b then _ else _) = _ => destruct b; [reflexivity|] end.
    destruct (lbool_eqb_spec (value s a) l_False) as [Hf|Hnf]; cbn [negb andb].
    + apply addClause_scan_second with (a := a); auto.
    + match goal with |- (if negb ?b then _ else _) = _ => destruct b eqn:Eb end; cbn [negb].
      * destruct p as [p|]; [|discriminate]. apply lit_eqb_eq in Eb as ->.
        apply addClause_scan_second with (a := p); auto.
      * apply addClause_scan_second with (a := a); auto.
  - assert (Ha' : a ∈ l) by (apply elem_of_cons in Ha as [->|]; [contradiction|assumption]).
    assert (Hna' : neg a ∈ l).
    { apply elem_of_cons in Hna as [Heq|Hin]; [|assumption]. exfalso.
      rewrite Forall_forall in Hall. specialize (Hall _ Ha'). subst x.
      unfold lit_le, neg, toInt in Hall. cbn in Hall. rewrite Hpos in Hall. cbn in Hall.
      lia. }
    cbn [addClause_scan].
    repeat match goal with |- (if ?b then _ else _) = _ => destruct b; [try reflexivity|] end;
      apply IH; auto.
Qed.

Lemma addClause_scan_true s : forall l p kept q,
  q ∈ l -> value s q = l_True -> addClause_scan s p l kept = None.
Proof.
  induction l as [|x l IH]; intros p kept q Hin Hq; [inversion Hin|].
  cbn [addClause_scan]. apply elem_of_cons in Hin as [->|Hin].
  - by rewrite Hq.
  - repeat match goal with |- (if ?b then _ else _) = _ => destruct b; [try reflexivity|] end;
      eapply IH; eauto.
Qed.

Lemma addClause_scan_false s : forall l kept,
  Forall (fun q => value s q = l_False) l -> addClause_scan s None l kept = Some (rev kept).
Proof.
  induction l as [|x l IH]; intros kept Hall; [reflexivity|].
  inversion Hall as [|? ? Hx Hall']; subst. cbn [addClause_scan]. rewrite Hx. cbn.
  by apply IH.
Qed.

Lemma neg_involutive p : neg (neg p) = p.
Proof. destruct p as [x b]. unfold neg. cbn. by rewrite negb_involutive. Qed.

(** X11. The early exits of [addClause_]: a solver that is not [ok] refuses the
    clause; a clause with a true literal, or with a literal and its
    negation, is accepted and dropped without any change to the solver; a
    clause whose literals are all false (the empty clause among them) makes
    the solver not [ok]; and the value returned is always the [ok] flag of
    the solver afterwards. *)
Theorem addClause_early_exits fuel ps s :
  (ok s = false -> addClause_ fuel ps s = Some (false, s))
  /\ (ok s = true ->
      (exists q, q ∈ ps /\ (value s q = l_True \/ neg q ∈ ps)) ->
      addClause_ fuel ps s = Some (true, s))
  /\ (ok s = true ->
      (forall q, q ∈ ps -> value s q = l_False) ->
      addClause_ fuel ps s = Some (false, set_ok false s))
  /\ (forall r s', addClause_ fuel ps s = Some (r, s') -> ok s' = r).
Proof.
  unfold addClause_. split; [intros ->; reflexivity|].
  pose proof (sort_by_perm lit_ltb ps) as Hperm.
  pose proof (sort_by_lit_sorted ps) as Hsorted.
  split; [|split].
  - intros -> Hps. cbn [negb]. destruct Hps as (q & Hq & [Htrue|Hneg]).
    + rewrite (addClause_scan_true s _ None [] q); [reflexivity|by rewrite Hperm|assumption].
    + destruct (sign q) eqn:Hsign.
      * rewrite (addClause_scan_tautology s (neg q)); auto.
        -- unfold neg. cbn. by rewrite Hsign.
        -- by rewrite Hperm.
        -- by rewrite neg_involutive, Hperm.
      * rewrite (addClause_scan_tautology s q); auto; by rewrite Hperm.
  - intros -> Hps. cbn [negb]. rewrite addClause_scan_false; [reflexivity|].
    apply Forall_forall. intros q Hq. apply Hps. by rewrite <- Hperm.
  - intros r s'. destruct (ok s) eqn:Hok; cbn [negb]; [|by intros [= <- <-]].
    destruct (addClause_scan _ _ _ _) as [[|p [|p' l]]|].
    + intros [= <- <-]. reflexivity.
    + destruct (propagate _ _) as [[confl s1]|]; [|discriminate].
      cbn. by intros [= <- <-].
    + cbv zeta. unfold ca_alloc.
      match goal with |- context [attachClause ?cr ?x] =>
        pose proof (attachClause_frame cr x) as [_ _ Hk _] end.
      intros [= <- <-]. exact (eq_trans Hk Hok).
    + by intros [= <- <-].
Qed.

(** ** Removing satisfied clauses *)

Lemma trim_loop_spec s : forall fuel k c,
  (2 <= k)%nat -> (length c - k <= fuel)%nat ->
  (forall i q, (2 <= i < k)%nat -> c !! i = Some q -> value s q <> l_False) ->
  let c' := trim_loop fuel s k c in
  take 2 c' = take 2 c
  /\ (forall q, q ∈ c' -> q ∈ c)
  /\ (forall q, q ∈ c -> value s q <> l_False -> q ∈ c')
  /\ (forall i q, (2 <= i)%nat -> c' !! i = Some q -> value s q <> l_False).
Proof.
  induction fuel as [|fuel IH]; intros k c Hk Hfuel Hdone; cbn [trim_loop]; cbv zeta.
  { repeat split; auto. intros i q Hi Hq. apply (Hdone i q); [|assumption].
    apply lookup_lt_Some in Hq. lia. }
  destruct (Nat.ltb_spec k (length c)) as [Hlt|Hge].
  2:{ repeat split; auto. intros i q Hi Hq. apply (Hdone i q); [|assumption].
      apply lookup_lt_Some in Hq. lia. }
  destruct (lbool_eqb_spec (value s (lit_at c k)) l_False) as [Hf|Hnf].
  - set (c1 := shrink 1 (<[k := lit_at c (length c - 1)]> c)).
    assert (Hlen : length c1 = (length c - 1)%nat).
    { subst c1. unfold shrink. rewrite length_take, length_insert. lia. }
    assert (Hlk : forall i, (i < length c - 1)%nat ->
                c1 !! i = if decide (i = k) then Some (lit_at c (length c - 1)) else c !! i).
    { intros i Hi. subst c1. unfold shrink. rewrite length_insert.
      rewrite lookup_take_lt by lia. destruct (decide (i = k)) as [->|Hne].
      - by rewrite list_lookup_insert_eq by lia.
      - by rewrite list_lookup_insert_ne by auto. }
    assert (Hlast : c !! (length c - 1)%nat = Some (lit_at c (length c - 1))).
    { unfold lit_at, vget.
      by destruct (lookup_lt_is_Some_2 c (length c - 1)%nat ltac:(lia)) as [x ->]. }
    assert (Hck : c !! k = Some (lit_at c k)).
    { unfold lit_at, vget. by destruct (lookup_lt_is_Some_2 c k Hlt) as [x ->]. }
    destruct (IH k c1 Hk ltac:(lia)) as (I1 & I2 & I3 & I4).
    { intros i q Hi Hq. assert (Hi' : (i < length c - 1)%nat)
        by (apply lookup_lt_Some in Hq; lia).
      rewrite Hlk in Hq by assumption. rewrite decide_False in Hq by lia.
      by apply (Hdone i q). }
    assert (Hsub : forall q, q ∈ c1 -> q ∈ c).
    { intros q Hq. apply list_elem_of_lookup in Hq as [i Hi].
      assert (Hi' : (i < length c - 1)%nat) by (apply lookup_lt_Some in Hi; lia).
      rewrite Hlk in Hi by assumption. destruct (decide (i = k)).
      - injection Hi as <-. eapply list_elem_of_lookup_2, Hlast.
      - eapply list_elem_of_lookup_2, Hi. }
    split; [|split; [|split]].
    + rewrite I1. apply list_eq. intros i.
      destruct (decide (i < 2)%nat) as [Hi|Hi].
      * rewrite !lookup_take_lt by assumption.
        rewrite Hlk by lia. by rewrite decide_False by lia.
      * rewrite !lookup_take_ge by lia. reflexivity.
    + intros q Hq. auto.
    + intros q Hq Hnf. apply I3; [|assumption].
      apply list_elem_of_lookup in Hq as [i Hi].
      destruct (decide (i = k)) as [->|Hik].
      { rewrite Hck in Hi. injection Hi as <-. contradiction. }
      destruct (decide (i = length c - 1)%nat) as [->|Hil].
      { rewrite Hlast in Hi. injection Hi as <-.
        apply list_elem_of_lookup. exists k. rewrite Hlk by lia. by rewrite decide_True. }
      apply list_elem_of_lookup. exists i.
      assert (i < length c)%nat by (by apply lookup_lt_Some in Hi).
      rewrite Hlk by lia. by rewrite decide_False.
    + exact I4.
  - destruct (IH (S k) c ltac:(lia) ltac:(lia)) as (I1 & I2 & I3 & I4); [|auto].
    intros i q Hi Hq. destruct (decide (i = k)) as [->|Hne].
    + unfold lit_at, vget in Hnf. rewrite Hq in Hnf. exact Hnf.
    + apply (Hdone i q); [lia|assumption].
Qed.

Lemma satisfied_spec s c :
  satisfied s c = true <-> exists q, q ∈ lits c /\ value s q = l_True.
Proof.
  unfold satisfied. rewrite existsb_exists. split.
  - intros (q & Hq & Hv). exists q. split; [by apply list_elem_of_In|].
    by destruct (lbool_eqb_spec (value s q) l_True).
  - intros (q & Hq & Hv). exists q. split; [by apply list_elem_of_In|]. by rewrite Hv.
Qed.

(** [calm s0 s]: the assignment and the trail are those of [s0], no clause
    has gained a literal, and no clause has changed its being satisfied. *)
Definition calm (s0 s : Solver) : Prop :=
  assigns s = assigns s0 /\ trail s = trail s0
  /\ (forall cr q, q ∈ lits (clause_at s cr) -> q ∈ lits (clause_at s0 cr))
  /\ (forall cr, satisfied s (clause_at s cr) = satisfied s0 (clause_at s0 cr)).

Lemma calm_refl s : calm s s.
Proof. repeat split; auto. Qed.

Lemma calm_trans s0 s1 s2 : calm s0 s1 -> calm s1 s2 -> calm s0 s2.
Proof.
  intros (A1 & T1 & L1 & S1) (A2 & T2 & L2 & S2).
  split; [congruence|]. split; [congruence|]. split; [auto|].
  intros cr. by rewrite S2, S1.
Qed.

Lemma satisfied_assigns s s' c : assigns s' = assigns s -> satisfied s' c = satisfied s c.
Proof. intros Ha. unfold satisfied, value, value_var. by rewrite Ha. Qed.

Lemma removeClause_lits cr s :
  assigns (removeClause cr s) = assigns s /\ trail (removeClause cr s) = trail s
  /\ (forall x, lits (clause_at (removeClause cr s) x) = lits (clause_at s x))
  /\ (lits (clause_at s cr) <> [] -> isRemoved (removeClause cr s) cr = true)
  /\ (forall x, isRemoved s x = true -> isRemoved (removeClause cr s) x = true).
Proof.
  pose proof (removeClause_frame cr s) as [Ha _ _ [Ht _ _ _]].
  split; [exact Ha|]. split; [exact Ht|]. clear Ha Ht.
  unfold removeClause. cbv zeta.
  assert (Hc : ca (detachClause cr false s) = ca s).
  { unfold detachClause, smudge. cbv zeta. repeat case_match; cbn; auto. }
  revert Hc. generalize (detachClause cr false s). intros s1 Hc.
  match goal with |- context [if ?b then ?x else s1] =>
    assert (Hc2 : ca (if b then x else s1) = ca s) by (destruct b; cbn; exact Hc);
    revert Hc2; generalize (if b then x else s1); intros s2 Hc2 end.
  unfold isRemoved, ca_free, update_clause, clause_at, vget. cbn. rewrite Hc2.
  split; [|split].
  - intros x. destruct (decide (x = cr)) as [->|Hne].
    + rewrite list_lookup_alter_eq. by destruct (ca s !! cr).
    + by rewrite list_lookup_alter_ne.
  - rewrite list_lookup_alter_eq. destruct (ca s !! cr); cbn; [reflexivity|contradiction].
  - intros x. destruct (decide (x = cr)) as [->|Hne].
    + rewrite list_lookup_alter_eq. by destruct (ca s !! cr).
    + by rewrite list_lookup_alter_ne.
Qed.

Lemma clause_at_update cr f s x :
  clause_at (update_clause cr f s) x
  = if decide (x = cr /\ (cr < length (ca s))%nat) then f (clause_at s cr)
    else clause_at s x.
Proof.
  unfold clause_at, update_clause, vget. cbn. destruct (decide _) as [[-> Hlt]|Hn].
  - rewrite list_lookup_alter_eq. by destruct (lookup_lt_is_Some_2 (ca s) cr Hlt) as [c ->].
  - destruct (decide (x = cr)) as [->|Hne].
    + rewrite list_lookup_alter_eq. rewrite lookup_ge_None_2; [reflexivity|].
      apply Nat.nlt_ge. intros Hlt. apply Hn. auto.
    + by rewrite list_lookup_alter_ne.
Qed.

(** [trimmed s0 s cr]: from position 2 on, the clause [cr] of [s] holds no
    literal that is false in [s0]. *)
Definition trimmed (s0 s : Solver) (cr : CRef) : Prop :=
  forall i q, (2 <= i)%nat -> lits (clause_at s cr) !! i = Some q -> value s0 q <> l_False.

Lemma removeSatisfied_loop_spec s0 : forall cs kept s kept' s',
  calm s0 s ->
  removeSatisfied_loop cs kept s = (kept', s') ->
  kept' = rev kept ++ List.filter (fun cr => negb (satisfied s0 (clause_at s0 cr))) cs
  /\ calm s0 s'
  /\ (forall x, isRemoved s x = true -> isRemoved s' x = true)
  /\ (forall x, trimmed s0 s x -> trimmed s0 s' x)
  /\ (forall cr, cr ∈ cs ->
        if satisfied s0 (clause_at s0 cr) then isRemoved s' cr = true
        else trimmed s0 s' cr).
Proof.
  induction cs as [|cr cs IH]; intros kept s kept' s' Hcalm; cbn [removeSatisfied_loop].
  { intros [= <- <-]. cbn. rewrite app_nil_r. repeat split; auto; try apply Hcalm.
    intros cr Hcr. inversion Hcr. }
  cbv zeta. destruct Hcalm as (Ha & Ht & Hl & Hs).
  assert (Hcalm : calm s0 s) by (repeat split; auto).
  rewrite Hs. cbn [List.filter].
  destruct (satisfied s0 (clause_at s0 cr)) eqn:Hsat; cbn [negb]; intros Hloop.
  - destruct (removeClause_lits cr s) as (Ra & Rt & Rl & Rm & Rk).
    assert (Hne : lits (clause_at s cr) <> []).
    { rewrite <- Hs in Hsat. apply satisfied_spec in Hsat as (q & Hq & _).
      intros E. rewrite E in Hq. inversion Hq. }
    assert (Hcalm1 : calm s0 (removeClause cr s)).
    { split; [congruence|]. split; [congruence|]. split.
      - intros x q. rewrite Rl. apply Hl.
      - intros x. rewrite <- Hs. unfold satisfied at 1. rewrite Rl.
        apply (satisfied_assigns s (removeClause cr s) (clause_at s x) Ra). }
    destruct (IH _ _ _ _ Hcalm1 Hloop) as (Hk & Hc' & Hrem & Htrim & Heach).
    split; [exact Hk|]. split; [exact Hc'|].
    split; [intros x Hx; apply Hrem, Rk, Hx|].
    split; [intros x Hx; apply Htrim; intros i q Hi; rewrite Rl; by apply Hx|].
    intros x Hx. apply elem_of_cons in Hx as [->|Hx]; [|by apply Heach].
    rewrite Hsat. apply Hrem, Rm, Hne.
  - set (c := lits (clause_at s cr)) in *.
    set (c' := trim_loop (length c) s 2 c) in *.
    destruct (trim_loop_spec s (length c) 2 c ltac:(lia) ltac:(lia)) as (T1 & T2 & T3 & T4);
      [intros i q Hi; lia|]. fold c' in T1, T2, T3, T4.
    set (s1 := update_clause cr (set_lits c') s) in *.
    assert (Hval : forall q, value s q = value s0 q)
      by (intros q; unfold value, value_var; by rewrite Ha).
    assert (Hcalm1 : calm s0 s1).
    { split; [exact Ha|]. split; [exact Ht|]. split.
      - intros x q. subst s1. rewrite clause_at_update.
        destruct (decide _) as [[-> _]|_]; [|apply Hl].
        cbn. intros Hq. apply Hl. fold c. auto.
      - intros x. rewrite <- Hs. subst s1. rewrite clause_at_update.
        destruct (decide _) as [[-> _]|_]; [|reflexivity].
        rewrite Hs, Hsat. apply not_true_iff_false. intros Hst.
        apply satisfied_spec in Hst as (q & Hq & Hqv). cbn in Hq.
        assert (Hst0 : satisfied s (clause_at s cr) = true).
        { apply satisfied_spec. exists q. split; [fold c; auto|assumption]. }
        rewrite Hs, Hsat in Hst0. discriminate. }
    destruct (IH _ _ _ _ Hcalm1 Hloop) as (Hk & Hc' & Hrem & Htrim & Heach).
    split; [rewrite Hk; cbn; by rewrite <- app_assoc|]. split; [exact Hc'|].
    assert (Htr1 : trimmed s0 s1 cr).
    { intros i q Hi. subst s1. rewrite clause_at_update.
      destruct (decide _) as [_|Hn].
      - cbn. intros Hq. rewrite <- Hval. by apply (T4 i q).
      - fold c. intros Hq. exfalso. apply Hn. split; [reflexivity|].
        destruct (decide (cr < length (ca s))%nat) as [|Hge]; [assumption|].
        subst c. unfold clause_at, vget in Hq.
        rewrite (lookup_ge_None_2 (ca s) cr) in Hq by lia. cbn in Hq. discriminate. }
    split.
    { intros x Hx. apply Hrem. unfold isRemoved in *. subst s1.
      rewrite clause_at_update. destruct (decide _) as [[-> _]|_]; [|assumption].
      cbn. exact Hx. }
    split.
    { intros x Hx. apply Htrim. destruct (decide (x = cr)) as [->|Hne]; [exact Htr1|].
      intros i q Hi. subst s1. rewrite clause_at_update.
      rewrite decide_False by (intros []; contradiction). by apply Hx. }
    intros x Hx. apply elem_of_cons in Hx as [->|Hx]; [|by apply Heach].
    rewrite Hsat. apply Htrim, Htr1.
Qed.

(** X14. [removeSatisfied] keeps exactly the clauses that are not satisfied, in
    their order; the satisfied ones are marked as removed; a kept clause is
    left without false literals from position 2 on; no clause gains a
    literal, and the assignment and the trail are untouched. *)
Theorem removeSatisfied_keeps_unsatisfied cs s :
  let r := removeSatisfied_loop cs [] s in
  r.1 = List.filter (fun cr => negb (satisfied s (clause_at s cr))) cs
  /\ assigns r.2 = assigns s /\ trail r.2 = trail s
  /\ (forall cr, cr ∈ cs -> satisfied s (clause_at s cr) = true -> isRemoved r.2 cr = true)
  /\ (forall cr i q, cr ∈ r.1 -> (2 <= i)%nat ->
        lits (clause_at r.2 cr) !! i = Some q -> value s q <> l_False)
  /\ (forall cr q, q ∈ lits (clause_at r.2 cr) -> q ∈ lits (clause_at s cr))
  /\ (forall cr, cr ∈ r.1 -> satisfied r.2 (clause_at r.2 cr) = false).
Proof.
  cbv zeta. destruct (removeSatisfied_loop cs [] s) as [kept s'] eqn:E. cbn [fst snd].
  apply (removeSatisfied_loop_spec s) in E as (Hk & (Ha & Ht & Hl & Hs) & _ & _ & Heach);
    [|apply calm_refl].
  cbn [rev app] in Hk. subst kept.
  split; [reflexivity|]. split; [exact Ha|]. split; [exact Ht|].
  split; [|split; [|split]].
  - intros cr Hcr Hsat. specialize (Heach cr Hcr). by rewrite Hsat in Heach.
  - intros cr i q Hcr. apply list_elem_of_In, filter_In in Hcr as [Hcr Hns].
    apply list_elem_of_In in Hcr. specialize (Heach cr Hcr).
    apply negb_true_iff in Hns. rewrite Hns in Heach. apply Heach.
  - exact Hl.
  - intros cr Hcr. rewrite Hs. apply list_elem_of_In, filter_In in Hcr as [_ Hns].
    by apply negb_true_iff in Hns.
Qed.

(** ** New variables *)

Ltac let_gen :=
  lazymatch goal with
  | |- (let x := ?v in @?b x) = ?r -> ?P =>
      let y := fresh "s" in pose (y := v); change (b y = r -> P); cbv beta
  end.


Lemma vget_growTo {A} (d : A) n (l : list A) j : vget d (growTo n d l) j = vget d l j.
Proof.
  unfold vget, growTo. destruct (decide (j < length l)%nat) as [Hlt|Hge].
  - by rewrite lookup_app_l.
  - rewrite lookup_app_r by lia. rewrite (lookup_ge_None_2 l) by lia. cbn.
    destruct (replicate _ d !! _) as [x|] eqn:E; [|reflexivity].
    apply lookup_replicate in E as [-> _]. reflexivity.
Qed.

Lemma vget_vinsert {A} (d : A) k v (l : list A) j :
  vget d (vinsert d k v l) j = if decide (j = k) then v else vget d l j.
Proof.
  unfold vinsert. rewrite vget_insert.
  assert (Hlen : (k < length (growTo (S k) d l))%nat).
  { unfold growTo. rewrite length_app, length_replicate. lia. }
  destruct (decide (j = k)) as [->|Hne].
  - by rewrite decide_True.
  - rewrite decide_False by (intros [? _]; congruence). apply vget_growTo.
Qed.

Lemma vinsert_length {A} (d : A) k v (l : list A) : (k < length (vinsert d k v l))%nat.
Proof. unfold vinsert, growTo. rewrite length_insert, length_app, length_replicate. lia. Qed.

(** X10. [newVar] hands out the last free variable if there is one and the next
    fresh index otherwise; the variable starts unassigned, at level 0,
    without a reason, unseen, with empty watch lists and with the requested
    decision flag; every other variable and the trail are untouched. *)
Theorem newVar_fresh upol dvar s :
  let r := newVar upol dvar s in
  let v := r.1 in
  let s' := r.2 in
  (free_vars s = [] -> v = nVars s /\ nVars s' = S (nVars s))
  /\ (free_vars s <> [] ->
      v = vlast 0%nat (free_vars s) /\ nVars s' = nVars s
      /\ free_vars s' = shrink 1 (free_vars s))
  /\ value_var s' v = l_Undef /\ level s' v = 0 /\ reason s' v = None
  /\ seen_at s' v = 0%nat /\ vget false (decision s') v = dvar
  /\ (v < length (assigns s'))%nat /\ (v < length (vardata s'))%nat
  /\ watches_of s' (mkLit v false) = [] /\ watches_of s' (mkLit v true) = []
  /\ trail s' = trail s /\ trail_lim s' = trail_lim s
  /\ forall x, x <> v ->
               value_var s' x = value_var s x /\ level s' x = level s x
               /\ reason s' x = reason s x.
Proof.
  cbv zeta.
  set (v := match free_vars s with [] => next_var s | _ => vlast 0%nat (free_vars s) end).
  set (s0 := match free_vars s with
             | [] => set_next_var (S (next_var s)) s
             | _ => set_free_vars (shrink 1 (free_vars s)) s
             end).
  assert (Hfields :
    (newVar upol dvar s).1 = v
    /\ assigns (newVar upol dvar s).2 = vinsert l_Undef v l_Undef (assigns s0)
    /\ vardata (newVar upol dvar s).2
       = vinsert vd_default v (mkVarData None 0) (vardata s0)
    /\ seen (newVar upol dvar s).2 = vinsert 0%nat v 0%nat (seen s0)
    /\ decision (newVar upol dvar s).2 = <[v := dvar]> (growTo (S v) false (decision s0))
    /\ watches (newVar upol dvar s).2
       = vinsert [] (toInt (mkLit v true)) []
           (vinsert [] (toInt (mkLit v false)) [] (watches s0))
    /\ trail (newVar upol dvar s).2 = trail s0
    /\ trail_lim (newVar upol dvar s).2 = trail_lim s0
    /\ next_var (newVar upol dvar s).2 = next_var s0
    /\ free_vars (newVar upol dvar s).2 = free_vars s0).
  { assert (Hpair : match free_vars s with
                    | [] => (next_var s, set_next_var (S (next_var s)) s)
                    | _ => (vlast 0%nat (free_vars s),
                            set_free_vars (shrink 1 (free_vars s)) s)
                    end = (v, s0)) by (subst v s0; by destruct (free_vars s)).
    clearbody v s0.
    destruct (newVar upol dvar s) as [v' s'] eqn:E. revert E.
    cbv beta delta [newVar]. rewrite Hpair. cbv beta iota.
    do 4 let_gen.
    match goal with |- context [rnd_init_act ?x] => destruct (rnd_init_act x) end;
      [match goal with |- context [drand ?x] => destruct (drand x) as [r seed] end|];
      cbv beta iota; do 5 let_gen; intros [= <- <-]; cbn [fst snd];
      unfold setDecisionVar, insertVarOrder; cbv zeta;
      repeat match goal with |- context [if ?b then _ else _] => destruct b end;
      repeat split; reflexivity. }
  destruct Hfields as (F0 & F1 & F2 & F3 & F4 & F5 & F6 & F7 & F8 & F9).
  assert (H0 : assigns s0 = assigns s /\ vardata s0 = vardata s /\ trail s0 = trail s
               /\ trail_lim s0 = trail_lim s)
    by (subst s0; by destruct (free_vars s)).
  destruct H0 as (Ha0 & Hv0 & Ht0 & Hl0).
  unfold nVars, value_var, level, reason, seen_at, watches_of.
  rewrite F0, F1, F2, F3, F4, F5, F6, F7, F8, F9, Ha0, Hv0, Ht0, Hl0.
  rewrite !vget_vinsert, !decide_True by reflexivity.
  split; [|split].
  { intros E. subst v s0. rewrite E. cbn. auto. }
  { intros E. subst v s0. destruct (free_vars s); [contradiction|]. cbn. auto. }
  split; [reflexivity|]. split; [reflexivity|]. split; [reflexivity|]. split; [reflexivity|].
  split.
  { rewrite vget_insert, decide_True; [reflexivity|]. split; [reflexivity|].
    unfold growTo. rewrite length_app, length_replicate. lia. }
  split; [apply vinsert_length|]. split; [apply vinsert_length|].
  split; [|split].
  { repeat first [ rewrite vget_vinsert | rewrite decide_True by reflexivity
                 | rewrite decide_False by (unfold toInt; cbn; lia) ]. reflexivity. }
  { repeat first [ rewrite vget_vinsert | rewrite decide_True by reflexivity
                 | rewrite decide_False by (unfold toInt; cbn; lia) ]. reflexivity. }
  split; [reflexivity|]. split; [reflexivity|].
  intros x Hx. rewrite !vget_vinsert, !decide_False by assumption. auto.
Qed.

(** ** The step-wise interface *)

Lemma l2i_nonzero p : l2i p <> 0.
Proof. unfold l2i. destruct (sign p); lia. Qed.

Lemma take_app_replicate_more {A} n k (l : list A) x :
  take n (l ++ replicate (n + k) x) = take n (l ++ replicate n x).
Proof.
  rewrite !take_app, !take_replicate. do 2 f_equal. lia.
Qed.

Lemma next_prop_lits_from n : forall s i,
  literator s = Z.of_nat i ->
  (next_prop_lits n s).1 = take n (map l2i (drop i (trail s)) ++ replicate n 0)
  /\ trail (next_prop_lits n s).2 = trail s.
Proof.
  assert (Hdone : forall m s, literator s = -1 ->
            (next_prop_lits m s).1 = replicate m 0 /\ trail (next_prop_lits m s).2 = trail s).
  { clear n. induction m as [|n IH]; intros s Hs; [auto|]. cbn [next_prop_lits].
    unfold next_prop_lit. rewrite Hs. cbn [Z.geb Z.compare andb].
    destruct (IH (set_literator (-1) s) eq_refl) as [I1 I2].
    destruct (next_prop_lits n (set_literator (-1) s)) as [xs s1]. cbn [fst snd] in *.
    subst xs. cbn [replicate]. split; [reflexivity|exact I2]. }
  induction n as [|n IH]; intros s i Hi; [auto|]. cbn [next_prop_lits].
  unfold next_prop_lit. rewrite Hi.
  destruct (Z.geb_spec (Z.of_nat i) 0) as [_|]; [|lia]. cbn [andb].
  destruct (Z.ltb_spec (Z.of_nat i) (Z.of_nat (length (trail s)))) as [Hlt|Hge].
  - destruct (IH (set_literator (Z.of_nat i + 1) s) (S i) ltac:(cbn; lia)) as [I1 I2].
    destruct (next_prop_lits n _) as [xs s1]. cbn [fst snd] in *.
    subst xs. split; [|exact I2].
    change (trail (set_literator (Z.of_nat i + 1) s)) with (trail s).
    rewrite Nat2Z.id.
    destruct (lookup_lt_is_Some_2 (trail s) i ltac:(lia)) as [q Hq].
    rewrite (drop_S _ _ _ Hq). cbn [map app].
    unfold lit_at, vget. rewrite Hq. cbn [default from_option].
    match goal with |- _ = take (S n) (?x :: ?L) => change (take (S n) (x :: L))
      with (x :: take n L) end.
    f_equal. replace (S n) with (n + 1)%nat by lia.
    symmetry. apply take_app_replicate_more.
  - destruct (Hdone n (set_literator (-1) s) eq_refl) as [I1 I2].
    destruct (next_prop_lits n _) as [xs s1]. cbn [fst snd] in *.
    subst xs. split; [|exact I2].
    rewrite drop_ge by lia. cbn [map app take]. f_equal.
    by rewrite take_replicate, Nat.min_l by lia.
Qed.

(** X21. After a successful [request_propagation_scope(level)], successive calls
    of [next_prop_lit] return the literals of the trail from the start of
    that level on, in the external numbering, and 0 from then on; 0 is never
    the number of a literal.  The request is refused exactly for a negative
    level and for one above the current level. *)
Theorem next_prop_lit_enumerates level s n :
  let r := request_propagation_scope level s in
  let start := if level =? 0 then 0%nat
               else vget 0%nat (trail_lim s) (Z.to_nat (level - 1)) in
  (r.1 = 0 <-> level < 0 \/ Z.of_nat (decisionLevel s) < level)
  /\ (r.1 = 0 -> r.2 = s)
  /\ (r.1 <> 0 ->
      (next_prop_lits n r.2).1
      = take n (map l2i (drop start (trail s)) ++ replicate n 0))
  /\ forall p, l2i p <> 0.
Proof.
  cbv zeta. unfold request_propagation_scope.
  destruct (Z.eqb_spec level 0) as [->|Hne]; cbn [fst snd].
  { split; [split; [discriminate|lia]|]. split; [discriminate|].
    split; [|apply l2i_nonzero]. intros _.
    apply (next_prop_lits_from n (set_literator 0 s) 0%nat eq_refl). }
  destruct (Z.ltb_spec level 0) as [Hneg|Hpos]; cbn [orb fst snd].
  { split; [split; [lia|reflexivity]|]. split; [reflexivity|].
    split; [contradiction|apply l2i_nonzero]. }
  destruct (Z.gtb_spec level (Z.of_nat (decisionLevel s))) as [Hgt|Hle]; cbn [fst snd].
  { split; [split; [lia|reflexivity]|]. split; [reflexivity|].
    split; [contradiction|apply l2i_nonzero]. }
  split; [split; [discriminate|lia]|]. split; [discriminate|].
  split; [|apply l2i_nonzero]. intros _.
  match goal with |- context [set_literator (Z.of_nat ?i) s] =>
    apply (next_prop_lits_from n (set_literator (Z.of_nat i) s) i eq_refl) end.
Qed.

(** X22. [backtrack(n)] refuses, without touching the solver, to go back more
    levels than there are; otherwise it succeeds, the decision level drops
    by [n] (a non-positive [n] changes nothing) and the trail is cut back to
    a prefix. *)
Theorem backtrack_levels num_dec_levels s :
  let r := backtrack num_dec_levels s in
  (Z.of_nat (decisionLevel s) < num_dec_levels -> r = (0, s))
  /\ (num_dec_levels <= 0 -> r = (1, s))
  /\ (0 <= num_dec_levels <= Z.of_nat (decisionLevel s) ->
      r.1 = 1
      /\ Z.of_nat (decisionLevel r.2) = Z.of_nat (decisionLevel s) - num_dec_levels
      /\ exists k, trail r.2 = take k (trail s)).
Proof.
  cbv zeta. unfold backtrack. cbv zeta.
  destruct (Z.geb_spec (Z.of_nat (decisionLevel s) - num_dec_levels) 0) as [Hge|Hlt].
  - split; [lia|]. split.
    + intros Hn. destruct (cancelUntil_cut (Z.of_nat (decisionLevel s) - num_dec_levels) s)
        as [Hsame _]. cbv zeta in Hsame. rewrite Hsame by lia. reflexivity.
    + intros Hn. cbn [fst snd]. split; [reflexivity|].
      rewrite cancelUntil_decisionLevel by lia. split; [lia|].
      destruct (cancelUntil_cut (Z.of_nat (decisionLevel s) - num_dec_levels) s)
        as [Hsame Hcut]. cbv zeta in Hsame, Hcut.
      destruct (decide (num_dec_levels = 0)) as [->|Hnz].
      * rewrite Hsame by lia. exists (length (trail s)). by rewrite firstn_all.
      * destruct (Hcut ltac:(lia)) as (Ht & _). eauto.
  - split; [reflexivity|]. split; [lia|lia].
Qed.

Lemma api_propagate_tstep fuel s r n s' :
  api_propagate fuel s = Some (r, n, s') -> tstep s s'.
Proof.
  unfold api_propagate. destruct (propagate fuel s) as [[confl s1]|] eqn:E; [|discriminate].
  apply propagate_tstep in E. cbn [mbind option_bind]. cbv zeta.
  assert (Hs : tstep s (set_cflr confl s1))
    by (eapply tstep_trans; [exact E|]; apply tframe_tstep; repeat constructor).
  destruct (cflr _); [intros [= <- <- <-]; exact Hs|].
  destruct (Nat.eqb _ _); intros [= <- <- <-]; exact Hs.
Qed.


(** ** Renumbering variables for DIMACS output *)

(** [numbering map max]: the mapped variables carry distinct numbers, all of
    them in [0, max). *)
Definition numbering (map : list Z) (max : Z) : Prop :=
  0 <= max
  /\ (forall x, vget (-1) map x <> -1 -> 0 <= vget (-1) map x < max)
  /\ (forall x y, vget (-1) map x <> -1 -> vget (-1) map x = vget (-1) map y -> x = y).

(** X17. [mapVar] gives a variable a number once and for all: the number it
    returns is recorded in the map, a second call returns it again and
    changes nothing, the numbers of the other variables stay, and the
    numbering stays injective with values below the counter. *)
Theorem mapVar_numbering x map max :
  numbering map max ->
  let '(r, map', max') := mapVar x map max in
  vget (-1) map' x = r /\ 0 <= r < max'
  /\ mapVar x map' max' = (r, map', max')
  /\ (forall y, y <> x -> vget (-1) map' y = vget (-1) map y)
  /\ (vget (-1) map x <> -1 -> r = vget (-1) map x /\ map' = map /\ max' = max)
  /\ (vget (-1) map x = -1 -> r = max /\ max' = max + 1)
  /\ numbering map' max'.
Proof.
  intros (Hmax & Hrange & Hinj). unfold mapVar.
  assert (Hout : (length map <= x)%nat -> vget (-1) map x = -1).
  { intros Hx. unfold vget. by rewrite lookup_ge_None_2. }
  destruct (Nat.leb_spec (length map) x) as [Hlen|Hlen]; cbn [orb].
  - cbv zeta.
    assert (Hx : vget (-1) (<[x := max]> (growTo (S x) (-1) map)) x = max).
    { rewrite vget_insert, decide_True; [reflexivity|]. split; [reflexivity|].
      unfold growTo. rewrite length_app, length_replicate. lia. }
    assert (Hy : forall y, y <> x ->
              vget (-1) (<[x := max]> (growTo (S x) (-1) map)) y = vget (-1) map y).
    { intros y Hy. rewrite vget_insert, decide_False by (intros []; congruence).
      apply vget_growTo. }
    rewrite Hx. split; [reflexivity|]. split; [lia|]. split.
    { rewrite length_insert. unfold growTo at 1. rewrite length_app, length_replicate.
      destruct (Nat.leb_spec (length map + (S x - length map)) x); [lia|]. cbn [orb].
      rewrite ?Hx. destruct (Z.eqb_spec max (-1)); [lia|reflexivity]. }
    split; [exact Hy|]. split; [intros Hn; specialize (Hout Hlen); contradiction|].
    split; [auto|].
    split; [lia|]. split.
    + intros y Hn. destruct (decide (y = x)) as [->|Hne]; [rewrite Hx; lia|].
      rewrite Hy in * by assumption. specialize (Hrange y Hn). lia.
    + intros y z Hn Heq. destruct (decide (y = x)) as [->|Hney];
        destruct (decide (z = x)) as [->|Hnez]; [reflexivity| | |].
      * rewrite Hx, Hy in Heq by assumption.
        assert (vget (-1) map z <> -1) by lia. specialize (Hrange z H0). lia.
      * rewrite Hx, Hy in Heq by assumption. rewrite Hy in Hn by assumption.
        specialize (Hrange y Hn). lia.
      * rewrite !Hy in * by assumption. by apply Hinj.
  - destruct (Z.eqb_spec (vget (-1) map x) (-1)) as [Hun|Hmapped].
    + cbv zeta.
      assert (Hg : growTo (S x) (-1) map = map).
      { unfold growTo. replace (S x - length map)%nat with 0%nat by lia. apply app_nil_r. }
      rewrite Hg.
      assert (Hx : vget (-1) (<[x := max]> map) x = max)
        by (rewrite vget_insert, decide_True; auto).
      assert (Hy : forall y, y <> x -> vget (-1) (<[x := max]> map) y = vget (-1) map y).
      { intros y Hy. by rewrite vget_insert, decide_False by (intros []; congruence). }
      rewrite Hx. split; [reflexivity|]. split; [lia|]. split.
      { rewrite length_insert. destruct (Nat.leb_spec (length map) x); [lia|]. cbn [orb].
        rewrite ?Hx. destruct (Z.eqb_spec max (-1)); [lia|reflexivity]. }
      split; [exact Hy|]. split; [contradiction|]. split; [auto|].
      split; [lia|]. split.
      * intros y Hn. destruct (decide (y = x)) as [->|Hne]; [rewrite Hx; lia|].
        rewrite Hy in * by assumption. specialize (Hrange y Hn). lia.
      * intros y z Hn Heq. destruct (decide (y = x)) as [->|Hney];
          destruct (decide (z = x)) as [->|Hnez]; [reflexivity| | |].
        -- rewrite Hx, Hy in Heq by assumption.
           assert (vget (-1) map z <> -1) by lia. specialize (Hrange z H0). lia.
        -- rewrite Hx, Hy in Heq by assumption. rewrite Hy in Hn by assumption.
           specialize (Hrange y Hn). lia.
        -- rewrite !Hy in * by assumption. by apply Hinj.
    + split; [reflexivity|]. split; [by apply Hrange|]. split.
      { destruct (Nat.leb_spec (length map) x); [lia|]. cbn [orb].
        destruct (Z.eqb_spec (vget (-1) map x) (-1)); [contradiction|reflexivity]. }
      split; [reflexivity|]. split; [auto|]. split; [contradiction|].
      split; [exact Hmax|]. split; [exact Hrange|exact Hinj].
Qed.

(** ** Blocking clauses *)

(** The truth value of a literal under a total assignment of the
    variables. *)
Definition lit_holds (a : Var -> bool) (p : Lit) : bool := xorb (a (var p)) (sign p).

(** X26. The clause that [block_model] adds is false under exactly those total
    assignments that agree with the model on every variable of the solver:
    it blocks the model and nothing else. *)
Theorem block_model_blocks_model s (a : Var -> bool) :
  (forall v, (v < nVars s)%nat -> modelValue_var s v <> l_Undef) ->
  existsb (lit_holds a) (block_model_clause s) = false
  <-> forall v, (v < nVars s)%nat -> lbool_of_bool (a v) = modelValue_var s v.
Proof.
  intros Htotal. unfold block_model_clause.
  rewrite <- not_true_iff_false, existsb_exists. split.
  - intros Hno v Hv. specialize (Htotal v Hv).
    destruct (lbool_of_bool (a v)) eqn:Ea, (modelValue_var s v) eqn:Em;
      try reflexivity; try contradiction; exfalso; apply Hno;
      exists (mkLit v (lbool_eqb (modelValue_var s v) l_True));
      (split; [apply in_map_iff; exists v; split; [reflexivity|apply in_seq; lia]|]);
      unfold lit_holds; cbn; rewrite Em; cbn; destruct (a v); cbn in *; congruence.
  - intros Hagree (p & Hp & Hholds). apply in_map_iff in Hp as (v & <- & Hv).
    apply in_seq in Hv. specialize (Hagree v ltac:(lia)).
    unfold lit_holds in Hholds. cbn in Hholds. rewrite <- Hagree in Hholds.
    destruct (a v); cbn in Hholds; discriminate.
Qed.

(** ** The clause for a forbidden graph *)

(** The entry of the adjacency matrix for the vertices [i < j]. *)
Lemma getAdjMatrix_entry s i j :
  (i < j)%nat -> (j < Z.to_nat (vertices (sms_config s)))%nat ->
  vget truth_value_unknown (vget [] (getAdjMatrix s) i) j
  = match value s (i2l (edge_at s i j)) with
    | l_True => truth_value_true
    | l_False => truth_value_false
    | l_Undef => truth_value_unknown
    end
  /\ vget truth_value_unknown (vget [] (getAdjMatrix s) j) i
     = vget truth_value_unknown (vget [] (getAdjMatrix s) i) j.
Proof.
  intros Hij Hj. unfold getAdjMatrix. cbv zeta.
  set (n := Z.to_nat (vertices (sms_config s))) in *.
  assert (Hrow : forall (f : nat -> nat -> truth_value_t) a b, (a < n)%nat -> (b < n)%nat ->
            vget truth_value_unknown
              (vget [] (map (fun i => map (f i) (seq 0 n)) (seq 0 n)) a) b = f a b).
  { intros f a b Ha Hb. unfold vget.
    change (map ?g ?l) with (g <$> l).
    rewrite list_lookup_fmap, lookup_seq_lt by assumption. cbn.
    rewrite list_lookup_fmap, lookup_seq_lt by assumption. reflexivity. }
  rewrite !Hrow by lia.
  destruct (Nat.eqb_spec i j) as [|_]; [lia|]. destruct (Nat.eqb_spec j i) as [|_]; [lia|].
  rewrite (Nat.min_l i j), (Nat.max_r i j), (Nat.min_r j i), (Nat.max_l j i) by lia.
  auto.
Qed.

(** X27. If the forbidden graph that the minimality check throws is part of the
    adjacency matrix it was handed (every signed edge [i < j] carries the
    truth value of its matrix entry, which is not unknown, and has a
    positive edge variable), then every literal of the blocking clause built
    from it is false in the solver, and the matrix is symmetric. *)
Theorem blockingClause_falsified s (fg : forbidden_graph_t) :
  let n := Z.to_nat (vertices (sms_config s)) in
  let M := getAdjMatrix s in
  (forall tv i j, (tv, (i, j)) ∈ fg ->
     (i < j < n)%nat /\ 0 < edge_at s i j /\ tv <> truth_value_unknown
     /\ vget truth_value_unknown (vget [] M i) j = tv) ->
  (forall q, q ∈ blockingClause_fg s fg -> value s q = l_False)
  /\ forall i j, (i < j < n)%nat ->
       vget truth_value_unknown (vget [] M j) i = vget truth_value_unknown (vget [] M i) j.
Proof.
  cbv zeta. intros Hfg. split.
  - intros q Hq. unfold blockingClause_fg in Hq.
    apply list_elem_of_In, in_map_iff in Hq as ([tv [i j]] & <- & Hin).
    apply list_elem_of_In in Hin. destruct (Hfg tv i j Hin) as (Hij & Hpos & Hk & Hentry).
    destruct (getAdjMatrix_entry s i j ltac:(lia) ltac:(lia)) as [He _].
    rewrite Hentry in He. cbn [fst snd].
    assert (Hlit : i2l (edge_at s i j) = mkLit (Z.to_nat (edge_at s i j - 1)) false).
    { unfold i2l. rewrite Z.abs_eq by lia. destruct (Z.ltb_spec (edge_at s i j) 0); [lia|].
      reflexivity. }
    rewrite Hlit in He. unfold value in *. cbn [var sign] in *.
    destruct tv; try contradiction;
      destruct (value_var s (Z.to_nat (edge_at s i j - 1))); cbn in *; congruence.
  - intros i j Hij. apply getAdjMatrix_entry; lia.
Qed.

(** ** Solving ends at the root *)

Lemma restart_loop_tstep fuel rounds : forall k s st s' limits,
  restart_loop fuel rounds k s = Some (st, s', limits) -> tstep s s'.
Proof.
  induction rounds as [|rounds IH]; intros k s st s' limits; [discriminate|].
  cbn [restart_loop].
  destruct (if luby_restart s then _ else _) as [rest_base|]; [|discriminate].
  cbn [mbind option_bind]. cbv zeta.
  destruct (search fuel _ s) as [[st1 s1]|] eqn:Es; [|discriminate].
  apply search_tstep in Es. cbn [mbind option_bind].
  destruct (negb (withinBudget s1)); [intros [= <- <- <-]; exact Es|].
  destruct st1; try (intros [= <- <- <-]; exact Es).
  destruct (restart_loop fuel rounds (k + 1) s1) as [[[st2 s2] limits2]|] eqn:Er;
    [|discriminate].
  apply IH in Er. cbn [mbind option_bind]. intros [= <- <- <-].
  eapply tstep_trans; eassumption.
Qed.

Lemma cancelUntil_model lvl s :
  model (cancelUntil lvl s) = model s /\ next_var (cancelUntil lvl s) = next_var s.
Proof.
  unfold cancelUntil. destruct (_ >? _); [|auto]. cbv zeta.
  match goal with |- context [foldl ?f ?a ?l] =>
    assert (Hf : forall l0 a0, model (foldl f a0 l0) = model a0
                               /\ next_var (foldl f a0 l0) = next_var a0) end.
  { induction l0 as [|c l IH]; intros a; [auto|].
    cbn [foldl].
    match goal with |- context [foldl _ ?x l] => destruct (IH x) as [-> ->] end.
    unfold insertVarOrder. cbv zeta. repeat case_match; auto. }
  match goal with |- context [foldl ?f ?a ?l] =>
    destruct (Hf l a) as [Hm Hn]; generalize dependent (foldl f a l); intros s1 Hm Hn end.
  cbn. auto.
Qed.

(** X16. A call of [solve_] on a solver that is [ok] always ends at decision
    level 0, keeps the trail well formed, and on [l_True] leaves a model
    with one entry per variable. *)
Theorem solve_returns_to_root fuel s st s' :
  ok s = true ->
  solve_ fuel s = Some (st, s') ->
  decisionLevel s' = 0%nat
  /\ (trail_inv s -> trail_inv s')
  /\ (st = l_True -> length (model s') = nVars s').
Proof.
  intros Hok. cbv beta delta [solve_]. do 2 let_value.
  change (ok (set_conflict [] (set_model [] s))) with (ok s). rewrite Hok.
  cbv beta iota delta [negb].
  assert (Hs0 : tstep s (set_conflict [] (set_model [] s)))
    by (apply tframe_tstep; repeat constructor).
  revert Hs0. generalize (set_conflict [] (set_model [] s)). intros s0 Hs0.
  do 6 let_state s0.
  match goal with |- context [restart_loop fuel fuel 0 ?x] =>
    destruct (restart_loop fuel fuel 0 x) as [[[st1 s7] limits]|] eqn:Er; [|discriminate] end.
  apply restart_loop_tstep in Er. bind_step. let_value.
  intros [= <- <-].
  match goal with |- context [cancelUntil 0 ?x] => set (s8 := x) end.
  assert (Hs8 : tstep s7 s8).
  { subst s8. destruct st1; [apply tframe_tstep; repeat constructor| |apply tstep_refl].
    destruct (Nat.eqb _ 0); [apply tframe_tstep; repeat constructor|apply tstep_refl]. }
  split; [|split].
  - rewrite cancelUntil_decisionLevel by lia. apply Nat.min_0_r.
  - intros Hinv. apply cancelUntil_tstep, Hs8, Er.
    match goal with Ht : tstep s0 ?x |- trail_inv ?x => apply Ht end.
    apply Hs0, Hinv.
  - intros ->. destruct (cancelUntil_model 0 s8) as [Hm Hn]. unfold nVars.
    rewrite Hm, Hn. subst s8. cbn. by rewrite length_map, length_seq.
Qed.

(** ** Conflicts in the step-wise interface *)

(** X23. A conflict found by the exported [propagate] is latched: the call
    reports [CONFLICT] exactly when it leaves a conflicting clause behind;
    as long as it is there, [assign_literal] refuses every literal and
    leaves the solver alone; going back at least one level clears it. *)
Theorem conflict_is_latched fuel s r n s' :
  api_propagate fuel s = Some (r, n, s') ->
  (r = CONFLICT <-> cflr s' <> None)
  /\ (r = SAT -> nAssigns s' = nVars s')
  /\ (r = CONFLICT ->
      (forall fuel' lit, exists m, assign_literal fuel' lit s' = Some (CONFLICT, m, s'))
      /\ forall k, 0 < k <= Z.of_nat (decisionLevel s') ->
                   (backtrack k s').1 = 1 /\ cflr (backtrack k s').2 = None).
Proof.
  unfold api_propagate. destruct (propagate fuel s) as [[confl s1]|]; [|discriminate].
  cbn [mbind option_bind]. cbv zeta.
  change (cflr (set_cflr confl s1)) with confl.
  destruct confl as [cr|].
  - intros [= <- <- <-]. split; [split; [discriminate|reflexivity]|].
    split; [discriminate|]. intros _. split.
    + intros fuel' lit. unfold assign_literal. cbn. eauto.
    + intros k Hk. unfold backtrack. cbv zeta.
      destruct (Z.geb_spec (Z.of_nat (decisionLevel (set_cflr (Some cr) s1)) - k) 0); [|lia].
      cbn [fst snd]. split; [reflexivity|].
      destruct (cancelUntil_cut (Z.of_nat (decisionLevel (set_cflr (Some cr) s1)) - k)
                  (set_cflr (Some cr) s1)) as [_ Hcut].
      cbv zeta in Hcut. by destruct (Hcut ltac:(lia)) as (_ & _ & _ & Hc & _).
  - destruct (Nat.eqb_spec (nAssigns (set_cflr None s1)) (nVars (set_cflr None s1)));
      intros [= <- <- <-]; (split; [split; [discriminate|contradiction]|]);
      (split; [auto; discriminate|discriminate]).
Qed.


(** ** Re-ordering the target literals *)

Lemma partition_unassigned_spec s : forall n i k l k' l',
  (k <= i)%nat -> (i + n <= length l)%nat ->
  (forall j, (j < k)%nat -> value_var s (var (i2l (vget 0 l j))) = l_Undef) ->
  (forall j, (k <= j < i)%nat -> value_var s (var (i2l (vget 0 l j))) <> l_Undef) ->
  partition_unassigned s n i k l = (k', l') ->
  l' ≡ₚ l /\ (k <= k' <= i + n)%nat
  /\ (forall j, (j < k')%nat -> value_var s (var (i2l (vget 0 l' j))) = l_Undef)
  /\ (forall j, (k' <= j < i + n)%nat -> value_var s (var (i2l (vget 0 l' j))) <> l_Undef)
  /\ (forall j, (i + n <= j)%nat -> vget 0 l' j = vget 0 l j).
Proof.
  induction n as [|n IH]; intros i k l k' l' Hki Hlen Hun Has; cbn [partition_unassigned].
  { intros [= <- <-]. rewrite Nat.add_0_r. repeat split; auto; lia. }
  cbv zeta. destruct (lbool_eqb_spec (value_var s (var (i2l (vget 0 l i)))) l_Undef)
    as [Hu|Ha].
  - set (l1 := <[i := vget 0 l k]> (<[k := vget 0 l i]> l)).
    assert (Hget : forall j, (j < length l)%nat ->
              vget 0 l1 j = if decide (j = i) then vget 0 l k
                            else if decide (j = k) then vget 0 l i else vget 0 l j).
    { intros j Hj. subst l1. rewrite vget_insert, length_insert.
      destruct (decide (j = i)) as [->|Hji].
      - by rewrite decide_True by (split; [reflexivity|lia]).
      - rewrite decide_False by (intros []; congruence). rewrite vget_insert.
        destruct (decide (j = k)) as [->|Hjk].
        + by rewrite decide_True by (split; [reflexivity|lia]).
        + by rewrite decide_False by (intros []; congruence). }
    assert (Hout : forall j, (length l <= j)%nat -> vget 0 l1 j = vget 0 l j).
    { intros j Hj. unfold vget. subst l1.
      rewrite !lookup_ge_None_2 by (rewrite ?length_insert; lia). reflexivity. }
    assert (Hperm : l1 ≡ₚ l).
    { subst l1. destruct (decide (i = k)) as [->|Hik].
      - rewrite list_insert_insert_eq. unfold vget.
        destruct (lookup_lt_is_Some_2 l k ltac:(lia)) as [x Hx]. rewrite Hx. cbn.
        by rewrite list_insert_id.
      - unfold vget.
        destruct (lookup_lt_is_Some_2 l k ltac:(lia)) as [x Hx].
        destruct (lookup_lt_is_Some_2 l i ltac:(lia)) as [y Hy]. rewrite Hx, Hy. cbn.
        symmetry. apply Permutation_inj. split; [by rewrite !length_insert|].
        exists (fun j => if decide (j = i) then k else if decide (j = k) then i else j).
        split.
        + intros a b. repeat case_decide; lia.
        + intros j. repeat case_decide; subst.
          * rewrite list_lookup_insert_ne by auto.
            rewrite list_lookup_insert_eq by lia. congruence.
          * rewrite list_lookup_insert_eq by (rewrite length_insert; lia). congruence.
          * by rewrite !list_lookup_insert_ne by auto. }
    intros Heq. apply IH in Heq as (Hp & Hk' & H1 & H2 & H3).
    + split; [by rewrite Hp|]. split; [lia|]. split; [exact H1|].
      split; [intros j Hj; apply H2; lia|].
      intros j Hj. rewrite H3 by lia.
      destruct (decide (j < length l)%nat); [|apply Hout; lia].
      rewrite Hget by assumption. rewrite !decide_False by lia. reflexivity.
    + lia.
    + subst l1. rewrite !length_insert. lia.
    + intros j Hj. rewrite Hget by lia.
      destruct (decide (j = i)) as [->|Hji]; [replace k with i by lia; exact Hu|].
      destruct (decide (j = k)) as [->|Hjk]; [exact Hu|]. apply Hun. lia.
    + intros j Hj. rewrite Hget by lia.
      destruct (decide (j = i)) as [->|Hji].
      * apply Has. lia.
      * rewrite decide_False by lia. apply Has. lia.
  - intros Heq. apply IH in Heq as (Hp & Hk' & H1 & H2 & H3); try lia; try assumption.
    + split; [exact Hp|]. split; [lia|]. split; [exact H1|].
      split; [intros j Hj; apply H2; lia|]. intros j Hj. apply H3. lia.
    + intros j Hj. destruct (decide (j = i)) as [->|Hji]; [exact Ha|]. apply Has. lia.
Qed.

(** X25. The first loop of [fast_switch_assignment] permutes the target
    literals so that those of unassigned variables come first, and it
    counts them. *)
Theorem partition_unassigned_sorts s literals :
  let r := partition_unassigned s (length literals) 0 0 literals in
  r.2 ≡ₚ literals
  /\ (r.1 <= length literals)%nat
  /\ (forall j, (j < r.1)%nat -> value_var s (var (i2l (vget 0 r.2 j))) = l_Undef)
  /\ (forall j, (r.1 <= j < length literals)%nat ->
                value_var s (var (i2l (vget 0 r.2 j))) <> l_Undef).
Proof.
  cbv zeta.
  destruct (partition_unassigned s (length literals) 0 0 literals) as [k l'] eqn:E.
  apply partition_unassigned_spec in E as (Hp & Hk & H1 & H2 & _); try lia.
  cbn [fst snd]. repeat split; auto; lia.
Qed.

(** ** Ingesting a clause that asserts a literal *)

Lemma count_unassigned_sorted s l :
  StronglySorted (precedes s) l ->
  count_unassigned s l = length (filter (fun q => value s q = l_Undef) l).
Proof.
  induction 1 as [|x l _ IH Hall]; [reflexivity|]. cbn [count_unassigned].
  destruct (lbool_eqb_spec (value s x) l_Undef) as [Hu|Ha].
  - rewrite filter_cons_True by exact Hu. cbn. by rewrite IH.
  - rewrite filter_cons_False by exact Ha.
    destruct (filter _ l) as [|q f] eqn:Ef; [reflexivity|].
    assert (Hq : q ∈ filter (fun q => value s q = l_Undef) l) by (rewrite Ef; left).
    apply list_elem_of_filter in Hq as [Hqu Hql].
    rewrite Forall_forall in Hall.
    destruct (Hall q Hql) as [Hu|(_ & Hq' & _)]; contradiction.
Qed.

Lemma cancelUntil_keeps_undef lvl s x :
  value_var s x = l_Undef -> value_var (cancelUntil lvl s) x = l_Undef.
Proof.
  intros Hu. destruct (cancelUntil_cut lvl s) as [Hsame Hcut]. cbv zeta in Hsame, Hcut.
  destruct (Z.le_gt_cases (Z.of_nat (decisionLevel s)) lvl) as [Hle|Hlt].
  - by rewrite Hsame.
  - destruct (Hcut Hlt) as (_ & _ & _ & _ & Hv). rewrite Hv. by case_decide.
Qed.



(** X20. A clause of one literal that is not already assigned at the root takes
    the solver back to the root and becomes a fact there; no clause is
    stored for it. *)
Theorem addClauseDuringSearch_single fuel a s :
  value s a = l_Undef \/ level s (var a) <> 0 ->
  let s' := uncheckedEnqueue a None (cancelUntil 0 s) in
  addClauseDuringSearch fuel [a] s = Some (true, s')
  /\ decisionLevel s' = 0%nat
  /\ trail s' = trail (cancelUntil 0 s) ++ [a]
  /\ ca s' = ca s /\ clauses s' = clauses s /\ learnts s' = learnts s.
Proof.
  intros Hcase. cbv zeta.
  assert (Hdl : decisionLevel (uncheckedEnqueue a None (cancelUntil 0 s)) = 0%nat).
  { change (decisionLevel (cancelUntil 0 s) = 0%nat).
    rewrite cancelUntil_decisionLevel by lia. lia. }
  pose proof (cancelUntil_tstep 0 s) as Hts.
  split.
  - cbv beta delta [addClauseDuringSearch].
    change (std_sort (addClause_cmp s) [a]) with [a]. cbn [length Nat.eqb].
    cbv zeta. cbn [count_unassigned length lit_at vget lookup list_lookup default].
    destruct (lbool_eqb_spec (value s a) l_Undef) as [Hu|Ha]; cbn [Nat.eqb]; [reflexivity|].
    destruct Hcase as [Hu|Hlev]; [contradiction|].
    change (lit_at [a] 0) with a. change (id a) with a.
    destruct (Z.eqb_spec (level s (var a)) 0) as [Hz|_]; [contradiction|].
    reflexivity.
  - split; [exact Hdl|]. split; [reflexivity|].
    unfold cancelUntil. destruct (Z.gtb_spec (Z.of_nat (decisionLevel s)) 0); [|auto].
    cbv zeta.
    match goal with |- context [foldl ?f ?a0 ?l] =>
      assert (Hf : forall l0 b, ca (foldl f b l0) = ca b /\ clauses (foldl f b l0) = clauses b
                                /\ learnts (foldl f b l0) = learnts b) end.
    { induction l0 as [|x l0 IH]; intros b; [auto|]. cbn [foldl].
      match goal with |- context [foldl _ ?b' l0] =>
        destruct (IH b') as (-> & -> & ->) end.
      unfold insertVarOrder. cbv zeta. repeat case_match; cbn; auto. }
    match goal with |- context [foldl ?f ?a0 ?l] =>
      destruct (Hf l a0) as (H1 & H2 & H3); set (F := foldl f a0 l) in *; clearbody F end.
    unfold uncheckedEnqueue. cbn in *. rewrite H1, H2, H3. auto.
Qed.

(** ** The final conflict *)

Lemma lset_insert_spec q l :
  (forall x, x ∈ lset_insert q l <-> x = q \/ x ∈ l)
  /\ (NoDup l -> NoDup (lset_insert q l)).
Proof.
  unfold lset_insert. destruct (existsb (lit_eqb q) l) eqn:E.
  - apply existsb_exists in E as (y & Hy & Hqy). apply lit_eqb_eq in Hqy as <-.
    apply list_elem_of_In in Hy. split; [|auto].
    intros x. split; [auto|]. intros [->|]; auto.
  - assert (Hq : q ∉ l).
    { intros Hq. apply list_elem_of_In in Hq.
      assert (existsb (lit_eqb q) l = true); [|congruence].
      apply existsb_exists. exists q. split; [assumption|]. by apply lit_eqb_eq. }
    split.
    + intros x. rewrite elem_of_app, list_elem_of_singleton. tauto.
    + intros Hnd. apply NoDup_app. repeat split; [assumption| |apply NoDup_singleton].
      intros x Hx Hx'. apply list_elem_of_singleton in Hx' as ->. contradiction.
Qed.

(** X8. [analyzeFinal p] leaves in [conflict] the literal [p] and, besides it,
    only negations of facts of the trail above the root that have no
    reason, that is of decisions and assumptions; no literal twice; at the
    root the conflict is [p] alone.  The assignment and the trail are not
    touched. *)
Theorem analyzeFinal_conflict p s :
  let s' := analyzeFinal p s in
  p ∈ conflict s'
  /\ NoDup (conflict s')
  /\ (decisionLevel s = 0%nat -> conflict s' = [p])
  /\ (forall q, q ∈ conflict s' -> q = p \/
        exists i, (vget 0%nat (trail_lim s) 0 <= i < length (trail s))%nat
                  /\ q = neg (lit_at (trail s) i)
                  /\ reason s (var (lit_at (trail s) i)) = None)
  /\ assigns s' = assigns s /\ trail s' = trail s /\ trail_lim s' = trail_lim s.
Proof.
  cbv zeta.
  pose proof (analyzeFinal_frame p s) as [Ha _ _ [Ht Hl _ _]].
  set (P := fun q => q = p \/
        exists i, (vget 0%nat (trail_lim s) 0 <= i < length (trail s))%nat
                  /\ q = neg (lit_at (trail s) i)
                  /\ reason s (var (lit_at (trail s) i)) = None).
  set (Inv := fun a : Solver =>
        trail a = trail s /\ vardata a = vardata s
        /\ p ∈ conflict a /\ NoDup (conflict a) /\ forall q, q ∈ conflict a -> P q).
  assert (Hseen : forall x v a, Inv a -> Inv (set_seen_at x v a)).
  { intros x v a HI. exact HI. }
  assert (Hinner : forall (cs : list Lit) a, Inv a ->
            Inv (foldl (fun s cj => if level s (var cj) >? 0
                                    then set_seen_at (var cj) 1 s else s) a cs)).
  { induction cs as [|cj cs IH]; intros a HI; [exact HI|]. cbn [foldl].
    apply IH. destruct (level a (var cj) >? 0); auto. }
  assert (Hres : (decisionLevel s = 0%nat -> conflict (analyzeFinal p s) = [p])
                 /\ Inv (analyzeFinal p s)).
  { unfold analyzeFinal. cbv zeta.
    change (decisionLevel (set_conflict [p] s)) with (decisionLevel s).
    assert (H0 : Inv (set_conflict [p] s)).
    { repeat split; [apply list_elem_of_singleton; reflexivity|apply NoDup_singleton|].
      intros q Hq. apply list_elem_of_singleton in Hq as ->. by left. }
    destruct (Nat.eqb_spec (decisionLevel s) 0) as [Hz|Hnz]; [split; [reflexivity|exact H0]|].
    split; [contradiction|]. apply Hseen.
    match goal with |- Inv (foldl ?f ?a0 ?l) =>
      assert (Hloop : forall l0 a, Inv a -> Forall (fun i =>
                 (vget 0%nat (trail_lim s) 0 <= i < length (trail s))%nat) l0 ->
                 Inv (foldl f a l0)) end.
    { induction l0 as [|i l0 IH]; intros a HI Hall; [exact HI|]. cbn [foldl].
      inversion Hall as [|? ? Hi Hall']; subst.
      apply IH; [|exact Hall']. cbv zeta.
      destruct (negb (Nat.eqb (seen_at a (var (lit_at (trail a) i))) 0)); [|exact HI].
      apply Hseen.
      destruct (reason a (var (lit_at (trail a) i))) as [cr|] eqn:Er; [by apply Hinner|].
      destruct HI as (HIt & HIv & HIp & HInd & HIall).
      destruct (lset_insert_spec (neg (lit_at (trail a) i)) (conflict a)) as [Hin Hnd].
      repeat split; try assumption.
      - apply Hin. by right.
      - by apply Hnd.
      - intros q Hq. apply Hin in Hq as [->|Hq]; [|by apply HIall].
        right. exists i. rewrite <- HIt. split; [by rewrite HIt|]. split; [reflexivity|].
        rewrite <- Er. unfold reason. by rewrite HIv. }
    apply Hloop; [by apply Hseen|].
    apply Forall_forall. intros i Hi. apply list_elem_of_In, in_rev, in_seq in Hi.
    change (trail (set_seen_at (var p) 1 (set_conflict [p] s))) with (trail s) in Hi.
    change (trail_lim (set_seen_at (var p) 1 (set_conflict [p] s))) with (trail_lim s) in Hi.
    lia. }
  destruct Hres as [Hroot (_ & _ & Hp & Hnd & Hall)].
  repeat split; auto.
Qed.

(** ** Conflict analysis returns

    [aframe s s']: what conflict analysis leaves alone: the trail and its
    boundaries, the levels and reasons, the literals of every clause, the
    size of [seen] and the minimisation mode. *)
Record aframe (s s' : Solver) : Prop := mk_aframe {
  af_trail : trail s' = trail s;
  af_trail_lim : trail_lim s' = trail_lim s;
  af_vardata : vardata s' = vardata s;
  af_lits : forall cr, lits (clause_at s' cr) = lits (clause_at s cr);
  af_seen : length (seen s') = length (seen s);
  af_ccmin : ccmin_mode s' = ccmin_mode s;
}.

Lemma aframe_refl s : aframe s s.
Proof. by constructor. Qed.

Lemma aframe_trans s1 s2 s3 : aframe s1 s2 -> aframe s2 s3 -> aframe s1 s3.
Proof. intros [] []. constructor; first [congruence | intros cr; congruence]. Qed.

Lemma aframe_level s s' x : aframe s s' -> level s' x = level s x.
Proof. intros [_ _ Hv _ _ _]. unfold level. by rewrite Hv. Qed.

Lemma aframe_reason s s' x : aframe s s' -> reason s' x = reason s x.
Proof. intros [_ _ Hv _ _ _]. unfold reason. by rewrite Hv. Qed.

Lemma aframe_reason_lits s s' p : aframe s s' -> reason_lits s' p = reason_lits s p.
Proof.
  intros Ha. unfold reason_lits. rewrite (aframe_reason _ _ _ Ha).
  destruct (reason s (var p)); [apply Ha|reflexivity].
Qed.

Lemma aframe_decisionLevel s s' : aframe s s' -> decisionLevel s' = decisionLevel s.
Proof. intros [_ Hl _ _ _ _]. unfold decisionLevel. by rewrite Hl. Qed.

Lemma set_seen_at_aframe x v s : aframe s (set_seen_at x v s).
Proof. constructor; try reflexivity. unfold set_seen_at. cbn. by rewrite length_insert. Qed.

Lemma set_analyze_toclear_aframe l s : aframe s (set_analyze_toclear l s).
Proof. by constructor. Qed.

Lemma varBumpActivity_aframe v s :
  aframe s (varBumpActivity v s) /\ seen (varBumpActivity v s) = seen s.
Proof.
  unfold varBumpActivity. cbv zeta.
  destruct (d_lt _ _); (split; [constructor|]); reflexivity.
Qed.

Lemma update_clause_aframe cr f s :
  (forall c, lits (f c) = lits c /\ learnt (f c) = learnt c) ->
  aframe s (update_clause cr f s) /\ seen (update_clause cr f s) = seen s.
Proof.
  intros Hf. split; [|reflexivity]. constructor; try reflexivity.
  intros x. by apply update_clause_activity_shape.
Qed.

Lemma claBumpActivity_aframe cr s :
  aframe s (claBumpActivity cr s) /\ seen (claBumpActivity cr s) = seen s.
Proof.
  unfold claBumpActivity. cbv zeta.
  match goal with |- context [update_clause cr ?g s] =>
    destruct (update_clause_aframe cr g s ltac:(intros []; auto)) as [Hs1 Hn1];
    generalize dependent (update_clause cr g s)
  end.
  intros s1 Hs1 Hn1. destruct (d_lt _ _); [|auto].
  match goal with |- context [foldl ?f s1 ?l] =>
    assert (Hf : forall l0 a, aframe a (foldl f a l0) /\ seen (foldl f a l0) = seen a) end.
  { induction l0 as [|x l0 IH]; intros a; [split; [apply aframe_refl|reflexivity]|].
    cbn [foldl].
    match goal with |- context [foldl _ (update_clause x ?g a) l0] =>
      destruct (update_clause_aframe x g a ltac:(intros []; auto)) as [Ha Hs];
      destruct (IH (update_clause x g a)) as [Ha' Hs'] end.
    split; [eapply aframe_trans; eassumption|congruence]. }
  match goal with |- context [foldl ?f s1 ?l] =>
    destruct (Hf l s1) as [Ha Hs]; generalize dependent (foldl f s1 l) end.
  intros s2 Ha Hs. split.
  - eapply aframe_trans; [exact Hs1|]. eapply aframe_trans; [exact Ha|]. by constructor.
  - cbn. congruence.
Qed.

Lemma seen_at_set x v s y :
  seen_at (set_seen_at x v s) y
  = if decide (y = x /\ (x < length (seen s))%nat) then v else seen_at s y.
Proof.
  unfold seen_at, set_seen_at, vget. cbn.
  destruct (decide (y = x)) as [->|Hne].
  - destruct (decide (x < length (seen s))%nat) as [Hlt|Hge].
    + rewrite list_lookup_insert_eq by assumption. by rewrite decide_True.
    + rewrite list_insert_ge by lia. by rewrite decide_False by (intros []; lia).
  - rewrite list_lookup_insert_ne by auto. by rewrite decide_False by (intros []; auto).
Qed.

(** The positions [a], ..., [a + n - 1] of the trail [T] whose variable is
    marked in [seen]. *)
Fixpoint count_seen (s : Solver) (T : list Lit) (a n : nat) : nat :=
  match n with
  | O => 0
  | S n' => count_seen s T a n'
            + (if Nat.eqb (seen_at s (var (lit_at T (a + n')))) 0 then 0 else 1)
  end.

Lemma count_seen_ext s s' T a n :
  (forall k, (a <= k < a + n)%nat ->
             seen_at s' (var (lit_at T k)) = seen_at s (var (lit_at T k))) ->
  count_seen s' T a n = count_seen s T a n.
Proof.
  induction n as [|n IH]; intros Hk; [reflexivity|]. cbn [count_seen].
  rewrite IH by (intros k Hk'; apply Hk; lia). by rewrite Hk by lia.
Qed.

Lemma count_seen_pos s T a n k :
  (a <= k < a + n)%nat -> seen_at s (var (lit_at T k)) <> 0%nat ->
  (0 < count_seen s T a n)%nat.
Proof.
  induction n as [|n IH]; intros Hk Hs; [lia|]. cbn [count_seen].
  destruct (decide (k = a + n)%nat) as [->|Hne].
  - destruct (Nat.eqb_spec (seen_at s (var (lit_at T (a + n)))) 0); [contradiction|lia].
  - specialize (IH ltac:(lia) Hs). lia.
Qed.

Lemma count_seen_pos_inv s T a n :
  (0 < count_seen s T a n)%nat ->
  exists k, (a <= k < a + n)%nat /\ seen_at s (var (lit_at T k)) <> 0%nat.
Proof.
  induction n as [|n IH]; intros Hc; [cbn in Hc; lia|]. cbn [count_seen] in Hc.
  destruct (Nat.eqb_spec (seen_at s (var (lit_at T (a + n)))) 0) as [Hz|Hnz].
  - destruct IH as (k & Hk & Hs); [lia|]. exists k. split; [lia|assumption].
  - exists (a + n)%nat. split; [lia|assumption].
Qed.

Lemma nodup_var_lit_at (T : list Lit) i j :
  NoDup (var <$> T) -> (i < length T)%nat -> (j < length T)%nat ->
  var (lit_at T i) = var (lit_at T j) -> i = j.
Proof.
  intros Hnd Hi Hj Heq.
  destruct (lookup_lt_is_Some_2 T i Hi) as [p Hp].
  destruct (lookup_lt_is_Some_2 T j Hj) as [q Hq].
  unfold lit_at, vget in Heq. rewrite Hp, Hq in Heq. cbn in Heq.
  apply (NoDup_lookup (var <$> T) i j (var p)); [assumption| |].
  - by rewrite list_lookup_fmap, Hp.
  - by rewrite list_lookup_fmap, Hq, Heq.
Qed.

(** Marking the variable at position [kq], unmarked so far, adds one to the
    count of every range that holds [kq]. *)
Lemma count_seen_mark s s' T a n kq :
  NoDup (var <$> T) -> (kq < length T)%nat -> (a + n <= length T)%nat ->
  seen_at s (var (lit_at T kq)) = 0%nat ->
  seen_at s' (var (lit_at T kq)) <> 0%nat ->
  (forall y, y <> var (lit_at T kq) -> seen_at s' y = seen_at s y) ->
  count_seen s' T a n
  = (count_seen s T a n + (if decide (a <= kq < a + n)%nat then 1 else 0))%nat.
Proof.
  intros Hnd Hkq Hlen H0 H1 Hoth. induction n as [|n IH].
  - cbn. by rewrite decide_False by lia.
  - cbn [count_seen]. rewrite IH by lia.
    destruct (decide (kq = a + n)%nat) as [->|Hne].
    + rewrite H0. destruct (Nat.eqb_spec (seen_at s' (var (lit_at T (a + n)))) 0);
        [contradiction|].
      rewrite decide_False by lia. rewrite decide_True by lia. cbn. lia.
    + rewrite Hoth.
      2:{ intros Heq. apply Hne. symmetry.
          apply (nodup_var_lit_at T (a + n) kq); auto. lia. }
      destruct (Nat.eqb _ 0), (decide (a <= kq < a + n)%nat),
        (decide (a <= kq < a + S n)%nat); lia.
Qed.

(** With a marked position in the range, the scan stops at the highest one. *)
Lemma analyze_scan_spec s start : forall idx1,
  (0 < count_seen s (trail s) start (idx1 - start))%nat ->
  exists k, analyze_scan s idx1 = Some k /\ (start <= k < idx1)%nat
            /\ seen_at s (var (lit_at (trail s) k)) <> 0%nat
            /\ count_seen s (trail s) start (idx1 - start)
               = S (count_seen s (trail s) start (k - start)).
Proof.
  induction idx1 as [|j IH]; intros Hc.
  { change (0 - start)%nat with 0%nat in Hc. cbn in Hc. lia. }
  destruct (decide (j < start)%nat) as [Hlt|Hge].
  { replace (S j - start)%nat with 0%nat in Hc by lia. cbn in Hc. lia. }
  replace (S j - start)%nat with (S (j - start)) in * by lia.
  cbn [count_seen analyze_scan] in *.
  replace (start + (j - start))%nat with j in * by lia.
  destruct (Nat.eqb_spec (seen_at s (var (lit_at (trail s) j))) 0) as [Hz|Hnz].
  - destruct IH as (k & Hk & Hr & Hs & Hcount); [lia|].
    exists k. repeat split; auto; lia.
  - exists j. repeat split; auto; lia.
Qed.

(** The first position of the current decision level on the trail. *)
Definition level_start (s : Solver) : nat :=
  vget 0%nat (trail_lim s) (decisionLevel s - 1).

(** What conflict analysis relies on in the state it starts from: a
    decision level is open; no variable is on the trail twice; the
    literals of the current level are those from [level_start] on; every
    other literal of the reason of a trail literal is false by an earlier
    trail literal; above [level_start] every literal has a reason; [seen]
    is clear and holds the trail's variables. *)
Record analysable (s : Solver) : Prop := mk_analysable {
  an_level_pos : (0 < decisionLevel s)%nat;
  an_nodup : NoDup (var <$> trail s);
  an_level : forall k q, trail s !! k = Some q ->
    (Z.of_nat (decisionLevel s) <= level s (var q) <-> (level_start s <= k)%nat);
  an_reason : forall k p cr, trail s !! k = Some p -> reason s (var p) = Some cr ->
    forall q, q ∈ drop 1 (lits (clause_at s cr)) ->
              exists k', (k' < k)%nat /\ trail s !! k' = Some (neg q);
  an_decision : forall k p, trail s !! k = Some p -> (level_start s < k)%nat ->
    reason s (var p) <> None;
  an_seen : forall x, seen_at s x = 0%nat;
  an_seen_len : forall q, q ∈ trail s -> (var q < length (seen s))%nat;
}.

(** [q] is false by a trail literal. *)
Definition on_trail (s : Solver) (q : Lit) : Prop := exists k, trail s !! k = Some (neg q).

Lemma count_seen_zero s T a n :
  (forall x, seen_at s x = 0%nat) -> count_seen s T a n = 0%nat.
Proof. intros Hz. induction n as [|n IH]; [reflexivity|]. cbn. by rewrite IH, Hz. Qed.

Lemma analyze_lit_count s0 idx1 pathC out s q kq :
  analysable s0 -> aframe s0 s ->
  (idx1 <= length (trail s0))%nat -> (kq < idx1)%nat -> trail s0 !! kq = Some (neg q) ->
  pathC = Z.of_nat (count_seen s (trail s0) (level_start s0) (idx1 - level_start s0)) ->
  exists pathC' added s',
    analyze_lit (pathC, out, s) q = (pathC', out ++ added, s')
    /\ (added = [] \/ added = [q])
    /\ aframe s0 s'
    /\ pathC' = Z.of_nat (count_seen s' (trail s0) (level_start s0) (idx1 - level_start s0))
    /\ (forall y, seen_at s y <> 0%nat -> seen_at s' y <> 0%nat)
    /\ (0 < level s0 (var q) -> seen_at s' (var q) <> 0%nat).
Proof.
  intros Han Haf Hidx Hkq Hq ->. unfold analyze_lit. cbv zeta.
  set (start := level_start s0).
  destruct (Nat.eqb_spec (seen_at s (var q)) 0) as [Hz|Hnz]; cbn [andb].
  2:{ exists (Z.of_nat (count_seen s (trail s0) start (idx1 - start))), [], s.
      rewrite app_nil_r. split; [reflexivity|]. split; [by left|]. split; [assumption|].
      split; [reflexivity|]. split; [auto|]. intros _. assumption. }
  destruct (Z.gtb_spec (level s (var q)) 0) as [Hpos|Hle].
  2:{ exists (Z.of_nat (count_seen s (trail s0) start (idx1 - start))), [], s.
      rewrite app_nil_r. split; [reflexivity|]. split; [by left|]. split; [assumption|].
      split; [reflexivity|]. split; [auto|].
      intros Hl. rewrite (aframe_level _ _ _ Haf) in Hle. lia. }
  destruct (varBumpActivity_aframe (var q) s) as [Hb Hbs].
  set (s1 := varBumpActivity (var q) s) in *.
  pose proof (set_seen_at_aframe (var q) 1 s1) as Hs2.
  assert (Haf2 : aframe s0 (set_seen_at (var q) 1 s1)).
  { eapply aframe_trans; [exact Haf|]. eapply aframe_trans; eassumption. }
  assert (Hlen : (var q < length (seen s1))%nat).
  { rewrite Hbs, (af_seen _ _ Haf).
    apply (an_seen_len _ Han (neg q)). eapply list_elem_of_lookup_2, Hq. }
  assert (Hseen : forall y, seen_at (set_seen_at (var q) 1 s1) y
                            = if decide (y = var q) then 1%nat else seen_at s y).
  { intros y. rewrite seen_at_set.
    assert (Hs1 : seen_at s1 y = seen_at s y) by (unfold seen_at; by rewrite Hbs).
    rewrite Hs1.
    destruct (decide (y = var q)) as [->|Hne].
    - by rewrite decide_True by (split; [reflexivity|assumption]).
    - by rewrite decide_False by (intros []; auto). }
  assert (Hlit : lit_at (trail s0) kq = neg q).
  { unfold lit_at, vget. by rewrite Hq. }
  assert (Hcount : count_seen (set_seen_at (var q) 1 s1) (trail s0) start (idx1 - start)
                   = (count_seen s (trail s0) start (idx1 - start)
                      + (if decide (start <= kq)%nat then 1 else 0))%nat).
  { destruct (decide (start <= idx1)%nat) as [Hsi|Hsi].
    - rewrite (count_seen_mark s _ (trail s0) start (idx1 - start) kq).
      + destruct (decide (start <= kq < start + (idx1 - start))%nat),
          (decide (start <= kq)%nat); lia.
      + apply Han.
      + lia.
      + lia.
      + by rewrite Hlit.
      + rewrite Hlit, Hseen. cbn. by rewrite decide_True.
      + intros y Hy. rewrite Hlit in Hy. cbn in Hy. rewrite Hseen.
        by rewrite decide_False.
    - replace (idx1 - start)%nat with 0%nat by lia. cbn.
      by rewrite decide_False by lia. }
  assert (Hlev : Z.of_nat (decisionLevel s0) <= level s0 (var q) <-> (start <= kq)%nat).
  { apply (an_level _ Han kq (neg q) Hq). }
  rewrite (aframe_level _ _ _ Haf2), (aframe_decisionLevel _ _ Haf2).
  destruct (Z.geb_spec (level s0 (var q)) (Z.of_nat (decisionLevel s0))) as [Hge|Hlt].
  - exists (Z.of_nat (count_seen s (trail s0) start (idx1 - start)) + 1), [],
      (set_seen_at (var q) 1 s1).
    rewrite app_nil_r. split; [reflexivity|]. split; [by left|]. split; [assumption|].
    split; [|split].
    + rewrite Hcount, decide_True by (apply Hlev; lia). lia.
    + intros y Hy. rewrite Hseen. destruct (decide (y = var q)); [lia|assumption].
    + intros _. rewrite Hseen, decide_True by reflexivity. lia.
  - exists (Z.of_nat (count_seen s (trail s0) start (idx1 - start))), [q],
      (set_seen_at (var q) 1 s1).
    split; [reflexivity|]. split; [by right|]. split; [assumption|].
    split; [|split].
    + rewrite Hcount, decide_False by (intros Hc; apply Hlev in Hc; lia). lia.
    + intros y Hy. rewrite Hseen. destruct (decide (y = var q)); [lia|assumption].
    + intros _. rewrite Hseen, decide_True by reflexivity. lia.
Qed.

Lemma foldl_analyze_lit_count s0 idx1 qs : forall pathC out s,
  analysable s0 -> aframe s0 s -> (idx1 <= length (trail s0))%nat ->
  Forall (fun q => exists kq, (kq < idx1)%nat /\ trail s0 !! kq = Some (neg q)) qs ->
  pathC = Z.of_nat (count_seen s (trail s0) (level_start s0) (idx1 - level_start s0)) ->
  out <> [] -> Forall (on_trail s0) (drop 1 out) ->
  exists pathC' out' s',
    foldl analyze_lit (pathC, out, s) qs = (pathC', out', s')
    /\ aframe s0 s'
    /\ pathC' = Z.of_nat (count_seen s' (trail s0) (level_start s0) (idx1 - level_start s0))
    /\ (forall y, seen_at s y <> 0%nat -> seen_at s' y <> 0%nat)
    /\ (forall q, q ∈ qs -> 0 < level s0 (var q) -> seen_at s' (var q) <> 0%nat)
    /\ out' <> [] /\ Forall (on_trail s0) (drop 1 out').
Proof.
  induction qs as [|q qs IH]; intros pathC out s Han Haf Hidx Hqs Hp Hne Hout.
  { exists pathC, out, s. split; [reflexivity|]. split; [assumption|].
    split; [assumption|]. split; [auto|]. split; [intros q Hq; inversion Hq|].
    split; assumption. }
  apply Forall_cons in Hqs as [(kq & Hkq & Hq) Hqs'].
  destruct (analyze_lit_count s0 idx1 pathC out s q kq Han Haf Hidx Hkq Hq Hp)
    as (pathC1 & added & s1 & Hstep & Hadd & Haf1 & Hp1 & Hmono1 & Hq1).
  cbn [foldl]. rewrite Hstep.
  assert (Hne1 : out ++ added <> []) by (destruct out; [contradiction|discriminate]).
  assert (Hout1 : Forall (on_trail s0) (drop 1 (out ++ added))).
  { destruct out as [|o out]; [contradiction|]. cbn [app drop] in *. rewrite drop_0 in *.
    apply Forall_app. split; [assumption|].
    destruct Hadd as [->| ->]; [constructor|]. constructor; [|constructor]. by exists kq. }
  destruct (IH pathC1 (out ++ added) s1 Han Haf1 Hidx Hqs' Hp1 Hne1 Hout1)
    as (pathC' & out' & s' & Hfold & Haf' & Hp' & Hmono' & Hall' & Hne' & Hout').
  exists pathC', out', s'. split; [exact Hfold|]. split; [exact Haf'|].
  split; [exact Hp'|]. split; [auto|]. split; [|auto].
  intros q' Hq' Hl. apply elem_of_cons in Hq' as [->|Hq']; [auto|by apply Hall'].
Qed.

(** The main loop of [analyze] returns: as long as literals of the current
    level are marked below [idx1], the scan finds the highest one, and if
    more are left it has a reason, whose other literals lie below it. *)
Lemma analyze_loop_returns s0 (Han : analysable s0) : forall fuel confl p idx1 pathC out s cr,
  aframe s0 s -> confl = Some cr ->
  (idx1 <= fuel)%nat -> (idx1 <= length (trail s0))%nat ->
  pathC = Z.of_nat (count_seen s (trail s0) (level_start s0) (idx1 - level_start s0)) ->
  let qs := match p with
            | None => lits (clause_at s0 cr)
            | Some _ => drop 1 (lits (clause_at s0 cr))
            end in
  Forall (fun q => exists kq, (kq < idx1)%nat /\ trail s0 !! kq = Some (neg q)) qs ->
  (0 < pathC \/ exists q, q ∈ qs /\ Z.of_nat (decisionLevel s0) <= level s0 (var q)) ->
  out <> [] -> Forall (on_trail s0) (drop 1 out) ->
  exists p' out' s',
    analyze_loop fuel confl p idx1 pathC out s = Some (p', out', s')
    /\ aframe s0 s' /\ p' ∈ trail s0
    /\ out' <> [] /\ Forall (on_trail s0) (drop 1 out').
Proof.
  induction fuel as [|fuel IH];
    intros confl p idx1 pathC out s cr Haf -> Hfuel Hidx Hp qs Hqs Hsome Hne Hout.
  { exfalso. assert (idx1 = 0%nat) as -> by lia.
    change (0 - level_start s0)%nat with 0%nat in Hp. cbn in Hp.
    destruct Hsome as [Hpos|(q & Hq & _)]; [lia|].
    rewrite Forall_forall in Hqs. destruct (Hqs q Hq) as (kq & Hkq & _). lia. }
  cbn [analyze_loop mbind option_bind]. cbv zeta.
  set (sa := if learnt (clause_at s cr) then claBumpActivity cr s else s).
  assert (Hsa : aframe s0 sa /\ seen sa = seen s).
  { subst sa. destruct (learnt (clause_at s cr)); [|auto].
    destruct (claBumpActivity_aframe cr s). split; [eapply aframe_trans; eassumption|auto]. }
  destruct Hsa as [Hsa Hseen_sa].
  assert (Hpa : pathC = Z.of_nat (count_seen sa (trail s0) (level_start s0)
                                    (idx1 - level_start s0))).
  { rewrite Hp. f_equal. symmetry. apply count_seen_ext. intros k _.
    unfold seen_at. by rewrite Hseen_sa. }
  rewrite (af_lits _ _ Hsa cr). fold qs.
  destruct (foldl_analyze_lit_count s0 idx1 qs pathC out sa Han Hsa Hidx Hqs Hpa Hne Hout)
    as (pathC1 & out1 & s1 & Hfold & Haf1 & Hp1 & Hmono & Hmarked & Hne1 & Hout1).
  rewrite Hfold.
  assert (Hcnt : (0 < count_seen s1 (trail s0) (level_start s0) (idx1 - level_start s0))%nat).
  { destruct Hsome as [Hpos|(q & Hq & Hl)].
    - destruct (count_seen_pos_inv sa (trail s0) (level_start s0) (idx1 - level_start s0))
        as (k & Hk & Hs); [lia|].
      eapply count_seen_pos; [exact Hk|]. by apply Hmono.
    - rewrite Forall_forall in Hqs. destruct (Hqs q Hq) as (kq & Hkq & Hlook).
      apply (count_seen_pos _ _ _ _ kq).
      + assert (level_start s0 <= kq)%nat by (by apply (an_level _ Han kq (neg q) Hlook)).
        lia.
      + unfold lit_at, vget. rewrite Hlook. cbn. apply Hmarked; [assumption|].
        pose proof (an_level_pos _ Han). lia. }
  rewrite <- (af_trail _ _ Haf1) in Hcnt.
  destruct (analyze_scan_spec s1 (level_start s0) idx1 Hcnt) as (k & Hscan & Hk & Hsk & Hck).
  rewrite Hscan. cbn [mbind option_bind]. rewrite (af_trail _ _ Haf1) in *.
  assert (Hklt : (k < length (trail s0))%nat) by lia.
  destruct (lookup_lt_is_Some_2 (trail s0) k Hklt) as [pk Hpk].
  assert (Hlit : lit_at (trail s0) k = pk) by (unfold lit_at, vget; by rewrite Hpk).
  rewrite Hlit in *.
  set (s2 := set_seen_at (var pk) 0 s1).
  assert (Haf2 : aframe s0 s2).
  { eapply aframe_trans; [exact Haf1|]. apply set_seen_at_aframe. }
  assert (Hp2 : pathC1 - 1 = Z.of_nat (count_seen s2 (trail s0) (level_start s0)
                                         (k - level_start s0))).
  { rewrite Hp1, Hck.
    rewrite (count_seen_ext s1 s2).
    - lia.
    - intros k' Hk'. subst s2. rewrite seen_at_set.
      rewrite decide_False; [reflexivity|]. intros [Heq _].
      assert (k' = k); [|lia].
      apply (nodup_var_lit_at (trail s0)); [apply Han|lia|lia|].
      by rewrite Heq, Hlit. }
  rewrite (aframe_reason _ _ _ Haf1).
  destruct (Z.gtb_spec (pathC1 - 1) 0) as [Hmore|Hdone].
  - assert (Hkstart : (level_start s0 < k)%nat).
    { destruct (decide (level_start s0 < k)%nat); [assumption|].
      replace (k - level_start s0)%nat with 0%nat in Hp2 by lia. cbn in Hp2. lia. }
    destruct (reason s0 (var pk)) as [cr'|] eqn:Hr.
    2:{ exfalso. by apply (an_decision _ Han k pk Hpk Hkstart). }
    apply (IH (Some cr') (Some pk) k (pathC1 - 1) out1 s2 cr'); auto; try lia.
    + apply Forall_forall. intros q Hq. apply (an_reason _ Han k pk cr' Hpk Hr q Hq).
  - exists pk, out1, s2. split; [reflexivity|]. split; [assumption|].
    split; [eapply list_elem_of_lookup_2, Hpk|auto].
Qed.

(** What [litRedundant] does when it is done with the literal on top of its
    work stack: success on an empty stack, the next position of the literal
    below otherwise. *)
Definition litRedundant_next (fuel : nat) (stack : list (nat * Lit)) (s : Solver)
  : option (bool * Solver) :=
  match stack with
  | [] => Some (true, s)
  | (i', p') :: stack' => litRedundant_loop fuel (S i') p' stack' s
  end.

Lemma litRedundant_mark_aframe (st : list (nat * Lit)) : forall s,
  aframe s (foldl (fun s e =>
                     if Nat.eqb (seen_at s (var (snd e))) seen_undef then
                       set_analyze_toclear (analyze_toclear s ++ [snd e])
                         (set_seen_at (var (snd e)) seen_failed s)
                     else s) s st).
Proof.
  induction st as [|e st IH]; intros s; [apply aframe_refl|]. cbn [foldl].
  eapply aframe_trans; [|apply IH].
  destruct (Nat.eqb _ _); [|apply aframe_refl].
  eapply aframe_trans; [apply set_seen_at_aframe|apply set_analyze_toclear_aframe].
Qed.

(** [litRedundant] returns: the literals it descends into lie ever lower on
    the trail.  Working on the literal [p] at trail position [k] from
    position [i] of its reason, the loop either gives up or gets done with
    [p], after a number of steps that does not depend on the fuel. *)
Lemma litRedundant_loop_returns s0 (Han : analysable s0) : forall k t p,
  trail s0 !! k = Some t -> var t = var p ->
  forall m i stack s,
    aframe s0 s -> (1 <= i)%nat -> (length (reason_lits s0 p) - i <= m)%nat ->
    exists n s', aframe s0 s'
      /\ ((forall fuel, litRedundant_loop (n + fuel) i p stack s = Some (false, s'))
          \/ (forall fuel, litRedundant_loop (n + fuel) i p stack s
                           = litRedundant_next fuel stack s')).
Proof.
  induction k as [k IHk] using lt_wf_ind. intros t p Ht Hvar.
  induction m as [|m IHm]; intros i stack s Haf Hi Hm.
  - (* past the end of the reason *)
    set (s' := if Nat.eqb (seen_at s (var p)) seen_undef
               then set_analyze_toclear (analyze_toclear s ++ [p])
                      (set_seen_at (var p) seen_removable s)
               else s).
    exists 1%nat, s'. split.
    { subst s'. destruct (Nat.eqb _ _); [|assumption].
      eapply aframe_trans; [exact Haf|].
      eapply aframe_trans; [apply set_seen_at_aframe|apply set_analyze_toclear_aframe]. }
    right. intros fuel. cbn [Nat.add litRedundant_loop]. cbv zeta.
    rewrite (aframe_reason_lits _ _ _ Haf).
    destruct (Nat.ltb_spec i (length (reason_lits s0 p))) as [Hlt|_]; [lia|].
    fold s'. destruct stack as [|[i' p'] stack']; reflexivity.
  - destruct (Nat.ltb_spec i (length (reason_lits s0 p))) as [Hlt|Hge].
    2:{ apply (IHm i stack s Haf Hi). lia. }
    set (l := lit_at (reason_lits s0 p) i).
    assert (Hstep : forall fuel,
      litRedundant_loop (S fuel) i p stack s
      = if (level s0 (var l) =? 0)
           || Nat.eqb (seen_at s (var l)) seen_source
           || Nat.eqb (seen_at s (var l)) seen_removable
        then litRedundant_loop fuel (S i) p stack s
        else if match reason s0 (var l) with None => true | Some _ => false end
                || Nat.eqb (seen_at s (var l)) seen_failed
        then Some (false,
                   foldl (fun s e =>
                            if Nat.eqb (seen_at s (var (snd e))) seen_undef then
                              set_analyze_toclear (analyze_toclear s ++ [snd e])
                                (set_seen_at (var (snd e)) seen_failed s)
                            else s) s (rev ((0%nat, p) :: stack)))
        else litRedundant_loop fuel 1 l ((i, p) :: stack) s).
    { intros fuel. cbn [litRedundant_loop]. cbv zeta.
      rewrite (aframe_reason_lits _ _ _ Haf).
      destruct (Nat.ltb_spec i (length (reason_lits s0 p))) as [_|Hge]; [|lia].
      fold l. by rewrite (aframe_level _ _ _ Haf), (aframe_reason _ _ _ Haf). }
    destruct ((level s0 (var l) =? 0)
              || Nat.eqb (seen_at s (var l)) seen_source
              || Nat.eqb (seen_at s (var l)) seen_removable) eqn:Hskip.
    + (* [l] needs no check *)
      destruct (IHm (S i) stack s Haf ltac:(lia) ltac:(lia)) as (n & s' & Haf' & Hres).
      exists (S n), s'. split; [assumption|].
      destruct Hres as [Hres|Hres]; [left|right]; intros fuel;
        cbn [Nat.add]; rewrite Hstep; apply Hres.
    + destruct (match reason s0 (var l) with None => true | Some _ => false end
                || Nat.eqb (seen_at s (var l)) seen_failed) eqn:Hfail.
      * (* [l] cannot be removed *)
        eexists 1%nat, _. split; [|left; intros fuel; cbn [Nat.add];
                                   by rewrite Hstep].
        eapply aframe_trans; [exact Haf|apply litRedundant_mark_aframe].
      * (* descend into [l], which lies below [p] on the trail *)
        assert (Hl : exists k', (k' < k)%nat /\ trail s0 !! k' = Some (neg l)).
        { unfold reason_lits in l, Hlt.
          destruct (reason s0 (var p)) as [cr|] eqn:Hr; [|cbn in Hlt; lia].
          rewrite <- Hvar in Hr.
          apply (an_reason _ Han k t cr Ht Hr l).
          apply list_elem_of_lookup. exists (i - 1)%nat.
          rewrite lookup_drop. replace (1 + (i - 1))%nat with i by lia.
          subst l. unfold lit_at, vget.
          destruct (lookup_lt_is_Some_2 (lits (clause_at s0 cr)) i Hlt) as [x Hx].
          by rewrite Hx. }
        destruct Hl as (k' & Hk' & Hlook).
        destruct (IHk k' Hk' (neg l) l Hlook eq_refl
                    (length (reason_lits s0 l)) 1%nat ((i, p) :: stack) s Haf
                    ltac:(lia) ltac:(lia)) as (n1 & s1 & Haf1 & Hres1).
        destruct Hres1 as [Hres1|Hres1].
        -- exists (S n1), s1. split; [assumption|]. left. intros fuel.
           cbn [Nat.add]. rewrite Hstep. apply Hres1.
        -- destruct (IHm (S i) stack s1 Haf1 ltac:(lia) ltac:(lia))
             as (n2 & s2 & Haf2 & Hres2).
           exists (S (n1 + n2)), s2. split; [assumption|].
           assert (Hgo : forall fuel,
                     litRedundant_loop (S (n1 + n2) + fuel) i p stack s
                     = litRedundant_loop (n2 + fuel) (S i) p stack s1).
           { intros fuel. cbn [Nat.add]. rewrite Hstep.
             rewrite <- Nat.add_assoc. rewrite Hres1. reflexivity. }
           destruct Hres2 as [Hres2|Hres2]; [left|right]; intros fuel;
             rewrite Hgo; apply Hres2.
Qed.

Lemma litRedundant_returns s0 (Han : analysable s0) q s :
  on_trail s0 q -> aframe s0 s ->
  exists n b s', aframe s0 s' /\ forall fuel, (n <= fuel)%nat ->
                                              litRedundant fuel q s = Some (b, s').
Proof.
  intros [k Hk] Haf.
  destruct (litRedundant_loop_returns s0 Han k (neg q) q Hk eq_refl
              (length (reason_lits s0 q)) 1%nat [] s Haf ltac:(lia) ltac:(lia))
    as (n & s' & Haf' & Hres).
  destruct Hres as [Hres|Hres].
  - exists n, false, s'. split; [assumption|]. intros fuel Hf. unfold litRedundant.
    replace fuel with (n + (fuel - n))%nat by lia. apply Hres.
  - exists n, true, s'. split; [assumption|]. intros fuel Hf. unfold litRedundant.
    replace fuel with (n + (fuel - n))%nat by lia. apply Hres.
Qed.

Lemma analyze_minimize2_returns s0 (Han : analysable s0) ps : forall kept s,
  Forall (on_trail s0) ps -> aframe s0 s ->
  exists n out s', aframe s0 s'
    /\ forall fuel, (n <= fuel)%nat -> analyze_minimize2 fuel ps kept s = Some (out, s').
Proof.
  induction ps as [|q ps IH]; intros kept s Hps Haf.
  { exists 0%nat, (rev kept), s. split; [assumption|]. intros; reflexivity. }
  apply Forall_cons in Hps as [Hq Hps]. cbn [analyze_minimize2].
  rewrite (aframe_reason _ _ _ Haf).
  destruct (reason s0 (var q)) as [cr|].
  2:{ apply IH; assumption. }
  destruct (litRedundant_returns s0 Han q s Hq Haf) as (n1 & b & s1 & Haf1 & Hres1).
  destruct (IH (if b then kept else q :: kept) s1 Hps Haf1) as (n2 & out & s2 & Haf2 & Hres2).
  exists (Nat.max n1 n2), out, s2. split; [assumption|]. intros fuel Hf.
  rewrite Hres1 by lia. destruct b; apply Hres2; lia.
Qed.

(** [analyze] returns on a conflict all of whose literals are false by the
    trail, one of them at the current level, once the fuel suffices for the
    minimisation; the outcome does not depend on the fuel. *)
Lemma analyze_returns s0 confl :
  analysable s0 ->
  Forall (on_trail s0) (lits (clause_at s0 confl)) ->
  (exists q, q ∈ lits (clause_at s0 confl)
             /\ Z.of_nat (decisionLevel s0) <= level s0 (var q)) ->
  exists n out bt s',
    forall fuel, (n <= fuel)%nat -> analyze fuel confl s0 = Some (out, bt, s').
Proof.
  intros Han Hall Hcur.
  destruct (analyze_loop_returns s0 Han (length (trail s0)) (Some confl) None
              (length (trail s0)) 0 [lit_default] s0 confl (aframe_refl s0) eq_refl
              ltac:(lia) ltac:(lia)) as (p & out1 & s1 & Hloop & Haf1 & _ & Hne1 & Hout1).
  - by rewrite count_seen_zero by apply Han.
  - eapply Forall_impl; [exact Hall|]. cbn. intros q [k Hk]. exists k.
    split; [eapply lookup_lt_Some, Hk|exact Hk].
  - by right.
  - discriminate.
  - constructor.
  - assert (Hdrop : drop 1 (<[0%nat := neg p]> out1) = drop 1 out1)
      by (destruct out1; reflexivity).
    set (out2 := <[0%nat := neg p]> out1) in *.
    set (s2 := set_analyze_toclear out2 s1).
    assert (Haf2 : aframe s0 s2) by (eapply aframe_trans; [exact Haf1|by constructor]).
    assert (Hmin : exists n out_min s3, forall fuel, (n <= fuel)%nat ->
              (if ccmin_mode s2 =? 2 then
                 '(kept, s) ← analyze_minimize2 fuel (drop 1 out2) [] s2;
                 Some (take 1 out2 ++ kept, s)
               else if ccmin_mode s2 =? 1 then
                 Some (take 1 out2 ++ analyze_minimize1 s2 (drop 1 out2), s2)
               else Some (out2, s2)) = Some (out_min, s3)).
    { destruct (ccmin_mode s2 =? 2).
      - destruct (analyze_minimize2_returns s0 Han (drop 1 out2) [] s2)
          as (n & kept & s3 & _ & Hres); [by rewrite Hdrop|assumption|].
        exists n, (take 1 out2 ++ kept), s3. intros fuel Hf. by rewrite Hres.
      - destruct (ccmin_mode s2 =? 1).
        + exists 0%nat, (take 1 out2 ++ analyze_minimize1 s2 (drop 1 out2)), s2. auto.
        + exists 0%nat, out2, s2. auto. }
    destruct Hmin as (n & out_min & s3 & Hmin).
    eexists n, _, _, _. intros fuel Hf. unfold analyze.
    rewrite Hloop. cbn [mbind option_bind]. cbv zeta. fold out2 s2.
    rewrite (Hmin fuel Hf). cbn [mbind option_bind].
    match goal with |- context [analyze_btlevel ?a ?b] =>
      rewrite (surjective_pairing (analyze_btlevel a b)) end.
    reflexivity.
Qed.

(** ** From a consistent trail to an analysable conflict *)

(** The number of boundaries at or below position [k]. *)
Definition count_le (l : list nat) (k : nat) : nat :=
  length (filter (fun b => (b <= k)%nat) l).

Lemma count_le_length l k : (count_le l k <= length l)%nat.
Proof. unfold count_le. apply length_filter. Qed.

(** In a sorted list the elements at or below [k] are the first
    [count_le l k] ones. *)
Lemma count_le_sorted l k : StronglySorted le l ->
  forall j b, l !! j = Some b -> ((b <= k)%nat <-> (j < count_le l k)%nat).
Proof.
  unfold count_le. induction 1 as [|a l Hs IH Hall]; intros j b Hj; [discriminate|].
  destruct (decide (a <= k)%nat) as [Ha|Ha].
  - rewrite filter_cons_True by assumption. cbn [length].
    destruct j as [|j]; cbn in Hj.
    + injection Hj as <-. split; [lia|auto].
    + rewrite (IH j b Hj). lia.
  - rewrite filter_cons_False by assumption.
    assert (Hnone : filter (fun b => (b <= k)%nat) l = []).
    { destruct (filter _ l) as [|x f] eqn:Ef; [reflexivity|].
      assert (Hx : x ∈ filter (fun b => (b <= k)%nat) l) by (rewrite Ef; left).
      apply list_elem_of_filter in Hx as [Hxk Hxl].
      rewrite Forall_forall in Hall. specialize (Hall x Hxl). lia. }
    rewrite Hnone. cbn [length]. split; [|lia]. intros Hb. exfalso.
    destruct j as [|j]; cbn in Hj.
    + injection Hj as <-. lia.
    + rewrite Forall_forall in Hall.
      specialize (Hall b ltac:(eapply list_elem_of_lookup_2, Hj)). lia.
Qed.

(** A consistent trail: no variable twice; sorted boundaries within the
    trail; the level of a trail literal is the number of boundaries at or
    below its position; the reason of a trail literal is a clause of the
    arena whose other literals are false by earlier trail literals; a trail
    literal without a reason is a root fact or opens a level; [seen] is
    clear and holds the trail's variables; a false literal is false by the
    trail. *)
Record trail_wf (s : Solver) : Prop := mk_trail_wf {
  wf_nodup : NoDup (var <$> trail s);
  wf_lim_sorted : StronglySorted le (trail_lim s);
  wf_lim_bound : Forall (fun b => (b <= length (trail s))%nat) (trail_lim s);
  wf_level : forall k q, trail s !! k = Some q ->
    level s (var q) = Z.of_nat (count_le (trail_lim s) k);
  wf_reason : forall k p cr, trail s !! k = Some p -> reason s (var p) = Some cr ->
    (cr < length (ca s))%nat
    /\ forall q, q ∈ drop 1 (lits (clause_at s cr)) ->
                 exists k', (k' < k)%nat /\ trail s !! k' = Some (neg q);
  wf_decision : forall k p, trail s !! k = Some p -> reason s (var p) = None ->
    level s (var p) = 0 \/ k ∈ trail_lim s;
  wf_seen : forall x, seen_at s x = 0%nat;
  wf_seen_len : forall q, q ∈ trail s -> (var q < length (seen s))%nat;
  wf_false : forall q, value s q = l_False -> neg q ∈ trail s;
}.

Lemma cancelUntil_keeps lvl s :
  vardata (cancelUntil lvl s) = vardata s
  /\ seen (cancelUntil lvl s) = seen s
  /\ ca (cancelUntil lvl s) = ca s.
Proof.
  unfold cancelUntil. destruct (Z.gtb_spec (Z.of_nat (decisionLevel s)) lvl); [|auto].
  cbv zeta.
  match goal with |- context [foldl ?f ?a0 ?l] =>
    assert (Hf : forall l0 b, vardata (foldl f b l0) = vardata b
                              /\ seen (foldl f b l0) = seen b
                              /\ ca (foldl f b l0) = ca b) end.
  { induction l0 as [|x l0 IH]; intros b; [auto|]. cbn [foldl].
    match goal with |- context [foldl _ ?b' l0] =>
      destruct (IH b') as (-> & -> & ->) end.
    unfold insertVarOrder. cbv zeta. repeat case_match; cbn; auto. }
  match goal with |- context [foldl ?f ?a0 ?l] =>
    destruct (Hf l a0) as (H1 & H2 & H3); set (F := foldl f a0 l) in *; clearbody F end.
  cbn in *. auto.
Qed.

(** Cutting a consistent trail back to level [hn], with the levels,
    reasons, marks and old clauses as they are, leaves a state that conflict
    analysis can work on. *)
Lemma prefix_analysable s s1 hn L :
  trail_wf s ->
  (1 <= hn <= length (trail_lim s))%nat ->
  (L <= length (trail s))%nat ->
  (forall b, trail_lim s !! hn = Some b -> L = b) ->
  (hn = length (trail_lim s) -> L = length (trail s)) ->
  trail s1 = take L (trail s) ->
  trail_lim s1 = take hn (trail_lim s) ->
  vardata s1 = vardata s -> seen s1 = seen s ->
  (forall cr, (cr < length (ca s))%nat -> lits (clause_at s1 cr) = lits (clause_at s cr)) ->
  analysable s1
  /\ (forall q, on_trail s q -> level s (var q) <= Z.of_nat hn -> on_trail s1 q).
Proof.
  intros Hwf Hhn HL HLb HLe Ht Hl Hv Hsn Hca.
  assert (Hlev : forall x, level s1 x = level s x) by (intros x; unfold level; by rewrite Hv).
  assert (Hrea : forall x, reason s1 x = reason s x)
    by (intros x; unfold reason; by rewrite Hv).
  assert (Hdl : decisionLevel s1 = hn).
  { unfold decisionLevel. rewrite Hl, length_take. lia. }
  destruct (lookup_lt_is_Some_2 (trail_lim s) (hn - 1)) as [st Hst]; [lia|].
  assert (Hstart : level_start s1 = st).
  { unfold level_start, vget. rewrite Hdl, Hl, lookup_take_lt by lia. by rewrite Hst. }
  assert (Hlook : forall k q, trail s1 !! k = Some q -> trail s !! k = Some q /\ (k < L)%nat).
  { intros k q Hk. rewrite Ht in Hk. apply lookup_take_Some in Hk. tauto. }
  assert (Hcur : forall k, (st <= k)%nat <-> (hn <= count_le (trail_lim s) k)%nat).
  { intros k. rewrite (count_le_sorted _ k (wf_lim_sorted _ Hwf) (hn - 1) st Hst). lia. }
  split; [constructor|].
  - lia.
  - rewrite Ht, fmap_take. eapply (sublist_NoDup _ (var <$> trail s)); [apply Hwf|apply sublist_take].
  - intros k q Hk. destruct (Hlook k q Hk) as [Hk' _].
    rewrite Hlev, Hdl, Hstart, (wf_level _ Hwf k q Hk'), Hcur. lia.
  - intros k p cr Hk Hr q Hq. destruct (Hlook k p Hk) as [Hk' HkL].
    rewrite Hrea in Hr. destruct (wf_reason _ Hwf k p cr Hk' Hr) as [Hcr Hothers].
    rewrite Hca in Hq by assumption.
    destruct (Hothers q Hq) as (k' & Hlt & Hlook').
    exists k'. split; [assumption|]. rewrite Ht. rewrite lookup_take_lt by lia. exact Hlook'.
  - intros k p Hk Hgt. destruct (Hlook k p Hk) as [Hk' HkL].
    rewrite Hstart in Hgt. rewrite Hrea. intros Hnone.
    destruct (wf_decision _ Hwf k p Hk' Hnone) as [Hz|Hin].
    + rewrite (wf_level _ Hwf k p Hk') in Hz.
      assert (hn <= count_le (trail_lim s) k)%nat by (apply Hcur; lia). lia.
    + apply list_elem_of_lookup in Hin as [j Hj].
      destruct (decide (j < hn)%nat) as [Hjh|Hjh].
      * destruct (decide (j = hn - 1)%nat) as [->|Hne]; [rewrite Hst in Hj; injection Hj; lia|].
        assert (k <= st)%nat; [|lia].
        eapply (StronglySorted_lookup le (trail_lim s) j (hn - 1)); [apply Hwf|lia| |];
          eassumption.
      * destruct (lookup_lt_is_Some_2 (trail_lim s) hn) as [b Hb].
        { apply lookup_lt_Some in Hj. lia. }
        specialize (HLb b Hb). subst b.
        destruct (decide (j = hn)) as [->|Hne]; [rewrite Hb in Hj; injection Hj; lia|].
        assert (L <= k)%nat; [|lia].
        eapply (StronglySorted_lookup le (trail_lim s) hn j); [apply Hwf|lia| |];
          eassumption.
  - intros x. unfold seen_at. rewrite Hsn. apply (wf_seen _ Hwf).
  - intros q Hq. rewrite Hsn. apply (wf_seen_len _ Hwf). rewrite Ht in Hq.
    apply list_elem_of_lookup in Hq as [i Hi]. apply lookup_take_Some in Hi as [Hi _].
    eapply list_elem_of_lookup_2, Hi.
  - intros q [k Hk] Hle. exists k. rewrite Ht. rewrite lookup_take_lt; [exact Hk|].
    destruct (decide (k < L)%nat) as [|Hge]; [assumption|]. exfalso.
    pose proof (wf_level _ Hwf k (neg q) Hk) as Hlv. cbn [neg var] in Hlv.
    rewrite Hlv in Hle.
    destruct (decide (hn < length (trail_lim s))%nat) as [Hh|Hh].
    + destruct (lookup_lt_is_Some_2 (trail_lim s) hn Hh) as [b Hb].
      specialize (HLb b Hb). subst b.
      assert (hn < count_le (trail_lim s) k)%nat; [|lia].
      apply (count_le_sorted _ k (wf_lim_sorted _ Hwf) hn L Hb). lia.
    + apply lookup_lt_Some in Hk. rewrite HLe in Hge by lia. lia.
Qed.

Lemma foldl_varBump_keeps (l : list Lit) : forall a,
  let a1 := foldl (fun s q => varBumpActivity (var q) s) a l in
  vardata a1 = vardata a /\ seen a1 = seen a.
Proof.
  induction l as [|q l IH]; intros a; [auto|]. cbn [foldl]. cbv zeta.
  destruct (IH (varBumpActivity (var q) a)) as (-> & ->).
  unfold varBumpActivity. cbv zeta. destruct (d_lt _ _); auto.
Qed.

Lemma install_original_keeps bump clause s :
  let s' := (install_original bump clause s).2 in
  vardata s' = vardata s /\ seen s' = seen s
  /\ ca s' = ca s ++ [mkClause clause false 0%nat (d_of_Z 0) None].
Proof.
  cbv zeta. unfold install_original, ca_alloc. cbv zeta. cbn [fst snd].
  match goal with |- context [attachClause ?cr (set_clauses ?cl ?x)] =>
    assert (Hx : vardata x = vardata s /\ seen x = seen s
                 /\ ca x = ca s ++ [mkClause clause false 0%nat (d_of_Z 0) None]);
    [|generalize dependent x; intros x0 (Hv & Hs & Hca)] end.
  { destruct bump; [|auto].
    match goal with |- context [foldl ?f ?a clause] =>
      destruct (foldl_varBump_keeps clause a) as (-> & ->);
      destruct (foldl_varBump_spec clause a) as (_ & -> & _) end.
    auto. }
  unfold attachClause, watches_push, set_watches_of. cbv zeta.
  repeat case_match; cbn; auto.
Qed.


(** X15. On a consistent trail with an open decision level, [analyze]
    returns for every conflict clause whose literals are all false, one of
    them at the current level: the scan of the trail always finds a marked
    literal, a literal that is not the last one has a reason, and the
    minimisation ends because reasons point down the trail.  The outcome
    is the same for every fuel above a bound. *)
Theorem analyze_returns_on_consistent_trail s confl :
  trail_wf s ->
  (0 < decisionLevel s)%nat ->
  (forall q, q ∈ lits (clause_at s confl) -> value s q = l_False) ->
  (exists q, q ∈ lits (clause_at s confl)
             /\ Z.of_nat (decisionLevel s) <= level s (var q)) ->
  exists fuel0 out_learnt out_btlevel s',
    forall fuel, (fuel0 <= fuel)%nat ->
                 analyze fuel confl s = Some (out_learnt, out_btlevel, s').
Proof.
  intros Hwf Hdl Hfalse Hcur.
  assert (Hhn : (1 <= decisionLevel s <= length (trail_lim s))%nat)
    by (unfold decisionLevel in *; lia).
  assert (HLb : forall b, trail_lim s !! decisionLevel s = Some b -> length (trail s) = b).
  { intros b Hb. apply lookup_lt_Some in Hb. unfold decisionLevel in Hb. lia. }
  assert (Ht : trail s = take (length (trail s)) (trail s)) by (by rewrite take_ge by lia).
  assert (Hl : trail_lim s = take (decisionLevel s) (trail_lim s))
    by (unfold decisionLevel; by rewrite take_ge by lia).
  destruct (prefix_analysable s s (decisionLevel s) (length (trail s)) Hwf Hhn
              (Nat.le_refl _) HLb (fun _ => eq_refl) Ht Hl eq_refl eq_refl
              (fun _ _ => eq_refl)) as [Han _].
  apply (analyze_returns s confl Han); [|assumption].
  apply Forall_forall. intros q Hq. apply list_elem_of_lookup.
  apply (wf_false _ Hwf). auto.
Qed.

End Theory.

(** * Concrete runs on the evaluation platform *)

#[local] Existing Instance eval_platform.

(** Two variables, the unit clause [1] at level 0, and the assumption [1]. *)
Definition assumption_demo : Solver :=
  set_assumptions [mkLit 0%nat false]
    (default (eval_solver 0 2) (eval_add_clauses 100 [[1]] (eval_solver 0 2))).

Lemma assumption_demo_trail_inv : trail_inv assumption_demo.
Proof.
  split; [vm_compute; repeat constructor|]. split; [vm_compute; constructor|].
  split; [vm_compute; constructor|].
  split; [intros i a b _ Ha|intros i a _ Ha]; vm_compute in Ha; destruct i; discriminate.
Qed.



(** Four variables and two pairs of clauses that each cost one conflict;
    the base restart interval is 1. *)
Definition restart_demo : Solver :=
  default (eval_solver 0 4)
    (eval_add_clauses 100 [[1; 2]; [1; -2]; [3; 4]; [3; -4]]
       (set_restart_first 1 (eval_solver 0 4))).

Example restart_demo_limits :
  option_map snd (restart_loop 100 100 0 restart_demo) = Some [1; 1; 2].
Proof. vm_compute. reflexivity. Qed.

Lemma restart_limits_follow_luby_witness :
  exists e, luby (restart_inc restart_demo) 2
            = Some (d_pow (restart_inc restart_demo) (d_of_Z e))
            /\ 2 ^ e = nth 2 (luby_block 1) 0
            /\ 2 = d_trunc (d_mul (d_pow (restart_inc restart_demo) (d_of_Z e))
                                  (d_of_Z (restart_first restart_demo))).
Proof.
  pose proof restart_demo_limits as Hl.
  destruct (restart_loop 100 100 0 restart_demo) as [[[st s'] limits]|] eqn:E;
    [|discriminate].
  injection Hl as Hl. cbn in Hl. subst limits.
  exact (restart_limits_follow_luby 100 100 restart_demo st s' [1; 1; 2] 2 2 1
           eq_refl E eq_refl ltac:(cbn; lia)).
Defined.

Example luby_2_first_15 :
  map (fun k => luby (inject_Z 2) (Z.of_nat k)) (seq 0 15)
  = map (fun x => Some (inject_Z x)) [1; 1; 2; 1; 1; 2; 4; 1; 1; 2; 1; 1; 2; 4; 8].
Proof. vm_compute. reflexivity. Qed.

(** The four binary clauses over two variables: unsatisfiable, one conflict
    at level 1 and one at the root. *)
Definition unsat_demo : Solver :=
  default (eval_solver 0 2)
    (eval_add_clauses 100 [[1; 2]; [1; -2]; [-1; 2]; [-1; -2]] (eval_solver 0 2)).

Definition unsat_demo_final : Solver :=
  match solve_ 100 unsat_demo with Some (_, s) => s | None => unsat_demo end.

Example unsat_demo_solve : solve_ 100 unsat_demo = Some (l_False, unsat_demo_final).
Proof. vm_compute. reflexivity. Qed.

Example unsat_demo_searched : starts unsat_demo_final = 1 /\ conflicts unsat_demo_final = 2.
Proof. vm_compute. auto. Qed.

Lemma solve_unsat_at_root_is_permanent_witness :
  let calls := [([], 100%nat); ([mkLit 0%nat false], 5%nat); ([], 0%nat)] in
  ok unsat_demo_final = false
  /\ (solve_calls calls unsat_demo_final).1 = replicate (length calls) (Some l_False)
  /\ starts (solve_calls calls unsat_demo_final).2 = starts unsat_demo_final
  /\ ok (solve_calls calls unsat_demo_final).2 = false.
Proof.
  exact (solve_unsat_at_root_is_permanent 100 unsat_demo unsat_demo_final
           [([], 100%nat); ([mkLit 0%nat false], 5%nat); ([], 0%nat)]
           unsat_demo_solve eq_refl).
Defined.

(** Three variables, the clauses [-1 -2 3] and [-1 -2 -3], and the decisions
    1 and 2: the second decision propagates 3 and falsifies the second
    clause. *)
Definition conflict_demo : Solver :=
  default (eval_solver 0 3)
    (s ← eval_add_clauses 100 [[-1; -2; 3]; [-1; -2; -3]] (eval_solver 0 3);
     '(_, s) ← assign_literal 100 1 s;
     '(_, s) ← assign_literal 100 2 s;
     Some s).

Definition conflict_demo_analysed : Solver :=
  match analyze 100 1 conflict_demo with Some (_, _, s) => s | None => conflict_demo end.

Example conflict_demo_analyze :
  cflr conflict_demo = Some 1%nat
  /\ analyze 100 1 conflict_demo
     = Some ([mkLit 1%nat true; mkLit 0%nat true], 1, conflict_demo_analysed).
Proof. vm_compute. auto. Qed.

Lemma conflict_demo_levels : levels_nonneg conflict_demo.
Proof. vm_compute. repeat constructor; discriminate. Qed.

Lemma analyze_backtrack_level_witness :
  let out := [mkLit 1%nat true; mkLit 0%nat true] in
  (length out = 1%nat -> 1 = 0)
  /\ (length out <> 1%nat ->
        1 = level conflict_demo_analysed (var (lit_at out 1))
        /\ forall q, q ∈ drop 1 out -> level conflict_demo_analysed (var q) <= 1)
  /\ 0 <= 1.
Proof.
  exact (analyze_backtrack_level 100 1%nat conflict_demo
           [mkLit 1%nat true; mkLit 0%nat true] 1 conflict_demo_analysed
           (proj2 conflict_demo_analyze) conflict_demo_levels).
Defined.

(** One variable, made true at the root by the unit clause [1]. *)
Definition root_true_demo : Solver :=
  default (eval_solver 0 1) (eval_add_clauses 100 [[1]] (eval_solver 0 1)).

Lemma root_true_demo_falsified : falsified_at_root root_true_demo [mkLit 0%nat false].
Proof.
  right. split; [|reflexivity].
  intros q Hq. apply list_elem_of_singleton in Hq as ->. vm_compute. discriminate.
Qed.

(** The clause [1] is satisfied at the root, yet the call returns false. *)
Lemma addClauseDuringSearch_rejects_satisfied_witness :
  value root_true_demo (mkLit 0%nat false) = l_True
  /\ addClauseDuringSearch 10 [mkLit 0%nat false] root_true_demo
     = Some (false, root_true_demo)
  /\ ~ (forall p, p ∈ [mkLit 0%nat false] -> value root_true_demo p = l_False).
Proof.
  split; [vm_compute; reflexivity|].
  destruct root_true_demo_falsified as [Hnil|[Hall Hz]]; [discriminate Hnil|].
  exact (addClauseDuringSearch_rejects_satisfied 10 [mkLit 0%nat false] root_true_demo
           (mkLit 0%nat false) ltac:(left) ltac:(vm_compute; reflexivity) Hall Hz).
Defined.

(** Three variables, the clause [-2 3], and the decisions 1 and 2: the
    second decision propagates 3. *)
Definition ingest_demo : Solver :=
  default (eval_solver 0 3)
    (s ← eval_add_clauses 100 [[-2; 3]] (eval_solver 0 3);
     '(_, s) ← assign_literal 100 1 s;
     '(_, s) ← assign_literal 100 2 s;
     Some s).

Definition ingest_clause : list Lit := [mkLit 0%nat true; mkLit 1%nat true; mkLit 2%nat true].

Lemma ingest_demo_false q : q ∈ ingest_clause -> value ingest_demo q = l_False.
Proof.
  unfold ingest_clause. rewrite !elem_of_cons, elem_of_nil.
  intros [->|[->|[->|[]]]]; vm_compute; reflexivity.
Qed.

Example ingest_demo_highest : highest_level ingest_demo ingest_clause = 2.
Proof. vm_compute. reflexivity. Qed.

Example ingest_demo_returns :
  option_map (fun r => (r.1, trail r.2, trail_lim r.2, length (learnts r.2)))
             (addClauseDuringSearch 100 ingest_clause ingest_demo)
  = Some (true, [mkLit 0%nat false; mkLit 1%nat true], [0%nat], 1%nat).
Proof. vm_compute. reflexivity. Qed.

Example ingest_demo_trail :
  trail ingest_demo = [mkLit 0%nat false; mkLit 1%nat false; mkLit 2%nat false].
Proof. vm_compute. reflexivity. Qed.

Lemma ingest_demo_wf : trail_wf ingest_demo.
Proof.
  constructor.
  - vm_compute. rewrite !NoDup_cons, !not_elem_of_cons. repeat split; try lia; try apply not_elem_of_nil. apply NoDup_nil_2.
  - vm_compute. repeat constructor.
  - vm_compute. repeat constructor.
  - intros k q Hk. destruct k as [|[|[|k]]]; vm_compute in Hk; [| | |discriminate Hk];
      injection Hk as <-; vm_compute; reflexivity.
  - intros k p cr Hk Hr. destruct k as [|[|[|k]]]; vm_compute in Hk; [| | |discriminate Hk].
    all: injection Hk as <-.
    all: vm_compute in Hr.
    1,2: discriminate Hr.
    injection Hr as <-. split; [vm_compute; lia|].
    intros q Hq. vm_compute in Hq. apply list_elem_of_singleton in Hq as ->.
    exists 1%nat. split; [lia|vm_compute; reflexivity].
  - intros k p Hk Hr. destruct k as [|[|[|k]]]; vm_compute in Hk; [| | |discriminate Hk];
      injection Hk as <-; vm_compute in Hr; [| |discriminate Hr]; right; vm_compute.
    + left.
    + right; left.
  - intros x. destruct x as [|[|[|x]]]; vm_compute; reflexivity.
  - intros q Hq. rewrite ingest_demo_trail in Hq.
    rewrite !elem_of_cons, elem_of_nil in Hq.
    destruct Hq as [->|[->|[->|[]]]]; vm_compute; lia.
  - intros [x sg] Hq. rewrite ingest_demo_trail.
    destruct x as [|[|[|x]]], sg; vm_compute in Hq; try discriminate Hq;
      cbn [neg var sign negb]; rewrite !elem_of_cons; auto.
Qed.


(** Two vertices, hence one edge variable, and the unit clause [1]; solved
    once, so that the model makes the edge variable true. *)
Definition enumeration_demo : Solver :=
  default (eval_solver 2 1)
    (s ← eval_add_clauses 100 [[1]] (eval_solver 2 1);
     '(_, s) ← solve_ 100 s;
     Some s).

Example enumeration_demo_model : modelValue_var enumeration_demo 0%nat = l_True.
Proof. vm_compute. reflexivity. Qed.

(** The clause added for this model is the tautology [1 -1] instead of
    [-1], and [addClause_] drops it. *)
Example enumeration_demo_blocking_clause :
  enumerate_blocking_clause enumeration_demo = [mkLit 0%nat false; mkLit 0%nat true]
  /\ edge_blocking_clause enumeration_demo = [mkLit 0%nat true]
  /\ option_map (fun r => (r.1, clauses r.2, trail r.2, ok r.2))
       (addClause_ 100 (enumerate_blocking_clause enumeration_demo) enumeration_demo)
     = Some (true, clauses enumeration_demo, trail enumeration_demo, true)
  /\ option_map (fun r => (r.1, ok r.2))
       (addClause_ 100 (edge_blocking_clause enumeration_demo) enumeration_demo)
     = Some (false, false).
Proof. vm_compute. auto. Qed.

(** One free edge variable has two models; the enumeration reports as many
    solutions as the limit allows. *)
Example enumeration_repeats_model :
  option_map (fun r => (r.1, map (map toInt) (solution_store r.2)))
    (run_solver_enumerate 100 (inject_Z (-1)) true 5 (eval_solver 2 1))
  = Some ((5, LIMIT),
          [[0; 1; 1]; [0; 1; 0]; [0; 1; 0]; [0; 1; 0]; [0; 1; 0]]%nat).
Proof. vm_compute. reflexivity. Qed.

Lemma enumerate_blocking_clause_padding_witness :
  mkLit 0%nat false ∈ enumerate_blocking_clause enumeration_demo
  /\ mkLit 0%nat true ∈ enumerate_blocking_clause enumeration_demo
  /\ mkLit 0%nat false ∉ edge_blocking_clause enumeration_demo.
Proof.
  exact (proj2 (proj2 (enumerate_blocking_clause_padding enumeration_demo))
           ltac:(vm_compute; lia) enumeration_demo_model).
Defined.

(** ** Runs for the properties of the solver's operations *)

Lemma uncheckedEnqueue_records_witness :
  let s' := uncheckedEnqueue (mkLit 0%nat false) (Some 0%nat) restart_demo in
  value s' (mkLit 0%nat false) = l_True
  /\ reason s' 0%nat = Some 0%nat
  /\ trail s' = trail restart_demo ++ [mkLit 0%nat false].
Proof.
  pose proof (uncheckedEnqueue_records (mkLit 0%nat false) (Some 0%nat) restart_demo
                ltac:(vm_compute; lia) ltac:(vm_compute; lia))
    as (H1 & _ & _ & H2 & H3 & _).
  exact (conj H1 (conj H2 H3)).
Defined.

(** Three variables, the clause [-2 3], the decision 1 propagated and the
    decision 2 enqueued but not yet propagated. *)
Definition propagate_demo : Solver :=
  default (eval_solver 0 3)
    (s ← eval_add_clauses 100 [[-2; 3]] (eval_solver 0 3);
     '(_, s) ← assign_literal 100 1 s;
     Some (uncheckedEnqueue (mkLit 1%nat false) None (newDecisionLevel s))).

Definition propagate_demo_done : Solver :=
  match propagate 100 propagate_demo with Some (_, s) => s | None => propagate_demo end.

Example propagate_demo_run :
  propagate 100 propagate_demo = Some (None, propagate_demo_done)
  /\ trail propagate_demo_done = trail propagate_demo ++ [mkLit 2%nat false].
Proof. split; vm_compute; reflexivity. Qed.

Lemma propagate_only_extends_witness :
  exists ext,
    trail propagate_demo_done = trail propagate_demo ++ ext
    /\ trail_lim propagate_demo_done = trail_lim propagate_demo
    /\ forall p, p ∈ ext -> value propagate_demo p = l_Undef.
Proof.
  destruct (propagate_only_extends 100 propagate_demo None propagate_demo_done
              (proj1 propagate_demo_run)) as (ext & H1 & H2 & _ & _ & H3 & _).
  exists ext. split; [exact H1|]. split; [exact H2|]. intros p Hp. exact (proj1 (H3 p Hp)).
Defined.

(** Three variables and the clause [-2 3], at the root. *)
Definition implies_demo : Solver :=
  default (eval_solver 0 3) (eval_add_clauses 100 [[-2; 3]] (eval_solver 0 3)).

Definition implies_demo_done : Solver :=
  match implies 100 [mkLit 1%nat false] [] implies_demo with
  | Some (_, _, s) => s
  | None => implies_demo
  end.

Example implies_demo_run :
  implies 100 [mkLit 1%nat false] [] implies_demo
  = Some (true, [mkLit 2%nat false], implies_demo_done).
Proof. vm_compute. reflexivity. Qed.

Lemma implies_restores_witness :
  trail implies_demo_done = trail implies_demo
  /\ decisionLevel implies_demo_done = 0%nat
  /\ forall x, value_var implies_demo_done x = value_var implies_demo x.
Proof.
  pose proof (implies_restores 100 [mkLit 1%nat false] [] implies_demo true
                [mkLit 2%nat false] implies_demo_done
                ltac:(vm_compute; reflexivity) implies_demo_run)
    as (H1 & H2 & _ & H3 & _).
  exact (conj H1 (conj H2 H3)).
Defined.

Lemma analyze_learnt_levels_witness :
  let out := [mkLit 1%nat true; mkLit 0%nat true] in
  (exists p, p ∈ trail conflict_demo /\ lit_at out 0 = neg p)
  /\ (forall q, q ∈ drop 1 out ->
                0 < level conflict_demo (var q) < Z.of_nat (decisionLevel conflict_demo)).
Proof.
  pose proof (analyze_learnt_levels 100 1%nat conflict_demo
                [mkLit 1%nat true; mkLit 0%nat true] 1 conflict_demo_analysed
                (proj2 conflict_demo_analyze)) as (H1 & _ & H2 & _).
  exact (conj H1 H2).
Defined.


(** Three variables and a clause [1 2 3] that is allocated but not attached. *)
Definition detached_demo : Solver :=
  (ca_alloc [mkLit 0%nat false; mkLit 1%nat false; mkLit 2%nat false] false
     (eval_solver 0 3)).2.

Lemma attach_detach_roundtrip_witness :
  let s' := detachClause 0%nat true (attachClause 0%nat detached_demo) in
  watches s' = watches detached_demo /\ num_clauses s' = num_clauses detached_demo.
Proof.
  pose proof (attach_detach_roundtrip 0%nat detached_demo
                ltac:(vm_compute; constructor) ltac:(vm_compute; constructor))
    as (H1 & H2 & _).
  exact (conj H1 H2).
Defined.

Definition restart_demo_final : Solver :=
  match solve_ 100 restart_demo with Some (_, s) => s | None => restart_demo end.

Example restart_demo_solve : solve_ 100 restart_demo = Some (l_True, restart_demo_final).
Proof. vm_compute. reflexivity. Qed.

Lemma solve_returns_to_root_witness :
  decisionLevel restart_demo_final = 0%nat
  /\ length (model restart_demo_final) = nVars restart_demo_final.
Proof.
  pose proof (solve_returns_to_root 100 restart_demo l_True restart_demo_final
                ltac:(vm_compute; reflexivity) restart_demo_solve) as (H1 & _ & H2).
  exact (conj H1 (H2 eq_refl)).
Defined.

Lemma numbering_empty : numbering [] 0.
Proof.
  split; [lia|]. split; intros x; destruct x; cbn; intros; congruence.
Qed.

Lemma mapVar_numbering_witness :
  let '(r, map', max') := mapVar 2%nat [] 0 in
  vget (-1) map' 2%nat = r /\ 0 <= r < max'
  /\ mapVar 2%nat map' max' = (r, map', max')
  /\ (forall y, y <> 2%nat -> vget (-1) map' y = vget (-1) [] y)
  /\ (vget (-1) [] 2%nat <> -1 -> r = vget (-1) [] 2%nat /\ map' = [] /\ max' = 0)
  /\ (vget (-1) [] 2%nat = -1 -> r = 0 /\ max' = 0 + 1)
  /\ numbering map' max'.
Proof. exact (mapVar_numbering 2%nat [] 0 numbering_empty). Defined.

(** Four variables, the clause [-2 3], and the decisions 1 and 2; the
    fourth variable stays unassigned. *)
Definition unit_demo : Solver :=
  default (eval_solver 0 4)
    (s ← eval_add_clauses 100 [[-2; 3]] (eval_solver 0 4);
     '(_, s) ← assign_literal 100 1 s;
     '(_, s) ← assign_literal 100 2 s;
     Some s).


Lemma ingest_demo_assigned q :
  q ∈ [mkLit 0%nat true; mkLit 2%nat true] -> value ingest_demo q <> l_Undef.
Proof.
  rewrite !elem_of_cons, elem_of_nil.
  intros [->|[->|[]]]; vm_compute; discriminate.
Qed.


Lemma ingest_demo_above_root :
  value ingest_demo (mkLit 2%nat true) = l_Undef
  \/ level ingest_demo (var (mkLit 2%nat true)) <> 0.
Proof. right. vm_compute. discriminate. Qed.

Lemma addClauseDuringSearch_single_witness :
  addClauseDuringSearch 100 [mkLit 2%nat true] ingest_demo
  = Some (true, uncheckedEnqueue (mkLit 2%nat true) None (cancelUntil 0 ingest_demo)).
Proof.
  pose proof (addClauseDuringSearch_single 100 (mkLit 2%nat true) ingest_demo
                ingest_demo_above_root) as H.
  cbv zeta in H. exact (proj1 H).
Defined.

(** The state of [conflict_demo] just before the propagation that finds the
    conflict. *)
Definition latch_demo : Solver :=
  default (eval_solver 0 3)
    (s ← eval_add_clauses 100 [[-1; -2; 3]; [-1; -2; -3]] (eval_solver 0 3);
     '(_, s) ← assign_literal 100 1 s;
     Some (uncheckedEnqueue (mkLit 1%nat false) None (newDecisionLevel s))).

Definition latch_demo_done : Solver :=
  match api_propagate 100 latch_demo with Some (_, _, s) => s | None => latch_demo end.

Example latch_demo_run :
  api_propagate 100 latch_demo = Some (CONFLICT, 2, latch_demo_done).
Proof. vm_compute. reflexivity. Qed.

Lemma conflict_is_latched_witness :
  cflr latch_demo_done <> None
  /\ (exists m, assign_literal 100 3 latch_demo_done = Some (CONFLICT, m, latch_demo_done))
  /\ cflr (backtrack 1 latch_demo_done).2 = None.
Proof.
  pose proof (conflict_is_latched 100 latch_demo CONFLICT 2 latch_demo_done latch_demo_run)
    as (H1 & _ & H2).
  destruct (H2 eq_refl) as [H3 H4].
  split; [exact (proj1 H1 eq_refl)|]. split; [exact (H3 100%nat 3)|].
  exact (proj2 (H4 1 ltac:(vm_compute; split; [reflexivity|discriminate]))).
Defined.


Lemma enumeration_demo_total v :
  (v < nVars enumeration_demo)%nat -> modelValue_var enumeration_demo v <> l_Undef.
Proof.
  intros Hv. assert (v = 0%nat) as -> by (vm_compute in Hv; lia).
  vm_compute. discriminate.
Qed.

Lemma block_model_blocks_model_witness :
  existsb (lit_holds (fun _ => true)) (block_model_clause enumeration_demo) = false.
Proof.
  apply (proj2 (block_model_blocks_model enumeration_demo (fun _ => true)
                  enumeration_demo_total)).
  intros v Hv. assert (v = 0%nat) as -> by (vm_compute in Hv; lia).
  vm_compute. reflexivity.
Defined.

(** The solver of [enumeration_demo] with the edge table of the graph on
    two vertices: the one edge, between 0 and 1, is variable 1. *)
Definition graph_demo : Solver :=
  set_sms_config (mkSolverConfig 2 [[0; 1]; [1; 0]] 0 0 0) enumeration_demo.

Lemma graph_demo_graph tv i j :
  (tv, (i, j)) ∈ [(truth_value_true, (0%nat, 1%nat))] ->
  (i < j < Z.to_nat (vertices (sms_config graph_demo)))%nat
  /\ 0 < edge_at graph_demo i j /\ tv <> truth_value_unknown
  /\ vget truth_value_unknown (vget [] (getAdjMatrix graph_demo) i) j = tv.
Proof.
  intros Hin. apply list_elem_of_singleton in Hin. injection Hin as -> -> ->.
  split; [vm_compute; lia|]. split; [vm_compute; reflexivity|].
  split; [discriminate|]. vm_compute. reflexivity.
Qed.

Lemma blockingClause_falsified_witness :
  value graph_demo (mkLit 0%nat true) = l_False.
Proof.
  apply (proj1 (blockingClause_falsified graph_demo
                  [(truth_value_true, (0%nat, 1%nat))] graph_demo_graph)).
  vm_compute. left.
Defined.

Example conflict_demo_trail :
  trail conflict_demo = [mkLit 0%nat false; mkLit 1%nat false; mkLit 2%nat false].
Proof. vm_compute. reflexivity. Qed.

Lemma conflict_demo_wf : trail_wf conflict_demo.
Proof.
  constructor.
  - vm_compute. rewrite !NoDup_cons, !not_elem_of_cons.
    repeat split; try lia; try apply not_elem_of_nil. apply NoDup_nil_2.
  - vm_compute. repeat constructor.
  - vm_compute. repeat constructor.
  - intros k q Hk. destruct k as [|[|[|k]]]; vm_compute in Hk; [| | |discriminate Hk];
      injection Hk as <-; vm_compute; reflexivity.
  - intros k p cr Hk Hr. destruct k as [|[|[|k]]]; vm_compute in Hk; [| | |discriminate Hk].
    all: injection Hk as <-.
    all: vm_compute in Hr.
    1,2: discriminate Hr.
    injection Hr as <-. split; [vm_compute; lia|].
    intros q Hq. vm_compute in Hq. rewrite conflict_demo_trail.
    apply elem_of_cons in Hq as [->|Hq];
      [|apply list_elem_of_singleton in Hq as ->].
    + exists 1%nat. split; [lia|reflexivity].
    + exists 0%nat. split; [lia|reflexivity].
  - intros k p Hk Hr. destruct k as [|[|[|k]]]; vm_compute in Hk; [| | |discriminate Hk];
      injection Hk as <-; vm_compute in Hr; [| |discriminate Hr]; right; vm_compute.
    + left.
    + right; left.
  - intros x. destruct x as [|[|[|x]]]; vm_compute; reflexivity.
  - intros q Hq. rewrite conflict_demo_trail in Hq.
    rewrite !elem_of_cons, elem_of_nil in Hq.
    destruct Hq as [->|[->|[->|[]]]]; vm_compute; lia.
  - intros [x sg] Hq. rewrite conflict_demo_trail.
    destruct x as [|[|[|x]]], sg; vm_compute in Hq; try discriminate Hq;
      cbn [neg var sign negb]; rewrite !elem_of_cons; auto.
Qed.

Lemma conflict_demo_clause_false q :
  q ∈ lits (clause_at conflict_demo 1) -> value conflict_demo q = l_False.
Proof.
  intros Hq. vm_compute in Hq.
  apply elem_of_cons in Hq as [->|Hq];
    [|apply elem_of_cons in Hq as [->|Hq]; [|apply list_elem_of_singleton in Hq as ->]];
    vm_compute; reflexivity.
Qed.

Lemma analyze_returns_on_consistent_trail_witness :
  exists fuel0 out_learnt out_btlevel s',
    forall fuel, (fuel0 <= fuel)%nat ->
                 analyze fuel 1 conflict_demo = Some (out_learnt, out_btlevel, s').
Proof.
  apply (analyze_returns_on_consistent_trail conflict_demo 1%nat conflict_demo_wf).
  - vm_compute. lia.
  - exact conflict_demo_clause_false.
  - exists (mkLit 2%nat true). split; [vm_compute; repeat constructor|].
    vm_compute. discriminate.
Defined.
